(** * A BSP-tree CSG engine (src/utils/CSG.js), embedded and verified

    JavaScript numbers are IEEE-754 binary64 values; they are embedded as
    Rocq's primitive [float]s, whose [+ - * /], [sqrt] and comparisons are
    the same correctly rounded operations.  A property read on [undefined]
    raises [TypeError]; a number read from a missing array slot is
    [undefined], which arithmetic and a typed-array store turn into NaN,
    so such reads are embedded as [nan].  The two part in [Vector.clone]:
    the default parameters of the constructor make 0 of an [undefined]
    coordinate.  What is proved of the numbers of a mesh is therefore
    proved of slots that are there; where a coordinate of a missing slot is
    shown, [nan] stands for [undefined].

    The file has two embeddings of the engine.  The first one gives every
    object its value: a method that mutates [this] becomes a function that
    returns the new value of [this].  It carries the claims about what the
    operators compute.  The second one ([Module Store]) keeps the objects
    in a heap with references and in-place updates, and carries what is
    proved of the objects themselves: that the operators leave their
    operands alone, and what the methods that work in place do. *)

From Stdlib Require Import ZArith List Floats Lia Bool Permutation.
From stdpp Require Import base option list.
Import ListNotations.

Local Open Scope float_scope.

(** ** Outcomes of a JavaScript call *)

Inductive exn := TypeError | RangeError.

(** [OutOfFuel] is not a JavaScript outcome: it marks a recursion that the
    embedding cut short. *)
Inductive result (A : Type) : Type :=
| Ok (a : A)
| Throw (e : exn)
| OutOfFuel.
Arguments Ok {A} a.
Arguments Throw {A} e.
Arguments OutOfFuel {A}.

#[global] Instance result_ret : MRet result := fun _ a => Ok a.
#[global] Instance result_bind : MBind result := fun _ _ f m =>
  match m with
  | Ok a => f a
  | Throw e => Throw e
  | OutOfFuel => OutOfFuel
  end.
#[global] Instance result_fmap : FMap result := fun _ _ f m =>
  match m with
  | Ok a => Ok (f a)
  | Throw e => Throw e
  | OutOfFuel => OutOfFuel
  end.

(** Runs the monad's plumbing, and nothing else, in the goal. *)
Ltac rsimpl :=
  cbn [mbind mret fmap result_bind result_ret result_fmap].
Tactic Notation "rsimpl" "in" hyp(H) :=
  cbn [mbind mret fmap result_bind result_ret result_fmap] in H.

(** [obj.field] where [obj] may be [undefined]. *)
Definition prop_of {A} (o : option A) : result A :=
  match o with
  | Some a => Ok a
  | None => Throw TypeError
  end.

(** [for (x of xs) acc = body(acc, x)], stopping at the first exception. *)
Fixpoint foldM {A B} (body : B -> A -> result B) (xs : list A) (acc : B) : result B :=
  match xs with
  | [] => Ok acc
  | x :: xs' => acc' ← body acc x; foldM body xs' acc'
  end.

(** [xs.map(f)] for an [f] that may throw. *)
Fixpoint mapR {A B} (f : A -> result B) (xs : list A) : result (list B) :=
  match xs with
  | [] => Ok []
  | x :: xs' => y ← f x; ys ← mapR f xs'; Ok (y :: ys)
  end.

(** ** Vector *)

Module Vector.
Record t := mk { x : float; y : float; z : float }.

(** [new Vector()] *)
Definition zero : t := mk 0 0 0.

Definition copy (_this v : t) : t := mk (x v) (y v) (z v).

Definition clone (this : t) : t := mk (x this) (y this) (z this).

Definition negate (this : t) : t :=
  mk (x this * (-1)) (y this * (-1)) (z this * (-1)).

Definition add (this a : t) : t :=
  mk (x this + x a) (y this + y a) (z this + z a).

Definition sub (this a : t) : t :=
  mk (x this - x a) (y this - y a) (z this - z a).

Definition times (this : t) (a : float) : t :=
  mk (x this * a) (y this * a) (z this * a).

Definition dividedBy (this : t) (a : float) : t :=
  mk (x this / a) (y this / a) (z this / a).

(** [this.add(Vector.tv0.copy(a).sub(this).times(t))] *)
Definition lerp (this a : t) (t' : float) : t :=
  add this (times (sub (copy zero a) this) t').

(** [x ** 2] is taken as the correctly rounded [x * x]. *)
Definition length (this : t) : float :=
  PrimFloat.sqrt (x this * x this + y this * y this + z this * z this).

Definition unit (this : t) : t := dividedBy this (length this).

Definition normalize (this : t) : t := unit this.

Definition cross (this b : t) : t :=
  let ax := x this in let ay := y this in let az := z this in
  let bx := x b in let by' := y b in let bz := z b in
  mk (ay * bz - az * by') (az * bx - ax * bz) (ax * by' - ay * bx).

Definition dot (this b : t) : float :=
  x this * x b + y this * y b + z this * z b.
End Vector.

(** ** Vertex *)

Module Vertex.
Record t := mk {
  pos : Vector.t;
  normal : Vector.t;
  uv : option Vector.t;
  color : option Vector.t
}.

(** [new Vertex(pos, normal, uv, color)]: every vector is copied, and a
    uv gets [z = 0]. *)
Definition new (pos normal : Vector.t) (uv color : option Vector.t) : t :=
  mk (Vector.copy Vector.zero pos)
     (Vector.copy Vector.zero normal)
     (u ← uv; Some (let c := Vector.copy Vector.zero u in
                    Vector.mk (Vector.x c) (Vector.y c) 0))
     (c ← color; Some (Vector.copy Vector.zero c)).

Definition clone (this : t) : t :=
  new (pos this) (normal this) (uv this) (color this).

Definition flip (this : t) : t :=
  mk (pos this) (Vector.negate (normal this)) (uv this) (color this).

Definition interpolate (this other : t) (t' : float) : t :=
  new (Vector.lerp (Vector.clone (pos this)) (pos other) t')
      (Vector.lerp (Vector.clone (normal this)) (normal other) t')
      (a ← uv this; b ← uv other; Some (Vector.lerp (Vector.clone a) b t'))
      (a ← color this; b ← color other; Some (Vector.lerp (Vector.clone a) b t')).
End Vertex.

(** ** Plane and Polygon *)

Module Plane.
Record t := mk { normal : Vector.t; w : float }.

(** [1e-5], that is the binary64 value nearest to it. *)
Definition EPSILON : float := 0x1.4f8b588e368f1p-17.

Definition clone (this : t) : t := mk (Vector.clone (normal this)) (w this).

Definition flip (this : t) : t := mk (Vector.negate (normal this)) (- w this).

(** [Vector.tv0] and [Vector.tv1] are scratch objects; here they are the
    values of the two differences. *)
Definition fromPoints (a b c : Vector.t) : t :=
  let tv0 := Vector.sub (Vector.copy Vector.zero b) a in
  let tv1 := Vector.sub (Vector.copy Vector.zero c) a in
  let n := Vector.normalize (Vector.cross tv0 tv1) in
  mk (Vector.clone n) (Vector.dot n a).
End Plane.

Module Polygon.
Record t := mk {
  vertices : list Vertex.t;
  shared : option N;
  plane : Plane.t
}.

(** [new Polygon(vertices, shared)] reads [vertices[0..2].pos]; with fewer
    than three vertices that is a property read on [undefined]. *)
Definition new (vertices : list Vertex.t) (shared : option N) : result t :=
  v0 ← prop_of (vertices !! 0%nat);
  v1 ← prop_of (vertices !! 1%nat);
  v2 ← prop_of (vertices !! 2%nat);
  Ok (mk vertices shared
         (Plane.fromPoints (Vertex.pos v0) (Vertex.pos v1) (Vertex.pos v2))).

Definition clone (this : t) : result t :=
  new (map Vertex.clone (vertices this)) (shared this).

Definition flip (this : t) : t :=
  mk (map Vertex.flip (rev (vertices this))) (shared this)
     (Plane.flip (plane this)).
End Polygon.

(** *** Plane.splitPolygon *)

Definition COPLANAR : Z := 0.
Definition FRONT : Z := 1.
Definition BACK : Z := 2.
Definition SPANNING : Z := 3.

(** The four arrays that [splitPolygon] pushes to.  Its callers pass the
    same array for two of them, so the embedding returns the pushes in the
    order they are made and each caller routes them to its own arrays. *)
Inductive target := CoplanarFront | CoplanarBack | Front | Back.

Definition signed_distance (this : Plane.t) (p : Vector.t) : float :=
  Vector.dot (Plane.normal this) p - Plane.w this.

Definition vertex_type (t' : float) : Z :=
  if t' <? - Plane.EPSILON then BACK
  else if Plane.EPSILON <? t' then FRONT
  else COPLANAR.

Definition type_of (this : Plane.t) (v : Vertex.t) : Z :=
  vertex_type (signed_distance this (Vertex.pos v)).

(** The first loop: [polygonType |= type; types.push(type)]. *)
Definition classify_step (this : Plane.t) (acc : Z * list Z) (v : Vertex.t) : Z * list Z :=
  let type := type_of this v in
  (Z.lor (fst acc) type, snd acc ++ [type]).

Definition classify (this : Plane.t) (vs : list Vertex.t) : Z * list Z :=
  fold_left (classify_step this) vs (0%Z, []).

(** One turn of the edge walk of the SPANNING case.  [types[i]] past the
    end would be [undefined], which [!=] and [|] treat like [0]. *)
Definition walk_step (this : Plane.t) (vs : list Vertex.t) (types : list Z)
    (acc : list Vertex.t * list Vertex.t) (i : nat)
  : result (list Vertex.t * list Vertex.t) :=
  let j := ((i + 1) mod length vs)%nat in
  let ti := default 0%Z (types !! i) in
  let tj := default 0%Z (types !! j) in
  vi ← prop_of (vs !! i);
  vj ← prop_of (vs !! j);
  let f := if (ti =? BACK)%Z then fst acc else fst acc ++ [vi] in
  let b := if (ti =? FRONT)%Z then snd acc
           else snd acc ++ [if (ti =? BACK)%Z then vi else Vertex.clone vi] in
  if (Z.lor ti tj =? SPANNING)%Z then
    let t' := (Plane.w this - Vector.dot (Plane.normal this) (Vertex.pos vi))
              / Vector.dot (Plane.normal this)
                  (Vector.sub (Vector.copy Vector.zero (Vertex.pos vj)) (Vertex.pos vi)) in
    let v := Vertex.interpolate vi vj t' in
    Ok (f ++ [v], b ++ [Vertex.clone v])
  else Ok (f, b).

Definition walk (this : Plane.t) (vs : list Vertex.t) (types : list Z)
  : result (list Vertex.t * list Vertex.t) :=
  foldM (walk_step this vs types) (seq 0 (length vs)) ([], []).

Definition Plane_splitPolygon (this : Plane.t) (polygon : Polygon.t)
  : result (list (target * Polygon.t)) :=
  let '(polygonType, types) := classify this (Polygon.vertices polygon) in
  if (polygonType =? COPLANAR)%Z then
    Ok [(if 0 <? Vector.dot (Plane.normal this) (Plane.normal (Polygon.plane polygon))
         then CoplanarFront else CoplanarBack, polygon)]
  else if (polygonType =? FRONT)%Z then Ok [(Front, polygon)]
  else if (polygonType =? BACK)%Z then Ok [(Back, polygon)]
  else if (polygonType =? SPANNING)%Z then
    '(f, b) ← walk this (Polygon.vertices polygon) types;
    front ← (if (3 <=? length f)%nat
             then p ← Polygon.new f (Polygon.shared polygon); Ok [(Front, p)]
             else Ok []);
    back ← (if (3 <=? length b)%nat
            then p ← Polygon.new b (Polygon.shared polygon); Ok [(Back, p)]
            else Ok []);
    Ok (front ++ back)
  else Ok [].

(** ** Node: the BSP tree *)

Module Node.
#[warnings="-register-all"]
Inductive t := mk {
  plane : option Plane.t;
  front : option t;
  back : option t;
  polygons : list Polygon.t
}.

(** [new Node()] *)
Definition empty : t := mk None None None [].

Definition targets (keep : target -> bool) (evs : list (target * Polygon.t))
  : list Polygon.t :=
  map snd (filter (fun ev => keep (fst ev)) evs).

Definition to_front (tg : target) : bool :=
  match tg with CoplanarFront | Front => true | _ => false end.
Definition to_back (tg : target) : bool :=
  match tg with CoplanarBack | Back => true | _ => false end.
Definition to_coplanar (tg : target) : bool :=
  match tg with CoplanarFront | CoplanarBack => true | _ => false end.
Definition is_front (tg : target) : bool :=
  match tg with Front => true | _ => false end.
Definition is_back (tg : target) : bool :=
  match tg with Back => true | _ => false end.

(** [invert] flips the polygons and the plane in place.  Here every
    polygon, vertex and plane of a tree has a value of its own, as when no
    object is held twice.  The operators arrange that: they build their
    trees of clones, and [splitPolygon] clones a vertex that goes to both
    pieces.  [Store.Node_invert] is the method on objects that may be
    shared. *)
Fixpoint invert (this : t) : t :=
  mk (Plane.flip <$> plane this)
     (invert <$> back this)
     (invert <$> front this)
     (map Polygon.flip (polygons this)).

(** The loop of [clipPolygons]:
    [this.plane.splitPolygon(polygons[i], front, back, front, back)]. *)
Definition clip_step (pl : Plane.t) (acc : list Polygon.t * list Polygon.t)
    (p : Polygon.t) : result (list Polygon.t * list Polygon.t) :=
  evs ← Plane_splitPolygon pl p;
  Ok (fst acc ++ targets to_front evs, snd acc ++ targets to_back evs).

Fixpoint clipPolygons (this : t) (polygons : list Polygon.t)
  : result (list Polygon.t) :=
  match plane this with
  | None => Ok polygons
  | Some pl =>
    '(front', back') ← foldM (clip_step pl) polygons ([], []);
    front'' ← match front this with
              | Some n => clipPolygons n front'
              | None => Ok front'
              end;
    back'' ← match back this with
             | Some n => clipPolygons n back'
             | None => Ok []
             end;
    Ok (front'' ++ back'')
  end.

Fixpoint clipTo (this bsp : t) : result t :=
  polygons' ← clipPolygons bsp (polygons this);
  front' ← match front this with
           | Some n => Some <$> clipTo n bsp
           | None => Ok None
           end;
  back' ← match back this with
          | Some n => Some <$> clipTo n bsp
          | None => Ok None
          end;
  Ok (mk (plane this) front' back' polygons').

Fixpoint allPolygons (this : t) : list Polygon.t :=
  polygons this
    ++ match front this with Some n => allPolygons n | None => [] end
    ++ match back this with Some n => allPolygons n | None => [] end.

(** The loop of [build]:
    [this.plane.splitPolygon(polygons[i], this.polygons, this.polygons, front, back)]. *)
Definition build_step (pl : Plane.t)
    (acc : list Polygon.t * list Polygon.t * list Polygon.t) (p : Polygon.t)
  : result (list Polygon.t * list Polygon.t * list Polygon.t) :=
  let '(own, front', back') := acc in
  evs ← Plane_splitPolygon pl p;
  Ok (own ++ targets to_coplanar evs,
      front' ++ targets is_front evs,
      back' ++ targets is_back evs).

(** [build] recurses on the lists it has just made, which need not get
    shorter; [fuel] bounds the depth of the recursion. *)
Fixpoint build (fuel : nat) (this : t) (polygons' : list Polygon.t) : result t :=
  match fuel with
  | O => OutOfFuel
  | S fuel' =>
    match polygons' with
    | [] => Ok this
    | p0 :: _ =>
      let pl := match plane this with
                | Some pl => pl
                | None => Plane.clone (Polygon.plane p0)
                end in
      '(own, front', back') ←
        foldM (build_step pl) polygons' (polygons this, [], []);
      front'' ← match front' with
                | [] => Ok (front this)
                | _ => Some <$> build fuel' (default empty (front this)) front'
                end;
      back'' ← match back' with
               | [] => Ok (back this)
               | _ => Some <$> build fuel' (default empty (back this)) back'
               end;
      Ok (mk (Some pl) front'' back'' own)
    end
  end.

(** [new Node(polygons)] *)
Definition new (fuel : nat) (polygons' : list Polygon.t) : result t :=
  build fuel empty polygons'.
End Node.

(** ** The renderer's buffers *)

(** The value a [Float32Array] keeps when [x] is stored in it: [x] rounded
    to binary32 (to nearest, ties to even; too large a value becomes an
    infinity). *)
Definition fround (x : float) : float :=
  match Prim2SF x with
  | S754_finite s m e => SF2Prim (binary_round 24 128 s m e)
  | _ => x
  end.

Module BufferAttribute.
Record t := mk { array : list float; itemSize : nat }.
End BufferAttribute.

Module BufferGeometry.
Record t := mk {
  index : option (list nat);
  position : option BufferAttribute.t;
  normal : option BufferAttribute.t;
  uv : option BufferAttribute.t;
  color : option BufferAttribute.t;
  groups : list (nat * nat * nat)
}.
End BufferGeometry.

(** [a[i]] for a number array and an index that may be [undefined] (then
    [i * 3] is NaN and the read is [undefined]).  A read that finds no slot
    is [undefined] in JavaScript and [nan] here. *)
Definition read (a : list float) (i : option nat) : float :=
  default nan (i ≫= fun k => a !! k).

(** [a[i] = v] on an ordinary array: a write past the end extends it. *)
Definition array_set {A} (a : list (option A)) (i : nat) (v : A) : list (option A) :=
  if (i <? length a)%nat then <[i := Some v]> a
  else a ++ replicate (i - length a) None ++ [Some v].

(** [CSG.nbuf3] and [CSG.nbuf2]: a [Float32Array] and a write position. *)
Module nbuf.
Record t := mk { top : nat; array : list float }.

(** [new Float32Array(ct)] *)
Definition new (ct : Z) : result t :=
  if (ct <? 0)%Z then Throw RangeError
  else Ok (mk 0 (replicate (Z.to_nat ct) 0)).

(** [this.array[this.top++] = x]; a typed array ignores a write past its
    end. *)
Definition put (this : t) (x : float) : t :=
  mk (top this + 1) (<[top this := fround x]> (array this)).

Definition write3 (this : t) (v : option Vector.t) : result t :=
  v ← prop_of v;
  Ok (put (put (put this (Vector.x v)) (Vector.y v)) (Vector.z v)).

Definition write2 (this : t) (v : option Vector.t) : result t :=
  v ← prop_of v;
  Ok (put (put this (Vector.x v)) (Vector.y v)).
End nbuf.

(** A key that is an array index: an integer below [2^32 - 1]. *)
Definition array_index (k : N) : bool := (k <? 4294967295)%N.

(** [grps]: an object whose keys are the [shared] tags.  [Object.keys]
    lists the keys that are array indices first, in ascending order, and
    the other keys after them, in the order in which they were added; the
    list is kept in that order.  [if (!grps[k]) grps[k] = []] leaves a key
    that is there alone; a new array index goes before the first key that
    is greater (every key that is no array index is), any other new key
    goes to the end. *)
Fixpoint grps_ensure (k : N) (g : list (N * list nat)) : list (N * list nat) :=
  match g with
  | [] => [(k, [])]
  | (k', l) :: g' =>
    if (k =? k')%N then g
    else if array_index k && (k <? k')%N then (k, []) :: g
    else (k', l) :: grps_ensure k g'
  end.

Fixpoint grps_push (k : N) (vals : list nat) (g : list (N * list nat))
  : result (list (N * list nat)) :=
  match g with
  | [] => Throw TypeError
  | (k', l) :: g' =>
    if (k =? k')%N then Ok ((k', l ++ vals) :: g')
    else g'' ← grps_push k vals g'; Ok ((k', l) :: g'')
  end.

(** ** CSG *)

Module CSG.
Record t := mk { polygons : list Polygon.t }.

(** [new CSG()] *)
Definition empty : t := mk [].

Definition clone (this : t) : result t :=
  ps ← mapR Polygon.clone (polygons this); Ok (mk ps).

Definition toPolygons (this : t) : list Polygon.t := polygons this.

Definition fromPolygons (polygons : list Polygon.t) : t := mk polygons.

Definition union (fuel : nat) (this csg : t) : result t :=
  this' ← clone this;
  a ← Node.new fuel (polygons this');
  csg' ← clone csg;
  b ← Node.new fuel (polygons csg');
  a ← Node.clipTo a b;
  b ← Node.clipTo b a;
  let b := Node.invert b in
  b ← Node.clipTo b a;
  let b := Node.invert b in
  a ← Node.build fuel a (Node.allPolygons b);
  Ok (fromPolygons (Node.allPolygons a)).

Definition subtract (fuel : nat) (this csg : t) : result t :=
  this' ← clone this;
  a ← Node.new fuel (polygons this');
  csg' ← clone csg;
  b ← Node.new fuel (polygons csg');
  let a := Node.invert a in
  a ← Node.clipTo a b;
  b ← Node.clipTo b a;
  let b := Node.invert b in
  b ← Node.clipTo b a;
  let b := Node.invert b in
  a ← Node.build fuel a (Node.allPolygons b);
  let a := Node.invert a in
  Ok (fromPolygons (Node.allPolygons a)).

Definition intersect (fuel : nat) (this csg : t) : result t :=
  this' ← clone this;
  a ← Node.new fuel (polygons this');
  csg' ← clone csg;
  b ← Node.new fuel (polygons csg');
  let a := Node.invert a in
  b ← Node.clipTo b a;
  let b := Node.invert b in
  a ← Node.clipTo a b;
  b ← Node.clipTo b a;
  a ← Node.build fuel a (Node.allPolygons b);
  let a := Node.invert a in
  Ok (fromPolygons (Node.allPolygons a)).

Definition inverse (this : t) : result t :=
  csg ← clone this;
  Ok (mk (map Polygon.flip (polygons csg))).

(** *** fromGeometry *)

(** The index array: [geom.index.array], or [0, 1, ..., n-1] with
    [n = (posattr.array.length / posattr.itemSize) | 0]. *)
Definition geometry_index (geom : BufferGeometry.t) : result (list nat) :=
  match BufferGeometry.index geom with
  | Some a => Ok a
  | None =>
    posattr ← prop_of (BufferGeometry.position geom);
    Ok (seq 0 (length (BufferAttribute.array posattr)
               / BufferAttribute.itemSize posattr))
  end.

(** The body of the [j] loop, for [vi = index[i + j]]. *)
Definition vertex_of (geom : BufferGeometry.t) (vi : option nat) : result Vertex.t :=
  let vp := Nat.mul 3 <$> vi in
  let vt := Nat.mul 2 <$> vi in
  posattr ← prop_of (BufferGeometry.position geom);
  let pa := BufferAttribute.array posattr in
  let x := read pa vp in
  let y := read pa (Nat.add 1 <$> vp) in
  let z := read pa (Nat.add 2 <$> vp) in
  normalattr ← prop_of (BufferGeometry.normal geom);
  let na := BufferAttribute.array normalattr in
  let nx := read na vp in
  let ny := read na (Nat.add 1 <$> vp) in
  let nz := read na (Nat.add 2 <$> vp) in
  Ok (Vertex.new (Vector.mk x y z) (Vector.mk nx ny nz)
        (uvattr ← BufferGeometry.uv geom;
         let ua := BufferAttribute.array uvattr in
         Some (Vector.mk (read ua vt) (read ua (Nat.add 1 <$> vt)) 0))
        (colorattr ← BufferGeometry.color geom;
         let ca := BufferAttribute.array colorattr in
         Some (Vector.mk (read ca vt) (read ca (Nat.add 1 <$> vt))
                 (read ca (Nat.add 2 <$> vt))))).

(** [for (let i = 0, pli = 0, l = index.length; i < l; i += 3, pli++)];
    [fuel] counts the turns that are left. *)
Fixpoint triangles (fuel : nat) (geom : BufferGeometry.t) (objectIndex : option N)
    (index : list nat) (i pli : nat) (polys : list (option Polygon.t))
  : result (list (option Polygon.t)) :=
  if (i <? length index)%nat then
    match fuel with
    | O => OutOfFuel
    | S fuel' =>
      v0 ← vertex_of geom (index !! i);
      v1 ← vertex_of geom (index !! (i + 1)%nat);
      v2 ← vertex_of geom (index !! (i + 2)%nat);
      p ← Polygon.new [v0; v1; v2] objectIndex;
      triangles fuel' geom objectIndex index (i + 3) (pli + 1)
        (array_set polys pli p)
    end
  else Ok polys.

(** [polys] starts as [new Array(triCount)], all holes.  A hole left in it
    would be an [undefined] polygon; none is left (see
    [fromGeometry_fills]), so the polygons are read out of the slots. *)
Definition fromGeometry (geom : BufferGeometry.t) (objectIndex : option N)
  : result t :=
  index ← geometry_index geom;
  let triCount := (length index / 3)%nat in
  polys ← triangles (length index) geom objectIndex index 0 0
            (replicate triCount None);
  polys ← mapR prop_of polys;
  Ok (fromPolygons polys).
(** *** toGeometry *)

(** The locals that the loops of [toGeometry] update. *)
Record out := mkOut {
  overtices : nbuf.t;
  onormals : nbuf.t;
  ouvs : option nbuf.t;
  ocolors : option nbuf.t;
  ogrps : list (N * list nat)
}.

(** [ps.forEach((p) => (triCount += p.vertices.length - 2))] *)
Definition triCount (ps : list Polygon.t) : Z :=
  fold_left (fun n p => (n + (Z.of_nat (length (Polygon.vertices p)) - 2))%Z) ps 0%Z.

(** One turn of [for (let j = 3; j <= pvlen; j++)]. *)
Definition fan_step (p : Polygon.t) (o : out) (j : nat) : result out :=
  let pvs := Polygon.vertices p in
  grps ← match Polygon.shared p with
         | Some k =>
           let i := (nbuf.top (overtices o) / 3)%nat in
           grps_push k [i; (i + 1)%nat; (i + 2)%nat] (ogrps o)
         | None => Ok (ogrps o)
         end;
  v0 ← prop_of (pvs !! 0%nat);
  va ← prop_of (pvs !! (j - 2)%nat);
  vb ← prop_of (pvs !! (j - 1)%nat);
  vertices ← nbuf.write3 (overtices o) (Some (Vertex.pos v0));
  vertices ← nbuf.write3 vertices (Some (Vertex.pos va));
  vertices ← nbuf.write3 vertices (Some (Vertex.pos vb));
  normals ← nbuf.write3 (onormals o) (Some (Vertex.normal v0));
  normals ← nbuf.write3 normals (Some (Vertex.normal va));
  normals ← nbuf.write3 normals (Some (Vertex.normal vb));
  uvs ← match ouvs o, Vertex.uv v0 with
        | Some uvs, Some _ =>
          uvs ← nbuf.write2 uvs (Vertex.uv v0);
          uvs ← nbuf.write2 uvs (Vertex.uv va);
          uvs ← nbuf.write2 uvs (Vertex.uv vb);
          Ok (Some uvs)
        | uvs, _ => Ok uvs
        end;
  colors ← match ocolors o with
           | Some colors =>
             colors ← nbuf.write3 colors (Vertex.color v0);
             colors ← nbuf.write3 colors (Vertex.color va);
             colors ← nbuf.write3 colors (Vertex.color vb);
             Ok (Some colors)
           | None => Ok None
           end;
  Ok (mkOut vertices normals uvs colors grps).

(** The body of the second [ps.forEach]. *)
Definition polygon_step (tc : Z) (o : out) (p : Polygon.t) : result out :=
  let pvs := Polygon.vertices p in
  let pvlen := length pvs in
  let grps := match Polygon.shared p with
              | Some k => grps_ensure k (ogrps o)
              | None => ogrps o
              end in
  colors ← match pvs !! 0%nat, ocolors o with
           | Some v0, None =>
             match Vertex.color v0 with
             | Some _ => Some <$> nbuf.new (tc * 3 * 3)
             | None => Ok None
             end
           | _, colors => Ok colors
           end;
  uvs ← match pvs !! 0%nat, ouvs o with
        | Some v0, None =>
          match Vertex.uv v0 with
          | Some _ => Some <$> nbuf.new (tc * 2 * 3)
          | None => Ok None
          end
        | _, uvs => Ok uvs
        end;
  foldM (fan_step p) (seq 3 (pvlen - 2))
    (mkOut (overtices o) (onormals o) uvs colors grps).

(** The last loop: one group per tag, and the index made of the groups'
    vertex numbers one after the other. *)
Definition group_step (acc : list (nat * nat * nat) * nat * list nat * nat)
    (g : N * list nat) : list (nat * nat * nat) * nat * list nat * nat :=
  let '(groups, gbase, index, gi) := acc in
  (groups ++ [(gbase, length (snd g), gi)], (gbase + length (snd g))%nat,
   index ++ snd g, (gi + 1)%nat).

Definition toGeometry (csg : t) : result BufferGeometry.t :=
  let ps := polygons csg in
  let tc := triCount ps in
  vertices ← nbuf.new (tc * 3 * 3);
  normals ← nbuf.new (tc * 3 * 3);
  o ← foldM (polygon_step tc) ps (mkOut vertices normals None None []);
  let attr n (b : nbuf.t) := BufferAttribute.mk (nbuf.array b) n in
  let '(groups, _, index, _) := fold_left group_step (ogrps o) ([], 0%nat, [], 0%nat) in
  Ok (BufferGeometry.mk
        (match ogrps o with [] => None | _ => Some index end)
        (Some (attr 3%nat (overtices o)))
        (Some (attr 3%nat (onormals o)))
        (attr 2%nat <$> ouvs o)
        (attr 3%nat <$> ocolors o)
        groups).
End CSG.

(** ** Sample solids *)

(** A vertex at [(x, y, z)] with normal [(0, 0, 1)] and no uv or color. *)
Definition vertex_at (x y z : float) : Vertex.t :=
  Vertex.new (Vector.mk x y z) (Vector.mk 0 0 1) None None.

(** The triangle that [new Polygon([a, b, c], shared)] makes. *)
Definition triangle (a b c : Vertex.t) (shared : option N) : Polygon.t :=
  Polygon.mk [a; b; c] shared
    (Plane.fromPoints (Vertex.pos a) (Vertex.pos b) (Vertex.pos c)).

(** The plane [z = 0], facing up. *)
Definition plane_z0 : Plane.t := Plane.mk (Vector.mk 0 0 1) 0.

(** A triangle in the plane [z = 0]. *)
Definition flat_triangle : Polygon.t :=
  triangle (vertex_at 0 0 0) (vertex_at 1 0 0) (vertex_at 0 1 0) None.

(** A triangle with one corner below and two above the plane [z = 0]. *)
Definition crossing_triangle : Polygon.t :=
  triangle (vertex_at 0 0 (-1)) (vertex_at 1 0 1) (vertex_at 0 1 1) None.

(** Three points on one line, and the plane fitted to them. *)
Definition colinear_triangle : list Vertex.t :=
  [vertex_at 0 0 0; vertex_at 1 1 1; vertex_at 2 2 2].

Definition colinear_plane : Plane.t :=
  Plane.fromPoints (Vector.mk 0 0 0) (Vector.mk 1 1 1) (Vector.mk 2 2 2).

(** ** The operators as the specification words them *)

(** What [splitPolygon] pushes for one polygon. *)
Definition split_events (pl : Plane.t) (p : Polygon.t) : list (target * Polygon.t) :=
  match Plane_splitPolygon pl p with
  | Ok evs => evs
  | _ => []
  end.

(** The local front list of [clipPolygons]: polygon by polygon, what is
    pushed to [front] or [coplanarFront]; the local back list likewise. *)
Definition local_front (pl : Plane.t) (polygons : list Polygon.t) : list Polygon.t :=
  flat_map (fun p => Node.targets Node.to_front (split_events pl p)) polygons.

Definition local_back (pl : Plane.t) (polygons : list Polygon.t) : list Polygon.t :=
  flat_map (fun p => Node.targets Node.to_back (split_events pl p)) polygons.

(** The steps a boolean operator is made of, on the two trees [a] and [b]. *)
Inductive step := InvertA | InvertB | ClipAToB | ClipBToA | BuildAWithB.

Definition run_step (fuel : nat) (ab : Node.t * Node.t) (s : step)
  : result (Node.t * Node.t) :=
  let '(a, b) := ab in
  match s with
  | InvertA => Ok (Node.invert a, b)
  | InvertB => Ok (a, Node.invert b)
  | ClipAToB => a' ← Node.clipTo a b; Ok (a', b)
  | ClipBToA => b' ← Node.clipTo b a; Ok (a, b')
  | BuildAWithB => a' ← Node.build fuel a (Node.allPolygons b); Ok (a', b)
  end.

(** Clone both operands, build a tree from each, run the steps in order,
    and wrap the flattened [a]. *)
Definition operator_of_steps (steps : list step) (fuel : nat) (A B : CSG.t)
  : result CSG.t :=
  A' ← CSG.clone A;
  a ← Node.new fuel (CSG.polygons A');
  B' ← CSG.clone B;
  b ← Node.new fuel (CSG.polygons B');
  ab ← foldM (run_step fuel) steps (a, b);
  Ok (CSG.fromPolygons (Node.allPolygons (fst ab))).

(** "invert A, clip A to B, clip B to A, invert B, clip B to A, un-invert
    B, build A with B's remaining polygons, invert A back" *)
Definition subtract_steps : list step :=
  [InvertA; ClipAToB; ClipBToA; InvertB; ClipBToA; InvertB; BuildAWithB; InvertA].

(** A property of every child that a node has. *)
Definition child_all (P : Node.t -> Prop) (o : option Node.t) : Prop :=
  match o with
  | Some n => P n
  | None => True
  end.

(** A node with the plane [z = 0], no children, and one polygon. *)
Definition node_z0 : Node.t := Node.mk (Some plane_z0) None None [flat_triangle].

(** A solid of one triangle, and one of two triangles, the second of which
    crosses the plane of the first. *)
Definition one_triangle : CSG.t := CSG.mk [flat_triangle].

Definition two_triangles : CSG.t := CSG.mk [flat_triangle; crossing_triangle].

(** A triangle in the plane [6x - 3y - 8z = -5], whose unit normal has no
    exact binary64 value. *)
Definition tilted_triangle : Polygon.t :=
  triangle (vertex_at 1 1 1) (vertex_at 2 3 1) (vertex_at 5 1 4) None.

Definition tilted_solid : CSG.t := CSG.mk [tilted_triangle].

(** What the [Vertex] constructor does to a uv. *)
Definition uv_of (u : Vector.t) : Vector.t :=
  Vector.mk (Vector.x u) (Vector.y u) 0.

(** ** Meshes *)

(** The triangle that [fromGeometry] makes of the index entries [3k],
    [3k + 1] and [3k + 2]. *)
Definition triangle_at (geom : BufferGeometry.t) (objectIndex : option N)
    (index : list nat) (k : nat) : result Polygon.t :=
  v0 ← CSG.vertex_of geom (index !! (3 * k)%nat);
  v1 ← CSG.vertex_of geom (index !! (3 * k + 1)%nat);
  v2 ← CSG.vertex_of geom (index !! (3 * k + 2)%nat);
  Polygon.new [v0; v1; v2] objectIndex.

(** A mesh without an index: four vertices, all with the normal (0,0,1). *)
Definition four_vertices : BufferGeometry.t :=
  BufferGeometry.mk None
    (Some (BufferAttribute.mk [0; 0; 0;  1; 0; 0;  0; 1; 0;  0; 0; 1] 3))
    (Some (BufferAttribute.mk [0; 0; 1;  0; 0; 1;  0; 0; 1;  0; 0; 1] 3))
    None None [].

(** The same vertices with an index for two triangles. *)
Definition two_faces : BufferGeometry.t :=
  BufferGeometry.mk (Some [0; 1; 2; 0; 2; 3]%nat)
    (Some (BufferAttribute.mk [0; 0; 0;  1; 0; 0;  0; 1; 0;  0; 0; 1] 3))
    (Some (BufferAttribute.mk [0; 0; 1;  0; 0; 1;  0; 0; 1;  0; 0; 1] 3))
    None None [].

(** The triangles of a fan: the first vertex with every two neighbours
    among the others. *)
Fixpoint fan_from (v0 : Vertex.t) (vs : list Vertex.t)
  : list (Vertex.t * Vertex.t * Vertex.t) :=
  match vs with
  | a :: (b :: _) as vs' => (v0, a, b) :: fan_from v0 vs'
  | _ => []
  end.

Definition fan (vs : list Vertex.t) : list (Vertex.t * Vertex.t * Vertex.t) :=
  match vs with
  | v0 :: vs' => fan_from v0 vs'
  | [] => []
  end.

Definition coords (v : Vector.t) : list float :=
  [Vector.x v; Vector.y v; Vector.z v].

(** The nine numbers per triangle that a fan puts in a buffer, for the
    vector [field] of a vertex. *)
Definition fan_values (field : Vertex.t -> Vector.t) (p : Polygon.t) : list float :=
  flat_map (fun t : Vertex.t * Vertex.t * Vertex.t =>
              coords (field t.1.1) ++ coords (field t.1.2) ++ coords (field t.2))
    (fan (Polygon.vertices p)).

(** The positions of the corners of the triangles of a mesh, in the order
    of its index (or of its vertices, without an index), and the number of
    its triangles. *)
Definition corner (pa : list float) (i : nat) : list float :=
  [read pa (Some (3 * i)%nat); read pa (Some (3 * i + 1)%nat);
   read pa (Some (3 * i + 2)%nat)].

Definition corners (g : BufferGeometry.t) : result (list float) :=
  index ← CSG.geometry_index g;
  posattr ← prop_of (BufferGeometry.position g);
  Ok (flat_map (corner (BufferAttribute.array posattr)) index).

Definition triangle_count (g : BufferGeometry.t) : result nat :=
  index ← CSG.geometry_index g; Ok (length index / 3)%nat.

(** A valid mesh: it has positions and normals, whole triangles, every
    index entry names a vertex that is there, and the positions are binary32
    numbers, as those of a [Float32Array] are. *)
Definition valid_mesh (geom : BufferGeometry.t) : bool :=
  match CSG.geometry_index geom,
        BufferGeometry.position geom, BufferGeometry.normal geom with
  | Ok index, Some posattr, Some _ =>
    (length index mod 3 =? 0)%nat
    && forallb (fun i => (3 * i + 2 <? length (BufferAttribute.array posattr))%nat) index
    && forallb (fun x => Leibniz.eqb (fround x) x) (BufferAttribute.array posattr)
  | _, _, _ => false
  end.

(** A buffer that holds [written] and then zeros, [cap] numbers in all. *)
Definition filled (b : nbuf.t) (written : list float) (cap : nat) : Prop :=
  nbuf.top b = length written
  /\ nbuf.array b = written ++ replicate (cap - length written) 0%float
  /\ (length written <= cap)%nat.

(** The number of triangles in the fans of some polygons. *)
Definition fan_count (ps : list Polygon.t) : nat :=
  length (flat_map (fun p => fan (Polygon.vertices p)) ps).

(** The corners that turn [j] of the fan loop of [toGeometry] reads. *)
Definition fan_turn (vs : list Vertex.t) (j : nat)
    (t : Vertex.t * Vertex.t * Vertex.t) : Prop :=
  vs !! 0%nat = Some t.1.1 /\ vs !! (j - 2)%nat = Some t.1.2
  /\ vs !! (j - 1)%nat = Some t.2.

Definition present {A} (o : option A) : bool :=
  match o with
  | Some _ => true
  | None => false
  end.

(** The polygons that [fromGeometry] makes of one mesh: triangles with one
    tag, whose vertices all have a uv or all have none, and the same for
    the color. *)
Definition mesh_vertex (uvs colors : bool) (v : Vertex.t) : Prop :=
  present (Vertex.uv v) = uvs /\ present (Vertex.color v) = colors.

Definition mesh_triangle (tag : option N) (uvs colors : bool) (p : Polygon.t) : Prop :=
  Polygon.shared p = tag
  /\ exists v0 v1 v2,
       Polygon.vertices p = [v0; v1; v2]
       /\ mesh_vertex uvs colors v0 /\ mesh_vertex uvs colors v1
       /\ mesh_vertex uvs colors v2.

(** The locals of [toGeometry] after [k] such triangles. *)
Definition export_state (tag : option N) (uvs colors : bool) (k : nat)
    (o : CSG.out) : Prop :=
  nbuf.top (CSG.overtices o) = (9 * k)%nat
  /\ CSG.ogrps o = match tag, k with
                   | Some key, S _ => [(key, seq 0 (3 * k))]
                   | _, _ => []
                   end
  /\ (present (CSG.ouvs o) = true -> uvs = true)
  /\ (present (CSG.ocolors o) = true -> colors = true).

(** The two numbers of a uv. *)
Definition pair_of (v : Vector.t) : list float := [Vector.x v; Vector.y v].

(** The numbers that the triangles [ts] put in a buffer for a field that
    a vertex may lack, [nums] of them for a vector; nothing, where a
    vertex lacks the field. *)
Definition corner_values (nums : Vector.t -> list float)
    (field : Vertex.t -> option Vector.t) (t : Vertex.t * Vertex.t * Vertex.t)
  : option (list float) :=
  a ← field t.1.1; b ← field t.1.2; c ← field t.2;
  Some (nums a ++ nums b ++ nums c).

Fixpoint corners_values (nums : Vector.t -> list float)
    (field : Vertex.t -> option Vector.t) (ts : list (Vertex.t * Vertex.t * Vertex.t))
  : option (list float) :=
  match ts with
  | [] => Some []
  | t :: ts' =>
    x ← corner_values nums field t; xs ← corners_values nums field ts';
    Some (x ++ xs)
  end.

(** The same for the fans of some polygons, one after the other. *)
Definition fans_values (nums : Vector.t -> list float)
    (field : Vertex.t -> option Vector.t) (ps : list Polygon.t) : option (list float) :=
  corners_values nums field (flat_map (fun p => fan (Polygon.vertices p)) ps).

(** Whether the first vertex of a polygon has the field. *)
Definition has_first (field : Vertex.t -> option Vector.t) (p : Polygon.t) : bool :=
  match Polygon.vertices p with
  | v0 :: _ => present (field v0)
  | [] => false
  end.

(** The list from its first element that satisfies [f] on. *)
Fixpoint from_first {A} (f : A -> bool) (xs : list A) : list A :=
  match xs with
  | [] => []
  | x :: xs' => if f x then xs else from_first f xs'
  end.

(** What [toGeometry] has in a buffer that it makes when it is first
    needed, after the polygons [done]: there is none if no polygon has the
    field in its first vertex; else it holds, as binary32 numbers, the fans
    of the polygons [sel done], then zeros. *)
Definition field_inv (nums : Vector.t -> list float)
    (field : Vertex.t -> option Vector.t) (sel : list Polygon.t -> list Polygon.t)
    (per cap : nat) (done : list Polygon.t) (b : option nbuf.t) : Prop :=
  match b with
  | Some b =>
    existsb (has_first field) done = true
    /\ exists vals, fans_values nums field (sel done) = Some vals
                    /\ filled b (map fround vals) cap
                    /\ (length vals <= per * fan_count done)%nat
  | None => existsb (has_first field) done = false
  end.

(** The attribute that [toGeometry] makes of such a buffer. *)
Definition field_attribute (nums : Vector.t -> list float)
    (field : Vertex.t -> option Vector.t) (sel : list Polygon.t -> list Polygon.t)
    (itemSize : nat) (ps : list Polygon.t) (a : option BufferAttribute.t) : Prop :=
  exists vals,
    fans_values nums field (sel ps) = Some vals
    /\ a = if existsb (has_first field) ps
           then Some (BufferAttribute.mk
                        (map fround vals
                         ++ replicate (3 * itemSize * fan_count ps - length vals) 0)
                        itemSize)
           else None.

(** * The engine on a heap

    The objects of the engine, in a store: an object is a cell, a reference
    is the number of its cell, [new] adds a cell at the end, and a method
    that changes [this] overwrites the cell of [this].  The arithmetic is
    that of the first embedding. *)

Module Store.

(** A reference is the number of a cell. *)
Abbreviation loc := nat (only parsing).

Inductive Obj :=
| OVector (v : Vector.t)
| OVertex (pos normal : loc) (uv color : option loc)
| OPlane (normal : loc) (w : float)
| OPolygon (vertices : loc) (shared : option N) (plane : loc)
| OArray (elems : list loc)
| ONode (plane front back : option loc) (polygons : loc)
| OCSG (polygons : loc).

Abbreviation heap := (list Obj) (only parsing).

(** A computation on the store that may throw or be cut short. *)
Definition M (A : Type) : Type := heap -> result (A * heap).

#[global] Instance M_ret : MRet M := fun _ a h => Ok (a, h).
#[global] Instance M_bind : MBind M := fun _ _ f m h =>
  match m h with
  | Ok (a, h') => f a h'
  | Throw e => Throw e
  | OutOfFuel => OutOfFuel
  end.

Definition throw {A} (e : exn) : M A := fun _ => Throw e.
Definition out_of_fuel {A} : M A := fun _ => OutOfFuel.

(** [undefined.field] throws. *)
Definition defined {A} (o : option A) : M A :=
  match o with
  | Some a => mret a
  | None => throw TypeError
  end.

Definition alloc (o : Obj) : M loc := fun h => Ok (length h, h ++ [o]).

Definition load (l : loc) : M Obj := fun h =>
  match h !! l with
  | Some o => Ok (o, h)
  | None => Throw TypeError
  end.

Definition store (l : loc) (o : Obj) : M unit := fun h =>
  if (l <? length h)%nat then Ok (tt, <[l := o]> h) else Throw TypeError.

Definition get_vector (l : loc) : M Vector.t :=
  o ← load l; match o with OVector v => mret v | _ => throw TypeError end.

Definition get_vertex (l : loc) : M (loc * loc * option loc * option loc) :=
  o ← load l;
  match o with OVertex p n u c => mret (p, n, u, c) | _ => throw TypeError end.

Definition get_plane (l : loc) : M (loc * float) :=
  o ← load l; match o with OPlane n w => mret (n, w) | _ => throw TypeError end.

Definition get_polygon (l : loc) : M (loc * option N * loc) :=
  o ← load l;
  match o with OPolygon vs sh pl => mret (vs, sh, pl) | _ => throw TypeError end.

Definition get_array (l : loc) : M (list loc) :=
  o ← load l; match o with OArray es => mret es | _ => throw TypeError end.

Definition get_node (l : loc) : M (option loc * option loc * option loc * loc) :=
  o ← load l;
  match o with ONode pl f b ps => mret (pl, f, b, ps) | _ => throw TypeError end.

Definition get_csg (l : loc) : M loc :=
  o ← load l; match o with OCSG ps => mret ps | _ => throw TypeError end.

(** [new Array()] with these elements, and [arr.push(x)]. *)
Definition new_array (es : list loc) : M loc := alloc (OArray es).

Definition push (arr x : loc) : M unit :=
  es ← get_array arr; store arr (OArray (es ++ [x])).

(** [xs.map(f)] and [xs.forEach(f)] on the elements of an array. *)
Fixpoint map_array {A B} (f : A -> M B) (xs : list A) : M (list B) :=
  match xs with
  | [] => mret []
  | x :: xs' => y ← f x; ys ← map_array f xs'; mret (y :: ys)
  end.

Fixpoint for_array {A} (f : A -> M unit) (xs : list A) : M unit :=
  match xs with
  | [] => mret tt
  | x :: xs' => f x;; for_array f xs'
  end.

(** [for (let i = ...; i < arr.length; i++) body(arr[i])]: the array is
    read again in every turn. *)
Fixpoint for_each (fuel : nat) (arr : loc) (i : nat) (body : loc -> M unit) : M unit :=
  match fuel with
  | O => out_of_fuel
  | S fuel' =>
    es ← get_array arr;
    match es !! i with
    | Some x => body x;; for_each fuel' arr (i + 1) body
    | None => mret tt
    end
  end.

(** ** Vector *)

(** The scratch vectors [Vector.tv0] and [Vector.tv1], made when the module
    is loaded: the first two cells. *)
Definition tv0 : loc := 0%nat.
Definition tv1 : loc := 1%nat.

Definition Vector_new : M loc := alloc (OVector Vector.zero).

Definition Vector_update (this : loc) (f : Vector.t -> Vector.t) : M loc :=
  v ← get_vector this; store this (OVector (f v));; mret this.

Definition Vector_copy (this v : loc) : M loc :=
  a ← get_vector v; Vector_update this (fun t => Vector.copy t a).

Definition Vector_clone (this : loc) : M loc :=
  v ← get_vector this; alloc (OVector (Vector.clone v)).

Definition Vector_negate (this : loc) : M loc := Vector_update this Vector.negate.

Definition Vector_add (this a : loc) : M loc :=
  av ← get_vector a; Vector_update this (fun t => Vector.add t av).

Definition Vector_sub (this a : loc) : M loc :=
  av ← get_vector a; Vector_update this (fun t => Vector.sub t av).

Definition Vector_times (this : loc) (a : float) : M loc :=
  Vector_update this (fun t => Vector.times t a).

Definition Vector_dividedBy (this : loc) (a : float) : M loc :=
  Vector_update this (fun t => Vector.dividedBy t a).

Definition Vector_lerp (this a : loc) (t' : float) : M loc :=
  d ← Vector_copy tv0 a; d ← Vector_sub d this; d ← Vector_times d t';
  Vector_add this d.

Definition Vector_length (this : loc) : M float :=
  v ← get_vector this; mret (Vector.length v).

Definition Vector_unit (this : loc) : M loc :=
  len ← Vector_length this; Vector_dividedBy this len.

Definition Vector_normalize (this : loc) : M loc := Vector_unit this.

Definition Vector_cross (this b : loc) : M loc :=
  bv ← get_vector b; Vector_update this (fun t => Vector.cross t bv).

Definition Vector_dot (this b : loc) : M float :=
  v ← get_vector this; bv ← get_vector b; mret (Vector.dot v bv).

(** ** Vertex *)

Definition Vertex_new (pos normal : loc) (uv color : option loc) : M loc :=
  p ← Vector_new; p ← Vector_copy p pos;
  n ← Vector_new; n ← Vector_copy n normal;
  u ← match uv with
      | Some uv =>
        u ← Vector_new; u ← Vector_copy u uv;
        Vector_update u (fun t => Vector.mk (Vector.x t) (Vector.y t) 0);;
        mret (Some u)
      | None => mret None
      end;
  c ← match color with
      | Some color => c ← Vector_new; c ← Vector_copy c color; mret (Some c)
      | None => mret None
      end;
  alloc (OVertex p n u c).

Definition Vertex_clone (this : loc) : M loc :=
  '(p, n, u, c) ← get_vertex this; Vertex_new p n u c.

Definition Vertex_flip (this : loc) : M unit :=
  '(p, n, u, c) ← get_vertex this; Vector_negate n;; mret tt.

(** [a && b && a.clone().lerp(b, t)] *)
Definition lerp_optional (a b : option loc) (t' : float) : M (option loc) :=
  match a, b with
  | Some a, Some b => x ← Vector_clone a; x ← Vector_lerp x b t'; mret (Some x)
  | _, _ => mret None
  end.

Definition Vertex_interpolate (this other : loc) (t' : float) : M loc :=
  '(p, n, u, c) ← get_vertex this;
  '(p', n', u', c') ← get_vertex other;
  np ← Vector_clone p; np ← Vector_lerp np p' t';
  nn ← Vector_clone n; nn ← Vector_lerp nn n' t';
  nu ← lerp_optional u u' t';
  nc ← lerp_optional c c' t';
  Vertex_new np nn nu nc.

(** ** Plane and Polygon *)

Definition Plane_new (normal : loc) (w : float) : M loc := alloc (OPlane normal w).

Definition Plane_clone (this : loc) : M loc :=
  '(n, w) ← get_plane this; n' ← Vector_clone n; Plane_new n' w.

Definition Plane_flip (this : loc) : M unit :=
  '(n, w) ← get_plane this; Vector_negate n;;
  '(n, w) ← get_plane this; store this (OPlane n (- w)).

Definition Plane_fromPoints (a b c : loc) : M loc :=
  t0 ← Vector_copy tv0 b; t0 ← Vector_sub t0 a;
  t1 ← Vector_copy tv1 c; t1 ← Vector_sub t1 a;
  n ← Vector_cross t0 t1; n ← Vector_normalize n;
  n' ← Vector_clone n; d ← Vector_dot n a;
  Plane_new n' d.

(** [vertices[i].pos] *)
Definition pos_at (es : list loc) (i : nat) : M loc :=
  v ← defined (es !! i); '(p, _, _, _) ← get_vertex v; mret p.

Definition Polygon_new (vertices : loc) (shared : option N) : M loc :=
  es ← get_array vertices;
  p0 ← pos_at es 0; p1 ← pos_at es 1; p2 ← pos_at es 2;
  plane ← Plane_fromPoints p0 p1 p2;
  alloc (OPolygon vertices shared plane).

Definition Polygon_clone (this : loc) : M loc :=
  '(vs, sh, _) ← get_polygon this;
  es ← get_array vs; es' ← map_array Vertex_clone es; vs' ← new_array es';
  Polygon_new vs' sh.

Definition Polygon_flip (this : loc) : M unit :=
  '(vs, _, pl) ← get_polygon this;
  es ← get_array vs; store vs (OArray (rev es));;
  for_array Vertex_flip (rev es);;
  Plane_flip pl.

(** *** Plane.splitPolygon *)

(** The position of a vertex, as a value. *)
Definition pos_of (v : loc) : M Vector.t :=
  '(p, _, _, _) ← get_vertex v; get_vector p.

(** The plane, as a value. *)
Definition plane_of (this : loc) : M Plane.t :=
  '(n, w) ← get_plane this; nv ← get_vector n; mret (Plane.mk nv w).

(** One turn of the edge walk; [f] and [b] are the two new arrays. *)
Definition walk_step (this : loc) (es : list loc) (types : list Z) (f b : loc)
    (i : nat) : M unit :=
  let j := ((i + 1) mod length es)%nat in
  let ti := default 0%Z (types !! i) in
  let tj := default 0%Z (types !! j) in
  vi ← defined (es !! i);
  vj ← defined (es !! j);
  (if (ti =? BACK)%Z then mret tt else push f vi);;
  (if (ti =? FRONT)%Z then mret tt
   else if (ti =? BACK)%Z then push b vi
   else c ← Vertex_clone vi; push b c);;
  if (Z.lor ti tj =? SPANNING)%Z then
    '(n, w) ← get_plane this;
    '(pi, _, _, _) ← get_vertex vi;
    '(pj, _, _, _) ← get_vertex vj;
    num ← Vector_dot n pi;
    d ← Vector_copy tv0 pj; d ← Vector_sub d pi;
    den ← Vector_dot n d;
    v ← Vertex_interpolate vi vj ((w - num) / den);
    push f v;;
    c ← Vertex_clone v; push b c
  else mret tt.

Definition Plane_splitPolygon (this polygon coplanarFront coplanarBack front back : loc)
  : M unit :=
  '(vs, sh, ppl) ← get_polygon polygon;
  es ← get_array vs;
  pl ← plane_of this;
  ps ← map_array pos_of es;
  let types := map (fun p => vertex_type (signed_distance pl p)) ps in
  let polygonType := fold_left Z.lor types 0%Z in
  if (polygonType =? COPLANAR)%Z then
    '(n, _) ← get_plane this; '(pn, _) ← get_plane ppl;
    d ← Vector_dot n pn;
    push (if 0 <? d then coplanarFront else coplanarBack) polygon
  else if (polygonType =? FRONT)%Z then push front polygon
  else if (polygonType =? BACK)%Z then push back polygon
  else if (polygonType =? SPANNING)%Z then
    f ← new_array []; b ← new_array [];
    for_array (walk_step this es types f b) (seq 0 (length es));;
    fe ← get_array f;
    (if (3 <=? length fe)%nat then p ← Polygon_new f sh; push front p else mret tt);;
    be ← get_array b;
    (if (3 <=? length be)%nat then p ← Polygon_new b sh; push back p else mret tt)
  else mret tt.

(** ** Node *)

Definition set_plane (this plane : loc) : M unit :=
  '(_, f, b, ps) ← get_node this; store this (ONode (Some plane) f b ps).

Definition set_front (this : loc) (front : option loc) : M unit :=
  '(pl, _, b, ps) ← get_node this; store this (ONode pl front b ps).

Definition set_back (this : loc) (back : option loc) : M unit :=
  '(pl, f, _, ps) ← get_node this; store this (ONode pl f back ps).

Definition set_polygons (this polygons : loc) : M unit :=
  '(pl, f, b, _) ← get_node this; store this (ONode pl f b polygons).

(** [new Node()] *)
Definition Node_empty : M loc :=
  ps ← new_array []; alloc (ONode None None None ps).

Fixpoint Node_invert (fuel : nat) (this : loc) : M unit :=
  match fuel with
  | O => out_of_fuel
  | S fuel' =>
    '(_, _, _, ps) ← get_node this;
    for_each fuel' ps 0 Polygon_flip;;
    '(pl, _, _, _) ← get_node this;
    match pl with Some pl => Plane_flip pl | None => mret tt end;;
    '(_, f, _, _) ← get_node this;
    match f with Some n => Node_invert fuel' n | None => mret tt end;;
    '(_, _, b, _) ← get_node this;
    match b with Some n => Node_invert fuel' n | None => mret tt end;;
    '(_, temp, b, _) ← get_node this;
    set_front this b;;
    set_back this temp
  end.

Fixpoint Node_clipPolygons (fuel : nat) (this polygons : loc) : M loc :=
  match fuel with
  | O => out_of_fuel
  | S fuel' =>
    '(pl, _, _, _) ← get_node this;
    match pl with
    | None => es ← get_array polygons; new_array es
    | Some pl =>
      front ← new_array []; back ← new_array [];
      for_each fuel' polygons 0
        (fun p => Plane_splitPolygon pl p front back front back);;
      '(_, f, _, _) ← get_node this;
      front ← match f with
              | Some n => Node_clipPolygons fuel' n front
              | None => mret front
              end;
      '(_, _, b, _) ← get_node this;
      back ← match b with
             | Some n => Node_clipPolygons fuel' n back
             | None => new_array []
             end;
      fe ← get_array front; be ← get_array back; new_array (fe ++ be)
    end
  end.

Fixpoint Node_clipTo (fuel : nat) (this bsp : loc) : M unit :=
  match fuel with
  | O => out_of_fuel
  | S fuel' =>
    '(_, _, _, ps) ← get_node this;
    ps' ← Node_clipPolygons fuel' bsp ps;
    set_polygons this ps';;
    '(_, f, _, _) ← get_node this;
    match f with Some n => Node_clipTo fuel' n bsp | None => mret tt end;;
    '(_, _, b, _) ← get_node this;
    match b with Some n => Node_clipTo fuel' n bsp | None => mret tt end
  end.

(** [xs.concat(ys)] *)
Definition concat (xs ys : loc) : M loc :=
  xe ← get_array xs; ye ← get_array ys; new_array (xe ++ ye).

Fixpoint Node_allPolygons (fuel : nat) (this : loc) : M loc :=
  match fuel with
  | O => out_of_fuel
  | S fuel' =>
    '(_, _, _, ps) ← get_node this;
    es ← get_array ps; polygons ← new_array es;
    '(_, f, _, _) ← get_node this;
    polygons ← match f with
               | Some n => fs ← Node_allPolygons fuel' n; concat polygons fs
               | None => mret polygons
               end;
    '(_, _, b, _) ← get_node this;
    match b with
    | Some n => bs ← Node_allPolygons fuel' n; concat polygons bs
    | None => mret polygons
    end
  end.

Fixpoint Node_build (fuel : nat) (this polygons : loc) : M unit :=
  match fuel with
  | O => out_of_fuel
  | S fuel' =>
    es ← get_array polygons;
    match es with
    | [] => mret tt
    | p0 :: _ =>
      '(pl, _, _, _) ← get_node this;
      match pl with
      | Some _ => mret tt
      | None =>
        '(_, _, ppl) ← get_polygon p0; c ← Plane_clone ppl; set_plane this c
      end;;
      front ← new_array []; back ← new_array [];
      for_each fuel' polygons 0
        (fun p => '(pl, _, _, ps) ← get_node this; pl ← defined pl;
                  Plane_splitPolygon pl p ps ps front back);;
      fe ← get_array front;
      match fe with
      | [] => mret tt
      | _ =>
        '(_, f, _, _) ← get_node this;
        match f with
        | Some _ => mret tt
        | None => n ← Node_empty; set_front this (Some n)
        end;;
        '(_, f, _, _) ← get_node this; f ← defined f;
        Node_build fuel' f front
      end;;
      be ← get_array back;
      match be with
      | [] => mret tt
      | _ =>
        '(_, _, b, _) ← get_node this;
        match b with
        | Some _ => mret tt
        | None => n ← Node_empty; set_back this (Some n)
        end;;
        '(_, _, b, _) ← get_node this; b ← defined b;
        Node_build fuel' b back
      end
    end
  end.

(** [new Node(polygons)] *)
Definition Node_new (fuel : nat) (polygons : loc) : M loc :=
  this ← Node_empty; Node_build fuel this polygons;; mret this.

(** ** CSG *)

Definition CSG_new : M loc := ps ← new_array []; alloc (OCSG ps).

Definition CSG_clone (this : loc) : M loc :=
  csg ← CSG_new;
  ps ← get_csg this; es ← get_array ps;
  es' ← map_array Polygon_clone es; ps' ← new_array es';
  store csg (OCSG ps');;
  mret csg.

Definition CSG_fromPolygons (polygons : loc) : M loc :=
  csg ← CSG_new; store csg (OCSG polygons);; mret csg.

(** [new Node(csg.clone().polygons)] *)
Definition tree_of_clone (fuel : nat) (csg : loc) : M loc :=
  c ← CSG_clone csg; ps ← get_csg c; Node_new fuel ps.

Definition CSG_union (fuel : nat) (this csg : loc) : M loc :=
  a ← tree_of_clone fuel this;
  b ← tree_of_clone fuel csg;
  Node_clipTo fuel a b;;
  Node_clipTo fuel b a;;
  Node_invert fuel b;;
  Node_clipTo fuel b a;;
  Node_invert fuel b;;
  bs ← Node_allPolygons fuel b; Node_build fuel a bs;;
  ps ← Node_allPolygons fuel a; CSG_fromPolygons ps.

Definition CSG_subtract (fuel : nat) (this csg : loc) : M loc :=
  a ← tree_of_clone fuel this;
  b ← tree_of_clone fuel csg;
  Node_invert fuel a;;
  Node_clipTo fuel a b;;
  Node_clipTo fuel b a;;
  Node_invert fuel b;;
  Node_clipTo fuel b a;;
  Node_invert fuel b;;
  bs ← Node_allPolygons fuel b; Node_build fuel a bs;;
  Node_invert fuel a;;
  ps ← Node_allPolygons fuel a; CSG_fromPolygons ps.

Definition CSG_intersect (fuel : nat) (this csg : loc) : M loc :=
  a ← tree_of_clone fuel this;
  b ← tree_of_clone fuel csg;
  Node_invert fuel a;;
  Node_clipTo fuel b a;;
  Node_invert fuel b;;
  Node_clipTo fuel a b;;
  Node_clipTo fuel b a;;
  bs ← Node_allPolygons fuel b; Node_build fuel a bs;;
  Node_invert fuel a;;
  ps ← Node_allPolygons fuel a; CSG_fromPolygons ps.

Definition CSG_inverse (this : loc) : M loc :=
  csg ← CSG_clone this;
  ps ← get_csg csg; es ← get_array ps;
  for_array Polygon_flip es;;
  mret csg.

(** ** Values in the store *)

(** The value of an object of the store.  A vector of a solid is never one
    of the scratch vectors, so these are not read. *)
Definition read_vector (h : heap) (l : loc) : option Vector.t :=
  if bool_decide (l = tv0 \/ l = tv1) then None
  else match h !! l with Some (OVector v) => Some v | _ => None end.

Definition read_optional (h : heap) (l : option loc) : option (option Vector.t) :=
  match l with
  | Some l => Some <$> read_vector h l
  | None => Some None
  end.

Definition read_vertex (h : heap) (l : loc) : option Vertex.t :=
  match h !! l with
  | Some (OVertex p n u c) =>
    p ← read_vector h p; n ← read_vector h n;
    u ← read_optional h u; c ← read_optional h c;
    Some (Vertex.mk p n u c)
  | _ => None
  end.

Definition read_array (h : heap) (l : loc) : option (list loc) :=
  match h !! l with Some (OArray es) => Some es | _ => None end.

Definition read_plane (h : heap) (l : loc) : option Plane.t :=
  match h !! l with
  | Some (OPlane n w) => n ← read_vector h n; Some (Plane.mk n w)
  | _ => None
  end.

Definition read_polygon (h : heap) (l : loc) : option Polygon.t :=
  match h !! l with
  | Some (OPolygon vs sh pl) =>
    es ← read_array h vs; vs ← mapM (read_vertex h) es;
    pl ← read_plane h pl;
    Some (Polygon.mk vs sh pl)
  | _ => None
  end.

Definition read_csg (h : heap) (l : loc) : option CSG.t :=
  match h !! l with
  | Some (OCSG ps) =>
    es ← read_array h ps; ps ← mapM (read_polygon h) es; Some (CSG.mk ps)
  | _ => None
  end.

(** Objects with given values, for making a store to start from. *)
Definition make_vector (v : Vector.t) : M loc := alloc (OVector v).

Definition make_optional (v : option Vector.t) : M (option loc) :=
  match v with
  | Some v => l ← make_vector v; mret (Some l)
  | None => mret None
  end.

Definition make_vertex (v : Vertex.t) : M loc :=
  p ← make_vector (Vertex.pos v); n ← make_vector (Vertex.normal v);
  u ← make_optional (Vertex.uv v); c ← make_optional (Vertex.color v);
  alloc (OVertex p n u c).

Definition make_polygon (p : Polygon.t) : M loc :=
  es ← map_array make_vertex (Polygon.vertices p); vs ← new_array es;
  n ← make_vector (Plane.normal (Polygon.plane p));
  pl ← alloc (OPlane n (Plane.w (Polygon.plane p)));
  alloc (OPolygon vs (Polygon.shared p) pl).

Definition make_csg (csg : CSG.t) : M loc :=
  es ← map_array make_polygon (CSG.polygons csg); ps ← new_array es;
  alloc (OCSG ps).

(** The store when the module has been loaded: the two scratch vectors. *)
Definition initial : heap := [OVector Vector.zero; OVector Vector.zero].

(** ** What a call may change *)

(** Relative to the store [h0] that a call starts from: a cell is new when
    it is past the end of [h0]; a cell of [h0] is kept when it still holds
    what it held, and only a scratch vector need not be kept. *)
Definition is_new (h0 : heap) (l : loc) : Prop := (length h0 <= l)%nat.

Definition new_option (h0 : heap) (l : option loc) : Prop :=
  match l with
  | Some l => is_new h0 l
  | None => True
  end.

Definition is_scratch (l : loc) (o : Obj) : Prop :=
  (l = tv0 \/ l = tv1) /\ exists v, o = OVector v.

(** Every reference in the object is to a new cell. *)
Definition refs_new (h0 : heap) (o : Obj) : Prop :=
  match o with
  | OVector _ => True
  | OVertex p n u c => is_new h0 p /\ is_new h0 n /\ new_option h0 u /\ new_option h0 c
  | OPlane n _ => is_new h0 n
  | OPolygon vs _ pl => is_new h0 vs /\ is_new h0 pl
  | OArray es => Forall (is_new h0) es
  | ONode pl f b ps =>
    new_option h0 pl /\ new_option h0 f /\ new_option h0 b /\ is_new h0 ps
  | OCSG ps => is_new h0 ps
  end.

(** The stores that a call goes through: the old cells are kept, and the
    new cells refer to new cells only. *)
Definition extends (h0 h : heap) : Prop :=
  (length h0 <= length h)%nat
  /\ (forall l o, h0 !! l = Some o -> ~ is_scratch l o -> h !! l = Some o)
  /\ (forall l o, is_new h0 l -> h !! l = Some o -> refs_new h0 o).

(** [m] takes such a store to such a store, and what it returns
    satisfies [Q]; nothing is said of a call that throws. *)
Definition safe (h0 : heap) {A} (m : M A) (Q : A -> Prop) : Prop :=
  forall h, extends h0 h ->
    match m h with
    | Ok (a, h') => extends h0 h' /\ Q a
    | _ => True
    end.

(** A place that a vector method may write to. *)
Definition writable (h0 : heap) (l : loc) : Prop :=
  is_new h0 l \/ l = tv0 \/ l = tv1.

End Store.

(** ** Two solids in a store *)

(** Two tetrahedra that overlap. *)
Definition tetrahedron (ox oy oz s : float) : CSG.t :=
  let a := vertex_at ox oy oz in
  let b := vertex_at (ox + s) oy oz in
  let c := vertex_at ox (oy + s) oz in
  let d := vertex_at ox oy (oz + s) in
  CSG.mk [triangle a c b None; triangle a b d None;
          triangle a d c None; triangle b c d None].

Definition left_solid : CSG.t := tetrahedron 0 0 0 1.
Definition right_solid : CSG.t := tetrahedron 0.25 0.25 (-0.25) 1.

(** The store that holds the two solids, and where they are in it. *)
Definition two_solids : Store.loc * Store.loc * Store.heap :=
  match (a ← Store.make_csg left_solid; b ← Store.make_csg right_solid;
         mret (a, b)) Store.initial with
  | Ok r => r
  | _ => (0%nat, 0%nat, [])
  end.

Definition solids : Store.loc * Store.loc := fst two_solids.
Definition solids_store : Store.heap := snd two_solids.

Definition operators : list (nat -> Store.loc -> Store.loc -> Store.M Store.loc) :=
  [Store.CSG_union; Store.CSG_subtract; Store.CSG_intersect].

(** What an operator returns for the two solids, read back as a value. *)
Definition read_result (op : nat -> Store.loc -> Store.loc -> Store.M Store.loc)
  : result (option CSG.t) :=
  match op 60%nat (fst solids) (snd solids) solids_store with
  | Ok (r, h') => Ok (Store.read_csg h' r)
  | Throw e => Throw e
  | OutOfFuel => OutOfFuel
  end.

(** * More of the engine, and the words for what is proved of it *)

(** A polygon that the constructor refuses: fewer than three vertices. *)
Definition short (p : Polygon.t) : Prop := (length (Polygon.vertices p) < 3)%nat.

(** The three boolean operators, on values. *)
Definition value_operators : list (nat -> CSG.t -> CSG.t -> result CSG.t) :=
  [CSG.union; CSG.subtract; CSG.intersect].

(** Two corners only: not a polygon that the constructor would make. *)
Definition two_corners : Polygon.t :=
  Polygon.mk [vertex_at 0 0 0; vertex_at 1 0 0] None plane_z0.

Definition open_solid : CSG.t := CSG.mk [flat_triangle; two_corners].

(** Whether a polygon has a vertex of the given type for a plane. *)
Definition has_type (pl : Plane.t) (ty : Z) (p : Polygon.t) : bool :=
  existsb (fun v => (type_of pl v =? ty)%Z) (Polygon.vertices p).

(** A tree without its polygons: the planes and the shape. *)
Fixpoint planes_of (this : Node.t) : Node.t :=
  Node.mk (Node.plane this) (planes_of <$> Node.front this)
    (planes_of <$> Node.back this) [].

(** The other side: front for back and back for front. *)
Definition other_side (ty : Z) : Z :=
  if (ty =? FRONT)%Z then BACK else if (ty =? BACK)%Z then FRONT else ty.

(** [y] is [-x], but for the sign of a zero: the sum of two numbers and
    the sum of their opposites are both [+0] when they cancel. *)
Definition mirrored (x y : spec_float) : Prop :=
  y = SFopp x \/ exists s s', x = S754_zero s /\ y = S754_zero s'.

Definition opposite (x y : float) : Prop := mirrored (Prim2SF x) (Prim2SF y).

Definition opposite_vector (u v : Vector.t) : Prop :=
  opposite (Vector.x u) (Vector.x v) /\ opposite (Vector.y u) (Vector.y v)
  /\ opposite (Vector.z u) (Vector.z v).

Definition opposite_plane (p q : Plane.t) : Prop :=
  opposite_vector (Plane.normal p) (Plane.normal q)
  /\ opposite (Plane.w p) (Plane.w q).

(** An index and nothing else. *)
Definition bare_index : BufferGeometry.t :=
  BufferGeometry.mk (Some [0; 1; 2]%nat) None None None None [].

(** A call that returns or throws a TypeError. *)
Definition type_error_only {A} (r : result A) : Prop :=
  match r with
  | Ok _ | Throw TypeError => True
  | _ => False
  end.

(** A vertex without a color in a polygon that [toGeometry] makes
    triangles of. *)
Definition lacks_color (p : Polygon.t) : Prop :=
  (3 <= length (Polygon.vertices p))%nat
  /\ Exists (fun v => Vertex.color v = None) (Polygon.vertices p).

(** A solid whose second triangle has colors and whose first has none,
    and the other way round. *)
Definition colored_vertex (x y z : float) : Vertex.t :=
  Vertex.new (Vector.mk x y z) (Vector.mk 0 0 1) None (Some (Vector.mk 1 0 0)).

Definition colored_triangle : Polygon.t :=
  triangle (colored_vertex 0 0 1) (colored_vertex 1 0 1) (colored_vertex 0 1 1) None.

Definition colored_then_plain : CSG.t := CSG.mk [colored_triangle; flat_triangle].

(** Keys in ascending order, without repetition. *)
Fixpoint ascending (ks : list N) : Prop :=
  match ks with
  | [] => True
  | k :: ks' => Forall (N.lt k) ks' /\ ascending ks'
  end.

(** Keys in the order in which they were added to an object: a key that
    is added again keeps its place. *)
Definition added (ks : list N) : list N :=
  fold_left (fun acc k => if existsb (N.eqb k) acc then acc else acc ++ [k]) ks [].

(** The order in which [Object.keys] lists the keys of an object to which
    the keys [tags] were added one after the other: first the array
    indices, in ascending order, then the other keys as they were added. *)
Definition keys_order (tags keys : list N) : Prop :=
  exists small large,
    keys = small ++ large
    /\ ascending small
    /\ (forall k, In k small <-> In k tags /\ array_index k = true)
    /\ large = added (List.filter (fun k => negb (array_index k)) tags).

(** The tags of some polygons, in the order of the polygons. *)
Definition tag_list (ps : list Polygon.t) : list N :=
  flat_map (fun p => match Polygon.shared p with Some k => [k] | None => [] end) ps.

(** Groups that follow one another from [start] on, numbered from [gi]
    on: [(start, count, materialIndex)]. *)
Fixpoint group_ranges (start gi : nat) (counts : list nat) : list (nat * nat * nat) :=
  match counts with
  | [] => []
  | n :: counts' => (start, n, gi) :: group_ranges (start + n) (gi + 1) counts'
  end.

(** The tags of some polygons. *)
Definition tags_of (ps : list Polygon.t) (k : N) : Prop :=
  exists p, In p ps /\ Polygon.shared p = Some k.

(** The vertex numbers that [toGeometry] has put in [grps]. *)
Definition entries (g : list (N * list nat)) : list nat := concat (map snd g).

(** The locals of [toGeometry] after [c] triangles. *)
Definition chunks_inv (c : nat) (o : CSG.out) : Prop :=
  nbuf.top (CSG.overtices o) = (9 * c)%nat
  /\ Forall (fun e => (e < 3 * c)%nat) (entries (CSG.ogrps o))
  /\ exists t, length (entries (CSG.ogrps o)) = (3 * t)%nat.

(** The locals of [toGeometry] after the polygons [ps]. *)
Definition groups_inv (ps : list Polygon.t) (o : CSG.out) : Prop :=
  chunks_inv (fan_count ps) o
  /\ keys_order (tag_list ps) (map fst (CSG.ogrps o))
  /\ forall k, In k (map fst (CSG.ogrps o)) <-> tags_of ps k.

(** The two triangles of [two_faces] with the tag 5. *)
Definition tagged_faces : CSG.t :=
  match CSG.fromGeometry two_faces (Some 5%N) with
  | Ok csg => csg
  | _ => CSG.empty
  end.


(** The three numbers of an attribute array from [k] on. *)
Definition triple (a : list float) (k : nat) : Vector.t :=
  Vector.mk (read a (Some k)) (read a (Some (k + 1)%nat)) (read a (Some (k + 2)%nat)).

(** The normals of the corners of the triangles of a mesh, in the order of
    its index. *)
Definition normal_corners (g : BufferGeometry.t) : result (list float) :=
  index ← CSG.geometry_index g;
  normalattr ← prop_of (BufferGeometry.normal g);
  Ok (flat_map (corner (BufferAttribute.array normalattr)) index).

(** Every index entry names a normal that is there, and the normals are
    binary32 numbers. *)
Definition valid_normals (geom : BufferGeometry.t) : bool :=
  match CSG.geometry_index geom, BufferGeometry.normal geom with
  | Ok index, Some normalattr =>
    forallb (fun i => (3 * i + 2 <? length (BufferAttribute.array normalattr))%nat) index
    && forallb (fun x => Leibniz.eqb (fround x) x) (BufferAttribute.array normalattr)
  | _, _ => false
  end.

(** ** Node.clone and Node.fromJSON *)

(** [clone] of a tree: the plane, the front, the back, then the polygons. *)
Fixpoint Node_clone (this : Node.t) : result Node.t :=
  let plane := Plane.clone <$> Node.plane this in
  front ← match Node.front this with
          | Some n => Some <$> Node_clone n
          | None => Ok None
          end;
  back ← match Node.back this with
         | Some n => Some <$> Node_clone n
         | None => Ok None
         end;
  polygons ← mapR Polygon.clone (Node.polygons this);
  Ok (Node.mk plane front back polygons).

(** [Node.fromJSON(json)]: [json.polygons] is read as the polygons of a
    solid are, each vertex with its [pos], [normal] and [uv]; whatever else
    the objects hold is not read. *)
Definition Node_fromJSON (json : CSG.t) : result CSG.t :=
  ps ← mapR (fun p =>
               Polygon.new
                 (map (fun v => Vertex.new (Vertex.pos v) (Vertex.normal v)
                                  (Vertex.uv v) None)
                    (Polygon.vertices p))
                 (Polygon.shared p))
        (CSG.polygons json);
  Ok (CSG.fromPolygons ps).

(** A solid without the colors of its vertices. *)
Definition without_color (v : Vertex.t) : Vertex.t :=
  Vertex.mk (Vertex.pos v) (Vertex.normal v) (Vertex.uv v) None.

Definition without_colors (csg : CSG.t) : CSG.t :=
  CSG.mk (map (fun p => Polygon.mk (map without_color (Polygon.vertices p))
                          (Polygon.shared p) (Polygon.plane p))
            (CSG.polygons csg)).

(** A solid of one triangle with colors. *)
Definition colored_solid : CSG.t := CSG.mk [colored_triangle].

(** The first vertex of the polygon has the field (a uv, a color). *)
Definition first_has (field : Vertex.t -> option Vector.t) (p : Polygon.t) : Prop :=
  exists v0, Polygon.vertices p !! 0%nat = Some v0 /\ field v0 <> None.

(** A buffer of [n] numbers, if there is one. *)
Definition sized (n : nat) (b : option nbuf.t) : Prop :=
  match b with
  | Some b => length (nbuf.array b) = n
  | None => True
  end.

(** The buffers of [toGeometry] after the polygons [ps], for the triangle
    count [tc]. *)
Definition buffers_inv (tc : Z) (ps : list Polygon.t) (o : CSG.out) : Prop :=
  (present (CSG.ouvs o) = true <-> Exists (first_has Vertex.uv) ps)
  /\ (present (CSG.ocolors o) = true <-> Exists (first_has Vertex.color) ps)
  /\ sized (Z.to_nat (tc * 2 * 3)) (CSG.ouvs o)
  /\ sized (Z.to_nat (tc * 3 * 3)) (CSG.ocolors o)
  /\ sized (Z.to_nat (tc * 3 * 3)) (Some (CSG.overtices o))
  /\ sized (Z.to_nat (tc * 3 * 3)) (Some (CSG.onormals o)).

(** ** What an object of the store refers to *)

Definition option_refs (l : option Store.loc) : list Store.loc :=
  match l with
  | Some l => [l]
  | None => []
  end.

(** The references that an object holds. *)
Definition refs (o : Store.Obj) : list Store.loc :=
  match o with
  | Store.OVector _ => []
  | Store.OVertex p n u c => p :: n :: option_refs u ++ option_refs c
  | Store.OPlane n _ => [n]
  | Store.OPolygon vs _ pl => [vs; pl]
  | Store.OArray es => es
  | Store.ONode pl f b ps => option_refs pl ++ option_refs f ++ option_refs b ++ [ps]
  | Store.OCSG ps => [ps]
  end.

(** The objects that can be reached from an object by following
    references. *)
Inductive reachable (h : list Store.Obj) : Store.loc -> Store.loc -> Prop :=
| reachable_here (l : Store.loc) : reachable h l l
| reachable_step (l l1 l2 : Store.loc) (o : Store.Obj) :
    h !! l = Some o -> In l1 (refs o) -> reachable h l1 l2 -> reachable h l l2.

(** [clone] and [inverse], on the store. *)
Definition copies : list (Store.loc -> Store.M Store.loc) :=
  [Store.CSG_clone; Store.CSG_inverse].

(** A store with the two scratch vectors and three points. *)
Definition three_points : list Store.Obj :=
  Store.initial
  ++ [Store.OVector (Vector.mk 1 1 1); Store.OVector (Vector.mk 2 3 1);
      Store.OVector (Vector.mk 5 1 4)].

(** ** A tree in the store *)

(** The cells that a vertex, a plane, a polygon and a tree are made of. *)
Definition vertex_cells (h : list Store.Obj) (l : Store.loc) : list Store.loc :=
  match h !! l with
  | Some (Store.OVertex p n u c) => l :: p :: n :: option_refs u ++ option_refs c
  | _ => [l]
  end.

Definition plane_cells (h : list Store.Obj) (l : Store.loc) : list Store.loc :=
  match h !! l with
  | Some (Store.OPlane n _) => [l; n]
  | _ => [l]
  end.

Definition array_cells (cells : Store.loc -> list Store.loc) (h : list Store.Obj)
    (l : Store.loc) : list Store.loc :=
  match h !! l with
  | Some (Store.OArray es) => l :: flat_map cells es
  | _ => [l]
  end.

Definition polygon_cells (h : list Store.Obj) (l : Store.loc) : list Store.loc :=
  match h !! l with
  | Some (Store.OPolygon vs _ pl) =>
    l :: plane_cells h pl ++ array_cells (vertex_cells h) h vs
  | _ => [l]
  end.

Definition optional_cells (cells : Store.loc -> list Store.loc) (l : option Store.loc)
  : list Store.loc :=
  match l with
  | Some l => cells l
  | None => []
  end.

Fixpoint node_cells (depth : nat) (h : list Store.Obj) (l : Store.loc)
  : list Store.loc :=
  match depth with
  | O => [l]
  | S depth' =>
    match h !! l with
    | Some (Store.ONode pl f b ps) =>
      l :: optional_cells (plane_cells h) pl
      ++ array_cells (polygon_cells h) h ps
      ++ optional_cells (node_cells depth' h) f
      ++ optional_cells (node_cells depth' h) b
    | _ => [l]
    end
  end.

(** The value of a child or of a plane that a node may lack. *)
Definition read_child {A} (read : Store.loc -> option A) (l : option Store.loc)
  : option (option A) :=
  match l with
  | Some l => Some <$> read l
  | None => Some None
  end.

(** The value of a tree of the store that is at most [depth] nodes deep. *)
Fixpoint read_node (depth : nat) (h : list Store.Obj) (l : Store.loc)
  : option Node.t :=
  match depth with
  | O => None
  | S depth' =>
    match h !! l with
    | Some (Store.ONode pl f b ps) =>
      pl ← read_child (Store.read_plane h) pl;
      f ← read_child (read_node depth' h) f;
      b ← read_child (read_node depth' h) b;
      es ← Store.read_array h ps;
      ps ← mapM (Store.read_polygon h) es;
      Some (Node.mk pl f b ps)
    | _ => None
    end
  end.

(** The turns that the loops of [invert] take on a tree: one more than the
    polygons of a node, and one for every level. *)
Fixpoint turns (this : Node.t) : nat :=
  S (Nat.max (S (length (Node.polygons this)))
       (Nat.max (match Node.front this with Some n => turns n | None => 0 end)
          (match Node.back this with Some n => turns n | None => 0 end))).

(** The tree that the operators build of the first of the two solids, and
    the store that holds it. *)
Definition first_tree : Store.loc * list Store.Obj :=
  match Store.tree_of_clone 60 (fst solids) solids_store with
  | Ok r => r
  | _ => (0%nat, [])
  end.

(** * Facts about binary64 arithmetic *)

Section Binary64.

Lemma Prim2SF_m1 : Prim2SF (-1) = S754_finite true 4503599627370496 (-52).
Proof. vm_compute. reflexivity. Qed.

Lemma digits2_pos_shift52 (m : positive) :
  Zpos (digits2_pos (Pos.iter xO m 52)) = (Zpos (digits2_pos m) + 52)%Z.
Proof. cbn. lia. Qed.

Lemma mul_pow52 (m : positive) :
  (m * 4503599627370496)%positive = Pos.iter xO m 52.
Proof. rewrite Pos.mul_comm. reflexivity. Qed.

(** Multiplying by [-1] is exact: the product has 52 more zero bits,
    which the rounding shifts out again. *)
Lemma SFmul_m1 (s : spec_float) :
  valid_binary s = true ->
  SF64mul s (S754_finite true 4503599627370496 (-52)) = SFopp s.
Proof.
  destruct s as [sg|sg| |sg m e]; intros Hv;
    [destruct sg; reflexivity | destruct sg; reflexivity | reflexivity | ].
  unfold SF64mul, SFmul. rewrite mul_pow52.
  cbn [valid_binary] in Hv. unfold bounded, canonical_mantissa in Hv.
  apply andb_prop in Hv as [Hc Hb]. apply Z.eqb_eq in Hc.
  unfold binary_round_aux, shr_fexp.
  cbn [Zdigits2]. rewrite digits2_pos_shift52.
  replace (Z.pos (digits2_pos m) + 52 + (e + -52))%Z
    with (Z.pos (digits2_pos m) + e)%Z by lia.
  rewrite Hc. replace (e - (e + -52))%Z with 52%Z by lia.
  cbn -[fexp Z.leb digits2_pos Z.sub Z.add].
  replace (e + -52 + 52)%Z with e by lia.
  rewrite Hc, Z.sub_diag. cbn -[Z.leb Z.sub]. rewrite Hb.
  now destruct sg.
Qed.

Lemma mul_m1 (x : float) : x * (-1) = - x.
Proof.
  apply Prim2SF_inj. rewrite mul_spec, opp_spec, Prim2SF_m1.
  apply SFmul_m1, Prim2SF_valid.
Qed.

Lemma opp_involutive (x : float) : - - x = x.
Proof.
  apply Prim2SF_inj. rewrite !opp_spec.
  destruct (Prim2SF x); cbn; try reflexivity; now rewrite negb_involutive.
Qed.

Lemma mul_m1_m1 (x : float) : x * (-1) * (-1) = x.
Proof. rewrite !mul_m1. apply opp_involutive. Qed.

(** NaN is absorbing. *)
Lemma Prim2SF_nan : Prim2SF nan = S754_nan.
Proof. reflexivity. Qed.

Lemma nan_mul_l (x : float) : nan * x = nan.
Proof. apply Prim2SF_inj. rewrite mul_spec. reflexivity. Qed.

Lemma nan_add_l (x : float) : nan + x = nan.
Proof. apply Prim2SF_inj. rewrite add_spec. reflexivity. Qed.

End Binary64.

Section Comparisons.

Lemma Prim2SF_EPSILON :
  Prim2SF Plane.EPSILON = S754_finite false 5902958103587057 (-69).
Proof. vm_compute. reflexivity. Qed.

Lemma Prim2SF_neg_EPSILON :
  Prim2SF (- Plane.EPSILON) = S754_finite true 5902958103587057 (-69).
Proof. vm_compute. reflexivity. Qed.

Lemma is_nan_spec (t : float) : is_nan t = true <-> Prim2SF t = S754_nan.
Proof.
  unfold is_nan. rewrite FloatAxioms.eqb_spec. unfold SFeqb, SFcompare.
  destruct (Prim2SF t) as [s|s| |s m e].
  - destruct s; split; discriminate.
  - destruct s; split; discriminate.
  - tauto.
  - destruct s; rewrite Z.compare_refl, Pos.compare_cont_refl; split; discriminate.
Qed.

(** For a positive bound [b = me * 2^ee]: [x] is neither below [-b] nor
    above [b] exactly when [|x| <= b] or [x] is NaN. *)
Lemma SF_band (x : spec_float) (me : positive) (ee : Z) :
  (SFltb x (S754_finite true me ee) = false
   /\ SFltb (S754_finite false me ee) x = false)
  <-> SFleb (SFabs x) (S754_finite false me ee) = true \/ x = S754_nan.
Proof.
  unfold SFltb, SFleb, SFcompare, SFabs.
  destruct x as [s|s| |s m e].
  - destruct s; intuition discriminate.
  - destruct s; intuition discriminate.
  - intuition discriminate.
  - rewrite (Z.compare_antisym e ee).
    change (Pos.compare_cont Eq me m) with (Pos.compare_cont (CompOpp Eq) me m).
    rewrite <- (Pos.compare_cont_antisym m me Eq).
    destruct s, (e ?= ee)%Z; simpl;
      try (destruct (Pos.compare_cont Eq m me); simpl);
      (intuition (try discriminate; auto)).
Qed.

(** Nothing is both below [-b] and above [b]. *)
Lemma SF_sides_disjoint (x : spec_float) (me : positive) (ee : Z) :
  SFltb (S754_finite false me ee) x = true ->
  SFltb x (S754_finite true me ee) = false.
Proof.
  unfold SFltb, SFcompare.
  destruct x as [s|s| |s m e]; try (destruct s; simpl; congruence); try easy.
Qed.

Lemma coplanar_band (t : float) :
  ((t <? - Plane.EPSILON) = false /\ (Plane.EPSILON <? t) = false)
  <-> (abs t <=? Plane.EPSILON) = true \/ is_nan t = true.
Proof.
  rewrite is_nan_spec, !ltb_spec, leb_spec, abs_spec,
    Prim2SF_EPSILON, Prim2SF_neg_EPSILON.
  apply SF_band.
Qed.

Lemma sides_disjoint (t : float) :
  (Plane.EPSILON <? t) = true -> (t <? - Plane.EPSILON) = false.
Proof.
  rewrite !ltb_spec, Prim2SF_EPSILON, Prim2SF_neg_EPSILON.
  apply SF_sides_disjoint.
Qed.

End Comparisons.

(** * Splitting a polygon by a plane *)

Section Monad.
Context {A B : Type}.

Lemma foldM_app (body : B -> A -> result B) (xs ys : list A) (acc : B) :
  foldM body (xs ++ ys) acc = acc' ← foldM body xs acc; foldM body ys acc'.
Proof.
  revert acc. induction xs as [|x xs IH]; intros acc; simpl; [reflexivity|].
  destruct (body acc x); simpl; auto.
Qed.

(** A loop whose body never throws never throws; [P] is what the body
    keeps true of the accumulator. *)
Lemma foldM_ok (P : B -> Prop) (body : B -> A -> result B) (xs : list A) (acc : B) :
  P acc ->
  (forall acc x, P acc -> In x xs -> exists acc', body acc x = Ok acc' /\ P acc') ->
  exists acc', foldM body xs acc = Ok acc' /\ P acc'.
Proof.
  revert acc. induction xs as [|x xs IH]; intros acc HP Hbody; simpl.
  - eauto.
  - destruct (Hbody acc x HP) as (acc' & -> & HP'); [now left|]. simpl.
    apply IH; [assumption|]. intros a y Ha Hy. apply Hbody; [assumption|now right].
Qed.
End Monad.

Section Split.
Variable this : Plane.t.

Lemma classify_fold (vs : list Vertex.t) (a : Z) (l : list Z) :
  fold_left (classify_step this) vs (a, l)
  = (Z.lor a (fold_right Z.lor 0%Z (map (type_of this) vs)), l ++ map (type_of this) vs).
Proof.
  revert a l. induction vs as [|v vs IH]; intros a l; simpl.
  - now rewrite Z.lor_0_r, app_nil_r.
  - unfold classify_step at 2. simpl. rewrite IH.
    now rewrite Z.lor_assoc, <- app_assoc.
Qed.

Lemma classify_spec (vs : list Vertex.t) :
  classify this vs
  = (fold_right Z.lor 0%Z (map (type_of this) vs), map (type_of this) vs).
Proof. unfold classify. now rewrite classify_fold. Qed.

Lemma vertex_type_cases (t : float) :
  vertex_type t = COPLANAR \/ vertex_type t = FRONT \/ vertex_type t = BACK.
Proof.
  unfold vertex_type.
  destruct (t <? - Plane.EPSILON), (Plane.EPSILON <? t); auto.
Qed.

Lemma Polygon_new_ok (vs : list Vertex.t) (sh : option N) :
  (3 <= length vs)%nat ->
  exists p, Polygon.new vs sh = Ok p
            /\ Polygon.vertices p = vs /\ Polygon.shared p = sh.
Proof.
  destruct vs as [|v0 [|v1 [|v2 vs]]]; simpl; try lia. intros _.
  eexists. split; [reflexivity|]. split; reflexivity.
Qed.

Lemma walk_step_ok (vs : list Vertex.t) (types : list Z)
    (acc : list Vertex.t * list Vertex.t) (i : nat) :
  (i < length vs)%nat -> exists acc', walk_step this vs types acc i = Ok acc'.
Proof.
  intros Hi. unfold walk_step.
  destruct (lookup_lt_is_Some_2 vs i Hi) as [vi ->].
  assert (Hj : ((i + 1) mod length vs < length vs)%nat)
    by (apply Nat.mod_upper_bound; lia).
  destruct (lookup_lt_is_Some_2 vs _ Hj) as [vj ->]. simpl.
  destruct (Z.lor _ _ =? SPANNING)%Z; eauto.
Qed.

Lemma walk_ok (vs : list Vertex.t) (types : list Z) :
  exists fb, walk this vs types = Ok fb.
Proof.
  destruct (foldM_ok (fun _ => True) (walk_step this vs types)
              (seq 0 (length vs)) ([], [])) as (fb & H & _); [exact I| |eauto].
  intros acc i _ Hi. apply in_seq in Hi.
  destruct (walk_step_ok vs types acc i) as [acc' ->]; [lia|eauto].
Qed.

(** [splitPolygon] never throws. *)
Lemma splitPolygon_ok (polygon : Polygon.t) :
  exists evs, Plane_splitPolygon this polygon = Ok evs.
Proof.
  unfold Plane_splitPolygon.
  destruct (classify this (Polygon.vertices polygon)) as [pt types].
  destruct (pt =? COPLANAR)%Z; [eauto|].
  destruct (pt =? FRONT)%Z; [eauto|].
  destruct (pt =? BACK)%Z; [eauto|].
  destruct (pt =? SPANNING)%Z; [|eauto].
  destruct (walk_ok (Polygon.vertices polygon) types) as [[f b] ->]. rsimpl.
  destruct (3 <=? length f)%nat eqn:Hf; rsimpl;
    [apply Nat.leb_le in Hf;
     destruct (Polygon_new_ok f (Polygon.shared polygon) Hf) as (pf & -> & _); rsimpl|];
    (destruct (3 <=? length b)%nat eqn:Hb; rsimpl;
     [apply Nat.leb_le in Hb;
      destruct (Polygon_new_ok b (Polygon.shared polygon) Hb) as (pb & -> & _); rsimpl|]);
    eauto.
Qed.
End Split.

(** C2, amended.  For every plane and every position [p], with
    [t = normal . p - w]: the vertex is BACK exactly when [t < -EPSILON],
    FRONT exactly when [t > EPSILON], and COPLANAR otherwise, which is when
    [|t| <= EPSILON] (the bound included) or [t] is NaN.  The type of the
    polygon is the bitwise OR of the types of its vertices, with COPLANAR = 0,
    FRONT = 1, BACK = 2 and SPANNING = 3.  A polygon of type COPLANAR goes to
    [coplanarFront] exactly when the dot product of the two plane normals is
    above 0, and to [coplanarBack] otherwise. *)
Theorem splitPolygon_classification (this : Plane.t) (polygon : Polygon.t) :
  (forall p : Vector.t,
     let t := signed_distance this p in
     (vertex_type t = BACK <-> (t <? - Plane.EPSILON) = true)
     /\ (vertex_type t = FRONT <-> (Plane.EPSILON <? t) = true)
     /\ (vertex_type t = COPLANAR
         <-> (abs t <=? Plane.EPSILON) = true \/ is_nan t = true))
  /\ classify this (Polygon.vertices polygon)
     = (fold_right Z.lor COPLANAR (map (type_of this) (Polygon.vertices polygon)),
        map (type_of this) (Polygon.vertices polygon))
  /\ (COPLANAR, FRONT, BACK, SPANNING) = (0, 1, 2, 3)%Z
  /\ (fst (classify this (Polygon.vertices polygon)) = COPLANAR ->
      Plane_splitPolygon this polygon
      = Ok [(if 0 <? Vector.dot (Plane.normal this)
                       (Plane.normal (Polygon.plane polygon))
             then CoplanarFront else CoplanarBack, polygon)]).
Proof.
  split; [|split; [apply classify_spec|split; [reflexivity|]]].
  - intros p t. pose proof (coplanar_band t) as Hband.
    pose proof (sides_disjoint t) as Hdis.
    unfold vertex_type, BACK, FRONT, COPLANAR.
    destruct (t <? - Plane.EPSILON) eqn:Hb, (Plane.EPSILON <? t) eqn:Hf;
      repeat split; try discriminate; try congruence; try tauto.
    + intros _. specialize (Hdis eq_refl). congruence.
    + intros H. apply Hband in H. destruct H; congruence.
    + intros H. apply Hband in H. destruct H; congruence.
    + intros H. apply Hband in H. destruct H; congruence.
  - unfold Plane_splitPolygon.
    destruct (classify this (Polygon.vertices polygon)) as [pt types].
    simpl. intros ->. reflexivity.
Qed.

Lemma splitPolygon_classification_witness :
  fst (classify plane_z0 (Polygon.vertices flat_triangle)) = COPLANAR
  /\ Plane_splitPolygon plane_z0 flat_triangle = Ok [(CoplanarFront, flat_triangle)].
Proof.
  split; [vm_compute; reflexivity|].
  exact (proj2 (proj2 (proj2 (splitPolygon_classification plane_z0 flat_triangle)))
           eq_refl).
Defined.

(** C2 as stated fails: a vertex whose [t] is NaN is COPLANAR although
    [|t| <= EPSILON] does not hold.  The plane fitted to three points on a
    line has NaN for its normal and its [w], so every [t] is NaN. *)
Lemma coplanar_is_not_always_within_EPSILON :
  ~ (forall (this : Plane.t) (p : Vector.t),
       vertex_type (signed_distance this p) = COPLANAR ->
       (abs (signed_distance this p) <=? Plane.EPSILON) = true).
Proof.
  intros H. specialize (H colinear_plane (Vector.mk 0 0 0) eq_refl).
  vm_compute in H. discriminate.
Qed.

(** C7.  [splitPolygon] never throws.  On a SPANNING polygon it pushes a
    new front polygon exactly when the front list [f] of the walk has at
    least three vertices, and a new back polygon exactly when the back list
    [b] has; a shorter list is dropped and nothing is pushed for it. *)
Theorem splitPolygon_drops_slivers (this : Plane.t) (polygon : Polygon.t) :
  (exists evs, Plane_splitPolygon this polygon = Ok evs)
  /\ (fst (classify this (Polygon.vertices polygon)) = SPANNING ->
      exists f b front back,
        walk this (Polygon.vertices polygon)
          (snd (classify this (Polygon.vertices polygon))) = Ok (f, b)
        /\ Plane_splitPolygon this polygon = Ok (front ++ back)
        /\ (if (3 <=? length f)%nat
            then exists p, Polygon.new f (Polygon.shared polygon) = Ok p
                           /\ Polygon.vertices p = f /\ front = [(Front, p)]
            else front = [])
        /\ (if (3 <=? length b)%nat
            then exists p, Polygon.new b (Polygon.shared polygon) = Ok p
                           /\ Polygon.vertices p = b /\ back = [(Back, p)]
            else back = [])).
Proof.
  split; [apply splitPolygon_ok|].
  unfold Plane_splitPolygon.
  destruct (classify this (Polygon.vertices polygon)) as [pt types].
  cbn [fst snd]. intros ->.
  change (SPANNING =? COPLANAR)%Z with false. change (SPANNING =? FRONT)%Z with false.
  change (SPANNING =? BACK)%Z with false. change (SPANNING =? SPANNING)%Z with true.
  cbv iota.
  destruct (walk_ok this (Polygon.vertices polygon) types) as [[f b] Hw].
  exists f, b. rewrite Hw. rsimpl.
  destruct (3 <=? length f)%nat eqn:Hf; rsimpl;
    [apply Nat.leb_le in Hf;
     destruct (Polygon_new_ok f (Polygon.shared polygon) Hf) as (pf & Hpf & Hvf & _);
     rewrite Hpf; rsimpl|];
    (destruct (3 <=? length b)%nat eqn:Hb; rsimpl;
     [apply Nat.leb_le in Hb;
      destruct (Polygon_new_ok b (Polygon.shared polygon) Hb) as (pb & Hpb & Hvb & _);
      rewrite Hpb; rsimpl|]);
    eexists _, _; (split; [reflexivity|]); (split; [reflexivity|]);
    split; try reflexivity; eexists; eauto.
Qed.

Lemma splitPolygon_drops_slivers_witness :
  fst (classify plane_z0 (Polygon.vertices crossing_triangle)) = SPANNING
  /\ exists f b front back,
       walk plane_z0 (Polygon.vertices crossing_triangle)
         (snd (classify plane_z0 (Polygon.vertices crossing_triangle))) = Ok (f, b)
       /\ Plane_splitPolygon plane_z0 crossing_triangle = Ok (front ++ back)
       /\ (if (3 <=? length f)%nat
           then exists p, Polygon.new f (Polygon.shared crossing_triangle) = Ok p
                          /\ Polygon.vertices p = f /\ front = [(Front, p)]
           else front = [])
       /\ (if (3 <=? length b)%nat
           then exists p, Polygon.new b (Polygon.shared crossing_triangle) = Ok p
                          /\ Polygon.vertices p = b /\ back = [(Back, p)]
           else back = []).
Proof.
  split; [vm_compute; reflexivity|].
  exact (proj2 (splitPolygon_drops_slivers plane_z0 crossing_triangle) eq_refl).
Defined.

(** * Clipping *)

Lemma Node_induction (P : Node.t -> Prop) :
  (forall pl f b ps, child_all P f -> child_all P b -> P (Node.mk pl f b ps)) ->
  forall n, P n.
Proof.
  intros H. fix IH 1. intros [pl f b ps].
  apply H; [destruct f|destruct b]; simpl; auto.
Qed.

Lemma split_events_eq (pl : Plane.t) (p : Polygon.t) :
  Plane_splitPolygon pl p = Ok (split_events pl p).
Proof.
  unfold split_events. destruct (splitPolygon_ok pl p) as [evs ->]. reflexivity.
Qed.

Lemma clip_step_eq (pl : Plane.t) (acc : list Polygon.t * list Polygon.t)
    (p : Polygon.t) :
  Node.clip_step pl acc p
  = Ok (fst acc ++ Node.targets Node.to_front (split_events pl p),
        snd acc ++ Node.targets Node.to_back (split_events pl p)).
Proof. unfold Node.clip_step. now rewrite split_events_eq. Qed.

(** The loop of [clipPolygons] appends, polygon by polygon, what the
    specification collects in one go. *)
Lemma clip_loop (pl : Plane.t) (polygons front back : list Polygon.t) :
  foldM (Node.clip_step pl) polygons (front, back)
  = Ok (front ++ local_front pl polygons, back ++ local_back pl polygons).
Proof.
  revert front back. induction polygons as [|p ps IH]; intros front back.
  - simpl. now rewrite !app_nil_r.
  - cbn [foldM]. rewrite clip_step_eq. rsimpl.
    rewrite IH. cbn [fst snd local_front local_back flat_map].
    now rewrite <- !app_assoc.
Qed.

Lemma clipPolygons_unfold (this : Node.t) (polygons : list Polygon.t) :
  Node.clipPolygons this polygons
  = match Node.plane this with
    | None => Ok polygons
    | Some pl =>
      front ← match Node.front this with
              | Some n => Node.clipPolygons n (local_front pl polygons)
              | None => Ok (local_front pl polygons)
              end;
      back ← match Node.back this with
             | Some n => Node.clipPolygons n (local_back pl polygons)
             | None => Ok []
             end;
      Ok (front ++ back)
    end.
Proof.
  destruct this as [[pl|] f b ps]; [|reflexivity].
  cbn [Node.clipPolygons Node.plane Node.front Node.back].
  rewrite clip_loop. reflexivity.
Qed.

(** [clipPolygons] never throws. *)
Lemma clipPolygons_ok (this : Node.t) :
  forall polygons, exists r, Node.clipPolygons this polygons = Ok r.
Proof.
  induction this as [pl f b ps IHf IHb] using Node_induction. intros polygons.
  rewrite clipPolygons_unfold. cbn [Node.plane Node.front Node.back].
  destruct pl as [pl|]; [|eauto].
  destruct f as [f|]; cbn [child_all] in IHf;
    [destruct (IHf (local_front pl polygons)) as [fr ->]|]; rsimpl;
    (destruct b as [b|]; cbn [child_all] in IHb;
     [destruct (IHb (local_back pl polygons)) as [br ->]|]; rsimpl; eauto).
Qed.

(** C3.  On a node with a plane, [clipPolygons] splits every input polygon
    into the local front and back lists (what goes to [coplanarFront] joins
    front, what goes to [coplanarBack] joins back).  The front list is
    replaced by what the front child makes of it, or kept as it is when
    there is no front child; the back list is replaced by what the back child
    makes of it, or by the empty list when there is no back child.  The
    result is the front result followed by the back result. *)
Theorem clipPolygons_front_then_back (this : Node.t) (pl : Plane.t)
    (polygons : list Polygon.t) :
  Node.plane this = Some pl ->
  exists front back,
    Node.clipPolygons this polygons = Ok (front ++ back)
    /\ match Node.front this with
       | Some n => Node.clipPolygons n (local_front pl polygons) = Ok front
       | None => front = local_front pl polygons
       end
    /\ match Node.back this with
       | Some n => Node.clipPolygons n (local_back pl polygons) = Ok back
       | None => back = []
       end.
Proof.
  intros Hpl. rewrite clipPolygons_unfold, Hpl.
  destruct (Node.front this) as [f|].
  - destruct (clipPolygons_ok f (local_front pl polygons)) as [fr Hf].
    rewrite Hf. rsimpl.
    destruct (Node.back this) as [b|].
    + destruct (clipPolygons_ok b (local_back pl polygons)) as [br Hb].
      rewrite Hb. rsimpl. eauto.
    + rsimpl. eauto.
  - rsimpl. destruct (Node.back this) as [b|].
    + destruct (clipPolygons_ok b (local_back pl polygons)) as [br Hb].
      rewrite Hb. rsimpl. eauto.
    + rsimpl. eauto.
Qed.

Lemma clipPolygons_front_then_back_witness :
  Node.plane node_z0 = Some plane_z0
  /\ exists front back,
       Node.clipPolygons node_z0 [crossing_triangle] = Ok (front ++ back)
       /\ front = local_front plane_z0 [crossing_triangle]
       /\ back = [].
Proof.
  split; [reflexivity|].
  exact (clipPolygons_front_then_back node_z0 plane_z0 [crossing_triangle] eq_refl).
Defined.

(** * The boolean operators *)

(** Case analysis on the computation at the head of both sides. *)
Ltac head_result :=
  match goal with
  | |- mbind _ ?m = _ => destruct m; rsimpl; try reflexivity
  end.

(** C1.  [subtract] clones both operands, builds a tree from each clone,
    and then does exactly this, in this order: invert A, clip A to B, clip B
    to A, invert B, clip B to A, invert B, build A with the polygons left in
    B, invert A; it returns a CSG of the polygons of A's tree. *)
Theorem subtract_is_its_steps (fuel : nat) (A B : CSG.t) :
  CSG.subtract fuel A B = operator_of_steps subtract_steps fuel A B.
Proof.
  unfold CSG.subtract, operator_of_steps, subtract_steps.
  do 4 head_result.
  cbn [foldM run_step mbind result_bind fst].
  repeat (head_result; cbn [foldM run_step mbind result_bind fst]).
Qed.

(** ** Flipping twice *)

Lemma Vector_negate_involutive (v : Vector.t) :
  Vector.negate (Vector.negate v) = v.
Proof.
  destruct v as [x y z]. unfold Vector.negate. simpl.
  now rewrite !mul_m1_m1.
Qed.

Lemma Vertex_flip_involutive (v : Vertex.t) : Vertex.flip (Vertex.flip v) = v.
Proof.
  destruct v as [p n u c]. unfold Vertex.flip. simpl.
  now rewrite Vector_negate_involutive.
Qed.

Lemma Plane_flip_involutive (pl : Plane.t) : Plane.flip (Plane.flip pl) = pl.
Proof.
  destruct pl as [n w]. unfold Plane.flip. simpl.
  now rewrite Vector_negate_involutive, opp_involutive.
Qed.

Lemma map_flip_rev_involutive (vs : list Vertex.t) :
  map Vertex.flip (rev (map Vertex.flip (rev vs))) = vs.
Proof.
  rewrite <- map_rev, rev_involutive, map_map.
  rewrite <- (map_id vs) at 2. apply map_ext. apply Vertex_flip_involutive.
Qed.

Lemma Polygon_flip_involutive (p : Polygon.t) : Polygon.flip (Polygon.flip p) = p.
Proof.
  destruct p as [vs sh pl]. unfold Polygon.flip. simpl.
  now rewrite map_flip_rev_involutive, Plane_flip_involutive.
Qed.

Lemma Node_invert_involutive (n : Node.t) : Node.invert (Node.invert n) = n.
Proof.
  induction n as [pl f b ps IHf IHb] using Node_induction.
  cbn [Node.invert Node.plane Node.front Node.back Node.polygons]. f_equal.
  - destruct pl; simpl; [now rewrite Plane_flip_involutive|reflexivity].
  - destruct f; simpl in *; [now rewrite IHf|reflexivity].
  - destruct b; simpl in *; [now rewrite IHb|reflexivity].
  - rewrite map_map. rewrite <- (map_id ps) at 2.
    apply map_ext. apply Polygon_flip_involutive.
Qed.

(** ** An empty operand *)

Lemma clipPolygons_nil (this : Node.t) : Node.clipPolygons this [] = Ok [].
Proof.
  induction this as [pl f b ps IHf IHb] using Node_induction.
  rewrite clipPolygons_unfold. cbn [Node.plane Node.front Node.back].
  destruct pl as [pl|]; [|reflexivity].
  change (local_front pl []) with (@nil Polygon.t).
  change (local_back pl []) with (@nil Polygon.t).
  destruct f as [f|]; cbn [child_all] in IHf; [rewrite IHf|]; rsimpl;
    (destruct b as [b|]; cbn [child_all] in IHb; [rewrite IHb|]; reflexivity).
Qed.

Lemma clipTo_empty_r (this : Node.t) : Node.clipTo this Node.empty = Ok this.
Proof.
  induction this as [pl f b ps IHf IHb] using Node_induction.
  cbn [Node.clipTo Node.clipPolygons Node.plane Node.front Node.back
       Node.polygons Node.empty]. rsimpl.
  destruct f as [f|]; cbn [child_all] in IHf; [rewrite IHf|]; rsimpl;
    (destruct b as [b|]; cbn [child_all] in IHb; [rewrite IHb|]; reflexivity).
Qed.

Lemma clipTo_empty_l (bsp : Node.t) : Node.clipTo Node.empty bsp = Ok Node.empty.
Proof.
  cbn [Node.clipTo Node.empty Node.polygons Node.front Node.back Node.plane].
  now rewrite clipPolygons_nil.
Qed.

Lemma build_nil (fuel : nat) (this : Node.t) :
  Node.build (S fuel) this [] = Ok this.
Proof. reflexivity. Qed.

Lemma invert_empty : Node.invert Node.empty = Node.empty.
Proof. reflexivity. Qed.

(** C4, amended.  For every solid A, [A.union(empty)], [A.subtract(empty)]
    and [A.intersect(empty)] all return the same thing: the polygons of the
    BSP tree built from the clones of A's polygons, in the order of the tree.
    The empty operand adds nothing and takes nothing away, because its tree
    has no plane and clipping against it returns what it is given. *)
Theorem operators_with_empty (fuel : nat) (A : CSG.t) :
  let tree_of_A :=
    A' ← CSG.clone A;
    a ← Node.new fuel (CSG.polygons A');
    Ok (CSG.fromPolygons (Node.allPolygons a)) in
  CSG.union fuel A CSG.empty = tree_of_A
  /\ CSG.subtract fuel A CSG.empty = tree_of_A
  /\ CSG.intersect fuel A CSG.empty = tree_of_A.
Proof.
  intros tree_of_A. subst tree_of_A.
  unfold CSG.union, CSG.subtract, CSG.intersect.
  destruct (CSG.clone A) as [A'| |]; rsimpl; [|now auto..].
  destruct fuel as [|fuel]; [now auto|].
  destruct (Node.new (S fuel) (CSG.polygons A')) as [a| |]; rsimpl; [|now auto..].
  change (CSG.clone CSG.empty) with (Ok CSG.empty). rsimpl.
  change (Node.new (S fuel) (CSG.polygons CSG.empty)) with (Ok Node.empty). rsimpl.
  change (Node.allPolygons Node.empty) with (@nil Polygon.t).
  repeat (progress (rewrite ?invert_empty, ?clipTo_empty_l, ?clipTo_empty_r,
                      ?build_nil; rsimpl)).
  now rewrite Node_invert_involutive.
Qed.

(** C4 as stated fails twice.  [intersect] with the empty solid returns the
    polygon of a one-triangle solid, not the empty solid.  [union] with the
    empty solid returns three polygons for a solid of two triangles, because
    building the tree cuts the second triangle along the plane of the
    first. *)
Lemma empty_is_not_neutral :
  (exists r, CSG.intersect 2 one_triangle CSG.empty = Ok r
             /\ ~ Permutation (CSG.polygons r) (CSG.polygons CSG.empty))
  /\ (exists r, CSG.union 3 two_triangles CSG.empty = Ok r
                /\ ~ Permutation (CSG.polygons r) (CSG.polygons two_triangles)).
Proof.
  split; eexists; (split; [vm_compute; reflexivity|]);
    intros H; apply Permutation_length in H; vm_compute in H; discriminate.
Qed.

(** * Inverting a solid *)

Lemma Vector_copy_eq (this v : Vector.t) : Vector.copy this v = v.
Proof. now destruct v. Qed.

Lemma Vertex_clone_eq (v : Vertex.t) :
  Vertex.clone v
  = Vertex.mk (Vertex.pos v) (Vertex.normal v) (uv_of <$> Vertex.uv v) (Vertex.color v).
Proof.
  destruct v as [p n u c]. unfold Vertex.clone, Vertex.new. simpl.
  rewrite !Vector_copy_eq.
  destruct u, c; simpl; rewrite ?Vector_copy_eq; reflexivity.
Qed.

Lemma Vertex_clone_flip (v : Vertex.t) :
  Vertex.flip (Vertex.clone (Vertex.flip (Vertex.clone v))) = Vertex.clone v.
Proof.
  rewrite !Vertex_clone_eq. unfold Vertex.flip. simpl.
  rewrite Vector_negate_involutive. f_equal. now destruct (Vertex.uv v).
Qed.

Lemma mapR_Forall2 {A B} (f : A -> result B) (xs : list A) (ys : list B) :
  mapR f xs = Ok ys <-> Forall2 (fun x y => f x = Ok y) xs ys.
Proof.
  revert ys. induction xs as [|x xs IH]; intros ys; simpl.
  - split; [intros [= <-]; constructor|intros H; now inversion H].
  - split.
    + destruct (f x) as [y| |] eqn:Hy; rsimpl; try discriminate.
      destruct (mapR f xs) as [ys'| |]; rsimpl; try discriminate.
      intros [= <-]. constructor; [assumption|now apply IH].
    + intros H. inversion H as [|? y ? ys' Hy Hys]; subst.
      rewrite Hy. rsimpl. apply IH in Hys. rewrite Hys. reflexivity.
Qed.

Lemma mapR_ok {A B} (f : A -> result B) (xs : list A) :
  Forall (fun x => exists y, f x = Ok y) xs -> exists ys, mapR f xs = Ok ys.
Proof.
  induction 1 as [|x xs [y Hy] _ [ys IH]]; simpl; [eauto|].
  rewrite Hy, IH. rsimpl. eauto.
Qed.

(** What [clone] followed by [flip] makes of a polygon. *)
Lemma clone_flip_polygon (p : Polygon.t) (v0 v1 v2 : Vertex.t) :
  Polygon.vertices p !! 0%nat = Some v0 ->
  Polygon.vertices p !! 1%nat = Some v1 ->
  Polygon.vertices p !! 2%nat = Some v2 ->
  Polygon.flip <$> Polygon.clone p
  = Ok (Polygon.mk
          (map Vertex.flip (rev (map Vertex.clone (Polygon.vertices p))))
          (Polygon.shared p)
          (Plane.flip (Plane.fromPoints (Vertex.pos v0) (Vertex.pos v1) (Vertex.pos v2)))).
Proof.
  intros H0 H1 H2. unfold Polygon.clone, Polygon.new.
  rewrite !list_lookup_fmap, H0, H1, H2. simpl.
  now rewrite !Vector_copy_eq.
Qed.

Lemma inverse_nil : CSG.inverse (CSG.mk []) = Ok (CSG.mk []).
Proof. reflexivity. Qed.

Lemma inverse_cons (p : Polygon.t) (ps : list Polygon.t) :
  CSG.inverse (CSG.mk (p :: ps))
  = q ← Polygon.flip <$> Polygon.clone p;
    r ← CSG.inverse (CSG.mk ps);
    Ok (CSG.mk (q :: CSG.polygons r)).
Proof.
  unfold CSG.inverse, CSG.clone. cbn [CSG.polygons mapR].
  destruct (Polygon.clone p) as [c| |]; rsimpl; try reflexivity.
  destruct (mapR Polygon.clone ps) as [cs| |]; rsimpl; reflexivity.
Qed.

(** Inverting a polygon twice: the vertices come back in their order, and
    the plane is the flipped plane of the last three vertices, taken from
    the last one. *)
Lemma inverse_twice_polygon (p : Polygon.t) :
  (3 <= length (Polygon.vertices p))%nat ->
  exists q1 q v0 v1 v2,
    Polygon.flip <$> Polygon.clone p = Ok q1
    /\ Polygon.flip <$> Polygon.clone q1 = Ok q
    /\ Polygon.vertices q = map Vertex.clone (Polygon.vertices p)
    /\ Polygon.shared q = Polygon.shared p
    /\ rev (Polygon.vertices p) !! 0%nat = Some v0
    /\ rev (Polygon.vertices p) !! 1%nat = Some v1
    /\ rev (Polygon.vertices p) !! 2%nat = Some v2
    /\ Polygon.plane q
       = Plane.flip (Plane.fromPoints (Vertex.pos v0) (Vertex.pos v1) (Vertex.pos v2)).
Proof.
  intros Hlen.
  destruct (lookup_lt_is_Some_2 (Polygon.vertices p) 0) as [a0 Ha0]; [lia|].
  destruct (lookup_lt_is_Some_2 (Polygon.vertices p) 1) as [a1 Ha1]; [lia|].
  destruct (lookup_lt_is_Some_2 (Polygon.vertices p) 2) as [a2 Ha2]; [lia|].
  assert (Hrev : length (rev (Polygon.vertices p)) = length (Polygon.vertices p))
    by apply length_rev.
  destruct (lookup_lt_is_Some_2 (rev (Polygon.vertices p)) 0) as [v0 Hv0]; [lia|].
  destruct (lookup_lt_is_Some_2 (rev (Polygon.vertices p)) 1) as [v1 Hv1]; [lia|].
  destruct (lookup_lt_is_Some_2 (rev (Polygon.vertices p)) 2) as [v2 Hv2]; [lia|].
  eexists _, _, v0, v1, v2.
  split; [apply (clone_flip_polygon p a0 a1 a2); assumption|].
  split.
  - apply (clone_flip_polygon _ (Vertex.flip (Vertex.clone v0))
             (Vertex.flip (Vertex.clone v1)) (Vertex.flip (Vertex.clone v2)));
      cbn [Polygon.vertices]; rewrite list_lookup_fmap, <- map_rev, list_lookup_fmap;
      [rewrite Hv0|rewrite Hv1|rewrite Hv2]; reflexivity.
  - cbn [Polygon.vertices Polygon.shared Polygon.plane].
    split; [|split; [reflexivity|]].
    + rewrite <- !map_rev, rev_involutive, !map_map.
      apply map_ext. intros v. apply Vertex_clone_flip.
    + do 3 (split; [assumption|]).
      rewrite !Vertex_clone_eq. reflexivity.
Qed.

(** C5, amended.  For every CSG A whose polygons have at least three
    vertices, [A.inverse().inverse()] returns, polygon by polygon, the same
    vertices in the same order (winding), with the same positions, normals
    and colors, a uv whose [z] is 0, and the same shared tag.  The plane of
    a polygon is not carried over: it is fitted again to the vertices by each
    [clone], so it is the flipped plane through the last three vertices,
    taken in reverse order. *)
Theorem inverse_twice (A : CSG.t) :
  Forall (fun p => (3 <= length (Polygon.vertices p))%nat) (CSG.polygons A) ->
  exists r,
    (A' ← CSG.inverse A; CSG.inverse A') = Ok r
    /\ Forall2
         (fun p q =>
            Polygon.vertices q
            = map (fun v => Vertex.mk (Vertex.pos v) (Vertex.normal v)
                              (uv_of <$> Vertex.uv v) (Vertex.color v))
                (Polygon.vertices p)
            /\ Polygon.shared q = Polygon.shared p
            /\ exists v0 v1 v2,
                 rev (Polygon.vertices p) !! 0%nat = Some v0
                 /\ rev (Polygon.vertices p) !! 1%nat = Some v1
                 /\ rev (Polygon.vertices p) !! 2%nat = Some v2
                 /\ Polygon.plane q
                    = Plane.flip (Plane.fromPoints (Vertex.pos v0) (Vertex.pos v1)
                                    (Vertex.pos v2)))
         (CSG.polygons A) (CSG.polygons r).
Proof.
  destruct A as [ps]. cbn [CSG.polygons].
  induction 1 as [|p ps Hp _ (r & Hr & IH)].
  - exists (CSG.mk []). split; [reflexivity|constructor].
  - destruct (inverse_twice_polygon p Hp)
      as (q1 & q & v0 & v1 & v2 & H1 & H2 & Hvs & Hsh & Hv0 & Hv1 & Hv2 & Hpl).
    destruct (CSG.inverse (CSG.mk ps)) as [[ps1]| |] eqn:Hps1;
      rsimpl in Hr; try discriminate.
    exists (CSG.mk (q :: CSG.polygons r)).
    rewrite inverse_cons, H1. rsimpl. rewrite Hps1. rsimpl. cbn [CSG.polygons].
    rewrite inverse_cons, H2. rsimpl. rewrite Hr. rsimpl. split; [reflexivity|].
    cbn [CSG.polygons]. constructor; [|assumption].
    split; [|split; [assumption|eauto 10]].
    rewrite Hvs. apply map_ext, Vertex_clone_eq.
Qed.

Lemma inverse_twice_witness :
  exists r,
    (A' ← CSG.inverse tilted_solid; CSG.inverse A') = Ok r
    /\ Forall2
         (fun p q =>
            Polygon.vertices q
            = map (fun v => Vertex.mk (Vertex.pos v) (Vertex.normal v)
                              (uv_of <$> Vertex.uv v) (Vertex.color v))
                (Polygon.vertices p)
            /\ Polygon.shared q = Polygon.shared p
            /\ exists v0 v1 v2,
                 rev (Polygon.vertices p) !! 0%nat = Some v0
                 /\ rev (Polygon.vertices p) !! 1%nat = Some v1
                 /\ rev (Polygon.vertices p) !! 2%nat = Some v2
                 /\ Polygon.plane q
                    = Plane.flip (Plane.fromPoints (Vertex.pos v0) (Vertex.pos v1)
                                    (Vertex.pos v2)))
         (CSG.polygons tilted_solid) (CSG.polygons r).
Proof.
  apply (inverse_twice tilted_solid).
  repeat constructor.
Defined.

(** C5 as stated fails for the planes: inverting the tilted triangle twice
    gives the same vertices, but a plane whose [w] is another number than
    the [w] the triangle was made with. *)
Lemma inverse_twice_changes_plane :
  exists r,
    (A' ← CSG.inverse tilted_solid; CSG.inverse A') = Ok r
    /\ map Polygon.vertices (CSG.polygons r)
       = map Polygon.vertices (CSG.polygons tilted_solid)
    /\ map Polygon.plane (CSG.polygons r)
       <> map Polygon.plane (CSG.polygons tilted_solid).
Proof.
  eexists. split; [vm_compute; reflexivity|]. split; [reflexivity|].
  intros H.
  apply (f_equal (fun pls => (fun pl => Prim2SF (Plane.w pl)) <$> pls)) in H.
  vm_compute in H. discriminate.
Qed.

(** * The plane of a degenerate polygon *)

Lemma is_zero_spec (z : float) :
  is_zero z = true -> exists s, Prim2SF z = S754_zero s.
Proof.
  unfold is_zero. rewrite FloatAxioms.eqb_spec.
  change (Prim2SF 0) with (S754_zero false). unfold SFeqb, SFcompare.
  destruct (Prim2SF z) as [s|s| |s m e]; try (destruct s; discriminate); eauto.
  discriminate.
Qed.

Lemma is_finite_false (y : float) :
  Prim2SF y = S754_nan \/ (exists s, Prim2SF y = S754_infinity s) ->
  is_finite y = false.
Proof.
  unfold is_finite, is_infinity, is_nan.
  rewrite !FloatAxioms.eqb_spec, abs_spec.
  change (Prim2SF infinity) with (S754_infinity false).
  intros [->|[s ->]]; [reflexivity|]. destruct s; reflexivity.
Qed.

(** A division by zero gives NaN or an infinity. *)
Lemma div_zero_not_finite (x z : float) :
  is_zero z = true -> is_finite (x / z) = false.
Proof.
  intros Hz. destruct (is_zero_spec z Hz) as [s Hs].
  apply is_finite_false. rewrite div_spec, Hs. unfold SF64div, SFdiv.
  destruct (Prim2SF x); eauto.
Qed.

(** C6, amended.  The constructor of [Polygon] does not look for a
    degenerate plane.  Given three or more vertices of which the first three
    are on one line, so that the cross product [(v1 - v0) x (v2 - v0)] has
    length zero, it signals no error: it returns a polygon with these
    vertices, whose plane has a normal without a finite component (the
    cross product divided by zero). *)
Theorem Polygon_new_degenerate (vertices : list Vertex.t) (shared : option N)
    (v0 v1 v2 : Vertex.t) :
  vertices !! 0%nat = Some v0 ->
  vertices !! 1%nat = Some v1 ->
  vertices !! 2%nat = Some v2 ->
  is_zero (Vector.length
             (Vector.cross (Vector.sub (Vertex.pos v1) (Vertex.pos v0))
                (Vector.sub (Vertex.pos v2) (Vertex.pos v0)))) = true ->
  exists p,
    Polygon.new vertices shared = Ok p
    /\ Polygon.vertices p = vertices
    /\ Polygon.shared p = shared
    /\ is_finite (Vector.x (Plane.normal (Polygon.plane p))) = false
    /\ is_finite (Vector.y (Plane.normal (Polygon.plane p))) = false
    /\ is_finite (Vector.z (Plane.normal (Polygon.plane p))) = false.
Proof.
  intros H0 H1 H2 Hz. unfold Polygon.new. rewrite H0, H1, H2. rsimpl.
  eexists. split; [reflexivity|].
  cbn [Polygon.vertices Polygon.shared Polygon.plane Plane.fromPoints Plane.normal].
  rewrite !Vector_copy_eq.
  unfold Vector.normalize, Vector.unit, Vector.dividedBy, Vector.clone.
  cbn [Vector.x Vector.y Vector.z].
  repeat split; apply div_zero_not_finite; exact Hz.
Qed.

Lemma Polygon_new_degenerate_witness :
  exists p,
    Polygon.new colinear_triangle None = Ok p
    /\ Polygon.vertices p = colinear_triangle
    /\ Polygon.shared p = None
    /\ is_finite (Vector.x (Plane.normal (Polygon.plane p))) = false
    /\ is_finite (Vector.y (Plane.normal (Polygon.plane p))) = false
    /\ is_finite (Vector.z (Plane.normal (Polygon.plane p))) = false.
Proof.
  apply (Polygon_new_degenerate colinear_triangle None
           (vertex_at 0 0 0) (vertex_at 1 1 1) (vertex_at 2 2 2));
    vm_compute; reflexivity.
Defined.

(** C6 as stated fails: for the points (0,0,0), (1,1,1) and (2,2,2) the
    cross product is zero, and the constructor returns a polygon whose plane
    is NaN all over. *)
Lemma colinear_polygon_is_not_rejected :
  Vector.cross (Vector.mk 1 1 1) (Vector.mk 2 2 2) = Vector.mk 0 0 0
  /\ Polygon.new colinear_triangle None
     = Ok (Polygon.mk colinear_triangle None
             (Plane.mk (Vector.mk nan nan nan) nan))
  /\ ~ (exists e, Polygon.new colinear_triangle None = Throw e).
Proof.
  split; [vm_compute; reflexivity|].
  split; [vm_compute; reflexivity|].
  intros [e He]. vm_compute in He. discriminate.
Qed.

(** * Importing a mesh *)

Lemma array_set_next {A} (done : list A) (tc : nat) (p : A) :
  array_set ((Some <$> done) ++ replicate (tc - length done) None) (length done) p
  = (Some <$> (done ++ [p])) ++ replicate (tc - (length done + 1)) None.
Proof.
  unfold array_set. rewrite length_app, length_fmap, length_replicate.
  destruct (length done + (tc - length done) <=? length done)%nat eqn:Hle.
  - apply Nat.leb_le in Hle.
    replace (length done <? length done + (tc - length done))%nat with false
      by (symmetry; apply Nat.ltb_ge; lia).
    replace (tc - length done)%nat with 0%nat by lia.
    replace (tc - (length done + 1))%nat with 0%nat by lia.
    replace (length done - (length done + 0))%nat with 0%nat by lia.
    simpl. rewrite !app_nil_r, fmap_app. reflexivity.
  - apply Nat.leb_gt in Hle.
    replace (length done <? length done + (tc - length done))%nat with true
      by (symmetry; apply Nat.ltb_lt; lia).
    replace (tc - length done)%nat with (S (tc - (length done + 1))) by lia.
    rewrite fmap_app, <- app_assoc. simpl.
    rewrite insert_app_r_alt by (rewrite length_fmap; lia).
    rewrite length_fmap, Nat.sub_diag. reflexivity.
Qed.

Lemma mapR_app {A B} (f : A -> result B) (xs ys : list A) :
  mapR f (xs ++ ys) = xs' ← mapR f xs; ys' ← mapR f ys; Ok (xs' ++ ys').
Proof.
  induction xs as [|x xs IH]; simpl.
  - destruct (mapR f ys); reflexivity.
  - destruct (f x); rsimpl; try reflexivity. rewrite IH.
    destruct (mapR f xs); rsimpl; try reflexivity.
    destruct (mapR f ys); reflexivity.
Qed.

Lemma mapR_prop_of {A} (xs : list A) : mapR prop_of (Some <$> xs) = Ok xs.
Proof.
  induction xs as [|x xs IH]; [reflexivity|].
  change (Some <$> x :: xs) with (Some x :: (Some <$> xs)).
  cbn [mapR prop_of]. rsimpl. now rewrite IH.
Qed.

Lemma triangles_step (geom : BufferGeometry.t) (objectIndex : option N)
    (index : list nat) (fuel k pli : nat) (polys : list (option Polygon.t)) :
  (3 * k < length index)%nat ->
  CSG.triangles (S fuel) geom objectIndex index (3 * k) pli polys
  = p ← triangle_at geom objectIndex index k;
    CSG.triangles fuel geom objectIndex index (3 * k + 3) (pli + 1)
      (array_set polys pli p).
Proof.
  intros Hk. cbn [CSG.triangles].
  replace (3 * k <? length index)%nat with true
    by (symmetry; apply Nat.ltb_lt; lia).
  unfold triangle_at.
  destruct (CSG.vertex_of geom (index !! (3 * k)%nat)); rsimpl; try reflexivity.
  destruct (CSG.vertex_of geom (index !! (3 * k + 1)%nat)); rsimpl; try reflexivity.
  destruct (CSG.vertex_of geom (index !! (3 * k + 2)%nat)); rsimpl; reflexivity.
Qed.

(** The loop of [fromGeometry], from its turn number [length done] on. *)
Lemma triangles_from (geom : BufferGeometry.t) (objectIndex : option N)
    (index : list nat) (tc : nat) :
  forall (n fuel : nat) (done : list Polygon.t),
    (length index <= 3 * (length done + n))%nat ->
    (3 * (length done + n) < length index + 3)%nat ->
    (length index <= fuel + 3 * length done)%nat ->
    CSG.triangles fuel geom objectIndex index (3 * length done) (length done)
      ((Some <$> done) ++ replicate (tc - length done) None)
    = ps ← mapR (triangle_at geom objectIndex index) (seq (length done) n);
      Ok ((Some <$> (done ++ ps)) ++ replicate (tc - (length done + n)) None).
Proof.
  induction n as [|n IH]; intros fuel done Hlo Hhi Hfuel.
  - destruct fuel; cbn [CSG.triangles seq mapR]; rsimpl;
      (replace (3 * length done <? length index)%nat with false
         by (symmetry; apply Nat.ltb_ge; lia));
      now rewrite app_nil_r, Nat.add_0_r.
  - destruct fuel as [|fuel]; [lia|].
    rewrite triangles_step by lia. cbn [seq mapR].
    destruct (triangle_at geom objectIndex index (length done)) as [p| |];
      rsimpl; try reflexivity.
    rewrite array_set_next.
    replace (3 * length done + 3)%nat with (3 * length (done ++ [p]))%nat
      by (rewrite length_app; simpl; lia).
    replace (length done + 1)%nat with (length (done ++ [p]))
      by (rewrite length_app; simpl; lia).
    rewrite IH by (rewrite ?length_app; simpl; lia).
    replace (S (length done)) with (length (done ++ [p]))
      by (rewrite length_app; simpl; lia).
    destruct (mapR _ (seq _ n)) as [ps| |]; rsimpl; try reflexivity.
    rewrite <- app_assoc. simpl.
    replace (length (done ++ [p]) + n)%nat with (length done + S n)%nat
      by (rewrite length_app; simpl; lia).
    reflexivity.
Qed.

(** [fromGeometry] makes one polygon for every started group of three index
    entries: [(n + 2) / 3] polygons for [n] entries. *)
Lemma fromGeometry_eq (geom : BufferGeometry.t) (objectIndex : option N) :
  CSG.fromGeometry geom objectIndex
  = index ← CSG.geometry_index geom;
    ps ← mapR (triangle_at geom objectIndex index) (seq 0 ((length index + 2) / 3));
    Ok (CSG.mk ps).
Proof.
  unfold CSG.fromGeometry.
  destruct (CSG.geometry_index geom) as [index| |]; rsimpl; try reflexivity.
  pose proof (Nat.div_mod_eq (length index + 2) 3) as Hdiv.
  pose proof (Nat.mod_upper_bound (length index + 2) 3) as Hmod.
  pose proof (Nat.div_mod_eq (length index) 3) as Hdiv'.
  pose proof (Nat.mod_upper_bound (length index) 3) as Hmod'.
  pose proof (triangles_from geom objectIndex index (length index / 3)
                ((length index + 2) / 3) (length index) []) as H.
  cbn -[Nat.div Nat.modulo mapR CSG.triangles] in H.
  rewrite Nat.sub_0_r in H. rewrite H by lia. clear H.
  destruct (mapR _ (seq 0 _)) as [ps| |]; rsimpl; try reflexivity.
  replace (length index / 3 - (length index + 2) / 3)%nat with 0%nat by lia.
  simpl. rewrite app_nil_r, mapR_prop_of. reflexivity.
Qed.

Lemma mapR_length {A B} (f : A -> result B) (xs : list A) (ys : list B) :
  mapR f xs = Ok ys -> length ys = length xs.
Proof.
  intros H. apply mapR_Forall2 in H.
  symmetry. induction H; simpl; congruence.
Qed.

(** With [n] index entries, [n] not a multiple of 3, [fromGeometry] returns
    one polygon more than [triCount = floor(n / 3)]. *)
Lemma fromGeometry_count (geom : BufferGeometry.t) (objectIndex : option N)
    (index : list nat) (csg : CSG.t) :
  CSG.geometry_index geom = Ok index ->
  CSG.fromGeometry geom objectIndex = Ok csg ->
  length (CSG.polygons csg) = ((length index + 2) / 3)%nat
  /\ (length index mod 3 <> 0 ->
      length (CSG.polygons csg) = (length index / 3 + 1)%nat)%nat.
Proof.
  intros Hidx. rewrite fromGeometry_eq, Hidx. rsimpl.
  destruct (mapR _ _) as [ps| |] eqn:Hps; rsimpl; try discriminate.
  intros [= <-]. cbn [CSG.polygons].
  apply mapR_length in Hps. rewrite length_seq in Hps.
  split; [assumption|]. intros Hmod. rewrite Hps.
  pose proof (Nat.div_mod_eq (length index + 2) 3).
  pose proof (Nat.mod_upper_bound (length index + 2) 3).
  pose proof (Nat.div_mod_eq (length index) 3).
  pose proof (Nat.mod_upper_bound (length index) 3).
  lia.
Qed.

(** C10, at a mesh of four vertices without an index.  The index is
    [0, 1, 2, 3] and [triCount] is 1, but the loop runs while [i < 4], so it
    runs a second time, for [i = 3]: [fromGeometry] returns two polygons,
    and the second one is made of vertex 3 and of two vertices read at the
    missing index entries 4 and 5, whose coordinates are NaN. *)
Theorem fromGeometry_keeps_trailing_entry :
  CSG.geometry_index four_vertices = Ok [0; 1; 2; 3]%nat
  /\ (length [0; 1; 2; 3]%nat / 3 = 1)%nat
  /\ exists p0 p1,
       CSG.fromGeometry four_vertices None = Ok (CSG.mk [p0; p1])
       /\ map Vertex.pos (Polygon.vertices p0)
          = [Vector.mk 0 0 0; Vector.mk 1 0 0; Vector.mk 0 1 0]
       /\ map Vertex.pos (Polygon.vertices p1)
          = [Vector.mk 0 0 1; Vector.mk nan nan nan; Vector.mk nan nan nan].
Proof.
  split; [reflexivity|]. split; [reflexivity|].
  eexists _, _. split; [vm_compute; reflexivity|].
  split; reflexivity.
Qed.

(** * Exporting a mesh *)

Lemma fan_from_length (v0 : Vertex.t) (vs : list Vertex.t) :
  length (fan_from v0 vs) = (length vs - 1)%nat.
Proof.
  induction vs as [|a vs IH]; [reflexivity|].
  destruct vs as [|b vs]; [reflexivity|].
  change (fan_from v0 (a :: b :: vs)) with ((v0, a, b) :: fan_from v0 (b :: vs)).
  simpl length in *. rewrite IH. lia.
Qed.

Lemma fan_length (vs : list Vertex.t) : length (fan vs) = (length vs - 2)%nat.
Proof. destruct vs as [|v0 vs]; [reflexivity|]. simpl. rewrite fan_from_length. lia. Qed.

Lemma fan_from_turns (v0 : Vertex.t) (rest pre : list Vertex.t) :
  Forall2 (fun j t => t.1.1 = v0
                      /\ (pre ++ rest) !! (j - 2)%nat = Some t.1.2
                      /\ (pre ++ rest) !! (j - 1)%nat = Some t.2)
    (seq (length pre + 2) (length rest - 1)) (fan_from v0 rest).
Proof.
  revert pre. induction rest as [|a rest IH]; intros pre; [constructor|].
  destruct rest as [|b rest]; [constructor|].
  change (fan_from v0 (a :: b :: rest)) with ((v0, a, b) :: fan_from v0 (b :: rest)).
  replace (length (a :: b :: rest) - 1)%nat with (S (length (b :: rest) - 1))
    by (simpl; lia).
  cbn [seq]. constructor.
  - cbn [fst snd]. split; [reflexivity|]. split.
    + rewrite lookup_app_r by lia.
      now replace (length pre + 2 - 2 - length pre)%nat with 0%nat by lia.
    + rewrite lookup_app_r by lia.
      now replace (length pre + 2 - 1 - length pre)%nat with 1%nat by lia.
  - specialize (IH (pre ++ [a])). rewrite <- app_assoc in IH. simpl in IH.
    rewrite length_app in IH. simpl in IH.
    replace (S (length pre + 2)) with (length pre + 1 + 2)%nat by lia.
    exact IH.
Qed.

Lemma fan_turns (vs : list Vertex.t) :
  Forall2 (fan_turn vs) (seq 3 (length vs - 2)) (fan vs).
Proof.
  destruct vs as [|v0 rest]; [constructor|].
  pose proof (fan_from_turns v0 rest [v0]) as H. simpl in H.
  replace (length (v0 :: rest) - 2)%nat with (length rest - 1)%nat by (simpl; lia).
  eapply Forall2_impl; [exact H|]. intros j t (H0 & Ha & Hb).
  split; [simpl; congruence|]. split; assumption.
Qed.

(** ** Buffers *)

Lemma put_filled (b : nbuf.t) (w : list float) (cap : nat) (x : float) :
  filled b w cap -> (length w < cap)%nat ->
  filled (nbuf.put b x) (w ++ [fround x]) cap.
Proof.
  intros (Htop & Harr & Hle) Hlt. unfold filled, nbuf.put. cbn [nbuf.top nbuf.array].
  rewrite length_app. simpl length. split; [lia|]. split; [|lia].
  rewrite Htop, Harr.
  replace (cap - length w)%nat with (S (cap - (length w + 1))) by lia.
  cbn [replicate].
  replace (length w) with (length w + 0)%nat at 1 by lia.
  rewrite insert_app_r. simpl. now rewrite <- app_assoc.
Qed.

Lemma write3_filled (b : nbuf.t) (w : list float) (cap : nat) (v : Vector.t) :
  filled b w cap -> (length w + 3 <= cap)%nat ->
  exists b', nbuf.write3 b (Some v) = Ok b'
             /\ filled b' (w ++ map fround (coords v)) cap.
Proof.
  intros Hb Hcap. eexists. split; [reflexivity|].
  unfold coords. cbn [map].
  change (w ++ [fround (Vector.x v); fround (Vector.y v); fround (Vector.z v)])
    with (w ++ [fround (Vector.x v)] ++ [fround (Vector.y v)] ++ [fround (Vector.z v)]).
  rewrite !app_assoc.
  apply put_filled; [apply put_filled; [apply put_filled|]|];
    rewrite ?length_app; simpl; try lia. exact Hb.
Qed.

(** In [H : (m ≫= k) = Ok _], the computation [m] has returned. *)
Ltac ok_head H :=
  match type of H with
  | mbind _ ?m = Ok _ =>
    let E := fresh "E" in
    destruct m eqn:E; rsimpl in H; [|discriminate H..]
  end.

Lemma fan_step_spec (p : Polygon.t) (o o' : CSG.out) (j : nat)
    (t : Vertex.t * Vertex.t * Vertex.t) (w wn : list float) (cap : nat) :
  fan_turn (Polygon.vertices p) j t ->
  CSG.fan_step p o j = Ok o' ->
  filled (CSG.overtices o) w cap -> filled (CSG.onormals o) wn cap ->
  (length w + 9 <= cap)%nat -> (length wn + 9 <= cap)%nat ->
  filled (CSG.overtices o')
    (w ++ map fround (coords (Vertex.pos t.1.1) ++ coords (Vertex.pos t.1.2)
                      ++ coords (Vertex.pos t.2))) cap
  /\ filled (CSG.onormals o')
       (wn ++ map fround (coords (Vertex.normal t.1.1) ++ coords (Vertex.normal t.1.2)
                          ++ coords (Vertex.normal t.2))) cap.
Proof.
  intros (H0 & Ha & Hb) Hstep Hv Hn Hcap Hcapn.
  unfold CSG.fan_step in Hstep. ok_head Hstep.
  rewrite H0, Ha, Hb in Hstep. cbn [prop_of] in Hstep. rsimpl in Hstep.
  destruct (write3_filled _ _ _ (Vertex.pos t.1.1) Hv) as (b1 & E1 & F1); [lia|].
  destruct (write3_filled _ _ _ (Vertex.pos t.1.2) F1) as (b2 & E2 & F2);
    [rewrite length_app; simpl; lia|].
  destruct (write3_filled _ _ _ (Vertex.pos t.2) F2) as (b3 & E3 & F3);
    [rewrite !length_app; simpl; lia|].
  destruct (write3_filled _ _ _ (Vertex.normal t.1.1) Hn) as (c1 & G1 & K1); [lia|].
  destruct (write3_filled _ _ _ (Vertex.normal t.1.2) K1) as (c2 & G2 & K2);
    [rewrite length_app; simpl; lia|].
  destruct (write3_filled _ _ _ (Vertex.normal t.2) K2) as (c3 & G3 & K3);
    [rewrite !length_app; simpl; lia|].
  rewrite E1 in Hstep. rsimpl in Hstep. rewrite E2 in Hstep. rsimpl in Hstep.
  rewrite E3 in Hstep. rsimpl in Hstep.
  rewrite G1 in Hstep. rsimpl in Hstep. rewrite G2 in Hstep. rsimpl in Hstep.
  rewrite G3 in Hstep. rsimpl in Hstep.
  do 2 ok_head Hstep. injection Hstep as <-. cbn [CSG.overtices CSG.onormals].
  rewrite !map_app, !app_assoc. split; assumption.
Qed.

(** The positions and the normals that the fan loop of one polygon writes. *)
Lemma fan_loop_spec (p : Polygon.t) (cap : nat) (js : list nat)
    (ts : list (Vertex.t * Vertex.t * Vertex.t)) :
  Forall2 (fan_turn (Polygon.vertices p)) js ts ->
  forall (o o' : CSG.out) (w wn : list float),
    foldM (CSG.fan_step p) js o = Ok o' ->
    filled (CSG.overtices o) w cap -> filled (CSG.onormals o) wn cap ->
    (length w + 9 * length ts <= cap)%nat ->
    (length wn + 9 * length ts <= cap)%nat ->
    filled (CSG.overtices o')
      (w ++ map fround
              (flat_map (fun t : Vertex.t * Vertex.t * Vertex.t =>
                           coords (Vertex.pos t.1.1) ++ coords (Vertex.pos t.1.2)
                           ++ coords (Vertex.pos t.2)) ts)) cap
    /\ filled (CSG.onormals o')
         (wn ++ map fround
                  (flat_map (fun t : Vertex.t * Vertex.t * Vertex.t =>
                               coords (Vertex.normal t.1.1) ++ coords (Vertex.normal t.1.2)
                               ++ coords (Vertex.normal t.2)) ts)) cap.
Proof.
  induction 1 as [|j t js ts Hjt _ IH]; intros o o' w wn Hloop Hv Hn Hcap Hcapn.
  - injection Hloop as <-. simpl. now rewrite !app_nil_r.
  - cbn [foldM] in Hloop. ok_head Hloop. simpl length in Hcap, Hcapn.
    destruct (fan_step_spec p o a j t w wn cap Hjt E Hv Hn) as [Hv' Hn']; [lia..|].
    cbn [flat_map].
    repeat match goal with
           | |- context [?a ++ map fround (?x ++ flat_map ?f ?l)] =>
             replace (a ++ map fround (x ++ flat_map f l))
               with ((a ++ map fround x) ++ map fround (flat_map f l))
               by (rewrite (map_app fround x), (app_assoc a); reflexivity)
           end.
    apply (IH a o'); try assumption;
      rewrite ?length_app, ?length_map, ?length_app; simpl; lia.
Qed.

Lemma polygon_step_spec (tc : Z) (p : Polygon.t) (o o' : CSG.out)
    (w wn : list float) (cap : nat) :
  CSG.polygon_step tc o p = Ok o' ->
  filled (CSG.overtices o) w cap -> filled (CSG.onormals o) wn cap ->
  (length w + 9 * length (fan (Polygon.vertices p)) <= cap)%nat ->
  (length wn + 9 * length (fan (Polygon.vertices p)) <= cap)%nat ->
  filled (CSG.overtices o') (w ++ map fround (fan_values Vertex.pos p)) cap
  /\ filled (CSG.onormals o') (wn ++ map fround (fan_values Vertex.normal p)) cap.
Proof.
  intros Hstep Hv Hn Hcap Hcapn. unfold CSG.polygon_step in Hstep.
  do 2 ok_head Hstep.
  exact (fan_loop_spec p cap _ _ (fan_turns (Polygon.vertices p)) _ o' w wn
           Hstep Hv Hn Hcap Hcapn).
Qed.

Lemma fan_count_cons (p : Polygon.t) (ps : list Polygon.t) :
  fan_count (p :: ps) = (length (fan (Polygon.vertices p)) + fan_count ps)%nat.
Proof. unfold fan_count. simpl. now rewrite length_app. Qed.

Lemma fan_count_snoc (ps : list Polygon.t) (p : Polygon.t) :
  fan_count (ps ++ [p]) = (fan_count ps + (length (Polygon.vertices p) - 2))%nat.
Proof.
  unfold fan_count. rewrite flat_map_app, length_app. cbn [flat_map].
  now rewrite app_nil_r, fan_length.
Qed.

Lemma fan_values_length (field : Vertex.t -> Vector.t) (p : Polygon.t) :
  length (fan_values field p) = (9 * length (fan (Polygon.vertices p)))%nat.
Proof.
  unfold fan_values. induction (fan (Polygon.vertices p)) as [|t ts IH]; [reflexivity|].
  cbn [flat_map]. rewrite !length_app, IH. simpl. lia.
Qed.

Lemma fans_length (field : Vertex.t -> Vector.t) (ps : list Polygon.t) :
  length (flat_map (fan_values field) ps) = (9 * fan_count ps)%nat.
Proof.
  induction ps as [|p ps IH]; [reflexivity|].
  cbn [flat_map]. rewrite length_app, fan_values_length, IH, fan_count_cons. lia.
Qed.

(** The positions and the normals that the loop over the polygons writes. *)
Lemma polygons_loop_spec (tc : Z) (cap : nat) (ps : list Polygon.t) :
  forall (o o' : CSG.out) (w wn : list float),
    foldM (CSG.polygon_step tc) ps o = Ok o' ->
    filled (CSG.overtices o) w cap -> filled (CSG.onormals o) wn cap ->
    (length w + 9 * fan_count ps <= cap)%nat ->
    (length wn + 9 * fan_count ps <= cap)%nat ->
    filled (CSG.overtices o')
      (w ++ map fround (flat_map (fan_values Vertex.pos) ps)) cap
    /\ filled (CSG.onormals o')
         (wn ++ map fround (flat_map (fan_values Vertex.normal) ps)) cap.
Proof.
  induction ps as [|p ps IH]; intros o o' w wn Hloop Hv Hn Hcap Hcapn.
  - injection Hloop as <-. simpl. now rewrite !app_nil_r.
  - cbn [foldM] in Hloop. ok_head Hloop. rewrite fan_count_cons in Hcap, Hcapn.
    destruct (polygon_step_spec tc p o a w wn cap E Hv Hn) as [Hv' Hn']; [lia..|].
    cbn [flat_map]. rewrite !map_app, !app_assoc.
    apply (IH a o'); try assumption;
      rewrite length_app, length_map, fan_values_length; lia.
Qed.

Lemma triCount_fold (ps : list Polygon.t) (n : Z) :
  Forall (fun p => (2 <= length (Polygon.vertices p))%nat) ps ->
  fold_left (fun n p => (n + (Z.of_nat (length (Polygon.vertices p)) - 2))%Z) ps n
  = (n + Z.of_nat (fan_count ps))%Z.
Proof.
  intros H. revert n. induction H as [|p ps Hp _ IH]; intros n; simpl.
  - unfold fan_count. simpl. lia.
  - rewrite IH, fan_count_cons, fan_length. lia.
Qed.

Lemma triCount_eq (ps : list Polygon.t) :
  Forall (fun p => (2 <= length (Polygon.vertices p))%nat) ps ->
  CSG.triCount ps = Z.of_nat (fan_count ps).
Proof. intros H. unfold CSG.triCount. now rewrite triCount_fold. Qed.

Lemma new_filled (n : nat) :
  nbuf.new (Z.of_nat n * 3 * 3) = Ok (nbuf.mk 0 (replicate (9 * n) 0))
  /\ filled (nbuf.mk 0 (replicate (9 * n) 0)) [] (9 * n).
Proof.
  split.
  - unfold nbuf.new.
    replace (Z.of_nat n * 3 * 3 <? 0)%Z with false by (symmetry; apply Z.ltb_ge; lia).
    do 2 f_equal. f_equal. lia.
  - unfold filled. simpl. rewrite Nat.sub_0_r. repeat split; lia.
Qed.

Lemma filled_full (b : nbuf.t) (w : list float) :
  filled b w (length w) -> nbuf.array b = w.
Proof. intros (_ & -> & _). now rewrite Nat.sub_diag, app_nil_r. Qed.

(** What [toGeometry] exports, when it returns: the fans of the polygons,
    one after the other, as binary32 numbers. *)
Lemma toGeometry_fans (csg : CSG.t) (g : BufferGeometry.t) :
  CSG.toGeometry csg = Ok g ->
  Forall (fun p => (2 <= length (Polygon.vertices p))%nat) (CSG.polygons csg) ->
  BufferGeometry.position g
  = Some (BufferAttribute.mk
            (map fround (flat_map (fan_values Vertex.pos) (CSG.polygons csg))) 3)
  /\ BufferGeometry.normal g
     = Some (BufferAttribute.mk
               (map fround (flat_map (fan_values Vertex.normal) (CSG.polygons csg))) 3).
Proof.
  intros Hg Hlen. unfold CSG.toGeometry in Hg.
  rewrite (triCount_eq _ Hlen) in Hg.
  destruct (new_filled (fan_count (CSG.polygons csg))) as [Hnew Hfilled].
  rewrite Hnew in Hg. rsimpl in Hg. ok_head Hg.
  destruct (polygons_loop_spec _ (9 * fan_count (CSG.polygons csg)) _ _ _ [] [] E)
    as [Hv Hn]; cbn [CSG.overtices CSG.onormals]; try assumption; try (simpl; lia).
  cbn [app] in Hv, Hn.
  destruct (fold_left CSG.group_step _ _) as [[[groups gbase] index] gi].
  injection Hg as <-. cbn [BufferGeometry.position BufferGeometry.normal].
  rewrite <- (fans_length Vertex.pos), <- (length_map fround) in Hv.
  rewrite <- (fans_length Vertex.normal), <- (length_map fround) in Hn.
  now rewrite (filled_full _ _ Hv), (filled_full _ _ Hn).
Qed.

(** ** Exporting what was imported *)

Lemma put_top (b : nbuf.t) (x : float) : nbuf.top (nbuf.put b x) = (nbuf.top b + 1)%nat.
Proof. reflexivity. Qed.

Lemma new_ok (ct : Z) : (0 <= ct)%Z -> exists b, nbuf.new ct = Ok b.
Proof.
  intros H. unfold nbuf.new.
  replace (ct <? 0)%Z with false by (symmetry; apply Z.ltb_ge; lia). eauto.
Qed.

Lemma triangle_step_ok (tc : Z) (tag : option N) (uvs colors : bool) (k : nat)
    (o : CSG.out) (p : Polygon.t) :
  (0 <= tc)%Z ->
  mesh_triangle tag uvs colors p ->
  export_state tag uvs colors k o ->
  exists o', CSG.polygon_step tc o p = Ok o' /\ export_state tag uvs colors (S k) o'.
Proof.
  intros Htc (Htag & v0 & v1 & v2 & Hvs & (Hu0 & Hc0) & (Hu1 & Hc1) & (Hu2 & Hc2))
    (Htop & Hgrps & Huv & Hcol).
  unfold CSG.polygon_step. rewrite Hvs, Htag. cbn [lookup list_lookup length].
  destruct (new_ok (tc * 3 * 3)) as [cb Hcb]; [lia|].
  destruct (new_ok (tc * 2 * 3)) as [ub Hub]; [lia|].
  rewrite Hcb, Hub. cbn [Nat.sub seq foldM]. unfold CSG.fan_step.
  rewrite Hvs, Htag. cbn [lookup list_lookup Nat.sub CSG.overtices CSG.onormals
                            CSG.ouvs CSG.ocolors CSG.ogrps prop_of].
  rewrite Hgrps, Htop.
  replace (9 * k / 3)%nat with (3 * k)%nat
    by (apply Nat.div_unique_exact; lia).
  assert (Hseq : seq 0 (3 * k) ++ [(3 * k)%nat; (3 * k + 1)%nat; (3 * k + 2)%nat]
                 = seq 0 (3 * S k)).
  { replace (3 * S k)%nat with (3 * k + 3)%nat by lia.
    rewrite seq_app. simpl. repeat f_equal; lia. }
  destruct o as [vb nb ou oc og]. cbn [CSG.overtices CSG.onormals CSG.ouvs
    CSG.ocolors CSG.ogrps present] in *.
  clear Hgrps.
  destruct tag as [key|]; [destruct k as [|k']|];
    (destruct (Vertex.uv v0) as [u0|] eqn:Eu0, (Vertex.uv v1) as [u1|] eqn:Eu1,
       (Vertex.uv v2) as [u2|] eqn:Eu2; cbn [present] in Hu0, Hu1, Hu2;
     try congruence);
    (destruct (Vertex.color v0) as [c0|] eqn:Ec0, (Vertex.color v1) as [c1|] eqn:Ec1,
       (Vertex.color v2) as [c2|] eqn:Ec2; cbn [present] in Hc0, Hc1, Hc2;
     try congruence);
    destruct ou as [ou|], oc as [oc|]; cbn [present] in Huv, Hcol;
    try (specialize (Huv eq_refl)); try (specialize (Hcol eq_refl));
    try congruence;
    repeat (progress
              (rewrite ?N.eqb_refl, ?Eu0, ?Eu1, ?Eu2, ?Ec0, ?Ec1, ?Ec2;
               cbn [grps_ensure grps_push nbuf.write3 nbuf.write2 prop_of
                    mbind mret fmap result_bind result_ret result_fmap
                    CSG.overtices CSG.onormals CSG.ouvs CSG.ocolors CSG.ogrps]));
    (eexists; split; [reflexivity|]);
    unfold export_state;
    cbn [CSG.overtices CSG.onormals CSG.ouvs CSG.ocolors CSG.ogrps present];
    rewrite ?put_top, ?Htop, ?Hseq;
    repeat split; try congruence; try lia; try reflexivity.
Qed.

Lemma triangles_loop_ok (tc : Z) (tag : option N) (uvs colors : bool)
    (ps : list Polygon.t) :
  (0 <= tc)%Z ->
  Forall (mesh_triangle tag uvs colors) ps ->
  forall (k : nat) (o : CSG.out),
    export_state tag uvs colors k o ->
    exists o', foldM (CSG.polygon_step tc) ps o = Ok o'
               /\ export_state tag uvs colors (k + length ps) o'.
Proof.
  intros Htc. induction 1 as [|p ps Hp _ IH]; intros k o Ho.
  - exists o. split; [reflexivity|]. now rewrite Nat.add_0_r.
  - destruct (triangle_step_ok tc tag uvs colors k o p Htc Hp Ho) as (o1 & E & Ho1).
    destruct (IH (S k) o1 Ho1) as (o' & E' & Ho').
    exists o'. cbn [foldM]. rewrite E. rsimpl. split; [assumption|].
    simpl length. now replace (k + S (length ps))%nat with (S k + length ps)%nat by lia.
Qed.

Lemma mesh_triangle_length (tag : option N) (uvs colors : bool) (p : Polygon.t) :
  mesh_triangle tag uvs colors p -> length (Polygon.vertices p) = 3%nat.
Proof. intros (_ & v0 & v1 & v2 & -> & _). reflexivity. Qed.

Lemma mesh_fan_count (tag : option N) (uvs colors : bool) (ps : list Polygon.t) :
  Forall (mesh_triangle tag uvs colors) ps -> fan_count ps = length ps.
Proof.
  induction 1 as [|p ps Hp _ IH]; [reflexivity|].
  rewrite fan_count_cons, fan_length, IH, (mesh_triangle_length _ _ _ _ Hp).
  reflexivity.
Qed.

(** [toGeometry] returns on what [fromGeometry] makes; the index it sets
    lists the corners in their order. *)
Lemma toGeometry_mesh_ok (tag : option N) (uvs colors : bool) (ps : list Polygon.t) :
  Forall (mesh_triangle tag uvs colors) ps ->
  exists g,
    CSG.toGeometry (CSG.mk ps) = Ok g
    /\ BufferGeometry.index g
       = match tag, ps with
         | Some _, _ :: _ => Some (seq 0 (3 * length ps))
         | _, _ => None
         end.
Proof.
  intros Hps.
  assert (Hlen : Forall (fun p => (2 <= length (Polygon.vertices p))%nat) ps).
  { eapply Forall_impl; [exact Hps|]. intros p Hp.
    rewrite (mesh_triangle_length _ _ _ _ Hp). lia. }
  unfold CSG.toGeometry. cbn [CSG.polygons].
  rewrite (triCount_eq _ Hlen).
  destruct (new_filled (fan_count ps)) as [-> _]. rsimpl.
  destruct (triangles_loop_ok (Z.of_nat (fan_count ps)) tag uvs colors ps
              ltac:(lia) Hps 0
              (CSG.mkOut (nbuf.mk 0 (replicate (9 * fan_count ps) 0))
                 (nbuf.mk 0 (replicate (9 * fan_count ps) 0)) None None []))
    as (o & -> & Htop & Hgrps & _).
  { unfold export_state. simpl. repeat split; try discriminate. now destruct tag. }
  rsimpl. rewrite Hgrps. simpl plus.
  destruct tag as [key|], ps as [|p ps']; simpl length; cbn [fold_left CSG.group_step];
    eexists; (split; [reflexivity|]); reflexivity.
Qed.

Lemma vertex_of_ok (geom : BufferGeometry.t) (posattr normalattr : BufferAttribute.t)
    (i : nat) :
  BufferGeometry.position geom = Some posattr ->
  BufferGeometry.normal geom = Some normalattr ->
  exists v,
    CSG.vertex_of geom (Some i) = Ok v
    /\ coords (Vertex.pos v) = corner (BufferAttribute.array posattr) i
    /\ mesh_vertex (present (BufferGeometry.uv geom))
         (present (BufferGeometry.color geom)) v.
Proof.
  intros Hp Hn. unfold CSG.vertex_of. rewrite Hp, Hn. cbn [prop_of]. rsimpl.
  eexists. split; [reflexivity|]. split.
  - unfold corner, coords, Vertex.new. cbn [Vertex.pos Vector.copy Vector.x Vector.y Vector.z
      fmap option_fmap option_map].
    rewrite (Nat.add_comm 1 (3 * i)), (Nat.add_comm 2 (3 * i)). reflexivity.
  - unfold mesh_vertex, Vertex.new. cbn [Vertex.uv Vertex.color].
    destruct (BufferGeometry.uv geom), (BufferGeometry.color geom); split; reflexivity.
Qed.

(** The triangles that [fromGeometry] makes of whole groups of index
    entries. *)
Lemma import_triangles (geom : BufferGeometry.t) (posattr normalattr : BufferAttribute.t)
    (tag : option N) :
  BufferGeometry.position geom = Some posattr ->
  BufferGeometry.normal geom = Some normalattr ->
  forall (n s : nat) (pre rest : list nat),
    length pre = (3 * s)%nat -> length rest = (3 * n)%nat ->
    exists ps,
      mapR (triangle_at geom tag (pre ++ rest)) (seq s n) = Ok ps
      /\ length ps = n
      /\ Forall (mesh_triangle tag (present (BufferGeometry.uv geom))
                   (present (BufferGeometry.color geom))) ps
      /\ flat_map (fan_values Vertex.pos) ps
         = flat_map (corner (BufferAttribute.array posattr)) rest.
Proof.
  intros Hp Hn. induction n as [|n IH]; intros s pre rest Hpre Hrest.
  - destruct rest; [|discriminate]. exists []. repeat split. constructor.
  - destruct rest as [|i0 [|i1 [|i2 rest]]]; simpl in Hrest; try lia.
    destruct (vertex_of_ok geom posattr normalattr i0 Hp Hn) as (v0 & E0 & C0 & M0).
    destruct (vertex_of_ok geom posattr normalattr i1 Hp Hn) as (v1 & E1 & C1 & M1).
    destruct (vertex_of_ok geom posattr normalattr i2 Hp Hn) as (v2 & E2 & C2 & M2).
    destruct (IH (S s) (pre ++ [i0; i1; i2]) rest) as (ps & Eps & Hlen & Hall & Hflat);
      [rewrite length_app; simpl; lia|lia|].
    rewrite <- app_assoc in Eps. simpl in Eps.
    exists (Polygon.mk [v0; v1; v2] tag
              (Plane.fromPoints (Vertex.pos v0) (Vertex.pos v1) (Vertex.pos v2)) :: ps).
    split; [|split; [simpl; lia|split]].
    + cbn [seq mapR].
      assert (Et : triangle_at geom tag (pre ++ i0 :: i1 :: i2 :: rest) s
                   = Ok (Polygon.mk [v0; v1; v2] tag
                           (Plane.fromPoints (Vertex.pos v0) (Vertex.pos v1)
                              (Vertex.pos v2)))).
      { unfold triangle_at. rewrite !lookup_app_r by lia. rewrite Hpre.
        replace (3 * s - 3 * s)%nat with 0%nat by lia.
        replace (3 * s + 1 - 3 * s)%nat with 1%nat by lia.
        replace (3 * s + 2 - 3 * s)%nat with 2%nat by lia.
        cbn [lookup list_lookup]. rewrite E0, E1, E2. reflexivity. }
      rewrite Et. rsimpl. rewrite Eps. reflexivity.
    + constructor; [|assumption]. split; [reflexivity|].
      exists v0, v1, v2. repeat split; assumption || apply M0 || apply M1 || apply M2.
    + cbn [flat_map]. rewrite Hflat. unfold fan_values at 1.
      cbn [Polygon.vertices fan fan_from flat_map fst snd].
      rewrite C0, C1, C2, app_nil_r, <- !app_assoc. reflexivity.
Qed.

Lemma read_in (pa : list float) (j : nat) :
  (j < length pa)%nat -> read pa (Some j) ∈ pa.
Proof.
  intros Hj. unfold read. simpl.
  destruct (lookup_lt_is_Some_2 pa j Hj) as [x Hx]. rewrite Hx. simpl.
  eapply list_elem_of_lookup_2. exact Hx.
Qed.

(** Numbers that are binary32 already are exported as they are. *)
Lemma fround_corners (pa : list float) (index : list nat) :
  Forall (fun i => (3 * i + 2 < length pa)%nat) index ->
  Forall (fun x => fround x = x) pa ->
  map fround (flat_map (corner pa) index) = flat_map (corner pa) index.
Proof.
  intros Hidx Hpa. rewrite Forall_forall in Hpa.
  induction Hidx as [|i index Hi _ IH]; [reflexivity|].
  cbn [flat_map]. rewrite map_app, IH. f_equal.
  unfold corner. cbn [map]. rewrite !Hpa by (apply read_in; lia). reflexivity.
Qed.

(** Reading a buffer of [3 m] numbers corner by corner gives it back. *)
Lemma corners_of_buffer (m : nat) :
  forall (s : nat) (pre l : list float),
    length pre = (3 * s)%nat -> length l = (3 * m)%nat ->
    flat_map (corner (pre ++ l)) (seq s m) = l.
Proof.
  induction m as [|m IH]; intros s pre l Hpre Hl.
  - now destruct l.
  - destruct l as [|a [|b [|c l]]]; simpl in Hl; try lia.
    cbn [seq flat_map]. unfold corner at 1. unfold read. cbn [mbind option_bind].
    rewrite !lookup_app_r by lia. rewrite Hpre.
    replace (3 * s - 3 * s)%nat with 0%nat by lia.
    replace (3 * s + 1 - 3 * s)%nat with 1%nat by lia.
    replace (3 * s + 2 - 3 * s)%nat with 2%nat by lia.
    cbn [lookup list_lookup default]. simpl app. do 3 f_equal.
    specialize (IH (S s) (pre ++ [a; b; c]) l).
    rewrite <- app_assoc in IH. apply IH; [rewrite length_app; simpl; lia|lia].
Qed.

Lemma valid_mesh_spec (geom : BufferGeometry.t) :
  valid_mesh geom = true ->
  exists index posattr normalattr,
    CSG.geometry_index geom = Ok index
    /\ BufferGeometry.position geom = Some posattr
    /\ BufferGeometry.normal geom = Some normalattr
    /\ (length index mod 3 = 0)%nat
    /\ Forall (fun i => (3 * i + 2 < length (BufferAttribute.array posattr))%nat) index
    /\ Forall (fun x => fround x = x) (BufferAttribute.array posattr).
Proof.
  unfold valid_mesh.
  destruct (CSG.geometry_index geom) as [index| |]; try discriminate.
  destruct (BufferGeometry.position geom) as [posattr|]; try discriminate.
  destruct (BufferGeometry.normal geom) as [normalattr|]; try discriminate.
  intros H. apply andb_prop in H as [H Hf]. apply andb_prop in H as [Hm Hi].
  exists index, posattr, normalattr. repeat split.
  - now apply Nat.eqb_eq in Hm.
  - rewrite forallb_forall in Hi. apply List.Forall_forall. intros i Hin.
    apply Nat.ltb_lt. now apply Hi.
  - rewrite forallb_forall in Hf. apply List.Forall_forall. intros x Hin.
    apply Leibniz.eqb_spec. now apply Hf.
Qed.

Lemma corner_length (pa : list float) (index : list nat) :
  length (flat_map (corner pa) index) = (3 * length index)%nat.
Proof.
  induction index as [|i index IH]; [reflexivity|].
  cbn [flat_map]. rewrite length_app, IH. simpl. lia.
Qed.

(** ** The uvs and the colors of the fans *)

Lemma write2_filled (b : nbuf.t) (w : list float) (cap : nat) (v : Vector.t) :
  filled b w cap -> (length w + 2 <= cap)%nat ->
  exists b', nbuf.write2 b (Some v) = Ok b'
             /\ filled b' (w ++ map fround (pair_of v)) cap.
Proof.
  intros Hb Hcap. eexists. split; [reflexivity|].
  unfold pair_of. cbn [map].
  change (w ++ [fround (Vector.x v); fround (Vector.y v)])
    with (w ++ [fround (Vector.x v)] ++ [fround (Vector.y v)]).
  rewrite !app_assoc.
  apply put_filled; [apply put_filled|]; rewrite ?length_app; simpl; try lia.
  exact Hb.
Qed.

Lemma corners_values_app (nums : Vector.t -> list float)
    (field : Vertex.t -> option Vector.t) (ts ts' : list (Vertex.t * Vertex.t * Vertex.t)) :
  corners_values nums field (ts ++ ts')
  = x ← corners_values nums field ts; y ← corners_values nums field ts';
    Some (x ++ y).
Proof.
  induction ts as [|t ts IH]; cbn [app corners_values].
  - cbn. now destruct (corners_values nums field ts').
  - destruct (corner_values nums field t) as [x|]; [|reflexivity]. cbn.
    rewrite IH. destruct (corners_values nums field ts) as [xs|]; [|reflexivity].
    cbn. destruct (corners_values nums field ts') as [ys|]; [|reflexivity].
    cbn. now rewrite app_assoc.
Qed.

Lemma fans_values_snoc (nums : Vector.t -> list float)
    (field : Vertex.t -> option Vector.t) (ps : list Polygon.t) (p : Polygon.t) :
  fans_values nums field (ps ++ [p])
  = x ← fans_values nums field ps;
    y ← corners_values nums field (fan (Polygon.vertices p));
    Some (x ++ y).
Proof.
  unfold fans_values. rewrite flat_map_app. cbn [flat_map].
  now rewrite app_nil_r, corners_values_app.
Qed.

Lemma from_first_snoc {A} (f : A -> bool) (xs : list A) (x : A) :
  from_first f (xs ++ [x])
  = if existsb f xs then from_first f xs ++ [x]
    else if f x then [x] else [].
Proof.
  induction xs as [|y xs IH]; cbn [app from_first existsb]; [reflexivity|].
  destruct (f y); [reflexivity|]. exact IH.
Qed.

Lemma from_first_none {A} (f : A -> bool) (xs : list A) :
  existsb f xs = false -> from_first f xs = [].
Proof.
  induction xs as [|y xs IH]; cbn [from_first existsb]; [reflexivity|].
  destruct (f y); [discriminate|]. exact IH.
Qed.

Lemma filter_none {A} (f : A -> bool) (xs : list A) :
  existsb f xs = false -> List.filter f xs = [].
Proof.
  induction xs as [|y xs IH]; cbn [List.filter existsb]; [reflexivity|].
  destruct (f y); [discriminate|]. exact IH.
Qed.

Lemma new_filled_cap (ct : Z) (b : nbuf.t) :
  nbuf.new ct = Ok b -> filled b [] (Z.to_nat ct).
Proof.
  unfold nbuf.new. destruct (ct <? 0)%Z; [discriminate|]. intros [= <-].
  unfold filled. cbn. rewrite Nat.sub_0_r. repeat split. lia.
Qed.

(** One turn of the fan loop, for the uvs: they are written when there is
    a buffer and the first vertex has a uv. *)
Lemma fan_step_uv (p : Polygon.t) (o o' : CSG.out) (j : nat)
    (t : Vertex.t * Vertex.t * Vertex.t) :
  fan_turn (Polygon.vertices p) j t ->
  CSG.fan_step p o j = Ok o' ->
  match CSG.ouvs o, Vertex.uv t.1.1 with
  | Some b, Some _ =>
    forall w cap, filled b w cap -> (length w + 6 <= cap)%nat ->
      exists x b', corner_values pair_of Vertex.uv t = Some x
                   /\ length x = 6%nat
                   /\ CSG.ouvs o' = Some b'
                   /\ filled b' (w ++ map fround x) cap
  | _, _ => CSG.ouvs o' = CSG.ouvs o
  end.
Proof.
  intros (H0 & Ha & Hb) Hstep. unfold CSG.fan_step in Hstep. ok_head Hstep.
  rewrite H0, Ha, Hb in Hstep. cbn [prop_of] in Hstep. rsimpl in Hstep.
  do 6 ok_head Hstep.
  destruct (CSG.ouvs o) as [b|] eqn:Qo.
  - destruct (Vertex.uv t.1.1) as [u0|] eqn:Q0.
    + intros w cap Hw Hcap.
      destruct (Vertex.uv t.1.2) as [ua|] eqn:Qa;
        [|cbn in Hstep; discriminate Hstep].
      destruct (Vertex.uv t.2) as [ub|] eqn:Qb;
        [|cbn in Hstep; discriminate Hstep].
      destruct (write2_filled _ _ _ u0 Hw) as (b1 & W1 & F1); [lia|].
      destruct (write2_filled _ _ _ ua F1) as (b2 & W2 & F2);
        [rewrite length_app; simpl; lia|].
      destruct (write2_filled _ _ _ ub F2) as (b3 & W3 & F3);
        [rewrite !length_app; simpl; lia|].
      rewrite W1 in Hstep. rsimpl in Hstep. rewrite W2 in Hstep. rsimpl in Hstep.
      rewrite W3 in Hstep. rsimpl in Hstep. ok_head Hstep.
      injection Hstep as <-. cbn [CSG.ouvs].
      unfold corner_values. rewrite Q0, Qa, Qb. cbn.
      eexists _, b3. split; [reflexivity|]. split; [reflexivity|].
      split; [reflexivity|].
      rewrite <- !app_assoc in F3. exact F3.
    + rsimpl in Hstep. ok_head Hstep. now injection Hstep as <-.
  - rsimpl in Hstep. ok_head Hstep. now injection Hstep as <-.
Qed.

(** One turn of the fan loop, for the colors: they are written when there
    is a buffer. *)
Lemma fan_step_color (p : Polygon.t) (o o' : CSG.out) (j : nat)
    (t : Vertex.t * Vertex.t * Vertex.t) :
  fan_turn (Polygon.vertices p) j t ->
  CSG.fan_step p o j = Ok o' ->
  match CSG.ocolors o with
  | Some b =>
    forall w cap, filled b w cap -> (length w + 9 <= cap)%nat ->
      exists x b', corner_values coords Vertex.color t = Some x
                   /\ length x = 9%nat
                   /\ CSG.ocolors o' = Some b'
                   /\ filled b' (w ++ map fround x) cap
  | None => CSG.ocolors o' = None
  end.
Proof.
  intros (H0 & Ha & Hb) Hstep. unfold CSG.fan_step in Hstep. ok_head Hstep.
  rewrite H0, Ha, Hb in Hstep. cbn [prop_of] in Hstep. rsimpl in Hstep.
  do 7 ok_head Hstep.
  destruct (CSG.ocolors o) as [b|] eqn:Qo.
  - intros w cap Hw Hcap.
    destruct (Vertex.color t.1.1) as [c0|] eqn:Q0;
      [|cbn in Hstep; discriminate Hstep].
    destruct (Vertex.color t.1.2) as [ca|] eqn:Qa;
      [|cbn in Hstep; discriminate Hstep].
    destruct (Vertex.color t.2) as [cb|] eqn:Qb;
      [|cbn in Hstep; discriminate Hstep].
    destruct (write3_filled _ _ _ c0 Hw) as (b1 & W1 & F1); [lia|].
    destruct (write3_filled _ _ _ ca F1) as (b2 & W2 & F2);
      [rewrite length_app; simpl; lia|].
    destruct (write3_filled _ _ _ cb F2) as (b3 & W3 & F3);
      [rewrite !length_app; simpl; lia|].
    rewrite W1 in Hstep. rsimpl in Hstep. rewrite W2 in Hstep. rsimpl in Hstep.
    rewrite W3 in Hstep. rsimpl in Hstep.
    injection Hstep as <-. cbn [CSG.ocolors].
    unfold corner_values. rewrite Q0, Qa, Qb. cbn.
    eexists _, b3. split; [reflexivity|]. split; [reflexivity|].
    split; [reflexivity|].
    rewrite <- !app_assoc in F3. exact F3.
  - rsimpl in Hstep. now injection Hstep as <-.
Qed.

Lemma has_first_turn (field : Vertex.t -> option Vector.t) (p : Polygon.t) (j : nat)
    (t : Vertex.t * Vertex.t * Vertex.t) :
  fan_turn (Polygon.vertices p) j t -> has_first field p = present (field t.1.1).
Proof.
  intros (H0 & _). unfold has_first.
  destruct (Polygon.vertices p) as [|v0 vs]; [discriminate|].
  cbn in H0. now injection H0 as <-.
Qed.

Lemma corner_values_length (nums : Vector.t -> list float) (n : nat)
    (field : Vertex.t -> option Vector.t) (ts : list (Vertex.t * Vertex.t * Vertex.t)) :
  forall xs,
    (forall t x, corner_values nums field t = Some x -> length x = n) ->
    corners_values nums field ts = Some xs -> length xs = (n * length ts)%nat.
Proof.
  induction ts as [|t ts IH]; intros xs Hn; cbn [corners_values].
  - intros [= <-]. cbn. lia.
  - destruct (corner_values nums field t) as [x|] eqn:Ex; [|discriminate]. cbn.
    destruct (corners_values nums field ts) as [ys|] eqn:Eys; [|discriminate]. cbn.
    intros [= <-]. rewrite length_app, (Hn t x Ex), (IH ys Hn eq_refl).
    cbn [length]. lia.
Qed.

(** The fan loop of one polygon, for the uvs. *)
Lemma fan_loop_uv (p : Polygon.t) (js : list nat)
    (ts : list (Vertex.t * Vertex.t * Vertex.t)) :
  Forall2 (fan_turn (Polygon.vertices p)) js ts ->
  forall o o' : CSG.out,
    foldM (CSG.fan_step p) js o = Ok o' ->
    match CSG.ouvs o, has_first Vertex.uv p with
    | Some b, true =>
      forall w cap, filled b w cap -> (length w + 6 * length ts <= cap)%nat ->
        exists xs b', corners_values pair_of Vertex.uv ts = Some xs
                      /\ length xs = (6 * length ts)%nat
                      /\ CSG.ouvs o' = Some b'
                      /\ filled b' (w ++ map fround xs) cap
    | _, _ => CSG.ouvs o' = CSG.ouvs o
    end.
Proof.
  induction 1 as [|j t js ts Hjt _ IH]; intros o o' Hloop.
  - injection Hloop as <-. destruct (CSG.ouvs o) as [b|]; [|reflexivity].
    destruct (has_first Vertex.uv p); [|reflexivity].
    intros w cap Hw _. exists [], b. cbn. now rewrite app_nil_r.
  - cbn [foldM] in Hloop. ok_head Hloop.
    pose proof (fan_step_uv p o a j t Hjt E) as Hstep.
    specialize (IH a o' Hloop).
    rewrite (has_first_turn Vertex.uv p j t Hjt) in *.
    destruct (CSG.ouvs o) as [b|].
    + destruct (Vertex.uv t.1.1) as [u0|]; cbn [present] in *.
      * intros w cap Hw Hcap. cbn [length] in Hcap.
        destruct (Hstep w cap Hw) as (x & b1 & Ex & Lx & Eb1 & F1); [lia|].
        rewrite Eb1 in IH.
        destruct (IH (w ++ map fround x) cap F1) as (xs & b' & Exs & Lxs & Eb' & F');
          [rewrite length_app, length_map; lia|].
        exists (x ++ xs), b'. cbn [corners_values]. rewrite Ex, Exs. cbn.
        split; [reflexivity|]. split; [rewrite length_app; lia|].
        split; [exact Eb'|]. now rewrite map_app, app_assoc.
      * rewrite Hstep in IH. exact IH.
    + rewrite Hstep in IH. exact IH.
Qed.

(** The fan loop of one polygon, for the colors. *)
Lemma fan_loop_color (p : Polygon.t) (js : list nat)
    (ts : list (Vertex.t * Vertex.t * Vertex.t)) :
  Forall2 (fan_turn (Polygon.vertices p)) js ts ->
  forall o o' : CSG.out,
    foldM (CSG.fan_step p) js o = Ok o' ->
    match CSG.ocolors o with
    | Some b =>
      forall w cap, filled b w cap -> (length w + 9 * length ts <= cap)%nat ->
        exists xs b', corners_values coords Vertex.color ts = Some xs
                      /\ length xs = (9 * length ts)%nat
                      /\ CSG.ocolors o' = Some b'
                      /\ filled b' (w ++ map fround xs) cap
    | None => CSG.ocolors o' = None
    end.
Proof.
  induction 1 as [|j t js ts Hjt _ IH]; intros o o' Hloop.
  - injection Hloop as <-. destruct (CSG.ocolors o) as [b|]; [|reflexivity].
    intros w cap Hw _. exists [], b. cbn. now rewrite app_nil_r.
  - cbn [foldM] in Hloop. ok_head Hloop.
    pose proof (fan_step_color p o a j t Hjt E) as Hstep.
    specialize (IH a o' Hloop).
    destruct (CSG.ocolors o) as [b|].
    + intros w cap Hw Hcap. cbn [length] in Hcap.
      destruct (Hstep w cap Hw) as (x & b1 & Ex & Lx & Eb1 & F1); [lia|].
      rewrite Eb1 in IH.
      destruct (IH (w ++ map fround x) cap F1) as (xs & b' & Exs & Lxs & Eb' & F');
        [rewrite length_app, length_map; lia|].
      exists (x ++ xs), b'. cbn [corners_values]. rewrite Ex, Exs. cbn.
      split; [reflexivity|]. split; [rewrite length_app; lia|].
      split; [exact Eb'|]. now rewrite map_app, app_assoc.
    + rewrite Hstep in IH. exact IH.
Qed.

Lemma existsb_snoc {A} (f : A -> bool) (xs : list A) (x : A) :
  existsb f (xs ++ [x]) = existsb f xs || f x.
Proof. rewrite existsb_app. cbn. now rewrite orb_false_r. Qed.

Lemma filter_snoc {A} (f : A -> bool) (xs : list A) (x : A) :
  List.filter f (xs ++ [x]) = List.filter f xs ++ (if f x then [x] else []).
Proof. rewrite List.filter_app. cbn. now destruct (f x). Qed.

Lemma has_first_lookup (field : Vertex.t -> option Vector.t) (p : Polygon.t) :
  has_first field p
  = match Polygon.vertices p !! 0%nat with
    | Some v0 => present (field v0)
    | None => false
    end.
Proof. unfold has_first. now destruct (Polygon.vertices p). Qed.

(** The second [forEach] of [toGeometry], one polygon, for the uvs. *)
Lemma polygon_step_uv (tc : Z) (done : list Polygon.t) (p : Polygon.t)
    (o o' : CSG.out) :
  CSG.polygon_step tc o p = Ok o' ->
  (6 * fan_count (done ++ [p]) <= Z.to_nat (tc * 2 * 3))%nat ->
  field_inv pair_of Vertex.uv (List.filter (has_first Vertex.uv)) 6
    (Z.to_nat (tc * 2 * 3)) done (CSG.ouvs o) ->
  field_inv pair_of Vertex.uv (List.filter (has_first Vertex.uv)) 6
    (Z.to_nat (tc * 2 * 3)) (done ++ [p]) (CSG.ouvs o').
Proof.
  intros Hstep Hcap Hinv. unfold CSG.polygon_step in Hstep. cbv zeta in Hstep.
  do 2 ok_head Hstep. rename a0 into ub, E0 into Eub.
  pose proof (fan_loop_uv p _ _ (fan_turns (Polygon.vertices p)) _ o' Hstep) as Hloop.
  cbn [CSG.ouvs] in Hloop.
  rewrite fan_count_snoc, <- fan_length in Hcap.
  unfold field_inv in *. rewrite existsb_snoc, filter_snoc, fan_count_snoc, <- fan_length.
  rewrite has_first_lookup in *.
  destruct (Polygon.vertices p !! 0%nat) as [v0|] eqn:Ev0.
  - destruct (CSG.ouvs o) as [b|] eqn:Eo.
    + injection Eub as <-. destruct Hinv as (Hex & vals & Evals & Hfill & Hlen).
      rewrite Hex. cbn [orb].
      destruct (Vertex.uv v0) as [u0|]; cbn [present] in *.
      * destruct (Hloop (map fround vals) _ Hfill) as (xs & b' & Exs & Lxs & Eb' & F');
          [rewrite length_map; lia|].
        rewrite Eb'. split; [reflexivity|]. exists (vals ++ xs).
        rewrite fans_values_snoc, Evals, Exs. cbn.
        split; [reflexivity|]. split; [now rewrite map_app|].
        rewrite length_app. lia.
      * rewrite Hloop. split; [reflexivity|]. exists vals. rewrite app_nil_r.
        split; [exact Evals|]. split; [exact Hfill|lia].
    + rewrite Hinv. cbn [orb].
      destruct (Vertex.uv v0) as [u0|]; cbn [present] in *.
      * destruct (nbuf.new (tc * 2 * 3)) as [nb| |] eqn:Enew; rsimpl in Eub;
          try discriminate Eub.
        injection Eub as <-. apply new_filled_cap in Enew.
        destruct (Hloop [] _ Enew) as (xs & b' & Exs & Lxs & Eb' & F');
          [cbn [length]; lia|].
        rewrite Eb'. split; [reflexivity|]. exists xs.
        rewrite fans_values_snoc, (filter_none _ _ Hinv). cbn.
        rewrite Exs. cbn.
        split; [reflexivity|]. split; [exact F'|lia].
      * injection Eub as <-. rewrite Hloop. reflexivity.
  - assert (Eub' : ub = CSG.ouvs o) by (destruct (CSG.ouvs o); now injection Eub as <-).
    subst ub. rewrite orb_false_r, app_nil_r.
    destruct (CSG.ouvs o) as [b|] eqn:Eo; rewrite Hloop; [|exact Hinv].
    destruct Hinv as (Hex & vals & Evals & Hfill & Hlen).
    split; [exact Hex|]. exists vals. split; [exact Evals|]. split; [exact Hfill|lia].
Qed.

(** The second [forEach] of [toGeometry], one polygon, for the colors. *)
Lemma polygon_step_color (tc : Z) (done : list Polygon.t) (p : Polygon.t)
    (o o' : CSG.out) :
  CSG.polygon_step tc o p = Ok o' ->
  (9 * fan_count (done ++ [p]) <= Z.to_nat (tc * 3 * 3))%nat ->
  field_inv coords Vertex.color (from_first (has_first Vertex.color)) 9
    (Z.to_nat (tc * 3 * 3)) done (CSG.ocolors o) ->
  field_inv coords Vertex.color (from_first (has_first Vertex.color)) 9
    (Z.to_nat (tc * 3 * 3)) (done ++ [p]) (CSG.ocolors o').
Proof.
  intros Hstep Hcap Hinv. unfold CSG.polygon_step in Hstep. cbv zeta in Hstep.
  do 2 ok_head Hstep. rename a into cb, E into Ecb.
  pose proof (fan_loop_color p _ _ (fan_turns (Polygon.vertices p)) _ o' Hstep) as Hloop.
  cbn [CSG.ocolors] in Hloop.
  rewrite fan_count_snoc, <- fan_length in Hcap.
  unfold field_inv in *.
  rewrite existsb_snoc, from_first_snoc, fan_count_snoc, <- fan_length.
  rewrite has_first_lookup in *.
  destruct (CSG.ocolors o) as [b|] eqn:Eo.
  - assert (Ecb' : cb = Some b)
      by (destruct (Polygon.vertices p !! 0%nat); now injection Ecb as <-).
    subst cb. destruct Hinv as (Hex & vals & Evals & Hfill & Hlen).
    rewrite Hex. cbn [orb].
    destruct (Hloop (map fround vals) _ Hfill) as (xs & b' & Exs & Lxs & Eb' & F');
      [rewrite length_map; lia|].
    rewrite Eb'. split; [reflexivity|]. exists (vals ++ xs).
    rewrite fans_values_snoc, Evals, Exs.
    split; [reflexivity|]. split; [now rewrite map_app|].
    rewrite length_app. lia.
  - rewrite Hinv. cbn [orb].
    destruct (Polygon.vertices p !! 0%nat) as [v0|] eqn:Ev0.
    + destruct (Vertex.color v0) as [c0|]; cbn [present] in *.
      * destruct (nbuf.new (tc * 3 * 3)) as [nb| |] eqn:Enew; rsimpl in Ecb;
          try discriminate Ecb.
        injection Ecb as <-. apply new_filled_cap in Enew.
        destruct (Hloop [] _ Enew) as (xs & b' & Exs & Lxs & Eb' & F');
          [cbn [length]; lia|].
        rewrite Eb'. split; [reflexivity|]. exists xs.
        unfold fans_values. cbn [flat_map]. rewrite app_nil_r, Exs.
        split; [reflexivity|]. split; [exact F'|lia].
      * injection Ecb as <-. rewrite Hloop. reflexivity.
    + injection Ecb as <-. rewrite Hloop. reflexivity.
Qed.

Lemma fan_count_app (ps qs : list Polygon.t) :
  fan_count (ps ++ qs) = (fan_count ps + fan_count qs)%nat.
Proof. unfold fan_count. now rewrite flat_map_app, length_app. Qed.

(** The second [forEach] of [toGeometry], for the uvs and the colors. *)
Lemma polygons_loop_fields (tc : Z) (ps : list Polygon.t) :
  forall (done : list Polygon.t) (o o' : CSG.out),
    foldM (CSG.polygon_step tc) ps o = Ok o' ->
    (6 * fan_count (done ++ ps) <= Z.to_nat (tc * 2 * 3))%nat ->
    (9 * fan_count (done ++ ps) <= Z.to_nat (tc * 3 * 3))%nat ->
    field_inv pair_of Vertex.uv (List.filter (has_first Vertex.uv)) 6
      (Z.to_nat (tc * 2 * 3)) done (CSG.ouvs o) ->
    field_inv coords Vertex.color (from_first (has_first Vertex.color)) 9
      (Z.to_nat (tc * 3 * 3)) done (CSG.ocolors o) ->
    field_inv pair_of Vertex.uv (List.filter (has_first Vertex.uv)) 6
      (Z.to_nat (tc * 2 * 3)) (done ++ ps) (CSG.ouvs o')
    /\ field_inv coords Vertex.color (from_first (has_first Vertex.color)) 9
         (Z.to_nat (tc * 3 * 3)) (done ++ ps) (CSG.ocolors o').
Proof.
  induction ps as [|p ps IH]; intros done o o' Hloop Hu Hc Iu Ic.
  - injection Hloop as <-. now rewrite app_nil_r.
  - cbn [foldM] in Hloop. ok_head Hloop.
    replace (done ++ p :: ps) with ((done ++ [p]) ++ ps) in *
      by (now rewrite <- app_assoc).
    rewrite (fan_count_app (done ++ [p]) ps) in Hu, Hc.
    apply (IH (done ++ [p]) a o' Hloop).
    + rewrite fan_count_app. lia.
    + rewrite fan_count_app. lia.
    + apply (polygon_step_uv tc done p o a E); [lia|exact Iu].
    + apply (polygon_step_color tc done p o a E); [lia|exact Ic].
Qed.

Lemma field_inv_attribute (nums : Vector.t -> list float)
    (field : Vertex.t -> option Vector.t) (sel : list Polygon.t -> list Polygon.t)
    (itemSize : nat) (ps : list Polygon.t) (b : option nbuf.t) :
  field_inv nums field sel (3 * itemSize) (3 * itemSize * fan_count ps) ps b ->
  (existsb (has_first field) ps = false -> sel ps = []) ->
  field_attribute nums field sel itemSize ps
    ((fun b => BufferAttribute.mk (nbuf.array b) itemSize) <$> b).
Proof.
  unfold field_inv, field_attribute. intros H Hsel. destruct b as [b|].
  - destruct H as (Hex & vals & Evals & (_ & Harr & _) & _).
    exists vals. split; [exact Evals|]. rewrite Hex. cbn.
    now rewrite Harr, length_map.
  - exists []. rewrite H, (Hsel H). split; reflexivity.
Qed.

(** The uvs and the colors that [toGeometry] exports, when it returns. *)
Lemma toGeometry_fields (csg : CSG.t) (g : BufferGeometry.t) :
  CSG.toGeometry csg = Ok g ->
  Forall (fun p => (2 <= length (Polygon.vertices p))%nat) (CSG.polygons csg) ->
  field_attribute pair_of Vertex.uv (List.filter (has_first Vertex.uv)) 2
    (CSG.polygons csg) (BufferGeometry.uv g)
  /\ field_attribute coords Vertex.color (from_first (has_first Vertex.color)) 3
       (CSG.polygons csg) (BufferGeometry.color g).
Proof.
  intros Hg Hlen. unfold CSG.toGeometry in Hg.
  rewrite (triCount_eq _ Hlen) in Hg.
  destruct (new_filled (fan_count (CSG.polygons csg))) as [Hnew _].
  rewrite Hnew in Hg. rsimpl in Hg. ok_head Hg.
  set (n := fan_count (CSG.polygons csg)) in *.
  assert (E2 : Z.to_nat (Z.of_nat n * 2 * 3) = (3 * 2 * n)%nat) by lia.
  assert (E3 : Z.to_nat (Z.of_nat n * 3 * 3) = (3 * 3 * n)%nat) by lia.
  destruct (polygons_loop_fields _ _ [] _ _ E) as [Hu Hc];
    cbn [app CSG.ouvs CSG.ocolors field_inv existsb]; fold n; try lia; try reflexivity.
  cbn [app] in Hu, Hc. rewrite E2 in Hu. rewrite E3 in Hc.
  destruct (fold_left CSG.group_step _ _) as [[[groups gbase] index] gi].
  injection Hg as <-. cbn [BufferGeometry.uv BufferGeometry.color]. split.
  - apply (field_inv_attribute pair_of Vertex.uv _ 2); [exact Hu|apply filter_none].
  - apply (field_inv_attribute coords Vertex.color _ 3); [exact Hc|apply from_first_none].
Qed.

(** C9.  For every valid mesh, exporting what was imported gives the same
    triangles: [toGeometry(fromGeometry(geom))] returns a mesh with as many
    triangles and with the same corner positions, triangle by triangle; for
    a mesh that has an index, these are the positions that the index
    names.  And whatever [toGeometry] exports, it exports as fans: for each
    polygon in turn, the triangles of its first vertex with every two
    neighbouring vertices among the others, [vertices.length - 2] of them.
    The positions and the normals of their corners, nine numbers for a
    triangle, fill the position and the normal buffer.  There is a uv
    buffer when the first vertex of some polygon has a uv; it holds the
    uvs of the fans of the polygons whose first vertex has one, six numbers
    for a triangle, and then zeros.  There is a color buffer when the first
    vertex of some polygon has a color; it holds the colors of the fans of
    that polygon and of all that follow it, nine numbers for a triangle, and
    then zeros. *)
Theorem export_of_import (geom : BufferGeometry.t) (objectIndex : option N) :
  valid_mesh geom = true ->
  exists csg g,
    CSG.fromGeometry geom objectIndex = Ok csg
    /\ CSG.toGeometry csg = Ok g
    /\ triangle_count g = triangle_count geom
    /\ corners g = corners geom
    /\ (forall index,
          BufferGeometry.index geom = Some index ->
          length (CSG.polygons csg) = (length index / 3)%nat
          /\ exists posattr,
               BufferGeometry.position geom = Some posattr
               /\ BufferAttribute.array <$> BufferGeometry.position g
                  = Some (flat_map (corner (BufferAttribute.array posattr)) index))
    /\ (forall csg' g',
          CSG.toGeometry csg' = Ok g' ->
          Forall (fun p => (2 <= length (Polygon.vertices p))%nat) (CSG.polygons csg') ->
          BufferGeometry.position g'
          = Some (BufferAttribute.mk
                    (map fround (flat_map (fan_values Vertex.pos) (CSG.polygons csg'))) 3)
          /\ BufferGeometry.normal g'
             = Some (BufferAttribute.mk
                       (map fround (flat_map (fan_values Vertex.normal)
                                      (CSG.polygons csg'))) 3)
          /\ Forall (fun p => length (fan (Polygon.vertices p))
                              = (length (Polygon.vertices p) - 2)%nat)
               (CSG.polygons csg')
          /\ field_attribute pair_of Vertex.uv (List.filter (has_first Vertex.uv)) 2
               (CSG.polygons csg') (BufferGeometry.uv g')
          /\ field_attribute coords Vertex.color
               (from_first (has_first Vertex.color)) 3
               (CSG.polygons csg') (BufferGeometry.color g')).
Proof.
  intros Hvalid.
  destruct (valid_mesh_spec geom Hvalid)
    as (index & posattr & normalattr & Hidx & Hpos & Hnor & Hmod & Hrange & Hf32).
  pose proof (Nat.div_mod_eq (length index) 3) as Hdiv. rewrite Hmod in Hdiv.
  set (T := (length index / 3)%nat) in *. clearbody T.
  assert (HT : length index = (3 * T)%nat) by lia.
  destruct (import_triangles geom posattr normalattr objectIndex Hpos Hnor
              T 0 [] index eq_refl HT) as (ps & Eps & Hlen & Hmesh & Hflat).
  cbn [app] in Eps.
  destruct (toGeometry_mesh_ok _ _ _ ps Hmesh) as (g & Eg & Hgi).
  assert (H2 : Forall (fun p => (2 <= length (Polygon.vertices p))%nat) ps).
  { eapply Forall_impl; [exact Hmesh|]. intros p Hp.
    rewrite (mesh_triangle_length _ _ _ _ Hp). lia. }
  destruct (toGeometry_fans (CSG.mk ps) g Eg H2) as [Hgp _].
  cbn [CSG.polygons] in Hgp. rewrite Hflat, (fround_corners _ _ Hrange Hf32) in Hgp.
  assert (Hgidx : CSG.geometry_index g = Ok (seq 0 (3 * T))).
  { unfold CSG.geometry_index. rewrite Hgi, Hgp. cbn [prop_of]. rsimpl.
    cbn [BufferAttribute.array BufferAttribute.itemSize].
    rewrite corner_length, Hlen.
    destruct objectIndex, ps; try reflexivity;
      (replace (3 * length index / 3)%nat with (length index)
         by (apply Nat.div_unique_exact; lia)); f_equal; f_equal; lia. }
  exists (CSG.mk ps), g. split; [|split; [exact Eg|split; [|split; [|split]]]].
  - rewrite fromGeometry_eq, Hidx. rsimpl.
    replace ((length index + 2) / 3)%nat with T
      by (apply (Nat.div_unique _ 3 _ 2); lia).
    rewrite Eps. reflexivity.
  - unfold triangle_count. rewrite Hgidx, Hidx. rsimpl. rewrite length_seq.
    now rewrite HT.
  - unfold corners. rewrite Hgidx, Hidx, Hgp, Hpos. cbn [prop_of]. rsimpl.
    cbn [BufferAttribute.array]. f_equal.
    apply (corners_of_buffer (3 * T) 0 []); [reflexivity|].
    rewrite corner_length. lia.
  - intros index' Hindex'. unfold CSG.geometry_index in Hidx.
    rewrite Hindex' in Hidx. injection Hidx as ->.
    cbn [CSG.polygons]. split; [rewrite Hlen; apply Nat.div_unique_exact; lia|].
    exists posattr. split; [exact Hpos|]. now rewrite Hgp.
  - intros csg' g' Eg' Hlen'.
    destruct (toGeometry_fans csg' g' Eg' Hlen') as [Hp' Hn'].
    destruct (toGeometry_fields csg' g' Eg' Hlen') as [Hu' Hc'].
    split; [exact Hp'|]. split; [exact Hn'|].
    split; [apply List.Forall_forall; intros p _; apply fan_length|].
    split; assumption.
Qed.

Lemma export_of_import_witness :
  valid_mesh two_faces = true
  /\ exists csg g,
       CSG.fromGeometry two_faces (Some 5%N) = Ok csg
       /\ CSG.toGeometry csg = Ok g
       /\ triangle_count g = triangle_count two_faces
       /\ corners g = corners two_faces.
Proof.
  assert (Hvalid : valid_mesh two_faces = true) by (vm_compute; reflexivity).
  split; [exact Hvalid|].
  destruct (export_of_import two_faces (Some 5%N) Hvalid)
    as (csg & g & H1 & H2 & H3 & H4 & _ & _).
  exists csg, g. auto.
Defined.

(** * What the operators keep *)

Lemma foldM_inv {A B} (Q : B -> Prop) (body : B -> A -> result B) (xs : list A) :
  (forall acc x acc', Q acc -> In x xs -> body acc x = Ok acc' -> Q acc') ->
  forall acc acc', Q acc -> foldM body xs acc = Ok acc' -> Q acc'.
Proof.
  induction xs as [|x xs IH]; intros Hbody acc acc' Hacc; cbn [foldM].
  - now intros [= <-].
  - destruct (body acc x) as [acc1| |] eqn:Hx; rsimpl; try discriminate.
    apply IH; [|eapply Hbody; eauto; now left].
    intros a y a' Ha Hy. apply Hbody; [exact Ha|now right].
Qed.

Lemma Polygon_new_inv (vs : list Vertex.t) (sh : option N) (q : Polygon.t) :
  Polygon.new vs sh = Ok q ->
  (3 <= length vs)%nat /\ Polygon.vertices q = vs /\ Polygon.shared q = sh.
Proof.
  unfold Polygon.new.
  destruct vs as [|a [|b [|c l]]]; cbn; try discriminate.
  intros [= <-]. cbn. repeat split; lia.
Qed.

Lemma Polygon_new_short (vs : list Vertex.t) (sh : option N) :
  (length vs < 3)%nat -> Polygon.new vs sh = Throw TypeError.
Proof.
  unfold Polygon.new.
  destruct vs as [|a [|b [|c l]]]; cbn; try reflexivity. lia.
Qed.

Lemma Polygon_clone_inv (p q : Polygon.t) :
  Polygon.clone p = Ok q ->
  (3 <= length (Polygon.vertices q))%nat
  /\ Polygon.vertices q = map Vertex.clone (Polygon.vertices p)
  /\ Polygon.shared q = Polygon.shared p.
Proof.
  unfold Polygon.clone. intros H. apply Polygon_new_inv in H as (Hlen & Hvs & Hsh).
  rewrite Hvs. auto.
Qed.

Section Invariant.
Variable P : Polygon.t -> Prop.
Hypothesis P_flip : forall p, P p -> P (Polygon.flip p).
Hypothesis P_new :
  forall p vs q, P p -> Polygon.new vs (Polygon.shared p) = Ok q -> P q.

Lemma split_keeps (pl : Plane.t) (p : Polygon.t) (evs : list (target * Polygon.t)) :
  P p -> Plane_splitPolygon pl p = Ok evs -> Forall (fun ev => P (snd ev)) evs.
Proof.
  intros Hp. unfold Plane_splitPolygon.
  destruct (classify pl (Polygon.vertices p)) as [ty types].
  destruct (ty =? COPLANAR)%Z; [intros [= <-]; repeat constructor; exact Hp|].
  destruct (ty =? FRONT)%Z; [intros [= <-]; repeat constructor; exact Hp|].
  destruct (ty =? BACK)%Z; [intros [= <-]; repeat constructor; exact Hp|].
  destruct (ty =? SPANNING)%Z; [|intros [= <-]; constructor].
  destruct (walk pl (Polygon.vertices p) types) as [[f b]| |]; rsimpl;
    try discriminate.
  destruct (3 <=? length f)%nat;
    [destruct (Polygon.new f (Polygon.shared p)) as [pf| |] eqn:Hf; rsimpl;
       try discriminate|];
    (destruct (3 <=? length b)%nat;
     [destruct (Polygon.new b (Polygon.shared p)) as [pb| |] eqn:Hb; rsimpl;
        try discriminate|]);
    intros [= <-]; repeat constructor; cbn [snd]; eauto.
Qed.

Lemma targets_keep (keep : target -> bool) (evs : list (target * Polygon.t)) :
  Forall (fun ev => P (snd ev)) evs -> Forall P (Node.targets keep evs).
Proof.
  intros H. unfold Node.targets. apply Forall_map.
  apply Forall_forall. intros ev Hev. apply list_elem_of_filter in Hev as [_ Hev].
  rewrite Forall_forall in H. auto.
Qed.

Lemma split_events_keep (pl : Plane.t) (p : Polygon.t) :
  P p -> Forall (fun ev => P (snd ev)) (split_events pl p).
Proof. intros Hp. eapply split_keeps; [exact Hp|apply split_events_eq]. Qed.

Lemma local_front_keeps (pl : Plane.t) (ps : list Polygon.t) :
  Forall P ps -> Forall P (local_front pl ps).
Proof.
  intros H. unfold local_front. induction H as [|p ps Hp _ IH]; cbn [flat_map].
  - constructor.
  - apply Forall_app. split; [|exact IH]. now apply targets_keep, split_events_keep.
Qed.

Lemma local_back_keeps (pl : Plane.t) (ps : list Polygon.t) :
  Forall P ps -> Forall P (local_back pl ps).
Proof.
  intros H. unfold local_back. induction H as [|p ps Hp _ IH]; cbn [flat_map].
  - constructor.
  - apply Forall_app. split; [|exact IH]. now apply targets_keep, split_events_keep.
Qed.

Lemma clipPolygons_keeps (this : Node.t) :
  forall ps r, Node.clipPolygons this ps = Ok r -> Forall P ps -> Forall P r.
Proof.
  induction this as [pl f b ps0 IHf IHb] using Node_induction. intros ps r.
  rewrite clipPolygons_unfold. cbn [Node.plane Node.front Node.back].
  destruct pl as [pl|]; [|now intros [= <-]].
  intros H Hps.
  assert (Hfront : forall fr,
             match f with
             | Some n => Node.clipPolygons n (local_front pl ps)
             | None => Ok (local_front pl ps)
             end = Ok fr -> Forall P fr).
  { intros fr. destruct f as [n|]; cbn [child_all] in IHf.
    - intros Hn. eapply IHf; [exact Hn|]. now apply local_front_keeps.
    - intros [= <-]. now apply local_front_keeps. }
  assert (Hback : forall br,
             match b with
             | Some n => Node.clipPolygons n (local_back pl ps)
             | None => Ok []
             end = Ok br -> Forall P br).
  { intros br. destruct b as [n|]; cbn [child_all] in IHb.
    - intros Hn. eapply IHb; [exact Hn|]. now apply local_back_keeps.
    - intros [= <-]. constructor. }
  destruct (match f with Some n => _ | None => _ end) as [fr| |]; rsimpl in H;
    try discriminate.
  destruct (match b with Some n => _ | None => _ end) as [br| |]; rsimpl in H;
    try discriminate.
  injection H as <-. apply Forall_app. split; auto.
Qed.

Lemma allPolygons_mk (pl : option Plane.t) (f b : option Node.t) (ps : list Polygon.t) :
  Node.allPolygons (Node.mk pl f b ps)
  = ps ++ match f with Some n => Node.allPolygons n | None => [] end
       ++ match b with Some n => Node.allPolygons n | None => [] end.
Proof. reflexivity. Qed.

Lemma clipTo_mk (pl : option Plane.t) (f b : option Node.t) (ps : list Polygon.t)
    (bsp : Node.t) :
  Node.clipTo (Node.mk pl f b ps) bsp
  = polygons' ← Node.clipPolygons bsp ps;
    front' ← match f with
             | Some n => Some <$> Node.clipTo n bsp
             | None => Ok None
             end;
    back' ← match b with
            | Some n => Some <$> Node.clipTo n bsp
            | None => Ok None
            end;
    Ok (Node.mk pl front' back' polygons').
Proof. reflexivity. Qed.

Lemma clipTo_keeps (this bsp : Node.t) :
  forall r, Node.clipTo this bsp = Ok r ->
            Forall P (Node.allPolygons this) -> Forall P (Node.allPolygons r).
Proof.
  induction this as [pl f b ps IHf IHb] using Node_induction. intros r.
  rewrite clipTo_mk, allPolygons_mk. intros H Hall.
  apply Forall_app in Hall as [Hps Hall]. apply Forall_app in Hall as [Hf Hb].
  destruct (Node.clipPolygons bsp ps) as [ps'| |] eqn:Hps'; rsimpl in H;
    try discriminate.
  assert (Hps'' : Forall P ps') by (eapply clipPolygons_keeps; eauto).
  destruct f as [nf|]; cbn [child_all] in IHf;
    [destruct (Node.clipTo nf bsp) as [nf'| |] eqn:Hnf; rsimpl in H;
       try discriminate|];
    (destruct b as [nb|]; cbn [child_all] in IHb;
     [destruct (Node.clipTo nb bsp) as [nb'| |] eqn:Hnb; rsimpl in H;
        try discriminate|]);
    rsimpl in H; injection H as <-; rewrite allPolygons_mk;
    repeat (apply Forall_app; split); eauto.
Qed.

Lemma invert_mk (pl : option Plane.t) (f b : option Node.t) (ps : list Polygon.t) :
  Node.invert (Node.mk pl f b ps)
  = Node.mk (Plane.flip <$> pl) (Node.invert <$> b) (Node.invert <$> f)
      (map Polygon.flip ps).
Proof. reflexivity. Qed.

Lemma invert_keeps (this : Node.t) :
  Forall P (Node.allPolygons this) -> Forall P (Node.allPolygons (Node.invert this)).
Proof.
  induction this as [pl f b ps IHf IHb] using Node_induction.
  rewrite invert_mk, !allPolygons_mk. intros Hall.
  apply Forall_app in Hall as [Hps Hall]. apply Forall_app in Hall as [Hf Hb].
  repeat (apply Forall_app; split).
  - apply Forall_map. eapply Forall_impl; [exact Hps|]. auto.
  - destruct b; cbn in *; auto.
  - destruct f; cbn in *; auto.
Qed.

Lemma build_step_keeps (pl : Plane.t)
    (acc acc' : list Polygon.t * list Polygon.t * list Polygon.t) (p : Polygon.t) :
  Forall P acc.1.1 /\ Forall P acc.1.2 /\ Forall P acc.2 -> P p ->
  Node.build_step pl acc p = Ok acc' ->
  Forall P acc'.1.1 /\ Forall P acc'.1.2 /\ Forall P acc'.2.
Proof.
  destruct acc as [[own fr] bk]. cbn [fst snd]. intros (Ho & Hf & Hb) Hp.
  unfold Node.build_step. rewrite split_events_eq. rsimpl. intros [= <-].
  cbn [fst snd]. pose proof (split_events_keep pl p Hp) as Hev.
  repeat split; apply Forall_app; split; auto using targets_keep.
Qed.

Lemma build_keeps (fuel : nat) :
  forall this ps r,
    Node.build fuel this ps = Ok r ->
    Forall P (Node.allPolygons this) -> Forall P ps ->
    Forall P (Node.allPolygons r).
Proof.
  induction fuel as [|fuel IH]; intros this ps r; cbn [Node.build]; [discriminate|].
  destruct ps as [|p0 ps']; [now intros [= <-]|].
  destruct this as [pl f b own]. cbn [Node.plane Node.front Node.back Node.polygons].
  rewrite allPolygons_mk.
  set (pl' := match pl with Some pl0 => pl0 | None => _ end).
  intros H Hall Hps.
  apply Forall_app in Hall as [Hown Hall]. apply Forall_app in Hall as [Hf Hb].
  destruct (foldM (Node.build_step pl') (p0 :: ps') (own, [], []))
    as [[[own' fr] bk]| |] eqn:Hloop; rsimpl in H; try discriminate.
  assert (Hacc : Forall P own' /\ Forall P fr /\ Forall P bk).
  { refine (foldM_inv
              (fun acc => Forall P acc.1.1 /\ Forall P acc.1.2 /\ Forall P acc.2)
              _ _ _ _ _ _ Hloop).
    - intros acc x acc' Hacc Hx. apply build_step_keeps; [exact Hacc|].
      rewrite Forall_forall in Hps. apply Hps. now apply list_elem_of_In.
    - cbn. auto. }
  destruct Hacc as (Hown' & Hfr & Hbk).
  assert (Hchild : forall (c : option Node.t) (l : list Polygon.t) c',
             Forall P (match c with Some n => Node.allPolygons n | None => [] end) ->
             Forall P l ->
             match l with
             | [] => Ok c
             | _ => Some <$> Node.build fuel (default Node.empty c) l
             end = Ok c' ->
             Forall P (match c' with Some n => Node.allPolygons n | None => [] end)).
  { intros c l c' Hc Hl Hr. destruct l as [|x l].
    - now injection Hr as <-.
    - destruct (Node.build fuel (default Node.empty c) (x :: l)) as [n| |] eqn:Hn;
        rsimpl in Hr; try discriminate.
      injection Hr as <-. eapply IH; [exact Hn| |exact Hl].
      destruct c; [exact Hc|constructor]. }
  destruct (match fr with [] => _ | _ => _ end) as [f'| |] eqn:Hf'; rsimpl in H;
    try discriminate.
  destruct (match bk with [] => _ | _ => _ end) as [b'| |] eqn:Hb'; rsimpl in H;
    try discriminate.
  injection H as <-. rewrite allPolygons_mk.
  repeat (apply Forall_app; split); eauto.
Qed.

Lemma operators_keep (fuel : nat) (A B : CSG.t)
    (op : nat -> CSG.t -> CSG.t -> result CSG.t) (r : CSG.t) :
  In op value_operators ->
  Forall (fun p => forall q, Polygon.clone p = Ok q -> P q)
    (CSG.polygons A ++ CSG.polygons B) ->
  op fuel A B = Ok r -> Forall P (CSG.polygons r).
Proof.
  intros Hop Hin. apply Forall_app in Hin as [HA HB].
  assert (Hclone : forall C C',
             Forall (fun p => forall q, Polygon.clone p = Ok q -> P q) (CSG.polygons C) ->
             CSG.clone C = Ok C' -> Forall P (CSG.polygons C')).
  { intros C C' HC. unfold CSG.clone.
    destruct (mapR Polygon.clone (CSG.polygons C)) as [ps| |] eqn:Hps; rsimpl;
      try discriminate.
    intros [= <-]. cbn. apply mapR_Forall2 in Hps.
    induction Hps as [|x y xs ys Hxy _ IH']; [constructor|].
    apply Forall_cons in HC as [Hx HC]. constructor; auto. }
  assert (Hnew : forall ps n, Forall P ps -> Node.new fuel ps = Ok n ->
                              Forall P (Node.allPolygons n)).
  { intros ps n Hps Hn. eapply build_keeps; [exact Hn|constructor|exact Hps]. }
  assert (Hstart : forall (k : Node.t -> Node.t -> result CSG.t),
             (forall a b r, Forall P (Node.allPolygons a) ->
                            Forall P (Node.allPolygons b) -> k a b = Ok r ->
                            Forall P (CSG.polygons r)) ->
             (this' ← CSG.clone A; a ← Node.new fuel (CSG.polygons this');
              csg' ← CSG.clone B; b ← Node.new fuel (CSG.polygons csg'); k a b)
             = Ok r -> Forall P (CSG.polygons r)).
  { intros k Hk H.
    destruct (CSG.clone A) as [A'| |] eqn:HA'; rsimpl in H; try discriminate.
    destruct (Node.new fuel (CSG.polygons A')) as [a| |] eqn:Ha; rsimpl in H;
      try discriminate.
    destruct (CSG.clone B) as [B'| |] eqn:HB'; rsimpl in H; try discriminate.
    destruct (Node.new fuel (CSG.polygons B')) as [b| |] eqn:Hb; rsimpl in H;
      try discriminate.
    eapply Hk; [| |exact H]; eauto. }
  destruct Hop as [<-|[<-|[<-|[]]]]; intros H; apply Hstart in H; [exact H| |exact H| |exact H|];
    clear H; intros a b r' Ha Hb H; cbv zeta in H;
    repeat match type of H with
           | (mbind _ ?m) = Ok _ =>
             let E := fresh "E" in
             destruct m eqn:E; rsimpl in H; try discriminate
           end;
    injection H as <-; cbn [CSG.fromPolygons CSG.polygons];
    repeat first
      [ assumption
      | apply invert_keeps
      | match goal with
        | E : Node.build _ _ _ = Ok ?n |- Forall P (Node.allPolygons ?n) =>
          eapply build_keeps; [exact E| |]
        | E : Node.clipTo _ _ = Ok ?n |- Forall P (Node.allPolygons ?n) =>
          eapply clipTo_keeps; [exact E|]
        end ].
Qed.
End Invariant.

(** X1: [new Polygon(vertices, shared)] throws a TypeError exactly when
    there are fewer than three vertices; otherwise it returns a polygon
    with the vertices and the tag as given, whose plane is fitted to the
    first three vertices only. *)
Theorem Polygon_new_needs_three (vertices : list Vertex.t) (shared : option N) :
  (Polygon.new vertices shared = Throw TypeError <-> (length vertices < 3)%nat)
  /\ (forall p,
        Polygon.new vertices shared = Ok p <->
        exists v0 v1 v2 rest,
          vertices = v0 :: v1 :: v2 :: rest
          /\ p = Polygon.mk vertices shared
                   (Plane.fromPoints (Vertex.pos v0) (Vertex.pos v1) (Vertex.pos v2)))
  /\ Polygon.new vertices shared <> Throw RangeError
  /\ Polygon.new vertices shared <> OutOfFuel.
Proof.
  unfold Polygon.new.
  destruct vertices as [|a [|b [|c l]]]; cbn;
    (split; [split; [try discriminate; lia|try reflexivity; lia]|]);
    (split; [|split; discriminate]); intros p; split;
    try discriminate;
    try (intros (v0 & v1 & v2 & rest & Hvs & _); discriminate Hvs).
  - intros [= <-]. exists a, b, c, l. auto.
  - intros (v0 & v1 & v2 & rest & [= <- <- <- <-] & ->). reflexivity.
Qed.

Lemma Polygon_clone_short (p : Polygon.t) :
  short p -> Polygon.clone p = Throw TypeError.
Proof.
  intros H. unfold Polygon.clone. apply Polygon_new_short.
  rewrite length_map. exact H.
Qed.

Lemma Polygon_clone_cases (p : Polygon.t) :
  (exists q, Polygon.clone p = Ok q) \/ Polygon.clone p = Throw TypeError.
Proof.
  destruct (le_lt_dec 3 (length (Polygon.vertices p))) as [H|H].
  - left. unfold Polygon.clone.
    destruct (Polygon_new_ok (map Vertex.clone (Polygon.vertices p))
                (Polygon.shared p)) as (q & Hq & _); [now rewrite length_map|].
    eauto.
  - right. now apply Polygon_clone_short.
Qed.

Lemma clone_short (A : CSG.t) :
  Exists short (CSG.polygons A) -> CSG.clone A = Throw TypeError.
Proof.
  unfold CSG.clone. intros H.
  assert (Hps : mapR Polygon.clone (CSG.polygons A) = Throw TypeError).
  { induction H as [p ps Hp|p ps _ IH]; cbn [mapR].
    - now rewrite Polygon_clone_short.
    - destruct (Polygon_clone_cases p) as [[q ->]| ->]; [|reflexivity].
      rsimpl. now rewrite IH. }
  now rewrite Hps.
Qed.

(** X2: a solid that holds a polygon of fewer than three vertices cannot be
    cloned: [clone] and [inverse] throw a TypeError, and so does every
    operator it is the left operand of; as the right operand, no operator
    returns a solid. *)
Theorem operators_refuse_short_polygons (fuel : nat) (A B : CSG.t) :
  Exists short (CSG.polygons A) ->
  CSG.clone A = Throw TypeError
  /\ CSG.inverse A = Throw TypeError
  /\ CSG.union fuel A B = Throw TypeError
  /\ CSG.subtract fuel A B = Throw TypeError
  /\ CSG.intersect fuel A B = Throw TypeError
  /\ (forall r, CSG.union fuel B A <> Ok r)
  /\ (forall r, CSG.subtract fuel B A <> Ok r)
  /\ (forall r, CSG.intersect fuel B A <> Ok r).
Proof.
  intros H. pose proof (clone_short A H) as Hc.
  unfold CSG.inverse, CSG.union, CSG.subtract, CSG.intersect. rewrite Hc.
  repeat (split; [reflexivity|]).
  repeat split; intros r;
    (destruct (CSG.clone B) as [B'| |]; rsimpl; [|discriminate..]);
    (destruct (Node.new fuel (CSG.polygons B')) as [b| |]; rsimpl; discriminate).
Qed.

Lemma operators_refuse_short_polygons_witness :
  CSG.union 5 open_solid one_triangle = Throw TypeError
  /\ (forall r, CSG.subtract 5 one_triangle open_solid <> Ok r).
Proof.
  assert (H : Exists short (CSG.polygons open_solid)).
  { right. left. unfold short. cbn. lia. }
  destruct (operators_refuse_short_polygons 5 open_solid one_triangle H)
    as (_ & _ & Hu & _ & _ & _ & Hs & _).
  split; assumption.
Defined.

(** X3: the tag of every polygon of what union, subtract or intersect
    returns is the tag of a polygon of one of the operands: a piece that
    a plane cuts off a polygon keeps the tag of that polygon. *)
Theorem operators_keep_tags (op : nat -> CSG.t -> CSG.t -> result CSG.t)
    (fuel : nat) (A B r : CSG.t) :
  In op value_operators -> op fuel A B = Ok r ->
  Forall (fun q => exists p, In p (CSG.polygons A ++ CSG.polygons B)
                             /\ Polygon.shared q = Polygon.shared p)
    (CSG.polygons r).
Proof.
  intros Hop Hr.
  apply (operators_keep
           (fun q => exists p, In p (CSG.polygons A ++ CSG.polygons B)
                               /\ Polygon.shared q = Polygon.shared p))
    with (fuel := fuel) (A := A) (B := B) (op := op); [| |exact Hop| |exact Hr].
  - intros q (p & Hp & Hq). exists p. split; [exact Hp|exact Hq].
  - intros q0 vs q (p & Hp & Hq0) Hq. exists p. split; [exact Hp|].
    apply Polygon_new_inv in Hq as (_ & _ & ->). exact Hq0.
  - apply Forall_forall. intros p Hp q Hq. exists p.
    split; [now apply list_elem_of_In|]. now apply Polygon_clone_inv in Hq as (_ & _ & ?).
Qed.

Lemma operators_keep_tags_witness :
  exists r, CSG.union 60 left_solid right_solid = Ok r
            /\ Forall (fun q => Polygon.shared q = None) (CSG.polygons r).
Proof.
  destruct (CSG.union 60 left_solid right_solid) as [r| |] eqn:Hr.
  - exists r. split; [reflexivity|].
    pose proof (operators_keep_tags CSG.union 60 left_solid right_solid r
                  (or_introl eq_refl) Hr) as H.
    eapply Forall_impl; [exact H|]. intros q (p & Hp & ->).
    cbn in Hp. repeat (destruct Hp as [<-|Hp]; [reflexivity|]). destruct Hp.
  - vm_compute in Hr. discriminate Hr.
  - vm_compute in Hr. discriminate Hr.
Defined.

(** ** Turning a tree inside out *)
Lemma invert_polygons (n : Node.t) :
  Permutation (Node.allPolygons (Node.invert n))
    (map Polygon.flip (Node.allPolygons n)).
Proof.
  induction n as [pl f b ps IHf IHb] using Node_induction.
  rewrite invert_mk, !allPolygons_mk, !map_app.
  apply Permutation_app_head.
  etransitivity; [apply Permutation_app_comm|].
  apply Permutation_app.
  - destruct f; cbn in *; auto.
  - destruct b; cbn in *; auto.
Qed.

(** ** Which polygons a plane cuts *)

Lemma type_of_cases (pl : Plane.t) (v : Vertex.t) :
  type_of pl v = COPLANAR \/ type_of pl v = FRONT \/ type_of pl v = BACK.
Proof. apply vertex_type_cases. Qed.

Lemma polygon_type (pl : Plane.t) (vs : list Vertex.t) :
  fold_right Z.lor 0%Z (map (type_of pl) vs)
  = Z.lor (if existsb (fun v => (type_of pl v =? FRONT)%Z) vs then FRONT else COPLANAR)
      (if existsb (fun v => (type_of pl v =? BACK)%Z) vs then BACK else COPLANAR).
Proof.
  induction vs as [|v vs IH]; [reflexivity|].
  cbn [map fold_right existsb]. rewrite IH.
  destruct (type_of_cases pl v) as [-> |[-> | ->]];
    destruct (existsb _ vs); destruct (existsb _ vs); reflexivity.
Qed.

Lemma classify_by_sides (this : Plane.t) (polygon : Polygon.t) :
  fst (classify this (Polygon.vertices polygon))
  = (if has_type this FRONT polygon
     then if has_type this BACK polygon then SPANNING else FRONT
     else if has_type this BACK polygon then BACK else COPLANAR).
Proof.
  rewrite classify_spec. cbn [fst]. rewrite polygon_type. unfold has_type.
  destruct (existsb _ _); destruct (existsb _ _); reflexivity.
Qed.

Lemma split_one_side (this : Plane.t) (polygon : Polygon.t) :
  (has_type this FRONT polygon = true -> has_type this BACK polygon = false ->
   Plane_splitPolygon this polygon = Ok [(Front, polygon)])
  /\ (has_type this FRONT polygon = false -> has_type this BACK polygon = true ->
      Plane_splitPolygon this polygon = Ok [(Back, polygon)])
  /\ (has_type this FRONT polygon = false -> has_type this BACK polygon = false ->
      exists tg, (tg = CoplanarFront \/ tg = CoplanarBack)
                 /\ Plane_splitPolygon this polygon = Ok [(tg, polygon)]).
Proof.
  pose proof (classify_by_sides this polygon) as Hty.
  unfold Plane_splitPolygon.
  destruct (classify this (Polygon.vertices polygon)) as [ty types].
  cbn [fst] in Hty. subst ty.
  repeat split; intros -> ->; try reflexivity.
  cbn. destruct (0 <? _); eauto.
Qed.

(** X5: a plane cuts a polygon exactly when the polygon has a vertex in
    front of the plane and a vertex behind it.  A polygon with a vertex
    in front and none behind goes to [front] as it is, one with a vertex
    behind and none in front goes to [back] as it is, and one with
    neither is coplanar. *)
Theorem splitPolygon_by_sides (this : Plane.t) (polygon : Polygon.t) :
  fst (classify this (Polygon.vertices polygon))
  = (if has_type this FRONT polygon
     then if has_type this BACK polygon then SPANNING else FRONT
     else if has_type this BACK polygon then BACK else COPLANAR)
  /\ (has_type this FRONT polygon = true -> has_type this BACK polygon = false ->
      Plane_splitPolygon this polygon = Ok [(Front, polygon)])
  /\ (has_type this FRONT polygon = false -> has_type this BACK polygon = true ->
      Plane_splitPolygon this polygon = Ok [(Back, polygon)])
  /\ (has_type this FRONT polygon = false -> has_type this BACK polygon = false ->
      exists tg, (tg = CoplanarFront \/ tg = CoplanarBack)
                 /\ Plane_splitPolygon this polygon = Ok [(tg, polygon)]).
Proof.
  split; [apply classify_by_sides|apply split_one_side].
Qed.

Lemma splitPolygon_by_sides_witness :
  has_type plane_z0 FRONT crossing_triangle = true
  /\ has_type plane_z0 BACK crossing_triangle = true
  /\ fst (classify plane_z0 (Polygon.vertices crossing_triangle)) = SPANNING
  /\ Plane_splitPolygon (Plane.mk (Vector.mk 0 0 1) (-2)) crossing_triangle
     = Ok [(Front, crossing_triangle)].
Proof.
  destruct (splitPolygon_by_sides plane_z0 crossing_triangle) as (H1 & _).
  destruct (splitPolygon_by_sides (Plane.mk (Vector.mk 0 0 1) (-2)) crossing_triangle)
    as (_ & H2 & _).
  split; [vm_compute; reflexivity|]. split; [vm_compute; reflexivity|].
  split; [exact H1|].
  apply H2; vm_compute; reflexivity.
Defined.

(** ** What [clipTo] and [build] leave in place *)

Lemma planes_of_mk (pl : option Plane.t) (f b : option Node.t) (ps : list Polygon.t) :
  planes_of (Node.mk pl f b ps)
  = Node.mk pl (planes_of <$> f) (planes_of <$> b) [].
Proof. reflexivity. Qed.

(** X6: [a.clipTo(b)] changes the polygon lists of [a] only: the planes
    and the shape of the tree of [a] stay, and [clipTo] never throws. *)
Theorem clipTo_keeps_planes (this bsp : Node.t) :
  exists r, Node.clipTo this bsp = Ok r /\ planes_of r = planes_of this.
Proof.
  induction this as [pl f b ps IHf IHb] using Node_induction.
  rewrite clipTo_mk.
  destruct (clipPolygons_ok bsp ps) as [ps' ->]. rsimpl.
  destruct f as [nf|]; cbn [child_all] in IHf;
    [destruct IHf as (nf' & -> & Hnf)|];
    (destruct b as [nb|]; cbn [child_all] in IHb;
     [destruct IHb as (nb' & -> & Hnb)|]);
    rsimpl; eexists; (split; [reflexivity|]);
    rewrite !planes_of_mk; cbn [fmap option_fmap option_map]; congruence.
Qed.

Lemma build_step_own (pl : Plane.t) (own0 : list Polygon.t)
    (acc acc' : list Polygon.t * list Polygon.t * list Polygon.t) (p : Polygon.t) :
  (exists added, acc.1.1 = own0 ++ added) ->
  Node.build_step pl acc p = Ok acc' ->
  exists added, acc'.1.1 = own0 ++ added.
Proof.
  destruct acc as [[own fr] bk]. cbn [fst snd]. intros (added & ->).
  unfold Node.build_step. rewrite split_events_eq. rsimpl. intros [= <-].
  cbn [fst snd]. eexists. now rewrite <- app_assoc.
Qed.

(** X7: [build] only adds to a tree: a node that has a plane keeps it, the
    polygons of the node stay at the head of its list, and every polygon
    of the tree is still in the tree afterwards. *)
Theorem build_only_adds (fuel : nat) (this : Node.t) (polygons : list Polygon.t)
    (r : Node.t) :
  Node.build fuel this polygons = Ok r ->
  (forall pl, Node.plane this = Some pl -> Node.plane r = Some pl)
  /\ (exists added, Node.polygons r = Node.polygons this ++ added)
  /\ (forall p, In p (Node.allPolygons this) -> In p (Node.allPolygons r)).
Proof.
  revert this polygons r.
  induction fuel as [|fuel IH]; intros this ps r; cbn [Node.build]; [discriminate|].
  destruct ps as [|p0 ps'].
  { intros [= <-]. split; [auto|]. split; [exists []; now rewrite app_nil_r|auto]. }
  destruct this as [pl f b own]. cbn [Node.plane Node.front Node.back Node.polygons].
  set (pl' := match pl with Some pl0 => pl0 | None => _ end).
  intros H.
  destruct (foldM (Node.build_step pl') (p0 :: ps') (own, [], []))
    as [[[own' fr] bk]| |] eqn:Hloop; rsimpl in H; try discriminate.
  assert (Hown : exists added, own' = own ++ added).
  { refine (foldM_inv (fun acc => exists added, acc.1.1 = own ++ added)
              _ _ _ _ _ _ Hloop).
    - intros acc x acc' Hacc _. now apply build_step_own.
    - exists []. cbn. now rewrite app_nil_r. }
  assert (Hchild : forall (c : option Node.t) (l : list Polygon.t) c',
             match l with
             | [] => Ok c
             | _ => Some <$> Node.build fuel (default Node.empty c) l
             end = Ok c' ->
             forall p,
               In p (match c with Some n => Node.allPolygons n | None => [] end) ->
               In p (match c' with Some n => Node.allPolygons n | None => [] end)).
  { intros c l c' Hr p Hp. destruct l as [|x l].
    - now injection Hr as <-.
    - destruct (Node.build fuel (default Node.empty c) (x :: l)) as [n| |] eqn:Hn;
        rsimpl in Hr; try discriminate.
      injection Hr as <-. apply IH in Hn as (_ & _ & Hn). apply Hn.
      destruct c; [exact Hp|destruct Hp]. }
  destruct (match fr with [] => _ | _ => _ end) as [f'| |] eqn:Hf'; rsimpl in H;
    try discriminate.
  destruct (match bk with [] => _ | _ => _ end) as [b'| |] eqn:Hb'; rsimpl in H;
    try discriminate.
  injection H as <-. cbn [Node.plane Node.polygons].
  split; [intros pl0 ->; reflexivity|]. split; [exact Hown|].
  intros p. rewrite !allPolygons_mk, !in_app_iff.
  destruct Hown as (added & ->). rewrite in_app_iff.
  intros [Hp|[Hp|Hp]]; eauto.
Qed.

Lemma build_only_adds_witness :
  exists r, Node.build 3 node_z0 [crossing_triangle] = Ok r
            /\ Node.plane r = Some plane_z0
            /\ In flat_triangle (Node.allPolygons r).
Proof.
  destruct (Node.build 3 node_z0 [crossing_triangle]) as [r| |] eqn:Hr.
  - exists r. split; [reflexivity|].
    destruct (build_only_adds 3 node_z0 [crossing_triangle] r Hr) as (Hpl & _ & Hin).
    split; [apply Hpl; reflexivity|apply Hin; left; reflexivity].
  - vm_compute in Hr. discriminate Hr.
  - vm_compute in Hr. discriminate Hr.
Defined.

Lemma build_step_eq (pl : Plane.t) (own fr bk : list Polygon.t) (p : Polygon.t) :
  Node.build_step pl (own, fr, bk) p
  = Ok (own ++ Node.targets Node.to_coplanar (split_events pl p),
        fr ++ Node.targets Node.is_front (split_events pl p),
        bk ++ Node.targets Node.is_back (split_events pl p)).
Proof. unfold Node.build_step. now rewrite split_events_eq. Qed.

Lemma build_loop_coplanar (pl : Plane.t) (ps : list Polygon.t) :
  Forall (fun p => has_type pl FRONT p = false /\ has_type pl BACK p = false) ps ->
  forall own, foldM (Node.build_step pl) ps (own, [], []) = Ok (own ++ ps, [], []).
Proof.
  induction 1 as [|p ps [Hf Hb] _ IH]; intros own; cbn [foldM].
  - now rewrite app_nil_r.
  - rewrite build_step_eq. rsimpl.
    destruct (split_one_side pl p) as (_ & _ & Hco).
    destruct (Hco Hf Hb) as (tg & Htg & Hsplit).
    unfold split_events. rewrite Hsplit.
    replace (Node.targets Node.to_coplanar [(tg, p)]) with [p]
      by (destruct Htg as [-> | ->]; reflexivity).
    replace (Node.targets Node.is_front [(tg, p)]) with (@nil Polygon.t)
      by (destruct Htg as [-> | ->]; reflexivity).
    replace (Node.targets Node.is_back [(tg, p)]) with (@nil Polygon.t)
      by (destruct Htg as [-> | ->]; reflexivity).
    cbn [app]. rewrite IH. now rewrite <- app_assoc.
Qed.

(** X8: polygons that have no vertex in front of and none behind the plane
    of the first of them make a tree of one node: that plane, all the
    polygons in their order, no children. *)
Theorem build_coplanar (fuel : nat) (p0 : Polygon.t) (rest : list Polygon.t) :
  Forall (fun p => has_type (Polygon.plane p0) FRONT p = false
                   /\ has_type (Polygon.plane p0) BACK p = false) (p0 :: rest) ->
  Node.new (S fuel) (p0 :: rest)
  = Ok (Node.mk (Some (Polygon.plane p0)) None None (p0 :: rest)).
Proof.
  intros H. unfold Node.new. cbn [Node.build Node.empty Node.plane Node.polygons
                                   Node.front Node.back].
  replace (Plane.clone (Polygon.plane p0)) with (Polygon.plane p0)
    by (destruct (Polygon.plane p0) as [[x y z] w]; reflexivity).
  rewrite (build_loop_coplanar _ _ H). reflexivity.
Qed.

Lemma build_coplanar_witness :
  Node.new 1 [flat_triangle]
  = Ok (Node.mk (Some (Polygon.plane flat_triangle)) None None [flat_triangle]).
Proof.
  apply (build_coplanar 0 flat_triangle []).
  repeat constructor; vm_compute; reflexivity.
Defined.

(** * Opposite numbers *)

Section Opposite.
Variables prec emax : Z.

Lemma binary_round_aux_opp (s : bool) (m e : Z) (l : location) :
  binary_round_aux prec emax (negb s) m e l
  = SFopp (binary_round_aux prec emax s m e l).
Proof.
  unfold binary_round_aux.
  destruct (shr_fexp prec emax m e l) as [mrs e'].
  destruct (shr_fexp prec emax _ e' loc_Exact) as [mrs' e''].
  destruct (shr_m mrs'); [reflexivity| |reflexivity].
  destruct (e'' <=? emax - prec)%Z; reflexivity.
Qed.

Lemma binary_round_opp (s : bool) (m : positive) (e : Z) :
  binary_round prec emax (negb s) m e = SFopp (binary_round prec emax s m e).
Proof.
  unfold binary_round. destruct (shl_align m e _) as [mz ez].
  apply binary_round_aux_opp.
Qed.

Lemma mirrored_opp (x : spec_float) : mirrored x (SFopp x).
Proof. now left. Qed.

Lemma mirrored_zero (s s' : bool) : mirrored (S754_zero s) (S754_zero s').
Proof. right. eauto. Qed.

Lemma binary_normalize_opp (m e : Z) :
  mirrored (binary_normalize prec emax m e false)
    (binary_normalize prec emax (- m) e false).
Proof.
  unfold binary_normalize. destruct m as [|m|m].
  - apply mirrored_zero.
  - left. apply (binary_round_opp false).
  - left. change (- Z.neg m)%Z with (Z.pos m). cbv iota.
    rewrite (binary_round_opp false).
    destruct (binary_round prec emax false m e) as [[]|[]| |[]]; reflexivity.
Qed.

Lemma SFmul_opp_l (x y : spec_float) :
  SFmul prec emax (SFopp x) y = SFopp (SFmul prec emax x y).
Proof.
  destruct x as [sx|sx| |sx mx ex], y as [sy|sy| |sy my ey];
    cbn [SFmul SFopp]; try reflexivity;
    try (now destruct sx, sy).
  replace (xorb (negb sx) sy) with (negb (xorb sx sy)) by (now destruct sx, sy).
  apply binary_round_aux_opp.
Qed.

Lemma cond_Zopp_negb (s : bool) (m : Z) : cond_Zopp (negb s) m = (- cond_Zopp s m)%Z.
Proof. destruct s; cbn; lia. Qed.

Lemma SFadd_mirrored (x x' y y' : spec_float) :
  mirrored x x' -> mirrored y y' ->
  mirrored (SFadd prec emax x y) (SFadd prec emax x' y').
Proof.
  intros [-> |(s1 & s1' & -> & ->)] [-> |(s2 & s2' & -> & ->)].
  - destruct x as [sx|sx| |sx mx ex], y as [sy|sy| |sy my ey];
      cbn [SFadd SFopp];
      try (destruct sx, sy; first [apply mirrored_opp|apply mirrored_zero]);
      try apply mirrored_opp.
    rewrite !cond_Zopp_negb, <- Z.opp_add_distr. apply binary_normalize_opp.
  - destruct x as [sx|sx| |sx mx ex]; cbn [SFadd SFopp];
      try (destruct sx, s2, s2'; first [apply mirrored_opp|apply mirrored_zero]);
      try apply mirrored_opp.
  - destruct y as [sy|sy| |sy my ey]; cbn [SFadd SFopp];
      try (destruct s1, s1', sy; first [apply mirrored_opp|apply mirrored_zero]);
      try apply mirrored_opp.
  - destruct s1, s1', s2, s2'; apply mirrored_zero.
Qed.

Lemma SFsub_mirrored (x x' y y' : spec_float) :
  mirrored x x' -> mirrored y y' ->
  mirrored (SFsub prec emax x y) (SFsub prec emax x' y').
Proof.
  intros [-> |(s1 & s1' & -> & ->)] [-> |(s2 & s2' & -> & ->)].
  - destruct x as [sx|sx| |sx mx ex], y as [sy|sy| |sy my ey];
      cbn [SFsub SFopp];
      try (destruct sx, sy; first [apply mirrored_opp|apply mirrored_zero]);
      try apply mirrored_opp.
    rewrite !cond_Zopp_negb.
    replace (- cond_Zopp sx (Z.pos (shl_align mx ex (Z.min ex ey)).1)
             - - cond_Zopp sy (Z.pos (shl_align my ey (Z.min ex ey)).1))%Z
      with (- (cond_Zopp sx (Z.pos (shl_align mx ex (Z.min ex ey)).1)
               - cond_Zopp sy (Z.pos (shl_align my ey (Z.min ex ey)).1)))%Z by lia.
    apply binary_normalize_opp.
  - destruct x as [sx|sx| |sx mx ex]; cbn [SFsub SFopp];
      try (destruct sx, s2, s2'; first [apply mirrored_opp|apply mirrored_zero]);
      try apply mirrored_opp.
  - destruct y as [sy|sy| |sy my ey]; cbn [SFsub SFopp];
      try (destruct s1, s1', sy; first [apply mirrored_opp|apply mirrored_zero]);
      try apply mirrored_opp.
  - destruct s1, s1', s2, s2'; apply mirrored_zero.
Qed.

Lemma SFmul_comm (x y : spec_float) : SFmul prec emax x y = SFmul prec emax y x.
Proof.
  destruct x as [sx|sx| |sx mx ex], y as [sy|sy| |sy my ey];
    cbn [SFmul]; try reflexivity; try (now rewrite xorb_comm).
  now rewrite xorb_comm, Pos.mul_comm, Z.add_comm.
Qed.

Lemma SFmul_mirrored_l (x x' y : spec_float) :
  mirrored x x' -> mirrored (SFmul prec emax x y) (SFmul prec emax x' y).
Proof.
  intros [-> |(s & s' & -> & ->)].
  - left. apply SFmul_opp_l.
  - destruct y as [sy|sy| |sy my ey]; cbn [SFmul];
      first [apply mirrored_zero|apply (mirrored_opp S754_nan)].
Qed.

Lemma SFmul_square (x x' : spec_float) :
  mirrored x x' -> SFmul prec emax x' x' = SFmul prec emax x x.
Proof.
  intros [-> |(s & s' & -> & ->)].
  - destruct x as [sx|sx| |sx mx ex]; cbn [SFmul SFopp]; try reflexivity;
      now destruct sx.
  - cbn [SFmul]. now destruct s, s'.
Qed.

Lemma SFsub_swap (x y : spec_float) :
  mirrored (SFsub prec emax x y) (SFsub prec emax y x).
Proof.
  destruct x as [sx|sx| |sx mx ex], y as [sy|sy| |sy my ey];
    cbn [SFsub];
    try (destruct sx, sy; first [apply mirrored_zero|apply (mirrored_opp S754_nan)
                                 |left; reflexivity]);
    try (destruct sx; left; reflexivity);
    try (destruct sy; left; reflexivity);
    try (left; reflexivity).
  rewrite (Z.min_comm ey ex).
  replace (cond_Zopp sy (Z.pos (shl_align my ey (Z.min ex ey)).1)
           - cond_Zopp sx (Z.pos (shl_align mx ex (Z.min ex ey)).1))%Z
    with (- (cond_Zopp sx (Z.pos (shl_align mx ex (Z.min ex ey)).1)
             - cond_Zopp sy (Z.pos (shl_align my ey (Z.min ex ey)).1)))%Z by lia.
  apply binary_normalize_opp.
Qed.

Lemma SFdiv_mirrored_l (x x' y : spec_float) :
  mirrored x x' -> mirrored (SFdiv prec emax x y) (SFdiv prec emax x' y).
Proof.
  intros [-> |(s & s' & -> & ->)].
  - left.
    destruct x as [sx|sx| |sx mx ex], y as [sy|sy| |sy my ey];
      cbn [SFdiv SFopp]; try reflexivity; try (now destruct sx, sy).
    destruct (SFdiv_core_binary prec emax _ _ _ _) as [[mz ez] lz].
    replace (xorb (negb sx) sy) with (negb (xorb sx sy)) by (now destruct sx, sy).
    apply binary_round_aux_opp.
  - destruct y as [sy|sy| |sy my ey]; cbn [SFdiv];
      first [apply mirrored_zero|apply (mirrored_opp S754_nan)].
Qed.
End Opposite.

(** Against a bound [b = m * 2^e] and its opposite. *)
Lemma SFltb_mirrored (x x' : spec_float) (m : positive) (e : Z) :
  mirrored x x' ->
  SFltb x' (S754_finite true m e) = SFltb (S754_finite false m e) x
  /\ SFltb (S754_finite false m e) x' = SFltb x (S754_finite true m e).
Proof.
  intros [-> |(s & s' & -> & ->)]; [|split; reflexivity].
  unfold SFltb, SFcompare.
  destruct x as [sx|sx| |sx mx ex]; cbn [SFopp];
    try (destruct sx; split; reflexivity); [split; reflexivity|].
  rewrite (Z.compare_antisym ex e).
  change (Pos.compare_cont Eq m mx) with (Pos.compare_cont (CompOpp Eq) m mx).
  rewrite <- (Pos.compare_cont_antisym mx m Eq).
  destruct sx, (ex ?= e)%Z; cbn; try (split; reflexivity);
    destruct (Pos.compare_cont Eq mx m); split; reflexivity.
Qed.

Lemma vertex_type_mirrored (t t' : float) :
  mirrored (Prim2SF t) (Prim2SF t') -> vertex_type t' = other_side (vertex_type t).
Proof.
  intros H. unfold vertex_type.
  pose proof (sides_disjoint t) as Hd.
  rewrite !ltb_spec, Prim2SF_EPSILON, Prim2SF_neg_EPSILON in *.
  destruct (SFltb_mirrored _ _ 5902958103587057 (-69) H) as [-> ->].
  destruct (SFltb (S754_finite false _ _) (Prim2SF t)).
  - rewrite Hd by reflexivity. reflexivity.
  - destruct (SFltb (Prim2SF t) _); reflexivity.
Qed.

Lemma signed_distance_flip (this : Plane.t) (p : Vector.t) :
  mirrored (Prim2SF (signed_distance this p))
    (Prim2SF (signed_distance (Plane.flip this) p)).
Proof.
  unfold signed_distance, Plane.flip, Vector.dot, Vector.negate.
  cbn [Plane.normal Plane.w Vector.x Vector.y Vector.z].
  rewrite !mul_m1, !sub_spec, !add_spec, !mul_spec, !opp_spec.
  apply SFsub_mirrored; [|apply mirrored_opp].
  repeat apply SFadd_mirrored; left; apply SFmul_opp_l.
Qed.

Lemma type_of_flip (this : Plane.t) (v : Vertex.t) :
  type_of (Plane.flip this) v = other_side (type_of this v).
Proof. apply vertex_type_mirrored, signed_distance_flip. Qed.

Lemma has_type_flip (this : Plane.t) (p : Polygon.t) :
  has_type (Plane.flip this) FRONT p = has_type this BACK p
  /\ has_type (Plane.flip this) BACK p = has_type this FRONT p.
Proof.
  unfold has_type.
  split; induction (Polygon.vertices p) as [|v vs IH]; cbn [existsb];
    try reflexivity; rewrite IH, type_of_flip;
    destruct (type_of_cases this v) as [-> |[-> | ->]]; reflexivity.
Qed.

(** X9: flipping a plane exchanges its two sides.  A point in front of a
    plane is behind the flipped plane and the other way round, and a
    coplanar point stays coplanar; so a polygon in front of the plane is
    behind the flipped plane, and a polygon that one of them cuts is cut
    by the other. *)
Theorem flip_exchanges_sides (this : Plane.t) (polygon : Polygon.t) :
  (forall v, type_of (Plane.flip this) v = other_side (type_of this v))
  /\ fst (classify (Plane.flip this) (Polygon.vertices polygon))
     = other_side (fst (classify this (Polygon.vertices polygon)))
  /\ fst (classify (Plane.flip this) (Polygon.vertices (Polygon.flip polygon)))
     = other_side (fst (classify this (Polygon.vertices polygon))).
Proof.
  split; [apply type_of_flip|].
  assert (Hsame : forall p,
             fst (classify (Plane.flip this) (Polygon.vertices p))
             = other_side (fst (classify this (Polygon.vertices p)))).
  { intros p. rewrite !classify_by_sides.
    destruct (has_type_flip this p) as [-> ->].
    destruct (has_type this FRONT p), (has_type this BACK p); reflexivity. }
  split; [apply Hsame|].
  rewrite Hsame. f_equal. rewrite !classify_by_sides.
  assert (Hflip : forall ty, has_type this ty (Polygon.flip polygon)
                             = has_type this ty polygon).
  { intros ty. unfold has_type, Polygon.flip. cbn [Polygon.vertices].
    apply eq_true_iff_eq. rewrite !existsb_exists. split.
    - intros (v & Hv & Hty). apply in_map_iff in Hv as (u & <- & Hu).
      exists u. split; [now apply in_rev|exact Hty].
    - intros (v & Hv & Hty). exists (Vertex.flip v).
      split; [apply in_map, in_rev; now rewrite rev_involutive|exact Hty]. }
  now rewrite !Hflip.
Qed.

(** ** The plane through three points, and the same points the other way
    round *)

Lemma opposite_sub_swap (x y : float) : opposite (x - y) (y - x).
Proof. unfold opposite. rewrite !sub_spec. apply SFsub_swap. Qed.

Lemma square_opposite (x x' : float) : opposite x x' -> x' * x' = x * x.
Proof.
  intros H. apply Prim2SF_inj. rewrite !mul_spec. now apply SFmul_square.
Qed.

Lemma cross_swap (u v : Vector.t) :
  opposite_vector (Vector.cross u v) (Vector.cross v u).
Proof.
  unfold opposite_vector, Vector.cross. cbn [Vector.x Vector.y Vector.z].
  assert (Hc : forall a b : float, a * b = b * a).
  { intros a b. apply Prim2SF_inj. rewrite !mul_spec. apply SFmul_comm. }
  rewrite (Hc (Vector.y v) (Vector.z u)), (Hc (Vector.z v) (Vector.y u)),
    (Hc (Vector.z v) (Vector.x u)), (Hc (Vector.x v) (Vector.z u)),
    (Hc (Vector.x v) (Vector.y u)), (Hc (Vector.y v) (Vector.x u)).
  repeat split; apply opposite_sub_swap.
Qed.

Lemma length_opposite (u v : Vector.t) :
  opposite_vector u v -> Vector.length v = Vector.length u.
Proof.
  intros (Hx & Hy & Hz). unfold Vector.length.
  now rewrite (square_opposite _ _ Hx), (square_opposite _ _ Hy),
    (square_opposite _ _ Hz).
Qed.

Lemma normalize_opposite (u v : Vector.t) :
  opposite_vector u v -> opposite_vector (Vector.normalize u) (Vector.normalize v).
Proof.
  intros H. unfold Vector.normalize, Vector.unit, Vector.dividedBy.
  rewrite (length_opposite u v H). destruct H as (Hx & Hy & Hz).
  unfold opposite_vector, opposite. cbn [Vector.x Vector.y Vector.z].
  rewrite !div_spec. repeat split; now apply SFdiv_mirrored_l.
Qed.

Lemma dot_opposite (u v a : Vector.t) :
  opposite_vector u v -> opposite (Vector.dot u a) (Vector.dot v a).
Proof.
  intros (Hx & Hy & Hz). unfold opposite, Vector.dot.
  rewrite !add_spec, !mul_spec.
  repeat apply SFadd_mirrored; now apply SFmul_mirrored_l.
Qed.

Lemma fromPoints_swap (a b c : Vector.t) :
  opposite_plane (Plane.fromPoints a b c) (Plane.fromPoints a c b).
Proof.
  unfold Plane.fromPoints. cbv zeta.
  set (u := Vector.sub (Vector.copy Vector.zero b) a).
  set (v := Vector.sub (Vector.copy Vector.zero c) a).
  pose proof (normalize_opposite _ _ (cross_swap u v)) as Hn.
  split; cbn [Plane.normal Plane.w].
  - exact Hn.
  - now apply dot_opposite.
Qed.

Lemma signed_distance_opposite (p q : Plane.t) (v : Vector.t) :
  opposite_plane p q ->
  mirrored (Prim2SF (signed_distance p v)) (Prim2SF (signed_distance q v)).
Proof.
  intros [Hn Hw]. unfold signed_distance. rewrite !sub_spec.
  apply SFsub_mirrored; [|exact Hw]. now apply dot_opposite.
Qed.

(** X10: the plane fitted to three points taken the other way round is the
    opposite plane: every number of it is the opposite of the number of
    the first plane (only a zero may keep its sign), so that a point in
    front of one is behind the other. *)
Theorem fromPoints_other_way_round (a b c : Vector.t) :
  opposite_plane (Plane.fromPoints a b c) (Plane.fromPoints a c b)
  /\ forall v, type_of (Plane.fromPoints a c b) v
               = other_side (type_of (Plane.fromPoints a b c) v).
Proof.
  split; [apply fromPoints_swap|].
  intros v. apply vertex_type_mirrored, signed_distance_opposite, fromPoints_swap.
Qed.

(** * Meshes in and out *)

Lemma vertex_of_present (geom : BufferGeometry.t) (posattr normalattr : BufferAttribute.t)
    (vi : option nat) :
  BufferGeometry.position geom = Some posattr ->
  BufferGeometry.normal geom = Some normalattr ->
  exists v,
    CSG.vertex_of geom vi = Ok v
    /\ mesh_vertex (present (BufferGeometry.uv geom))
         (present (BufferGeometry.color geom)) v.
Proof.
  intros Hp Hn. unfold CSG.vertex_of. rewrite Hp, Hn. cbn [prop_of]. rsimpl.
  eexists. split; [reflexivity|].
  unfold mesh_vertex, Vertex.new. cbn [Vertex.uv Vertex.color].
  destruct (BufferGeometry.uv geom), (BufferGeometry.color geom); split; reflexivity.
Qed.

Lemma triangle_at_present (geom : BufferGeometry.t) (posattr normalattr : BufferAttribute.t)
    (tag : option N) (index : list nat) (k : nat) :
  BufferGeometry.position geom = Some posattr ->
  BufferGeometry.normal geom = Some normalattr ->
  exists p, triangle_at geom tag index k = Ok p
            /\ mesh_triangle tag (present (BufferGeometry.uv geom))
                 (present (BufferGeometry.color geom)) p.
Proof.
  intros Hp Hn. unfold triangle_at.
  destruct (vertex_of_present geom posattr normalattr (index !! (3 * k)%nat) Hp Hn)
    as (v0 & -> & H0).
  destruct (vertex_of_present geom posattr normalattr (index !! (3 * k + 1)%nat) Hp Hn)
    as (v1 & -> & H1).
  destruct (vertex_of_present geom posattr normalattr (index !! (3 * k + 2)%nat) Hp Hn)
    as (v2 & -> & H2).
  rsimpl. eexists. split; [reflexivity|].
  split; [reflexivity|]. exists v0, v1, v2. auto.
Qed.

(** X11: [fromGeometry] never throws on a geometry that has positions and
    normals, whatever its index holds, also entries that name no vertex:
    it returns one triangle for every three index entries begun, each with
    the tag [objectIndex], with a uv on every vertex exactly when the
    geometry has uvs and a color exactly when it has colors. *)
Theorem fromGeometry_with_attributes (geom : BufferGeometry.t)
    (objectIndex : option N) (posattr normalattr : BufferAttribute.t) :
  BufferGeometry.position geom = Some posattr ->
  BufferGeometry.normal geom = Some normalattr ->
  exists index csg,
    CSG.geometry_index geom = Ok index
    /\ CSG.fromGeometry geom objectIndex = Ok csg
    /\ length (CSG.polygons csg) = ((length index + 2) / 3)%nat
    /\ Forall (mesh_triangle objectIndex (present (BufferGeometry.uv geom))
                 (present (BufferGeometry.color geom))) (CSG.polygons csg).
Proof.
  intros Hp Hn.
  assert (Hix : exists index, CSG.geometry_index geom = Ok index).
  { unfold CSG.geometry_index. destruct (BufferGeometry.index geom); [eauto|].
    rewrite Hp. cbn. eauto. }
  destruct Hix as [index Hix]. rewrite fromGeometry_eq, Hix. rsimpl.
  assert (Hps : forall ks, exists ps,
               mapR (triangle_at geom objectIndex index) ks = Ok ps
               /\ Forall (mesh_triangle objectIndex (present (BufferGeometry.uv geom))
                            (present (BufferGeometry.color geom))) ps).
  { induction ks as [|k ks (ps & IH & Hall)]; cbn [mapR]; [eauto|].
    destruct (triangle_at_present geom posattr normalattr objectIndex index k Hp Hn)
      as (p & -> & Hp'). rewrite IH. rsimpl. eauto. }
  destruct (Hps (seq 0 ((length index + 2) / 3))) as (ps & Hmap & Hall).
  rewrite Hmap. rsimpl. exists index, (CSG.mk ps).
  split; [reflexivity|]. split; [reflexivity|].
  split; [apply mapR_length in Hmap; cbn [CSG.polygons]; now rewrite Hmap, length_seq|].
  exact Hall.
Qed.

Lemma fromGeometry_with_attributes_witness :
  exists csg, CSG.fromGeometry four_vertices (Some 7%N) = Ok csg
              /\ length (CSG.polygons csg) = 2%nat
              /\ Forall (mesh_triangle (Some 7%N) false false) (CSG.polygons csg).
Proof.
  destruct (fromGeometry_with_attributes four_vertices (Some 7%N) _ _
              eq_refl eq_refl) as (index & csg & Hix & Hcsg & Hlen & Hall).
  injection Hix as <-. exists csg. auto.
Defined.

(** X12: without positions or without normals [fromGeometry] throws a
    TypeError, unless the index is empty: then nothing is read and the
    empty solid is returned. *)
Theorem fromGeometry_without_attributes (geom : BufferGeometry.t)
    (objectIndex : option N) :
  BufferGeometry.position geom = None \/ BufferGeometry.normal geom = None ->
  CSG.fromGeometry geom objectIndex
  = match CSG.geometry_index geom with
    | Ok [] => Ok CSG.empty
    | _ => Throw TypeError
    end.
Proof.
  intros H. rewrite fromGeometry_eq.
  destruct (CSG.geometry_index geom) as [index|e|] eqn:Hix; rsimpl.
  - destruct index as [|i index]; [reflexivity|].
    assert (Hn : exists n, ((length (i :: index) + 2) / 3 = S n)%nat).
    { exists ((length (i :: index) + 2) / 3 - 1)%nat.
      pose proof (Nat.div_mod_eq (length (i :: index) + 2) 3) as Hdiv.
      pose proof (Nat.mod_upper_bound (length (i :: index) + 2) 3) as Hmod.
      cbn [length] in *. lia. }
    destruct Hn as [n ->]. cbn [seq mapR].
    assert (Ht : triangle_at geom objectIndex (i :: index) 0 = Throw TypeError).
    { unfold triangle_at, CSG.vertex_of.
      destruct H as [-> | Hn]; [reflexivity|].
      destruct (BufferGeometry.position geom); [|reflexivity].
      rewrite Hn. reflexivity. }
    now rewrite Ht.
  - unfold CSG.geometry_index in Hix.
    destruct (BufferGeometry.index geom); [discriminate|].
    destruct (BufferGeometry.position geom); [discriminate|].
    cbn in Hix. now injection Hix as <-.
  - unfold CSG.geometry_index in Hix.
    destruct (BufferGeometry.index geom); [discriminate|].
    destruct (BufferGeometry.position geom); discriminate.
Qed.

Lemma fromGeometry_without_attributes_witness :
  CSG.fromGeometry bare_index None = Throw TypeError
  /\ CSG.fromGeometry (BufferGeometry.mk (Some []) None None None None []) None
     = Ok CSG.empty.
Proof.
  split.
  - apply (fromGeometry_without_attributes bare_index None). now left.
  - apply (fromGeometry_without_attributes
             (BufferGeometry.mk (Some []) None None None None []) None). now left.
Defined.

(** ** What [toGeometry] throws *)

Lemma type_error_only_bind {A B} (m : result A) (k : A -> result B) :
  type_error_only m -> (forall a, m = Ok a -> type_error_only (k a)) ->
  type_error_only (m ≫= k).
Proof. destruct m as [a|[]|]; cbn; auto; contradiction. Qed.

Lemma type_error_only_prop_of {A} (o : option A) : type_error_only (prop_of o).
Proof. now destruct o. Qed.

Lemma type_error_only_write3 (b : nbuf.t) (v : option Vector.t) :
  type_error_only (nbuf.write3 b v).
Proof. now destruct v. Qed.

Lemma type_error_only_write2 (b : nbuf.t) (v : option Vector.t) :
  type_error_only (nbuf.write2 b v).
Proof. now destruct v. Qed.

Lemma type_error_only_grps_push (k : N) (vals : list nat) (g : list (N * list nat)) :
  type_error_only (grps_push k vals g).
Proof.
  induction g as [|[k' l] g IH]; cbn [grps_push]; [exact I|].
  destruct (k =? k')%N; [exact I|].
  destruct (grps_push k vals g) as [g'|[]|]; cbn in *; auto.
Qed.

Lemma type_error_only_new (ct : Z) : (0 <= ct)%Z -> type_error_only (nbuf.new ct).
Proof.
  intros H. unfold nbuf.new. destruct (ct <? 0)%Z eqn:E; [lia|exact I].
Qed.

Lemma type_error_only_foldM {A B} (body : B -> A -> result B) (xs : list A) :
  (forall acc x, type_error_only (body acc x)) ->
  forall acc, type_error_only (foldM body xs acc).
Proof.
  intros Hbody. induction xs as [|x xs IH]; intros acc; cbn [foldM]; [exact I|].
  apply type_error_only_bind; auto.
Qed.

Create HintDb type_error.
#[local] Hint Resolve type_error_only_prop_of type_error_only_write3
  type_error_only_write2 type_error_only_grps_push : type_error.

Ltac only_type_errors :=
  repeat first
    [ exact I
    | solve [auto with type_error]
    | apply type_error_only_bind; [|intros ? _]
    | match goal with
      | |- type_error_only (match ?x with _ => _ end) => destruct x
      | |- type_error_only (fmap _ ?m) =>
        let H := fresh in
        assert (H : type_error_only m) by (auto using type_error_only_new with lia);
        destruct m as [?|[]|]; cbn in H |- *; auto
      end ].

Lemma type_error_only_fan_step (p : Polygon.t) (o : CSG.out) (j : nat) :
  type_error_only (CSG.fan_step p o j).
Proof. unfold CSG.fan_step. only_type_errors. Qed.

Lemma type_error_only_polygon_step (tc : Z) (o : CSG.out) (p : Polygon.t) :
  (0 <= tc)%Z -> type_error_only (CSG.polygon_step tc o p).
Proof.
  intros Htc. unfold CSG.polygon_step. cbv zeta.
  assert (H9 : (0 <= tc * 3 * 3)%Z) by lia.
  assert (H6 : (0 <= tc * 2 * 3)%Z) by lia.
  apply type_error_only_bind.
  { destruct (Polygon.vertices p !! 0%nat) as [v0|], (CSG.ocolors o);
      try exact I.
    destruct (Vertex.color v0); [|exact I].
    pose proof (type_error_only_new _ H9) as H.
    destruct (nbuf.new (tc * 3 * 3)) as [?|[]|]; cbn in H |- *; auto. }
  intros colors _. apply type_error_only_bind.
  { destruct (Polygon.vertices p !! 0%nat) as [v0|], (CSG.ouvs o);
      try exact I.
    destruct (Vertex.uv v0); [|exact I].
    pose proof (type_error_only_new _ H6) as H.
    destruct (nbuf.new (tc * 2 * 3)) as [?|[]|]; cbn in H |- *; auto. }
  intros uvs _. apply type_error_only_foldM. intros. apply type_error_only_fan_step.
Qed.

Lemma toGeometry_cases (csg : CSG.t) :
  if (CSG.triCount (CSG.polygons csg) <? 0)%Z
  then CSG.toGeometry csg = Throw RangeError
  else type_error_only (CSG.toGeometry csg).
Proof.
  unfold CSG.toGeometry. cbv zeta.
  destruct (Z.ltb_spec (CSG.triCount (CSG.polygons csg)) 0) as [Hneg|Hpos].
  { assert (Hn : nbuf.new (CSG.triCount (CSG.polygons csg) * 3 * 3) = Throw RangeError).
    { unfold nbuf.new.
      destruct (Z.ltb_spec (CSG.triCount (CSG.polygons csg) * 3 * 3) 0);
        [reflexivity|lia]. }
    rewrite Hn. reflexivity. }
  destruct (new_ok (CSG.triCount (CSG.polygons csg) * 3 * 3)) as [b ->]; [lia|].
  rsimpl.
  pose proof (type_error_only_foldM (CSG.polygon_step (CSG.triCount (CSG.polygons csg)))
                (CSG.polygons csg)
                (fun acc x => type_error_only_polygon_step _ acc x Hpos)) as H.
  match goal with
  | |- context [foldM _ _ ?o0] => specialize (H o0); destruct (foldM _ _ o0) as [o|[]|]
  end; cbn in H; try contradiction; rsimpl; [|exact I].
  destruct (fold_left CSG.group_step _ _) as [[[groups gb] ix] gi]. exact I.
Qed.

(** X13: [toGeometry] throws a RangeError exactly when the triangle count it
    starts from, the sum of [vertices.length - 2] over the polygons, is
    negative; every other exception it throws is a TypeError. *)
Theorem toGeometry_range_error (csg : CSG.t) :
  (CSG.toGeometry csg = Throw RangeError <-> (CSG.triCount (CSG.polygons csg) < 0)%Z)
  /\ (forall e, CSG.toGeometry csg = Throw e -> e = RangeError \/ e = TypeError)
  /\ CSG.toGeometry csg <> OutOfFuel.
Proof.
  pose proof (toGeometry_cases csg) as H.
  destruct (Z.ltb_spec (CSG.triCount (CSG.polygons csg)) 0) as [Hneg|Hpos].
  - rewrite H. split; [tauto|]. split; [intros e [= <-]; now left|discriminate].
  - destruct (CSG.toGeometry csg) as [g|[]|]; cbn in H; try contradiction.
    + split; [split; [discriminate|lia]|]. split; discriminate.
    + split; [split; [discriminate|lia]|]. split; [intros e [= <-]; now right|discriminate].
Qed.

Lemma foldM_throws {A B} (Inv : B -> Prop) (body : B -> A -> result B) (xs : list A) :
  (forall acc x, type_error_only (body acc x)) ->
  (forall acc x acc', Inv acc -> body acc x = Ok acc' -> Inv acc') ->
  Exists (fun x => forall acc, Inv acc -> body acc x = Throw TypeError) xs ->
  forall acc, Inv acc -> foldM body xs acc = Throw TypeError.
Proof.
  intros Hte Hinv Hex. induction Hex as [x xs Hx|x xs _ IH]; intros acc Hacc;
    cbn [foldM].
  - now rewrite Hx.
  - specialize (Hte acc x). specialize (Hinv acc x).
    destruct (body acc x) as [acc'|[]|]; cbn in Hte; try contradiction; rsimpl;
      [|reflexivity].
    apply IH. now apply Hinv.
Qed.

(** Runs a call that comes before the one that throws. *)
Ltac run_head :=
  match goal with
  | |- (?m ≫= _) = Throw TypeError =>
    let H := fresh in
    assert (H : type_error_only m) by only_type_errors;
    destruct m as [?|[]|]; cbn in H; try contradiction; rsimpl;
    [clear H|reflexivity]
  end.

Lemma fan_step_colors_kept (p : Polygon.t) (o o' : CSG.out) (j : nat) :
  CSG.fan_step p o j = Ok o' ->
  present (CSG.ocolors o) = true -> present (CSG.ocolors o') = true.
Proof.
  unfold CSG.fan_step. intros H Hc.
  repeat match type of H with
         | (?m ≫= _) = Ok _ =>
           destruct m eqn:?; rsimpl in H; try discriminate
         end.
  injection H as <-. cbn [CSG.ocolors].
  destruct (CSG.ocolors o) as [c|]; [|discriminate].
  repeat match goal with
         | E : (?m ≫= _) = Ok _ |- _ =>
           destruct m; rsimpl in E; try discriminate
         end.
  match goal with E : Ok _ = Ok _ |- _ => now injection E as <- end.
Qed.

Lemma fan_step_colorless (p : Polygon.t) (o : CSG.out) (j : nat)
    (v0 va vb : Vertex.t) :
  present (CSG.ocolors o) = true ->
  Polygon.vertices p !! 0%nat = Some v0 ->
  Polygon.vertices p !! (j - 2)%nat = Some va ->
  Polygon.vertices p !! (j - 1)%nat = Some vb ->
  Vertex.color v0 = None \/ Vertex.color va = None \/ Vertex.color vb = None ->
  CSG.fan_step p o j = Throw TypeError.
Proof.
  intros Hc H0 Ha Hb Hnone. unfold CSG.fan_step. rewrite H0, Ha, Hb.
  destruct (CSG.ocolors o) as [c|]; [|discriminate].
  run_head. cbn [prop_of]. rsimpl. do 7 run_head.
  destruct (Vertex.color v0) as [c0|]; [|reflexivity].
  destruct (Vertex.color va) as [ca|]; [|reflexivity].
  destruct (Vertex.color vb) as [cb|]; [|reflexivity].
  destruct Hnone as [H|[H|H]]; discriminate H.
Qed.

Lemma fan_loop_colors (p : Polygon.t) (js : list nat) (o o' : CSG.out) :
  foldM (CSG.fan_step p) js o = Ok o' ->
  present (CSG.ocolors o) = true -> present (CSG.ocolors o') = true.
Proof.
  intros H Hc.
  refine (foldM_inv (fun o => present (CSG.ocolors o) = true) _ _ _ _ _ Hc H).
  intros acc x acc' Hacc _ Hx. eapply fan_step_colors_kept; eauto.
Qed.

Lemma fan_loop_colorless (p : Polygon.t) (o : CSG.out) :
  lacks_color p -> present (CSG.ocolors o) = true ->
  foldM (CSG.fan_step p) (seq 3 (length (Polygon.vertices p) - 2)) o
  = Throw TypeError.
Proof.
  intros [Hlen Hex] Hc.
  apply (foldM_throws (fun o => present (CSG.ocolors o) = true));
    [intros; apply type_error_only_fan_step
    |intros; eapply fan_step_colors_kept; eauto| |exact Hc].
  apply Exists_exists in Hex as (v & Hv & Hnone).
  apply list_elem_of_lookup in Hv as [i Hi].
  pose proof (lookup_lt_Some _ _ _ Hi) as Hlt.
  set (j := if (i <? 2)%nat then 3%nat else (i + 1)%nat).
  assert (Hj : (3 <= j <= length (Polygon.vertices p))%nat).
  { unfold j. destruct (Nat.ltb_spec i 2); lia. }
  destruct (lookup_lt_is_Some_2 (Polygon.vertices p) 0) as [v0 H0]; [lia|].
  destruct (lookup_lt_is_Some_2 (Polygon.vertices p) (j - 2)) as [va Ha]; [lia|].
  destruct (lookup_lt_is_Some_2 (Polygon.vertices p) (j - 1)) as [vb Hb]; [lia|].
  apply Exists_exists. exists j. split; [apply list_elem_of_In, in_seq; lia|].
  intros acc Hacc. apply (fan_step_colorless p acc j v0 va vb Hacc H0 Ha Hb).
  unfold j in Ha, Hb. destruct (Nat.ltb_spec i 2) as [Hi2|Hi2].
  - destruct i as [|[|i]]; [|cbn in Ha|lia].
    + left. congruence.
    + right. left. congruence.
  - right. right. replace (i + 1 - 1)%nat with i in Hb by lia. congruence.
Qed.

Lemma polygon_step_colors (tc : Z) (o : CSG.out) (p : Polygon.t) :
  (0 <= tc)%Z ->
  present (CSG.ocolors o) = true
  \/ (exists v0, Polygon.vertices p !! 0%nat = Some v0 /\ Vertex.color v0 <> None) ->
  (forall o', CSG.polygon_step tc o p = Ok o' -> present (CSG.ocolors o') = true)
  /\ (lacks_color p -> CSG.polygon_step tc o p = Throw TypeError).
Proof.
  intros Htc Hc. unfold CSG.polygon_step. cbv zeta.
  assert (Hcolors : exists c,
             match Polygon.vertices p !! 0%nat, CSG.ocolors o with
             | Some v0, None =>
               match Vertex.color v0 with
               | Some _ => Some <$> nbuf.new (tc * 3 * 3)
               | None => Ok None
               end
             | _, colors => Ok colors
             end = Ok (Some c)).
  { destruct (new_ok (tc * 3 * 3)) as [b Hb]; [lia|].
    destruct Hc as [Hc|(v0 & -> & Hv0)].
    - destruct (CSG.ocolors o) as [c|]; [|discriminate].
      exists c. now destruct (Polygon.vertices p !! 0%nat).
    - destruct (CSG.ocolors o) as [c|]; [now exists c|].
      destruct (Vertex.color v0); [|contradiction]. rewrite Hb. eauto. }
  destruct Hcolors as [c ->]. rsimpl.
  assert (Huvs : type_error_only
             match Polygon.vertices p !! 0%nat, CSG.ouvs o with
             | Some v0, None =>
               match Vertex.uv v0 with
               | Some _ => Some <$> nbuf.new (tc * 2 * 3)
               | None => Ok None
               end
             | _, uvs => Ok uvs
             end).
  { destruct (new_ok (tc * 2 * 3)) as [b Hb]; [lia|]. rewrite Hb.
    destruct (Polygon.vertices p !! 0%nat) as [v0|], (CSG.ouvs o); try exact I.
    now destruct (Vertex.uv v0). }
  destruct (match Polygon.vertices p !! 0%nat with Some _ => _ | None => _ end)
    as [uvs|[]|]; cbn in Huvs; try contradiction; rsimpl.
  - split.
    + intros o' H. now apply fan_loop_colors in H.
    + intros H. now apply fan_loop_colorless.
  - split; [discriminate|reflexivity].
Qed.

(** X14: once a polygon whose first vertex has a color has been met,
    [toGeometry] writes the colors of every vertex it exports; if that
    polygon or a later one has a vertex without a color, [toGeometry]
    throws a TypeError. *)
Theorem toGeometry_mixed_colors (pre rest : list Polygon.t) (p0 : Polygon.t)
    (v0 : Vertex.t) :
  (0 <= CSG.triCount (pre ++ p0 :: rest))%Z ->
  Polygon.vertices p0 !! 0%nat = Some v0 -> Vertex.color v0 <> None ->
  Exists lacks_color (p0 :: rest) ->
  CSG.toGeometry (CSG.mk (pre ++ p0 :: rest)) = Throw TypeError.
Proof.
  intros Htc H0 Hv0 Hex. unfold CSG.toGeometry. cbv zeta. cbn [CSG.polygons].
  set (tc := CSG.triCount (pre ++ p0 :: rest)) in *.
  destruct (new_ok (tc * 3 * 3)) as [b ->]; [lia|]. rsimpl.
  rewrite foldM_app.
  pose proof (type_error_only_foldM (CSG.polygon_step tc) pre
                (fun acc x => type_error_only_polygon_step _ acc x Htc)
                (CSG.mkOut b b None None [])) as Hpre.
  destruct (foldM (CSG.polygon_step tc) pre _) as [o1|[]|]; cbn in Hpre;
    try contradiction; rsimpl; [|reflexivity].
  cbn [foldM].
  destruct (polygon_step_colors tc o1 p0 Htc) as [Hkeep Hthrow]; [right; eauto|].
  pose proof (type_error_only_polygon_step tc o1 p0 Htc) as Hte.
  apply Exists_cons in Hex as [Hp0|Hrest]; [now rewrite Hthrow|].
  destruct (CSG.polygon_step tc o1 p0) as [o2|[]|]; cbn in Hte; try contradiction;
    rsimpl; [|reflexivity].
  rewrite (foldM_throws (fun o => present (CSG.ocolors o) = true)
             (CSG.polygon_step tc) rest); [reflexivity| | | |now apply Hkeep].
  - intros. now apply type_error_only_polygon_step.
  - intros acc x acc' Hacc Hx.
    destruct (polygon_step_colors tc acc x Htc) as [Hk _]; [now left|]. auto.
  - eapply Exists_impl; [exact Hrest|]. intros x Hx acc Hacc.
    destruct (polygon_step_colors tc acc x Htc) as [_ Ht]; [now left|]. auto.
Qed.

Lemma toGeometry_mixed_colors_witness :
  CSG.toGeometry colored_then_plain = Throw TypeError.
Proof.
  apply (toGeometry_mixed_colors [] [flat_triangle] colored_triangle
           (colored_vertex 0 0 1)).
  - vm_compute. discriminate.
  - reflexivity.
  - discriminate.
  - right. left. split; [cbn; lia|]. left. reflexivity.
Defined.

(** ** The groups and the index that [toGeometry] makes *)

Lemma grps_ensure_keys (k : N) (g : list (N * list nat)) :
  forall k', In k' (map fst (grps_ensure k g)) <-> k' = k \/ In k' (map fst g).
Proof.
  induction g as [|[k0 l] g IH]; intros k'; cbn [grps_ensure map fst In].
  - intuition congruence.
  - destruct (N.eqb_spec k k0) as [->|Hne]; cbn [map fst In];
      [intuition congruence|].
    destruct (array_index k && (k <? k0)%N); cbn [map fst In]; [intuition congruence|].
    rewrite IH. intuition congruence.
Qed.

Lemma added_snoc (ks : list N) (k : N) :
  added (ks ++ [k])
  = if existsb (N.eqb k) (added ks) then added ks else added ks ++ [k].
Proof. unfold added. now rewrite fold_left_app. Qed.

(** A key that is no array index is looked for, and added at the end. *)
Lemma grps_ensure_other (k : N) (g : list (N * list nat)) :
  array_index k = false ->
  map fst (grps_ensure k g)
  = if existsb (N.eqb k) (map fst g) then map fst g else map fst g ++ [k].
Proof.
  intros Hk. induction g as [|[k0 l] g IH]; cbn [grps_ensure map fst existsb];
    [reflexivity|].
  rewrite Hk. cbn [andb orb].
  destruct (N.eqb_spec k k0) as [->|Hne]; cbn [orb map fst]; [reflexivity|].
  rewrite IH. now destruct (existsb (N.eqb k) (map fst g)).
Qed.

(** An array index is put in its place among the array indices. *)
Lemma grps_ensure_index (k : N) (large : list N) :
  array_index k = true ->
  Forall (fun k' => array_index k' = false) large ->
  forall (small : list N) (g : list (N * list nat)),
    map fst g = small ++ large -> ascending small ->
    Forall (fun k' => array_index k' = true) small ->
    exists small',
      map fst (grps_ensure k g) = small' ++ large
      /\ ascending small'
      /\ Forall (fun k' => array_index k' = true) small'
      /\ forall k', In k' small' <-> k' = k \/ In k' small.
Proof.
  intros Hk Hlarge. induction small as [|s small IH]; intros g Hg Hasc Hsmall.
  - exists [k]. cbn [app] in Hg.
    assert (Hgo : map fst (grps_ensure k g) = k :: large).
    { destruct g as [|[k0 l] g]; cbn [map fst] in Hg; subst large; [reflexivity|].
      apply Forall_cons_1 in Hlarge as [Hk0 _]. cbn [grps_ensure].
      unfold array_index in *. apply N.ltb_lt in Hk. apply N.ltb_ge in Hk0.
      destruct (N.eqb_spec k k0) as [->|Hne]; [lia|].
      replace (k <? 4294967295)%N with true by (symmetry; apply N.ltb_lt; lia).
      replace (k <? k0)%N with true by (symmetry; apply N.ltb_lt; lia).
      reflexivity. }
    rewrite Hgo. split; [reflexivity|]. split; [cbn; auto|].
    split; [repeat constructor; exact Hk|]. intros k'. cbn. intuition congruence.
  - destruct g as [|[k0 l] g]; [discriminate|]. cbn [map fst app] in Hg.
    injection Hg as -> Hg. destruct Hasc as [Hs Hasc].
    apply Forall_cons_1 in Hsmall as [Hs1 Hsmall]. cbn [grps_ensure].
    destruct (N.eqb_spec k s) as [->|Hne].
    + exists (s :: small). split; [cbn; now rewrite Hg|].
      split; [split; assumption|]. split; [now constructor|].
      intros k'. cbn. intuition congruence.
    + rewrite Hk. cbn [andb]. destruct (N.ltb_spec k s) as [Hlt|Hge].
      * exists (k :: s :: small). split; [cbn; now rewrite Hg|].
        split; [|split; [repeat constructor; assumption|intros k'; cbn; intuition congruence]].
        split; [|split; assumption]. constructor; [exact Hlt|].
        eapply Forall_impl; [exact Hs|]. intros x Hx. cbn in Hx. lia.
      * destruct (IH g Hg Hasc Hsmall) as (small' & E & Hasc' & Hidx & Hin).
        exists (s :: small'). split; [cbn; now rewrite E|].
        split; [|split; [now constructor|]].
        -- split; [|exact Hasc']. apply Forall_forall. intros x Hx.
           apply list_elem_of_In, Hin in Hx as [->|Hx]; [lia|].
           rewrite Forall_forall in Hs. apply Hs. now apply list_elem_of_In.
        -- intros k'. cbn. rewrite Hin. intuition congruence.
Qed.

Lemma existsb_eqb_In (k : N) (ks : list N) :
  existsb (N.eqb k) ks = true <-> In k ks.
Proof.
  rewrite existsb_exists. split.
  - intros (x & Hx & E). apply N.eqb_eq in E. now subst.
  - intros H. exists k. split; [exact H|apply N.eqb_refl].
Qed.

Lemma added_In (ks : list N) (k : N) : In k (added ks) <-> In k ks.
Proof.
  revert k. induction ks as [|k0 ks IH] using rev_ind; intros k; [reflexivity|].
  rewrite added_snoc, in_app_iff. cbn [In].
  destruct (existsb (N.eqb k0) (added ks)) eqn:E.
  - apply existsb_eqb_In, IH in E. rewrite IH.
    split; [auto|intros [H|[<-|[]]]; assumption].
  - rewrite in_app_iff, IH. cbn [In]. tauto.
Qed.

Lemma grps_ensure_order (tags : list N) (k : N) (g : list (N * list nat)) :
  keys_order tags (map fst g) ->
  keys_order (tags ++ [k]) (map fst (grps_ensure k g)).
Proof.
  intros (small & large & Hg & Hasc & Hsmall & Hlarge).
  assert (Hs : Forall (fun k' => array_index k' = true) small).
  { apply List.Forall_forall. intros x Hx. now apply Hsmall in Hx. }
  assert (Hl : Forall (fun k' => array_index k' = false) large).
  { apply List.Forall_forall. intros x Hx. subst large.
    apply added_In, filter_In in Hx as [_ Hx]. now apply negb_true_iff in Hx. }
  destruct (array_index k) eqn:Hk.
  - destruct (grps_ensure_index k large Hk Hl small g Hg Hasc Hs)
      as (small' & E & Hasc' & _ & Hin).
    exists small', large. split; [exact E|]. split; [exact Hasc'|]. split.
    + intros k'. rewrite Hin, Hsmall, in_app_iff. cbn [In].
      split; [intros [->|[H1 H2]]; auto|intros [[H1|[<-|[]]] H2]; auto].
    + rewrite List.filter_app. cbn [List.filter]. rewrite Hk. cbn [negb].
      now rewrite app_nil_r.
  - exists small, (if existsb (N.eqb k) large then large else large ++ [k]).
    split; [|split; [exact Hasc|split]].
    + rewrite (grps_ensure_other k g Hk), Hg, existsb_app.
      assert (E : existsb (N.eqb k) small = false).
      { apply not_true_is_false. intros H. apply existsb_eqb_In in H.
        apply Hsmall in H as [_ H]. congruence. }
      rewrite E. cbn [orb]. destruct (existsb (N.eqb k) large); [reflexivity|].
      now rewrite app_assoc.
    + intros k'. rewrite Hsmall, in_app_iff. cbn [In].
      split; [intros [H1 H2]; auto|intros [[H1|[<-|[]]] H2]; [auto|congruence]].
    + rewrite List.filter_app. cbn [List.filter]. rewrite Hk. cbn [negb].
      now rewrite added_snoc, <- Hlarge.
Qed.

Lemma keys_order_nil : keys_order [] [].
Proof.
  exists [], []. split; [reflexivity|]. split; [exact I|]. split; [|reflexivity].
  intros k. cbn. tauto.
Qed.


Lemma grps_ensure_entries (k : N) (g : list (N * list nat)) :
  entries (grps_ensure k g) = entries g.
Proof.
  unfold entries. induction g as [|[k0 l] g IH]; cbn [grps_ensure]; [reflexivity|].
  destruct (k =? k0)%N; [reflexivity|].
  destruct (array_index k && (k <? k0)%N); [reflexivity|].
  cbn [map snd concat]. now rewrite IH.
Qed.

Lemma grps_push_inv (k : N) (vals : list nat) (g g' : list (N * list nat)) :
  grps_push k vals g = Ok g' ->
  map fst g' = map fst g /\ Permutation (entries g') (entries g ++ vals).
Proof.
  unfold entries. revert g'.
  induction g as [|[k0 l] g IH]; intros g'; cbn [grps_push]; [discriminate|].
  destruct (k =? k0)%N.
  - intros [= <-]. split; [reflexivity|]. cbn [map snd concat].
    rewrite <- !app_assoc. apply Permutation_app_head, Permutation_app_comm.
  - destruct (grps_push k vals g) as [g1| |]; rsimpl; try discriminate.
    intros [= <-]. destruct (IH g1 eq_refl) as [Hk Hp].
    split; [cbn; now rewrite Hk|]. cbn [map snd concat].
    rewrite <- app_assoc. now apply Permutation_app_head.
Qed.

Lemma write3_top (b b' : nbuf.t) (v : option Vector.t) :
  nbuf.write3 b v = Ok b' -> nbuf.top b' = (nbuf.top b + 3)%nat.
Proof.
  destruct v as [v|]; [|discriminate]. intros [= <-]. rewrite !put_top. lia.
Qed.

Lemma fan_step_inv (p : Polygon.t) (o o' : CSG.out) (j c : nat) :
  CSG.fan_step p o j = Ok o' -> chunks_inv c o ->
  chunks_inv (c + 1) o' /\ map fst (CSG.ogrps o') = map fst (CSG.ogrps o).
Proof.
  unfold CSG.fan_step. intros H (Htop & Hlt & t & Hlen).
  destruct (match Polygon.shared p with Some _ => _ | None => _ end)
    as [grps| |] eqn:Hgrps; rsimpl in H; try discriminate.
  repeat match type of H with
         | (?m ≫= _) = Ok _ =>
           destruct m eqn:?; rsimpl in H; try discriminate
         end.
  injection H as <-. cbn [CSG.overtices CSG.ogrps].
  repeat match goal with
         | E : nbuf.write3 _ _ = Ok _ |- _ => apply write3_top in E
         end.
  assert (Hg : map fst grps = map fst (CSG.ogrps o)
               /\ Forall (fun e => (e < 3 * (c + 1))%nat) (entries grps)
               /\ exists t', length (entries grps) = (3 * t')%nat).
  { assert (Hold : Forall (fun e => (e < 3 * (c + 1))%nat) (entries (CSG.ogrps o))).
    { eapply Forall_impl; [exact Hlt|]. intros e He. cbn in He. lia. }
    destruct (Polygon.shared p) as [k|].
    - apply grps_push_inv in Hgrps as [Hk Hp]. split; [exact Hk|].
      rewrite Htop in Hp.
      replace (9 * c / 3)%nat with (3 * c)%nat in Hp
        by (apply Nat.div_unique_exact; lia).
      split.
      + eapply Permutation_Forall; [symmetry; exact Hp|].
        apply Forall_app. split; [exact Hold|].
        repeat constructor; lia.
      + exists (t + 1)%nat. rewrite (Permutation_length Hp), length_app, Hlen.
        cbn. lia.
    - injection Hgrps as <-. split; [reflexivity|]. split; [exact Hold|eauto]. }
  destruct Hg as (Hk & Hlt' & Ht').
  unfold chunks_inv. cbn [CSG.overtices CSG.ogrps].
  split; [|exact Hk]. split; [lia|]. split; assumption.
Qed.

Lemma fan_loop_inv (p : Polygon.t) (js : list nat) :
  forall (o o' : CSG.out) (c : nat),
    foldM (CSG.fan_step p) js o = Ok o' -> chunks_inv c o ->
    chunks_inv (c + length js) o' /\ map fst (CSG.ogrps o') = map fst (CSG.ogrps o).
Proof.
  induction js as [|j js IH]; intros o o' c; cbn [foldM length].
  - intros [= <-] H. now rewrite Nat.add_0_r.
  - destruct (CSG.fan_step p o j) as [o1| |] eqn:Hj; rsimpl; try discriminate.
    intros H Ho. destruct (fan_step_inv p o o1 j c Hj Ho) as [Ho1 Hk1].
    destruct (IH o1 o' (c + 1)%nat H Ho1) as [Ho' Hk'].
    split; [|congruence]. now replace (c + S (length js))%nat
                            with (c + 1 + length js)%nat by lia.
Qed.

Lemma tags_of_snoc (ps : list Polygon.t) (p : Polygon.t) (k : N) :
  tags_of (ps ++ [p]) k <-> tags_of ps k \/ Polygon.shared p = Some k.
Proof.
  unfold tags_of. split.
  - intros (q & Hq & Hk). apply in_app_iff in Hq as [Hq|[<-|[]]]; eauto.
  - intros [(q & Hq & Hk)| Hk].
    + exists q. split; [apply in_app_iff; now left|exact Hk].
    + exists p. split; [apply in_app_iff; right; now left|exact Hk].
Qed.

Lemma polygon_step_inv (tc : Z) (ps : list Polygon.t) (p : Polygon.t)
    (o o' : CSG.out) :
  CSG.polygon_step tc o p = Ok o' -> groups_inv ps o -> groups_inv (ps ++ [p]) o'.
Proof.
  unfold CSG.polygon_step. cbv zeta. intros H ((Htop & Hlt & Ht) & Hasc & Hkeys).
  repeat match type of H with
         | (?m ≫= _) = Ok _ =>
           destruct m eqn:?; rsimpl in H; try discriminate
         end.
  apply fan_loop_inv with (c := fan_count ps) in H as [Hc Hk].
  - rewrite length_seq in Hc. cbn [CSG.ogrps] in Hk.
    split; [now rewrite fan_count_snoc|]. rewrite Hk. split.
    + unfold tag_list. rewrite flat_map_app. cbn [flat_map].
      destruct (Polygon.shared p); rewrite app_nil_r;
        [now apply grps_ensure_order|exact Hasc].
    + intros k. rewrite tags_of_snoc, <- Hkeys.
      destruct (Polygon.shared p) as [k0|].
      * rewrite grps_ensure_keys. split; intros [Hk0|Hk0]; auto; [right|left]; congruence.
      * split; [auto|]. intros [Hk0|Hk0]; [exact Hk0|discriminate].
  - split; [exact Htop|]. cbn [CSG.ogrps].
    destruct (Polygon.shared p); [rewrite grps_ensure_entries|]; auto.
Qed.

Lemma polygons_loop_inv (tc : Z) (ps : list Polygon.t) :
  forall (done : list Polygon.t) (o o' : CSG.out),
    foldM (CSG.polygon_step tc) ps o = Ok o' -> groups_inv done o ->
    groups_inv (done ++ ps) o'.
Proof.
  induction ps as [|p ps IH]; intros done o o'; cbn [foldM].
  - intros [= <-] H. now rewrite app_nil_r.
  - destruct (CSG.polygon_step tc o p) as [o1| |] eqn:Hp; rsimpl; try discriminate.
    intros H Ho. replace (done ++ p :: ps) with ((done ++ [p]) ++ ps)
      by (now rewrite <- app_assoc).
    apply (IH _ o1 o' H). eapply polygon_step_inv; eauto.
Qed.

Lemma group_loop (g : list (N * list nat)) :
  forall (groups : list (nat * nat * nat)) (gbase : nat) (index : list nat) (gi : nat),
    fold_left CSG.group_step g (groups, gbase, index, gi)
    = (groups ++ group_ranges gbase gi (map (fun kc => length (snd kc)) g),
       (gbase + length (entries g))%nat, index ++ entries g, (gi + length g)%nat).
Proof.
  unfold entries.
  induction g as [|[k l] g IH]; intros groups gbase index gi; cbn [fold_left].
  - cbn. now rewrite !app_nil_r, !Nat.add_0_r.
  - unfold CSG.group_step at 2. cbn [snd]. rewrite IH.
    cbn [map snd concat group_ranges length].
    rewrite <- !app_assoc, length_app. cbn [app].
    rewrite Nat.add_assoc.
    replace (gi + 1 + length g)%nat with (gi + S (length g))%nat by lia.
    reflexivity.
Qed.

Lemma toGeometry_inv (csg : CSG.t) (g : BufferGeometry.t) :
  CSG.toGeometry csg = Ok g ->
  exists o, groups_inv (CSG.polygons csg) o
            /\ BufferGeometry.index g
               = match CSG.ogrps o with
                 | [] => None
                 | _ => Some (entries (CSG.ogrps o))
                 end
            /\ BufferGeometry.groups g
               = group_ranges 0 0 (map (fun kc => length (snd kc)) (CSG.ogrps o)).
Proof.
  unfold CSG.toGeometry. cbv zeta. intros H.
  destruct (nbuf.new _) as [b| |] eqn:Hb; rsimpl in H; try discriminate.
  destruct (foldM _ _ _) as [o| |] eqn:Ho; rsimpl in H; try discriminate.
  rewrite group_loop in H. injection H as <-. exists o.
  cbn [BufferGeometry.index BufferGeometry.groups app]. split; [|split; reflexivity].
  apply (polygons_loop_inv _ _ [] _ _ Ho).
  unfold nbuf.new in Hb. destruct (_ <? 0)%Z; [discriminate|]. injection Hb as <-.
  split; [|split].
  - split; [reflexivity|]. split; [constructor|]. exists 0%nat. reflexivity.
  - apply keys_order_nil.
  - intros k. split; [intros []|intros (p & [] & _)].
Qed.



(** X16: when every polygon has at least two vertices, the index that
    [toGeometry] makes is an index of whole triangles into the vertices
    it has written: its length is a multiple of 3 and each entry is the
    number of a vertex of the position buffer, which holds 9 numbers for
    each triangle of the fans. *)
Theorem toGeometry_index_in_range (csg : CSG.t) (g : BufferGeometry.t)
    (index : list nat) :
  CSG.toGeometry csg = Ok g ->
  Forall (fun p => (2 <= length (Polygon.vertices p))%nat) (CSG.polygons csg) ->
  BufferGeometry.index g = Some index ->
  exists posattr,
    BufferGeometry.position g = Some posattr
    /\ length (BufferAttribute.array posattr) = (9 * fan_count (CSG.polygons csg))%nat
    /\ Forall (fun i => (3 * i + 2 < length (BufferAttribute.array posattr))%nat) index
    /\ exists t, length index = (3 * t)%nat.
Proof.
  intros Hg Hlen Hix.
  destruct (toGeometry_fans csg g Hg Hlen) as [Hpos _].
  apply toGeometry_inv in Hg as (o & ((_ & Hlt & Ht) & _ & _) & Hix' & _).
  rewrite Hix' in Hix. eexists. split; [exact Hpos|].
  cbn [BufferAttribute.array]. rewrite length_map, fans_length.
  split; [reflexivity|].
  destruct (CSG.ogrps o) as [|kc gs]; [discriminate|]. injection Hix as <-.
  split; [|exact Ht].
  eapply Forall_impl; [exact Hlt|]. intros e He. cbn in He. lia.
Qed.

Lemma toGeometry_index_in_range_witness :
  exists g posattr,
    CSG.toGeometry tagged_faces = Ok g
    /\ BufferGeometry.position g = Some posattr
    /\ length (BufferAttribute.array posattr) = 18%nat.
Proof.
  destruct (CSG.toGeometry tagged_faces) as [g| |] eqn:Hg.
  - destruct (toGeometry_index_in_range tagged_faces g [0; 1; 2; 3; 4; 5]%nat Hg)
      as (posattr & Hpos & Hlen & _).
    + repeat constructor.
    + vm_compute in Hg. now injection Hg as <-.
    + exists g, posattr. split; [reflexivity|]. split; [exact Hpos|exact Hlen].
  - vm_compute in Hg. discriminate Hg.
  - vm_compute in Hg. discriminate Hg.
Defined.

(** ** The vertices that [fromGeometry] makes *)

Lemma mapR_lookup {A B} (f : A -> result B) (xs : list A) (ys : list B)
    (k : nat) (x : A) :
  mapR f xs = Ok ys -> xs !! k = Some x ->
  exists y, ys !! k = Some y /\ f x = Ok y.
Proof.
  intros H Hx. apply mapR_Forall2 in H.
  destruct (Forall2_lookup_l _ _ _ _ _ H Hx) as (y & Hy & Hf). eauto.
Qed.

(** X17: the vertex that [fromGeometry] makes for the index entry [i], at
    corner [c] of triangle [k]: its position and its normal are the
    numbers 3i, 3i+1, 3i+2 of the position and normal arrays, its uv the
    numbers 2i, 2i+1 of the uv array with z = 0; and its color is read
    where the uv is, at 2i, 2i+1, 2i+2 of the color array, not at 3i. *)
Theorem fromGeometry_vertex (geom : BufferGeometry.t) (objectIndex : option N)
    (index : list nat) (csg : CSG.t) (k c i : nat) :
  CSG.geometry_index geom = Ok index ->
  CSG.fromGeometry geom objectIndex = Ok csg ->
  (c < 3)%nat -> index !! (3 * k + c)%nat = Some i ->
  exists p v posattr normalattr,
    CSG.polygons csg !! k = Some p
    /\ Polygon.vertices p !! c = Some v
    /\ BufferGeometry.position geom = Some posattr
    /\ BufferGeometry.normal geom = Some normalattr
    /\ Vertex.pos v = triple (BufferAttribute.array posattr) (3 * i)
    /\ Vertex.normal v = triple (BufferAttribute.array normalattr) (3 * i)
    /\ Vertex.uv v
       = (fun a => Vector.mk (read (BufferAttribute.array a) (Some (2 * i)%nat))
                     (read (BufferAttribute.array a) (Some (2 * i + 1)%nat)) 0)
         <$> BufferGeometry.uv geom
    /\ Vertex.color v
       = (fun a => triple (BufferAttribute.array a) (2 * i)) <$> BufferGeometry.color geom.
Proof.
  intros Hix Hcsg Hc Hi. rewrite fromGeometry_eq, Hix in Hcsg. rsimpl in Hcsg.
  destruct (mapR _ _) as [ps| |] eqn:Hps; rsimpl in Hcsg; try discriminate.
  injection Hcsg as <-. cbn [CSG.polygons].
  pose proof (lookup_lt_Some _ _ _ Hi) as Hlt.
  assert (Hk : seq 0 ((length index + 2) / 3) !! k = Some k).
  { apply lookup_seq. split; [reflexivity|].
    pose proof (Nat.div_mod_eq (length index + 2) 3) as Hdiv.
    pose proof (Nat.mod_upper_bound (length index + 2) 3) as Hmod. lia. }
  destruct (mapR_lookup _ _ _ _ _ Hps Hk) as (p & Hp & Ht).
  unfold triangle_at in Ht.
  destruct (CSG.vertex_of geom (index !! (3 * k)%nat)) as [v0| |] eqn:E0;
    rsimpl in Ht; try discriminate.
  destruct (CSG.vertex_of geom (index !! (3 * k + 1)%nat)) as [v1| |] eqn:E1;
    rsimpl in Ht; try discriminate.
  destruct (CSG.vertex_of geom (index !! (3 * k + 2)%nat)) as [v2| |] eqn:E2;
    rsimpl in Ht; try discriminate.
  apply Polygon_new_inv in Ht as (_ & Hvs & _).
  assert (Hv : exists v, Polygon.vertices p !! c = Some v
                         /\ CSG.vertex_of geom (Some i) = Ok v).
  { rewrite Hvs. destruct c as [|[|[|c]]]; [| | |lia].
    - rewrite Nat.add_0_r in Hi. rewrite Hi in E0. eauto.
    - rewrite Hi in E1. eauto.
    - rewrite Hi in E2. eauto. }
  destruct Hv as (v & Hv & Hof). unfold CSG.vertex_of in Hof.
  destruct (BufferGeometry.position geom) as [posattr|]; [|discriminate].
  destruct (BufferGeometry.normal geom) as [normalattr|]; [|discriminate].
  cbn [prop_of] in Hof. rsimpl in Hof. injection Hof as <-.
  eexists p, _, posattr, normalattr. split; [exact Hp|]. split; [exact Hv|].
  split; [reflexivity|]. split; [reflexivity|].
  unfold triple, Vertex.new.
  cbn [Vertex.pos Vertex.normal Vertex.uv Vertex.color Vector.copy Vector.x Vector.y
         Vector.z fmap option_fmap option_map].
  rewrite !(Nat.add_comm (3 * i)), !(Nat.add_comm (2 * i)).
  repeat split; destruct (BufferGeometry.uv geom), (BufferGeometry.color geom);
    reflexivity.
Qed.

Lemma fromGeometry_vertex_witness :
  exists csg p v,
    CSG.fromGeometry two_faces None = Ok csg
    /\ CSG.polygons csg !! 1%nat = Some p
    /\ Polygon.vertices p !! 2%nat = Some v
    /\ Vertex.pos v = Vector.mk 0 0 1.
Proof.
  destruct (CSG.fromGeometry two_faces None) as [csg| |] eqn:Hcsg.
  - destruct (fromGeometry_vertex two_faces None [0; 1; 2; 0; 2; 3]%nat csg 1 2 3
                eq_refl Hcsg) as (p & v & pa & na & Hp & Hv & Hpa & _ & Hpos & _);
      [lia|reflexivity|].
    exists csg, p, v. split; [reflexivity|]. split; [exact Hp|]. split; [exact Hv|].
    rewrite Hpos. injection Hpa as <-. reflexivity.
  - vm_compute in Hcsg. discriminate Hcsg.
  - vm_compute in Hcsg. discriminate Hcsg.
Defined.

(** ** The normals, there and back *)

Lemma import_field (geom : BufferGeometry.t) (tag : option N)
    (field : Vertex.t -> Vector.t) (a : list float) :
  (forall i v, CSG.vertex_of geom (Some i) = Ok v -> coords (field v) = corner a i) ->
  forall (n s : nat) (pre rest : list nat) (ps : list Polygon.t),
    length pre = (3 * s)%nat -> length rest = (3 * n)%nat ->
    mapR (triangle_at geom tag (pre ++ rest)) (seq s n) = Ok ps ->
    flat_map (fan_values field) ps = flat_map (corner a) rest.
Proof.
  intros Hfield. induction n as [|n IH]; intros s pre rest ps Hpre Hrest.
  - destruct rest; [|discriminate]. now intros [= <-].
  - destruct rest as [|i0 [|i1 [|i2 rest]]]; simpl in Hrest; try lia.
    cbn [seq mapR].
    assert (Et : triangle_at geom tag (pre ++ i0 :: i1 :: i2 :: rest) s
                 = (v0 ← CSG.vertex_of geom (Some i0);
                    v1 ← CSG.vertex_of geom (Some i1);
                    v2 ← CSG.vertex_of geom (Some i2);
                    Polygon.new [v0; v1; v2] tag)).
    { unfold triangle_at. rewrite !lookup_app_r by lia. rewrite Hpre.
      replace (3 * s - 3 * s)%nat with 0%nat by lia.
      replace (3 * s + 1 - 3 * s)%nat with 1%nat by lia.
      replace (3 * s + 2 - 3 * s)%nat with 2%nat by lia.
      reflexivity. }
    rewrite Et. clear Et.
    destruct (CSG.vertex_of geom (Some i0)) as [v0| |] eqn:E0; rsimpl; try discriminate.
    destruct (CSG.vertex_of geom (Some i1)) as [v1| |] eqn:E1; rsimpl; try discriminate.
    destruct (CSG.vertex_of geom (Some i2)) as [v2| |] eqn:E2; rsimpl; try discriminate.
    cbn [Polygon.new lookup list_lookup prop_of]. rsimpl.
    destruct (mapR _ (seq (S s) n)) as [ps'| |] eqn:Hps'; rsimpl; try discriminate.
    intros [= <-].
    replace (pre ++ i0 :: i1 :: i2 :: rest) with ((pre ++ [i0; i1; i2]) ++ rest) in Hps'
      by (now rewrite <- app_assoc).
    apply IH in Hps'; [|rewrite length_app; simpl; lia|lia].
    cbn [flat_map]. rewrite Hps'. unfold fan_values at 1.
    cbn [Polygon.vertices fan fan_from flat_map fst snd].
    rewrite (Hfield _ _ E0), (Hfield _ _ E1), (Hfield _ _ E2), app_nil_r,
      <- !app_assoc. reflexivity.
Qed.

Lemma vertex_of_normal (geom : BufferGeometry.t) (normalattr : BufferAttribute.t)
    (i : nat) (v : Vertex.t) :
  BufferGeometry.normal geom = Some normalattr ->
  CSG.vertex_of geom (Some i) = Ok v ->
  coords (Vertex.normal v) = corner (BufferAttribute.array normalattr) i.
Proof.
  intros Hn. unfold CSG.vertex_of. rewrite Hn.
  destruct (BufferGeometry.position geom); [|discriminate].
  cbn [prop_of]. rsimpl. intros [= <-].
  unfold corner, coords, Vertex.new.
  cbn [Vertex.normal Vector.copy Vector.x Vector.y Vector.z fmap option_fmap option_map].
  repeat f_equal; lia.
Qed.

Lemma valid_normals_spec (geom : BufferGeometry.t) :
  valid_normals geom = true ->
  exists index normalattr,
    CSG.geometry_index geom = Ok index
    /\ BufferGeometry.normal geom = Some normalattr
    /\ Forall (fun i => (3 * i + 2 < length (BufferAttribute.array normalattr))%nat) index
    /\ Forall (fun x => fround x = x) (BufferAttribute.array normalattr).
Proof.
  unfold valid_normals.
  destruct (CSG.geometry_index geom) as [index| |]; try discriminate.
  destruct (BufferGeometry.normal geom) as [na|]; [|discriminate].
  intros H. apply andb_prop in H as [H1 H2]. exists index, na.
  split; [reflexivity|]. split; [reflexivity|]. split.
  - apply List.Forall_forall. intros i Hi.
    rewrite forallb_forall in H1. now apply Nat.ltb_lt, H1.
  - apply List.Forall_forall. intros x Hx.
    rewrite forallb_forall in H2. now apply Leibniz.eqb_spec, H2.
Qed.

(** X18: the normals of a valid mesh come back too: when every index entry
    names a normal that is there and the normals are binary32 numbers,
    [toGeometry(fromGeometry(g))] has, corner by corner, the normals
    of [g]. *)
Theorem export_of_import_normals (geom : BufferGeometry.t) (objectIndex : option N) :
  valid_mesh geom = true -> valid_normals geom = true ->
  exists csg g,
    CSG.fromGeometry geom objectIndex = Ok csg
    /\ CSG.toGeometry csg = Ok g
    /\ normal_corners g = normal_corners geom.
Proof.
  intros Hvalid Hnormals.
  destruct (valid_mesh_spec geom Hvalid)
    as (index & posattr & normalattr & Hidx & Hpos & Hnor & Hmod & _ & _).
  destruct (valid_normals_spec geom Hnormals)
    as (index' & normalattr' & Hidx' & Hnor' & Hrange & Hf32).
  rewrite Hidx in Hidx'. injection Hidx' as <-.
  rewrite Hnor in Hnor'. injection Hnor' as <-.
  set (T := (length index / 3)%nat).
  assert (HT : length index = (3 * T)%nat).
  { pose proof (Nat.div_mod_eq (length index) 3). unfold T. lia. }
  clearbody T.
  destruct (import_triangles geom posattr normalattr objectIndex Hpos Hnor
              T 0 [] index eq_refl HT) as (ps & Eps & Hlen & Hmesh & _).
  pose proof (import_field geom objectIndex Vertex.normal
                (BufferAttribute.array normalattr)
                (fun i v => vertex_of_normal geom normalattr i v Hnor)
                T 0 [] index ps eq_refl HT Eps) as Hflat.
  cbn [app] in Eps.
  destruct (toGeometry_mesh_ok _ _ _ ps Hmesh) as (g & Eg & Hgi).
  assert (H2 : Forall (fun p => (2 <= length (Polygon.vertices p))%nat) ps).
  { eapply Forall_impl; [exact Hmesh|]. intros p Hp.
    rewrite (mesh_triangle_length _ _ _ _ Hp). lia. }
  destruct (toGeometry_fans (CSG.mk ps) g Eg H2) as [Hgp Hgn].
  cbn [CSG.polygons] in Hgp, Hgn.
  rewrite Hflat, (fround_corners _ _ Hrange Hf32) in Hgn.
  assert (Hgidx : CSG.geometry_index g = Ok (seq 0 (3 * T))).
  { unfold CSG.geometry_index. rewrite Hgi, Hgp. cbn [prop_of]. rsimpl.
    cbn [BufferAttribute.array BufferAttribute.itemSize].
    rewrite length_map, fans_length, (mesh_fan_count _ _ _ _ Hmesh), Hlen.
    destruct objectIndex, ps; try reflexivity;
      (replace (9 * T / 3)%nat with (3 * T)%nat
         by (apply Nat.div_unique_exact; lia)); try reflexivity;
      cbn [length] in Hlen; f_equal; f_equal; lia. }
  exists (CSG.mk ps), g. split; [|split; [exact Eg|]].
  - rewrite fromGeometry_eq, Hidx. rsimpl.
    replace ((length index + 2) / 3)%nat with T
      by (apply (Nat.div_unique _ 3 _ 2); lia).
    rewrite Eps. reflexivity.
  - unfold normal_corners. rewrite Hgidx, Hidx, Hgn, Hnor. cbn [prop_of]. rsimpl.
    cbn [BufferAttribute.array]. f_equal.
    apply (corners_of_buffer (3 * T) 0 []); [reflexivity|].
    rewrite corner_length. lia.
Qed.

Lemma export_of_import_normals_witness :
  exists csg g,
    CSG.fromGeometry two_faces (Some 5%N) = Ok csg
    /\ CSG.toGeometry csg = Ok g
    /\ normal_corners g = normal_corners two_faces.
Proof.
  apply (export_of_import_normals two_faces (Some 5%N)); vm_compute; reflexivity.
Defined.

(** * Copies *)

Lemma Polygon_new_map (f g : Vertex.t -> Vertex.t) (h : Vertex.t -> Vertex.t)
    (vs : list Vertex.t) (sh : option N) :
  (forall v, Vertex.pos (f v) = Vertex.pos (g v)) ->
  (forall v, h (g v) = f v) ->
  Polygon.new (map f vs) sh
  = (fun p => Polygon.mk (map h (Polygon.vertices p)) (Polygon.shared p)
                (Polygon.plane p)) <$> Polygon.new (map g vs) sh.
Proof.
  intros Hpos Hh. unfold Polygon.new.
  destruct vs as [|a [|b [|c l]]]; cbn; try reflexivity.
  rewrite !Hpos, !Hh, map_map, (map_ext (fun x => h (g x)) f Hh). reflexivity.
Qed.

(** X19: [Node.fromJSON] makes of the polygons of a solid what [clone]
    makes of them, without the colors: a vertex is rebuilt from its
    position, normal and uv only. *)
Theorem fromJSON_drops_colors (json : CSG.t) :
  Node_fromJSON json = without_colors <$> CSG.clone json.
Proof.
  unfold Node_fromJSON, CSG.clone, without_colors.
  destruct json as [ps]. cbn [CSG.polygons].
  induction ps as [|p ps IH]; [reflexivity|]. cbn [mapR].
  change (Polygon.clone p)
    with (Polygon.new (map Vertex.clone (Polygon.vertices p)) (Polygon.shared p)).
  rewrite (Polygon_new_map
             (fun v => Vertex.new (Vertex.pos v) (Vertex.normal v) (Vertex.uv v) None)
             Vertex.clone without_color); [|reflexivity|reflexivity].
  destruct (Polygon.new (map Vertex.clone (Polygon.vertices p)) (Polygon.shared p))
    as [q| |]; rsimpl; try reflexivity.
  destruct (mapR _ ps) as [qs| |]; destruct (mapR Polygon.clone ps) as [qs'| |];
    rsimpl in IH; rsimpl; try discriminate IH; try reflexivity.
  all: injection IH as IH; cbn [CSG.fromPolygons CSG.polygons map]; now rewrite IH.
Qed.

Lemma Node_clone_mk (pl : option Plane.t) (f b : option Node.t) (ps : list Polygon.t) :
  Node_clone (Node.mk pl f b ps)
  = front ← match f with
            | Some n => Some <$> Node_clone n
            | None => Ok None
            end;
    back ← match b with
           | Some n => Some <$> Node_clone n
           | None => Ok None
           end;
    polygons ← mapR Polygon.clone ps;
    Ok (Node.mk (Plane.clone <$> pl) front back polygons).
Proof. reflexivity. Qed.

Lemma Plane_clone_eq (pl : Plane.t) : Plane.clone pl = pl.
Proof. destruct pl as [[x y z] w]. reflexivity. Qed.

(** X20: [clone] of a tree keeps the planes and the shape of the tree, and
    its polygons are the clones of the polygons of the tree, in the order
    of [allPolygons]. *)
Theorem Node_clone_copies (this r : Node.t) :
  Node_clone this = Ok r ->
  planes_of r = planes_of this
  /\ mapR Polygon.clone (Node.allPolygons this) = Ok (Node.allPolygons r).
Proof.
  revert r. induction this as [pl f b ps IHf IHb] using Node_induction. intros r.
  rewrite Node_clone_mk, !allPolygons_mk, !mapR_app. intros H.
  assert (Hchild : forall (c c' : option Node.t),
             child_all (fun n => forall r, Node_clone n = Ok r ->
                          planes_of r = planes_of n
                          /\ mapR Polygon.clone (Node.allPolygons n)
                             = Ok (Node.allPolygons r)) c ->
             match c with
             | Some n => Some <$> Node_clone n
             | None => Ok None
             end = Ok c' ->
             planes_of <$> c' = planes_of <$> c
             /\ mapR Polygon.clone
                  (match c with Some n => Node.allPolygons n | None => [] end)
                = Ok (match c' with Some n => Node.allPolygons n | None => [] end)).
  { intros c c' IH Hc. destruct c as [n|]; cbn [child_all] in IH.
    - destruct (Node_clone n) as [n'| |] eqn:Hn; rsimpl in Hc; try discriminate.
      injection Hc as <-. destruct (IH n' eq_refl) as [E1 E2].
      cbn [fmap option_fmap option_map]. now rewrite E1, E2.
    - injection Hc as <-. auto. }
  destruct (match f with Some n => _ | None => _ end) as [f'| |] eqn:Hf;
    rsimpl in H; try discriminate.
  destruct (match b with Some n => _ | None => _ end) as [b'| |] eqn:Hb;
    rsimpl in H; try discriminate.
  destruct (mapR Polygon.clone ps) as [ps'| |]; rsimpl in H; try discriminate.
  injection H as <-.
  destruct (Hchild f f' IHf Hf) as [Hpf ->].
  destruct (Hchild b b' IHb Hb) as [Hpb ->]. rsimpl.
  rewrite !planes_of_mk, Hpf, Hpb, allPolygons_mk. split; [|reflexivity].
  f_equal. destruct pl; cbn; [now rewrite Plane_clone_eq|reflexivity].
Qed.

Lemma Node_clone_copies_witness :
  exists r, Node_clone node_z0 = Ok r
            /\ planes_of r = planes_of node_z0
            /\ mapR Polygon.clone [flat_triangle] = Ok (Node.allPolygons r).
Proof.
  destruct (Node_clone node_z0) as [r| |] eqn:Hr.
  - exists r. split; [reflexivity|]. exact (Node_clone_copies node_z0 r Hr).
  - vm_compute in Hr. discriminate Hr.
  - vm_compute in Hr. discriminate Hr.
Defined.

(** ** The attributes that [toGeometry] makes *)

Lemma put_length (b : nbuf.t) (x : float) :
  length (nbuf.array (nbuf.put b x)) = length (nbuf.array b).
Proof. unfold nbuf.put. cbn [nbuf.array]. apply length_insert. Qed.

Lemma write3_length (b b' : nbuf.t) (v : option Vector.t) :
  nbuf.write3 b v = Ok b' -> length (nbuf.array b') = length (nbuf.array b).
Proof.
  destruct v as [v|]; [|discriminate]. intros [= <-]. now rewrite !put_length.
Qed.

Lemma write2_length (b b' : nbuf.t) (v : option Vector.t) :
  nbuf.write2 b v = Ok b' -> length (nbuf.array b') = length (nbuf.array b).
Proof.
  destruct v as [v|]; [|discriminate]. intros [= <-]. now rewrite !put_length.
Qed.

Lemma new_length (ct : Z) (b : nbuf.t) :
  nbuf.new ct = Ok b -> length (nbuf.array b) = Z.to_nat ct.
Proof.
  unfold nbuf.new. destruct (ct <? 0)%Z; [discriminate|].
  intros [= <-]. cbn [nbuf.array]. apply length_replicate.
Qed.

Lemma fan_step_buffers (p : Polygon.t) (o o' : CSG.out) (j : nat) (n2 n3 : nat) :
  CSG.fan_step p o j = Ok o' ->
  sized n2 (CSG.ouvs o) -> sized n3 (CSG.ocolors o) ->
  sized n3 (Some (CSG.overtices o)) -> sized n3 (Some (CSG.onormals o)) ->
  present (CSG.ouvs o') = present (CSG.ouvs o)
  /\ present (CSG.ocolors o') = present (CSG.ocolors o)
  /\ sized n2 (CSG.ouvs o') /\ sized n3 (CSG.ocolors o')
  /\ sized n3 (Some (CSG.overtices o')) /\ sized n3 (Some (CSG.onormals o')).
Proof.
  unfold CSG.fan_step, sized. intros H Hu Hc Hv Hn.
  repeat match type of H with
         | (?m ≫= _) = Ok _ =>
           destruct m eqn:?; rsimpl in H; try discriminate
         end.
  injection H as <-. cbn [CSG.overtices CSG.onormals CSG.ouvs CSG.ocolors].
  repeat match goal with
         | E : nbuf.write3 _ (Some _) = Ok _ |- _ => apply write3_length in E
         end.
  assert (Huv : forall r, match CSG.ouvs o with
                          | Some uvs =>
                            match Vertex.uv a0 with
                            | Some _ =>
                              uvs ← nbuf.write2 uvs (Vertex.uv a0);
                              uvs ← nbuf.write2 uvs (Vertex.uv a1);
                              uvs ← nbuf.write2 uvs (Vertex.uv a2);
                              Ok (Some uvs)
                            | None => Ok (Some uvs)
                            end
                          | None => Ok None
                          end = Ok r ->
                          present r = present (CSG.ouvs o)
                          /\ match r with
                             | Some b => length (nbuf.array b) = n2
                             | None => True
                             end).
  { intros r Hr. destruct (CSG.ouvs o) as [u|]; [|injection Hr as <-; auto].
    destruct (Vertex.uv a0); [|injection Hr as <-; auto].
    repeat match type of Hr with
           | (?m ≫= _) = Ok _ =>
             destruct m eqn:?; rsimpl in Hr; try discriminate
           end.
    injection Hr as <-.
    repeat match goal with
           | E : nbuf.write2 _ _ = Ok _ |- _ => apply write2_length in E
           end.
    split; [reflexivity|congruence]. }
  assert (Hcol : forall r, match CSG.ocolors o with
                           | Some colors =>
                             colors ← nbuf.write3 colors (Vertex.color a0);
                             colors ← nbuf.write3 colors (Vertex.color a1);
                             colors ← nbuf.write3 colors (Vertex.color a2);
                             Ok (Some colors)
                           | None => Ok None
                           end = Ok r ->
                           present r = present (CSG.ocolors o)
                           /\ match r with
                              | Some b => length (nbuf.array b) = n3
                              | None => True
                              end).
  { intros r Hr. destruct (CSG.ocolors o) as [c|]; [|injection Hr as <-; auto].
    repeat match type of Hr with
           | (?m ≫= _) = Ok _ =>
             destruct m eqn:?; rsimpl in Hr; try discriminate
           end.
    injection Hr as <-.
    repeat match goal with
           | E : nbuf.write3 _ _ = Ok _ |- _ => apply write3_length in E
           end.
    split; [reflexivity|congruence]. }
  match goal with E : _ = Ok a9 |- _ => apply Huv in E as [-> ?] end.
  match goal with E : _ = Ok a10 |- _ => apply Hcol in E as [-> ?] end.
  repeat split; try assumption; congruence.
Qed.

Lemma fan_loop_buffers (p : Polygon.t) (n2 n3 : nat) (js : list nat) :
  forall (o o' : CSG.out),
    foldM (CSG.fan_step p) js o = Ok o' ->
    sized n2 (CSG.ouvs o) -> sized n3 (CSG.ocolors o) ->
    sized n3 (Some (CSG.overtices o)) -> sized n3 (Some (CSG.onormals o)) ->
    present (CSG.ouvs o') = present (CSG.ouvs o)
    /\ present (CSG.ocolors o') = present (CSG.ocolors o)
    /\ sized n2 (CSG.ouvs o') /\ sized n3 (CSG.ocolors o')
    /\ sized n3 (Some (CSG.overtices o')) /\ sized n3 (Some (CSG.onormals o')).
Proof.
  induction js as [|j js IH]; intros o o'; cbn [foldM].
  - intros [= <-]. auto 10.
  - destruct (CSG.fan_step p o j) as [o1| |] eqn:Hj; rsimpl; try discriminate.
    intros H Hu Hc Hv Hn.
    destruct (fan_step_buffers p o o1 j n2 n3 Hj Hu Hc Hv Hn)
      as (Eu & Ec & Hu1 & Hc1 & Hv1 & Hn1).
    destruct (IH o1 o' H Hu1 Hc1 Hv1 Hn1) as (Eu' & Ec' & Hrest).
    split; [congruence|]. split; [congruence|exact Hrest].
Qed.

Lemma Exists_first_snoc (field : Vertex.t -> option Vector.t)
    (ps : list Polygon.t) (p : Polygon.t) :
  Exists (first_has field) (ps ++ [p])
  <-> Exists (first_has field) ps \/ first_has field p.
Proof.
  rewrite Exists_app, Exists_cons, Exists_nil. tauto.
Qed.

Lemma allocate_inv (field : Vertex.t -> option Vector.t) (ct : Z)
    (p : Polygon.t) (get : CSG.out -> option nbuf.t) (o : CSG.out)
    (r : option nbuf.t) :
  match Polygon.vertices p !! 0%nat, get o with
  | Some v0, None =>
    match field v0 with
    | Some _ => Some <$> nbuf.new ct
    | None => Ok None
    end
  | _, b => Ok b
  end = Ok r ->
  sized (Z.to_nat ct) (get o) ->
  (present r = true <-> present (get o) = true \/ first_has field p)
  /\ sized (Z.to_nat ct) r.
Proof.
  unfold first_has. intros H Hold.
  destruct (Polygon.vertices p !! 0%nat) as [v0|] eqn:H0.
  - destruct (get o) as [b|].
    + injection H as <-. split; [cbn; tauto|exact Hold].
    + destruct (field v0) as [x|] eqn:Hf.
      * destruct (nbuf.new ct) as [b| |] eqn:Hb; rsimpl in H; try discriminate.
        injection H as <-. split; [|now apply new_length].
        cbn. split; [intros _; right; exists v0; split; [reflexivity|congruence]|auto].
      * injection H as <-. split; [|exact I]. cbn.
        split; [discriminate|]. intros [Hd|(v & [= <-] & Hv)]; [discriminate|].
        contradiction.
  - injection H as <-.
    split; [|exact Hold].
    split; [auto|]. intros [Hd|(v & Hv & _)]; [exact Hd|discriminate].
Qed.

Lemma polygon_step_buffers (tc : Z) (ps : list Polygon.t) (p : Polygon.t)
    (o o' : CSG.out) :
  CSG.polygon_step tc o p = Ok o' ->
  buffers_inv tc ps o -> buffers_inv tc (ps ++ [p]) o'.
Proof.
  unfold CSG.polygon_step, buffers_inv. cbv zeta.
  intros H (Hu & Hc & Hsu & Hsc & Hsv & Hsn).
  match type of H with
  | (?m ≫= _) = Ok _ =>
    destruct m as [colors| |] eqn:Hcolors; rsimpl in H; try discriminate
  end.
  match type of H with
  | (?m ≫= _) = Ok _ =>
    destruct m as [uvs| |] eqn:Huvs; rsimpl in H; try discriminate
  end.
  apply (allocate_inv Vertex.color _ _ CSG.ocolors) in Hcolors as [Hpc Hsc']; [|exact Hsc].
  apply (allocate_inv Vertex.uv _ _ CSG.ouvs) in Huvs as [Hpu Hsu']; [|exact Hsu].
  apply (fan_loop_buffers p (Z.to_nat (tc * 2 * 3)) (Z.to_nat (tc * 3 * 3))) in H
    as (Eu & Ec & Hrest); [|assumption..].
  cbn [CSG.ouvs CSG.ocolors] in Eu, Ec.
  rewrite !Exists_first_snoc, Eu, Ec, Hpu, Hpc, Hu, Hc. tauto.
Qed.

Lemma polygons_loop_buffers (tc : Z) (ps : list Polygon.t) :
  forall (done : list Polygon.t) (o o' : CSG.out),
    foldM (CSG.polygon_step tc) ps o = Ok o' -> buffers_inv tc done o ->
    buffers_inv tc (done ++ ps) o'.
Proof.
  induction ps as [|p ps IH]; intros done o o'; cbn [foldM].
  - intros [= <-] H. now rewrite app_nil_r.
  - destruct (CSG.polygon_step tc o p) as [o1| |] eqn:Hp; rsimpl; try discriminate.
    intros H Ho. replace (done ++ p :: ps) with ((done ++ [p]) ++ ps)
      by (now rewrite <- app_assoc).
    apply (IH _ o1 o' H). eapply polygon_step_buffers; eauto.
Qed.

(** X21: the attributes of the geometry that [toGeometry] returns.  It has
    uvs exactly when the first vertex of some polygon has a uv, and colors
    exactly when the first vertex of some polygon has a color; for the
    triangle count [tc] it starts from, the position, normal and color
    arrays hold 9 tc numbers and the uv array 6 tc: three vertices for each
    triangle. *)
Theorem toGeometry_attributes (csg : CSG.t) (g : BufferGeometry.t) :
  CSG.toGeometry csg = Ok g ->
  let n := Z.to_nat (CSG.triCount (CSG.polygons csg)) in
  (present (BufferGeometry.uv g) = true
   <-> Exists (first_has Vertex.uv) (CSG.polygons csg))
  /\ (present (BufferGeometry.color g) = true
      <-> Exists (first_has Vertex.color) (CSG.polygons csg))
  /\ (exists a, BufferGeometry.position g = Some (BufferAttribute.mk a 3)
                /\ length a = (9 * n)%nat)
  /\ (exists a, BufferGeometry.normal g = Some (BufferAttribute.mk a 3)
                /\ length a = (9 * n)%nat)
  /\ (forall attr, BufferGeometry.uv g = Some attr ->
                   BufferAttribute.itemSize attr = 2%nat
                   /\ length (BufferAttribute.array attr) = (6 * n)%nat)
  /\ (forall attr, BufferGeometry.color g = Some attr ->
                   BufferAttribute.itemSize attr = 3%nat
                   /\ length (BufferAttribute.array attr) = (9 * n)%nat).
Proof.
  unfold CSG.toGeometry. cbv zeta. intros H.
  set (tc := CSG.triCount (CSG.polygons csg)) in *.
  destruct (nbuf.new (tc * 3 * 3)) as [b| |] eqn:Hb; rsimpl in H; try discriminate.
  destruct (foldM _ _ _) as [o| |] eqn:Ho; rsimpl in H; try discriminate.
  destruct (fold_left CSG.group_step _ _) as [[[groups gb] ix] gi].
  injection H as <-.
  cbn [BufferGeometry.uv BufferGeometry.color BufferGeometry.position
         BufferGeometry.normal].
  pose proof (new_length _ _ Hb) as Hlen.
  assert (H0 : (0 <= tc)%Z).
  { unfold nbuf.new in Hb. destruct (Z.ltb_spec (tc * 3 * 3) 0); [discriminate|lia]. }
  apply (polygons_loop_buffers tc _ []) in Ho
    as (Hu & Hc & Hsu & Hsc & Hsv & Hsn).
  - cbn [app sized] in *.
    replace (Z.to_nat (tc * 2 * 3)) with (6 * Z.to_nat tc)%nat in * by lia.
    replace (Z.to_nat (tc * 3 * 3)) with (9 * Z.to_nat tc)%nat in * by lia.
    split; [destruct (CSG.ouvs o); exact Hu|].
    split; [destruct (CSG.ocolors o); exact Hc|].
    split; [eauto|]. split; [eauto|].
    split; intros attr Hattr.
    + destruct (CSG.ouvs o) as [u|]; [|discriminate]. injection Hattr as <-. auto.
    + destruct (CSG.ocolors o) as [c|]; [|discriminate]. injection Hattr as <-. auto.
  - unfold buffers_inv. cbn [CSG.ouvs CSG.ocolors CSG.overtices CSG.onormals present sized].
    rewrite !Exists_nil. repeat split; try discriminate; try contradiction; auto.
Qed.

Lemma toGeometry_attributes_witness :
  exists g, CSG.toGeometry colored_solid = Ok g
            /\ present (BufferGeometry.color g) = true
            /\ present (BufferGeometry.uv g) = false.
Proof.
  destruct (CSG.toGeometry colored_solid) as [g| |] eqn:Hg.
  - exists g. split; [reflexivity|].
    destruct (toGeometry_attributes colored_solid g Hg) as (Hu & Hc & _).
    split.
    + apply Hc. left. exists (colored_vertex 0 0 1). split; [reflexivity|discriminate].
    + destruct (present (BufferGeometry.uv g)); [|reflexivity].
      destruct Hu as [Hu _]. specialize (Hu eq_refl).
      apply Exists_cons in Hu as [(v0 & [= <-] & Hv)|Hu]; [now contradiction Hv|].
      now apply Exists_nil in Hu.
  - vm_compute in Hg. discriminate Hg.
  - vm_compute in Hg. discriminate Hg.
Defined.

(** * The empty solid as the left operand *)

(** X22: with the empty solid on the left the operators rebuild the right
    operand: [empty.union(B)] and [empty.intersect(B)] return the
    polygons of a tree built of the polygons of the tree of [B], and
    [empty.subtract(B)] returns them flipped: [B] inside out, not the
    empty solid. *)
Theorem operators_from_empty (fuel : nat) (B : CSG.t) :
  CSG.union (S fuel) CSG.empty B
  = (B' ← CSG.clone B;
     b ← Node.new (S fuel) (CSG.polygons B');
     a ← Node.new (S fuel) (Node.allPolygons b);
     Ok (CSG.fromPolygons (Node.allPolygons a)))
  /\ CSG.subtract (S fuel) CSG.empty B
     = (B' ← CSG.clone B;
        b ← Node.new (S fuel) (CSG.polygons B');
        a ← Node.new (S fuel) (Node.allPolygons b);
        Ok (CSG.fromPolygons (Node.allPolygons (Node.invert a))))
  /\ CSG.intersect (S fuel) CSG.empty B
     = (B' ← CSG.clone B;
        b ← Node.new (S fuel) (CSG.polygons B');
        a ← Node.new (S fuel) (Node.allPolygons (Node.invert b));
        Ok (CSG.fromPolygons (Node.allPolygons (Node.invert a)))).
Proof.
  unfold CSG.union, CSG.subtract, CSG.intersect, Node.new.
  change (CSG.clone CSG.empty) with (Ok CSG.empty). rsimpl.
  change (CSG.polygons CSG.empty) with (@nil Polygon.t).
  rewrite build_nil. rsimpl. rewrite invert_empty.
  destruct (CSG.clone B) as [B'| |]; rsimpl; [|auto..].
  destruct (Node.build (S fuel) Node.empty (CSG.polygons B')) as [b| |]; rsimpl;
    [|auto..].
  rewrite !clipTo_empty_l. rsimpl. rewrite !clipTo_empty_r. rsimpl.
  rewrite !clipTo_empty_r. rsimpl. rewrite !Node_invert_involutive.
  rewrite !clipTo_empty_l. rsimpl. rewrite !clipTo_empty_r. rsimpl.
  repeat split; reflexivity.
Qed.

Lemma operators_from_empty_witness :
  exists r, CSG.subtract 2 CSG.empty one_triangle = Ok r
            /\ length (CSG.polygons r) = 1%nat.
Proof.
  destruct (operators_from_empty 1 one_triangle) as (_ & Hs & _).
  rewrite Hs. eexists. split; [vm_compute; reflexivity|reflexivity].
Defined.

(** * Vectors *)

Lemma float_mul_comm (a b : float) : a * b = b * a.
Proof. apply Prim2SF_inj. rewrite !mul_spec. apply SFmul_comm. Qed.

(** X23: vector algebra in binary64.  [a.dot(b)] is [b.dot(a)], bit for
    bit; [a.cross(b)] is the opposite of [b.cross(a)] in every component
    (only a zero may keep its sign); [negate] gives the opposite vector,
    twice it gives the vector back, and a vector and its opposite have the
    same length. *)
Theorem vector_algebra (a b : Vector.t) :
  Vector.dot a b = Vector.dot b a
  /\ opposite_vector (Vector.cross a b) (Vector.cross b a)
  /\ Vector.negate (Vector.negate a) = a
  /\ Vector.length (Vector.negate a) = Vector.length a
  /\ opposite_vector a (Vector.negate a).
Proof.
  assert (Hneg : opposite_vector a (Vector.negate a)).
  { unfold opposite_vector, opposite, Vector.negate. cbn [Vector.x Vector.y Vector.z].
    rewrite !mul_m1, !opp_spec. repeat split; apply mirrored_opp. }
  split.
  { unfold Vector.dot.
    now rewrite (float_mul_comm (Vector.x a)), (float_mul_comm (Vector.y a)),
      (float_mul_comm (Vector.z a)). }
  split; [apply cross_swap|]. split; [apply Vector_negate_involutive|].
  split; [now apply length_opposite|exact Hneg].
Qed.

(** * What the operators return *)

(** X24: every polygon of what union, subtract or intersect returns has at
    least three vertices, whatever the operands hold; so [toGeometry]
    never throws a RangeError on it. *)
Theorem operators_return_polygons (op : nat -> CSG.t -> CSG.t -> result CSG.t)
    (fuel : nat) (A B r : CSG.t) :
  In op value_operators -> op fuel A B = Ok r ->
  Forall (fun q => (3 <= length (Polygon.vertices q))%nat) (CSG.polygons r)
  /\ CSG.toGeometry r <> Throw RangeError.
Proof.
  intros Hop Hr.
  assert (H3 : Forall (fun q => (3 <= length (Polygon.vertices q))%nat)
                 (CSG.polygons r)).
  { apply (operators_keep (fun q => (3 <= length (Polygon.vertices q))%nat))
      with (fuel := fuel) (A := A) (B := B) (op := op); [| |exact Hop| |exact Hr].
    - intros p Hp. unfold Polygon.flip. cbn. now rewrite length_map, length_rev.
    - intros p vs q _ Hq. apply Polygon_new_inv in Hq as (Hlen & -> & _). exact Hlen.
    - apply Forall_forall. intros p _ q Hq.
      now apply Polygon_clone_inv in Hq as (? & _). }
  split; [exact H3|].
  pose proof (toGeometry_cases r) as Hcases.
  rewrite triCount_eq in Hcases
    by (eapply Forall_impl; [exact H3|]; intros q Hq; cbn in Hq; lia).
  destruct (Z.ltb_spec (Z.of_nat (fan_count (CSG.polygons r))) 0) as [Hneg|_]; [lia|].
  intros E. rewrite E in Hcases. exact Hcases.
Qed.

Lemma operators_return_polygons_witness :
  exists r, CSG.intersect 60 left_solid right_solid = Ok r
            /\ Forall (fun q => (3 <= length (Polygon.vertices q))%nat)
                 (CSG.polygons r).
Proof.
  destruct (CSG.intersect 60 left_solid right_solid) as [r| |] eqn:Hr.
  - exists r. split; [reflexivity|].
    apply (operators_return_polygons CSG.intersect 60 left_solid right_solid r);
      [right; right; left; reflexivity|exact Hr].
  - vm_compute in Hr. discriminate Hr.
  - vm_compute in Hr. discriminate Hr.
Defined.

(** * The operands of an operator are left alone *)

(** The operators on the store: every call takes a store that extends the
    one it started from to another such store, so that nothing that was
    there at the start, the scratch vectors apart, is written to. *)

Import Store.

Section Frame.
Variable h0 : heap.

Lemma extends_refl : extends h0 h0.
Proof.
  split; [lia|]. split; [auto|].
  intros l o Hl Ho. apply lookup_lt_Some in Ho. unfold is_new in Hl. lia.
Qed.

Lemma safe_ret {A} (a : A) (Q : A -> Prop) : Q a -> safe h0 (mret a) Q.
Proof. intros HQ h Hh. simpl. auto. Qed.

Lemma safe_bind {A B} (m : M A) (k : A -> M B) (Q1 : A -> Prop) (Q : B -> Prop) :
  safe h0 m Q1 -> (forall a, Q1 a -> safe h0 (k a) Q) -> safe h0 (m ≫= k) Q.
Proof.
  intros Hm Hk h Hh. unfold mbind, M_bind. specialize (Hm h Hh).
  destruct (m h) as [[a h']| |]; [|exact I..].
  destruct Hm as [Hh' Ha]. exact (Hk a Ha h' Hh').
Qed.

Lemma safe_weaken {A} (m : M A) (Q1 Q : A -> Prop) :
  safe h0 m Q1 -> (forall a, Q1 a -> Q a) -> safe h0 m Q.
Proof.
  intros Hm HQ h Hh. specialize (Hm h Hh).
  destruct (m h) as [[a h']| |]; [|exact I..]. destruct Hm. auto.
Qed.

Lemma safe_bind_assoc {A B C} (m : M A) (k1 : A -> M B) (k : B -> M C)
    (Q : C -> Prop) :
  safe h0 (m ≫= fun x => k1 x ≫= k) Q -> safe h0 ((m ≫= k1) ≫= k) Q.
Proof.
  intros H h Hh. specialize (H h Hh). unfold mbind, M_bind in *.
  destruct (m h) as [[a h']| |]; exact H.
Qed.

Lemma safe_bind_ret {A B} (a : A) (k : A -> M B) (Q : B -> Prop) :
  safe h0 (k a) Q -> safe h0 (mret a ≫= k) Q.
Proof. intros H h Hh. exact (H h Hh). Qed.

Lemma safe_throw {A} (e : exn) (Q : A -> Prop) : safe h0 (throw e) Q.
Proof. intros h Hh. exact I. Qed.

Lemma safe_out_of_fuel {A} (Q : A -> Prop) : safe h0 out_of_fuel Q.
Proof. intros h Hh. exact I. Qed.

Lemma safe_defined {A} (o : option A) : safe h0 (defined o) (fun a => o = Some a).
Proof. destruct o; [now apply safe_ret|apply safe_throw]. Qed.

Lemma safe_alloc (o : Obj) : refs_new h0 o -> safe h0 (alloc o) (is_new h0).
Proof.
  intros Ho h (Hlen & Hold & Hnew). unfold alloc. split; [|exact Hlen].
  split; [rewrite length_app; simpl; lia|]. split.
  - intros l o' Hl Hs. apply lookup_app_l_Some. auto.
  - intros l o' Hl Hl'. apply lookup_app_Some in Hl' as [Hl'|[_ Hl']]; [eauto|].
    destruct (l - length h)%nat; [|destruct n; discriminate].
    injection Hl' as <-. exact Ho.
Qed.

Lemma safe_load (l : loc) :
  safe h0 (load l) (fun o => is_new h0 l -> refs_new h0 o).
Proof.
  intros h Hh. unfold load. destruct (h !! l) as [o|] eqn:Hl; [|exact I].
  split; [exact Hh|]. intros Hnew. destruct Hh as (_ & _ & Hc). eauto.
Qed.

Lemma extends_insert (h : heap) (l : loc) (o : Obj) :
  extends h0 h -> is_new h0 l -> refs_new h0 o -> extends h0 (<[l := o]> h).
Proof.
  intros (Hlen & Hold & Hnew) Hl Ho. split; [rewrite length_insert; exact Hlen|]. split.
  - intros l' o' Hl' Hs. rewrite list_lookup_insert_ne; [auto|].
    apply lookup_lt_Some in Hl'. unfold is_new in Hl. lia.
  - intros l' o' Hl' Hl''.
    destruct (decide (l = l')) as [<-|Hne].
    + destruct (decide (l < length h)%nat) as [Hlt|Hge].
      * rewrite list_lookup_insert_eq in Hl'' by exact Hlt. now injection Hl'' as <-.
      * rewrite list_insert_ge in Hl'' by lia. eauto.
    + rewrite list_lookup_insert_ne in Hl'' by exact Hne. eauto.
Qed.

Lemma safe_store (l : loc) (o : Obj) :
  is_new h0 l -> refs_new h0 o -> safe h0 (store l o) (fun _ => True).
Proof.
  intros Hl Ho h Hh. unfold store. destruct (l <? length h)%nat; [|exact I].
  split; [|exact I]. now apply extends_insert.
Qed.

(** Overwriting a scratch vector with a vector. *)
Lemma extends_scratch (h : heap) (l : loc) (v v' : Vector.t) :
  extends h0 h -> (l = tv0 \/ l = tv1) -> h !! l = Some (OVector v) ->
  extends h0 (<[l := OVector v']> h).
Proof.
  intros Hh Hl Hv.
  destruct (decide (length h0 <= l)%nat) as [Hnew|Hold].
  { apply extends_insert; [exact Hh|exact Hnew|exact I]. }
  destruct Hh as (Hlen & Hkeep & Hnew).
  split; [rewrite length_insert; exact Hlen|]. split.
  - intros l' o' Hl' Hs. destruct (decide (l = l')) as [<-|Hne].
    + exfalso. apply Hs. split; [exact Hl|].
      specialize (Hkeep l o' Hl').
      destruct o'; eauto; exfalso;
        (assert (Hc : h !! l = Some _)
           by (apply Hkeep; intros (_ & v0 & Hv0); discriminate Hv0));
        rewrite Hv in Hc; discriminate Hc.
    + rewrite list_lookup_insert_ne by exact Hne. auto.
  - intros l' o' Hl' Hl''. unfold is_new in Hl'.
    rewrite list_lookup_insert_ne in Hl'' by lia. eauto.
Qed.

(** ** Reading fields *)

Ltac safe_get :=
  eapply safe_bind; [apply safe_load|];
  intros [] Ho; try apply safe_throw; apply safe_ret; exact Ho.

Lemma safe_get_vector (l : loc) : safe h0 (get_vector l) (fun _ => True).
Proof.
  eapply safe_bind; [apply safe_load|].
  intros [] _; try apply safe_throw. now apply safe_ret.
Qed.

Lemma safe_get_vertex (l : loc) :
  safe h0 (get_vertex l)
    (fun r => is_new h0 l ->
              is_new h0 r.1.1.1 /\ is_new h0 r.1.1.2
              /\ new_option h0 r.1.2 /\ new_option h0 r.2).
Proof. unfold get_vertex. safe_get. Qed.

Lemma safe_get_plane (l : loc) :
  safe h0 (get_plane l) (fun r => is_new h0 l -> is_new h0 r.1).
Proof. unfold get_plane. safe_get. Qed.

Lemma safe_get_polygon (l : loc) :
  safe h0 (get_polygon l)
    (fun r => is_new h0 l -> is_new h0 r.1.1 /\ is_new h0 r.2).
Proof. unfold get_polygon. safe_get. Qed.

Lemma safe_get_array (l : loc) :
  safe h0 (get_array l) (fun es => is_new h0 l -> Forall (is_new h0) es).
Proof. unfold get_array. safe_get. Qed.

Lemma safe_get_node (l : loc) :
  safe h0 (get_node l)
    (fun r => is_new h0 l ->
              new_option h0 r.1.1.1 /\ new_option h0 r.1.1.2
              /\ new_option h0 r.1.2 /\ is_new h0 r.2).
Proof. unfold get_node. safe_get. Qed.

Lemma safe_get_csg (l : loc) :
  safe h0 (get_csg l) (fun ps => is_new h0 l -> is_new h0 ps).
Proof. unfold get_csg. safe_get. Qed.

(** ** Vector *)

Lemma safe_Vector_update (this : loc) (f : Vector.t -> Vector.t) :
  writable h0 this -> safe h0 (Vector_update this f) (fun r => r = this).
Proof.
  intros Hw h Hh. unfold Vector_update, get_vector, load, store, mbind, M_bind, mret, M_ret.
  destruct (h !! this) as [[v| | | | | |]|] eqn:Hl; try exact I.
  rewrite (proj2 (Nat.ltb_lt _ _) (lookup_lt_Some _ _ _ Hl)).
  split; [|reflexivity].
  destruct Hw as [Hnew|Hs].
  - now apply extends_insert.
  - now apply (extends_scratch h this v).
Qed.

Lemma writable_new (l : loc) : is_new h0 l -> writable h0 l.
Proof. now left. Qed.

Lemma writable_tv0 : writable h0 tv0.
Proof. right. now left. Qed.

Lemma writable_tv1 : writable h0 tv1.
Proof. right. now right. Qed.

Lemma Forall_new_app (xs ys : list loc) :
  Forall (is_new h0) xs -> Forall (is_new h0) ys -> Forall (is_new h0) (xs ++ ys).
Proof. intros. now apply Forall_app. Qed.

Lemma Forall_new_rev (xs : list loc) :
  Forall (is_new h0) xs -> Forall (is_new h0) (rev xs).
Proof. intros H. now apply Forall_rev. Qed.

Lemma Forall_new_lookup (xs : list loc) (i : nat) (x : loc) :
  Forall (is_new h0) xs -> xs !! i = Some x -> is_new h0 x.
Proof. intros H Hx. eapply Forall_lookup_1; eauto. Qed.

Create HintDb safe.
#[local] Hint Resolve safe_defined safe_get_vector safe_get_vertex safe_get_plane safe_get_polygon
  safe_get_array safe_get_node safe_get_csg safe_alloc safe_store safe_Vector_update
  writable_new writable_tv0 writable_tv1 Forall_new_app Forall_new_rev
  Forall_new_lookup Forall_nil_2 Forall_cons_2 : safe.
#[local] Hint Extern 1 (refs_new _ _) => (cbn [refs_new new_option]; repeat split) : safe.
#[local] Hint Extern 1 (new_option _ _) => (cbn [new_option]) : safe.
#[local] Hint Extern 1 (Forall _ [_]) => (repeat constructor) : safe.

(** What is known of the values that the calls so far have returned. *)
Ltac safe_facts :=
  repeat match goal with
         | x : (_ * _)%type |- _ => destruct x
         end;
  cbn [fst snd new_option] in *;
  repeat match goal with
         | H : _ /\ _ |- _ => destruct H
         | H : True |- _ => clear H
         | H : ?x = _ |- _ => subst x
         | H : Forall _ (_ :: _) |- _ => apply Forall_cons_1 in H
         | H : ?P -> _ |- _ =>
           let HP := fresh in
           assert (HP : P)
             by (first [assumption|eapply Forall_new_lookup; eassumption]);
           specialize (H HP); clear HP;
           cbn [fst snd new_option] in H
         end.

(** One statement of a method: a call whose result is bound, a branch, or
    the last call. *)
Ltac safe_step :=
  lazymatch goal with
  | |- safe _ (mret _) _ => apply safe_ret; safe_facts
  | |- safe _ (throw _) _ => apply safe_throw
  | |- safe _ out_of_fuel _ => apply safe_out_of_fuel
  | |- safe _ (mbind _ (match ?o with Some _ => _ | None => _ end)) _ =>
    destruct o; safe_facts
  | |- safe _ (mbind _ (match ?o with [] => _ | _ :: _ => _ end)) _ =>
    destruct o; safe_facts
  | |- safe _ (mbind _ (if ?c then _ else _)) _ => destruct c
  | |- safe _ (mbind _ (mbind _ _)) _ => apply safe_bind_assoc
  | |- safe _ (mbind _ (mret _)) _ => apply safe_bind_ret; safe_facts
  | |- safe _ (mbind _ _) _ =>
    eapply safe_bind; [solve [eauto with safe]|]; intros; safe_facts
  | |- safe _ (match ?o with Some _ => _ | None => _ end) _ =>
    destruct o; safe_facts
  | |- safe _ (match ?o with [] => _ | _ :: _ => _ end) _ =>
    destruct o; safe_facts
  | |- safe _ (if ?c then _ else _) _ => destruct c
  | |- safe _ _ _ =>
    eapply safe_weaken; [solve [eauto with safe]|]; cbn beta; intros; safe_facts
  end.

Ltac safe_go := repeat safe_step; eauto with safe.

Lemma safe_Vector_new : safe h0 Vector_new (is_new h0).
Proof. unfold Vector_new. safe_go. Qed.

Lemma safe_Vector_copy (this v : loc) :
  writable h0 this -> safe h0 (Vector_copy this v) (fun r => r = this).
Proof. intros. unfold Vector_copy. safe_go. Qed.

Lemma safe_Vector_clone (this : loc) : safe h0 (Vector_clone this) (is_new h0).
Proof. unfold Vector_clone. safe_go. Qed.

Lemma safe_Vector_negate (this : loc) :
  writable h0 this -> safe h0 (Vector_negate this) (fun r => r = this).
Proof. intros. unfold Vector_negate. safe_go. Qed.

Lemma safe_Vector_add (this a : loc) :
  writable h0 this -> safe h0 (Vector_add this a) (fun r => r = this).
Proof. intros. unfold Vector_add. safe_go. Qed.

Lemma safe_Vector_sub (this a : loc) :
  writable h0 this -> safe h0 (Vector_sub this a) (fun r => r = this).
Proof. intros. unfold Vector_sub. safe_go. Qed.

Lemma safe_Vector_times (this : loc) (a : float) :
  writable h0 this -> safe h0 (Vector_times this a) (fun r => r = this).
Proof. intros. unfold Vector_times. safe_go. Qed.

Lemma safe_Vector_dividedBy (this : loc) (a : float) :
  writable h0 this -> safe h0 (Vector_dividedBy this a) (fun r => r = this).
Proof. intros. unfold Vector_dividedBy. safe_go. Qed.

#[local] Hint Resolve safe_Vector_new safe_Vector_copy safe_Vector_clone
  safe_Vector_negate safe_Vector_add safe_Vector_sub safe_Vector_times
  safe_Vector_dividedBy : safe.

Lemma safe_Vector_lerp (this a : loc) (t' : float) :
  writable h0 this -> safe h0 (Vector_lerp this a t') (fun r => r = this).
Proof. intros. unfold Vector_lerp. safe_go. Qed.

Lemma safe_Vector_length (this : loc) : safe h0 (Vector_length this) (fun _ => True).
Proof. unfold Vector_length. safe_go. Qed.

#[local] Hint Resolve safe_Vector_lerp safe_Vector_length : safe.

Lemma safe_Vector_unit (this : loc) :
  writable h0 this -> safe h0 (Vector_unit this) (fun r => r = this).
Proof. intros. unfold Vector_unit. safe_go. Qed.

#[local] Hint Resolve safe_Vector_unit : safe.

Lemma safe_Vector_normalize (this : loc) :
  writable h0 this -> safe h0 (Vector_normalize this) (fun r => r = this).
Proof. intros. unfold Vector_normalize. safe_go. Qed.

Lemma safe_Vector_cross (this b : loc) :
  writable h0 this -> safe h0 (Vector_cross this b) (fun r => r = this).
Proof. intros. unfold Vector_cross. safe_go. Qed.

Lemma safe_Vector_dot (this b : loc) : safe h0 (Vector_dot this b) (fun _ => True).
Proof. unfold Vector_dot. safe_go. Qed.

#[local] Hint Resolve safe_Vector_normalize safe_Vector_cross safe_Vector_dot : safe.

(** ** Arrays and loops *)

Lemma safe_new_array (es : list loc) :
  Forall (is_new h0) es -> safe h0 (new_array es) (is_new h0).
Proof. intros. unfold new_array. safe_go. Qed.

Lemma safe_push (arr x : loc) :
  is_new h0 arr -> is_new h0 x -> safe h0 (push arr x) (fun _ => True).
Proof. intros. unfold push. safe_go. Qed.

Lemma safe_map_array {A B} (P : A -> Prop) (R : B -> Prop) (f : A -> M B)
    (xs : list A) :
  (forall x, P x -> safe h0 (f x) R) ->
  Forall P xs -> safe h0 (map_array f xs) (Forall R).
Proof.
  intros Hf. induction 1 as [|x xs Hx _ IH]; cbn [map_array].
  - now apply safe_ret.
  - eapply safe_bind; [apply Hf, Hx|]. intros y Hy.
    eapply safe_bind; [apply IH|]. intros ys Hys.
    apply safe_ret. now constructor.
Qed.

Lemma safe_for_array {A} (P : A -> Prop) (f : A -> M unit) (xs : list A) :
  (forall x, P x -> safe h0 (f x) (fun _ => True)) ->
  Forall P xs -> safe h0 (for_array f xs) (fun _ => True).
Proof.
  intros Hf. induction 1 as [|x xs Hx _ IH]; cbn [for_array].
  - now apply safe_ret.
  - eapply safe_bind; [apply Hf, Hx|]. intros _ _. apply IH.
Qed.

Lemma safe_for_each (fuel : nat) (body : loc -> M unit) (arr : loc) :
  is_new h0 arr ->
  (forall x, is_new h0 x -> safe h0 (body x) (fun _ => True)) ->
  forall i, safe h0 (for_each fuel arr i body) (fun _ => True).
Proof.
  intros Harr Hbody. induction fuel as [|fuel IH]; intros i; cbn [for_each].
  - apply safe_out_of_fuel.
  - eapply safe_bind; [apply safe_get_array|]. intros es Hes.
    specialize (Hes Harr).
    destruct (es !! i) as [x|] eqn:Hx; [|now apply safe_ret].
    eapply safe_bind; [apply Hbody; eapply Forall_new_lookup; eauto|].
    intros _ _. apply IH.
Qed.

#[local] Hint Resolve safe_new_array safe_push : safe.

(** ** Vertex *)

Lemma safe_Vertex_new (pos normal : loc) (uv color : option loc) :
  safe h0 (Vertex_new pos normal uv color) (is_new h0).
Proof. unfold Vertex_new. safe_go. Qed.

#[local] Hint Resolve safe_Vertex_new : safe.

Lemma safe_Vertex_clone (this : loc) : safe h0 (Vertex_clone this) (is_new h0).
Proof. unfold Vertex_clone. safe_go. Qed.

Lemma safe_Vertex_flip (this : loc) :
  is_new h0 this -> safe h0 (Vertex_flip this) (fun _ => True).
Proof. intros. unfold Vertex_flip. safe_go. Qed.

Lemma safe_lerp_optional (a b : option loc) (t' : float) :
  safe h0 (lerp_optional a b t') (new_option h0).
Proof. unfold lerp_optional. destruct a, b; safe_go. Qed.

#[local] Hint Resolve safe_Vertex_clone safe_Vertex_flip safe_lerp_optional : safe.

Lemma safe_Vertex_interpolate (this other : loc) (t' : float) :
  safe h0 (Vertex_interpolate this other t') (is_new h0).
Proof. unfold Vertex_interpolate. safe_go. Qed.

#[local] Hint Resolve safe_Vertex_interpolate : safe.

(** ** Plane and Polygon *)

Lemma safe_Plane_new (normal : loc) (w : float) :
  is_new h0 normal -> safe h0 (Plane_new normal w) (is_new h0).
Proof. intros. unfold Plane_new. safe_go. Qed.

#[local] Hint Resolve safe_Plane_new : safe.

Lemma safe_Plane_clone (this : loc) : safe h0 (Plane_clone this) (is_new h0).
Proof. unfold Plane_clone. safe_go. Qed.

Lemma safe_Plane_flip (this : loc) :
  is_new h0 this -> safe h0 (Plane_flip this) (fun _ => True).
Proof. intros. unfold Plane_flip. safe_go. Qed.

Lemma safe_Plane_fromPoints (a b c : loc) :
  safe h0 (Plane_fromPoints a b c) (is_new h0).
Proof. unfold Plane_fromPoints. safe_go. Qed.

Lemma safe_pos_at (es : list loc) (i : nat) : safe h0 (pos_at es i) (fun _ => True).
Proof. unfold pos_at. safe_go. Qed.

#[local] Hint Resolve safe_Plane_clone safe_Plane_flip safe_Plane_fromPoints
  safe_pos_at : safe.

Lemma safe_Polygon_new (vertices : loc) (shared : option N) :
  is_new h0 vertices -> safe h0 (Polygon_new vertices shared) (is_new h0).
Proof. intros. unfold Polygon_new. safe_go. Qed.

#[local] Hint Resolve safe_Polygon_new : safe.

Lemma safe_Polygon_clone (this : loc) : safe h0 (Polygon_clone this) (is_new h0).
Proof.
  unfold Polygon_clone. do 2 safe_step.
  eapply safe_bind.
  { apply (safe_map_array (fun _ => True) (is_new h0)); [intros; apply safe_Vertex_clone|].
    apply Forall_true. auto. }
  intros. safe_go.
Qed.

Lemma safe_Polygon_flip (this : loc) :
  is_new h0 this -> safe h0 (Polygon_flip this) (fun _ => True).
Proof.
  intros. unfold Polygon_flip. do 3 safe_step.
  eapply safe_bind.
  { apply (safe_for_array (is_new h0)); [intros; now apply safe_Vertex_flip|].
    eauto with safe. }
  intros. safe_go.
Qed.

#[local] Hint Resolve safe_Polygon_clone safe_Polygon_flip : safe.

(** ** Plane.splitPolygon *)

Lemma safe_pos_of (v : loc) : safe h0 (pos_of v) (fun _ => True).
Proof. unfold pos_of. safe_go. Qed.

Lemma safe_plane_of (this : loc) : safe h0 (plane_of this) (fun _ => True).
Proof. unfold plane_of. safe_go. Qed.

#[local] Hint Resolve safe_pos_of safe_plane_of : safe.

Lemma safe_walk_step (this : loc) (es : list loc) (types : list Z) (f b : loc)
    (i : nat) :
  Forall (is_new h0) es -> is_new h0 f -> is_new h0 b ->
  safe h0 (walk_step this es types f b i) (fun _ => True).
Proof. intros. unfold walk_step. safe_go. Qed.

Lemma safe_Plane_splitPolygon (this polygon coplanarFront coplanarBack front back : loc) :
  is_new h0 polygon -> is_new h0 coplanarFront -> is_new h0 coplanarBack ->
  is_new h0 front -> is_new h0 back ->
  safe h0 (Plane_splitPolygon this polygon coplanarFront coplanarBack front back)
    (fun _ => True).
Proof.
  intros. unfold Plane_splitPolygon. do 3 safe_step.
  eapply safe_bind.
  { apply (safe_map_array (fun _ => True) (fun _ => True));
      [intros; apply safe_pos_of|]. apply Forall_true. auto. }
  intros ps _. cbv zeta.
  repeat lazymatch goal with
         | |- safe _ (if ?c then _ else _) _ => destruct c
         end.
  - safe_go. destruct (0 <? _); safe_go.
  - safe_go.
  - safe_go.
  - do 2 safe_step.
    eapply safe_bind.
    { apply (safe_for_array (fun _ => True));
        [intros; now apply safe_walk_step|]. apply Forall_true. auto. }
    intros. safe_go.
  - safe_go.
Qed.

#[local] Hint Resolve safe_Plane_splitPolygon : safe.

(** ** Node *)

Lemma safe_set_plane (this plane : loc) :
  is_new h0 this -> is_new h0 plane -> safe h0 (set_plane this plane) (fun _ => True).
Proof. intros. unfold set_plane. safe_go. Qed.

Lemma safe_set_front (this : loc) (front : option loc) :
  is_new h0 this -> new_option h0 front ->
  safe h0 (set_front this front) (fun _ => True).
Proof. intros. unfold set_front. safe_go. Qed.

Lemma safe_set_back (this : loc) (back : option loc) :
  is_new h0 this -> new_option h0 back ->
  safe h0 (set_back this back) (fun _ => True).
Proof. intros. unfold set_back. safe_go. Qed.

Lemma safe_set_polygons (this polygons : loc) :
  is_new h0 this -> is_new h0 polygons ->
  safe h0 (set_polygons this polygons) (fun _ => True).
Proof. intros. unfold set_polygons. safe_go. Qed.

Lemma safe_Node_empty : safe h0 Node_empty (is_new h0).
Proof. unfold Node_empty. safe_go. Qed.

#[local] Hint Resolve safe_set_plane safe_set_front safe_set_back safe_set_polygons
  safe_Node_empty : safe.
#[local] Hint Extern 2 (safe _ (for_each _ _ _ _) _) =>
  (apply safe_for_each; [solve [eauto with safe]|intros; cbn beta; solve [safe_go]])
  : safe.

Lemma safe_Node_invert (fuel : nat) (this : loc) :
  is_new h0 this -> safe h0 (Node_invert fuel this) (fun _ => True).
Proof.
  revert this. induction fuel as [|fuel IH]; intros this Hthis; cbn [Node_invert].
  - apply safe_out_of_fuel.
  - safe_go.
Qed.

Lemma safe_Node_clipPolygons (fuel : nat) (this polygons : loc) :
  is_new h0 this -> is_new h0 polygons ->
  safe h0 (Node_clipPolygons fuel this polygons) (is_new h0).
Proof.
  revert this polygons.
  induction fuel as [|fuel IH]; intros this polygons Hthis Hps;
    cbn [Node_clipPolygons].
  - apply safe_out_of_fuel.
  - safe_go.
Qed.

#[local] Hint Resolve safe_Node_invert safe_Node_clipPolygons : safe.

Lemma safe_Node_clipTo (fuel : nat) (this bsp : loc) :
  is_new h0 this -> is_new h0 bsp ->
  safe h0 (Node_clipTo fuel this bsp) (fun _ => True).
Proof.
  revert this.
  induction fuel as [|fuel IH]; intros this Hthis Hbsp; cbn [Node_clipTo].
  - apply safe_out_of_fuel.
  - safe_go.
Qed.

Lemma safe_concat (xs ys : loc) :
  is_new h0 xs -> is_new h0 ys -> safe h0 (concat xs ys) (is_new h0).
Proof. intros. unfold concat. safe_go. Qed.

#[local] Hint Resolve safe_Node_clipTo safe_concat : safe.

Lemma safe_Node_allPolygons (fuel : nat) (this : loc) :
  is_new h0 this -> safe h0 (Node_allPolygons fuel this) (is_new h0).
Proof.
  revert this.
  induction fuel as [|fuel IH]; intros this Hthis; cbn [Node_allPolygons].
  - apply safe_out_of_fuel.
  - safe_go.
Qed.

Lemma safe_Node_build (fuel : nat) (this polygons : loc) :
  is_new h0 this -> is_new h0 polygons ->
  safe h0 (Node_build fuel this polygons) (fun _ => True).
Proof.
  revert this polygons.
  induction fuel as [|fuel IH]; intros this polygons Hthis Hps; cbn [Node_build].
  - apply safe_out_of_fuel.
  - safe_go.
Qed.

#[local] Hint Resolve safe_Node_allPolygons safe_Node_build : safe.

Lemma safe_Node_new (fuel : nat) (polygons : loc) :
  is_new h0 polygons -> safe h0 (Node_new fuel polygons) (is_new h0).
Proof. intros. unfold Node_new. safe_go. Qed.

(** ** CSG *)

Lemma safe_CSG_new : safe h0 CSG_new (is_new h0).
Proof. unfold CSG_new. safe_go. Qed.

#[local] Hint Resolve safe_Node_new safe_CSG_new : safe.

Lemma safe_CSG_clone (this : loc) : safe h0 (CSG_clone this) (is_new h0).
Proof.
  unfold CSG_clone. do 3 safe_step.
  eapply safe_bind.
  { apply (safe_map_array (fun _ => True) (is_new h0));
      [intros; apply safe_Polygon_clone|]. apply Forall_true. auto. }
  intros. safe_go.
Qed.

Lemma safe_CSG_fromPolygons (polygons : loc) :
  is_new h0 polygons -> safe h0 (CSG_fromPolygons polygons) (is_new h0).
Proof. intros. unfold CSG_fromPolygons. safe_go. Qed.

#[local] Hint Resolve safe_CSG_clone safe_CSG_fromPolygons : safe.

Lemma safe_tree_of_clone (fuel : nat) (csg : loc) :
  safe h0 (tree_of_clone fuel csg) (is_new h0).
Proof. unfold tree_of_clone. safe_go. Qed.

#[local] Hint Resolve safe_tree_of_clone : safe.

Lemma safe_CSG_union (fuel : nat) (this csg : loc) :
  safe h0 (CSG_union fuel this csg) (is_new h0).
Proof. unfold CSG_union. safe_go. Qed.

Lemma safe_CSG_subtract (fuel : nat) (this csg : loc) :
  safe h0 (CSG_subtract fuel this csg) (is_new h0).
Proof. unfold CSG_subtract. safe_go. Qed.

Lemma safe_CSG_intersect (fuel : nat) (this csg : loc) :
  safe h0 (CSG_intersect fuel this csg) (is_new h0).
Proof. unfold CSG_intersect. safe_go. Qed.
End Frame.

(** ** What is read back *)

Section Kept.
Variables h0 h : heap.
Hypothesis Hext : extends h0 h.

Lemma kept (l : loc) (o : Obj) :
  h0 !! l = Some o -> (forall v, o <> OVector v) -> h !! l = Some o.
Proof.
  intros Hl Ho. destruct Hext as (_ & Hkeep & _). apply Hkeep; [exact Hl|].
  intros (_ & v & Hv). exact (Ho v Hv).
Qed.

Lemma read_vector_kept (l : loc) (v : Vector.t) :
  read_vector h0 l = Some v -> read_vector h l = Some v.
Proof.
  unfold read_vector. case_bool_decide as Hs; [discriminate|].
  destruct (h0 !! l) as [o|] eqn:Hl; [|discriminate].
  destruct Hext as (_ & Hkeep & _). rewrite (Hkeep l o Hl); [auto|].
  intros (Hs' & _). exact (Hs Hs').
Qed.

Lemma read_optional_kept (l : option loc) (v : option Vector.t) :
  read_optional h0 l = Some v -> read_optional h l = Some v.
Proof.
  destruct l as [l|]; cbn [read_optional]; [|auto].
  destruct (read_vector h0 l) as [x|] eqn:Hx; [|discriminate].
  now rewrite (read_vector_kept l x Hx).
Qed.

Lemma read_vertex_kept (l : loc) (v : Vertex.t) :
  read_vertex h0 l = Some v -> read_vertex h l = Some v.
Proof.
  unfold read_vertex. destruct (h0 !! l) as [o|] eqn:Hl; [|discriminate].
  destruct o; try discriminate.
  rewrite (kept l _ Hl) by discriminate.
  destruct (read_vector h0 pos) as [p|] eqn:Hp; [|discriminate].
  destruct (read_vector h0 normal) as [n|] eqn:Hn; [|discriminate].
  destruct (read_optional h0 uv) as [u|] eqn:Hu; [|discriminate].
  destruct (read_optional h0 color) as [c|] eqn:Hc; [|discriminate].
  rewrite (read_vector_kept _ _ Hp), (read_vector_kept _ _ Hn),
    (read_optional_kept _ _ Hu), (read_optional_kept _ _ Hc). auto.
Qed.

Lemma read_array_kept (l : loc) (es : list loc) :
  read_array h0 l = Some es -> read_array h l = Some es.
Proof.
  unfold read_array. destruct (h0 !! l) as [o|] eqn:Hl; [|discriminate].
  destruct o; try discriminate.
  now rewrite (kept l _ Hl) by discriminate.
Qed.

Lemma read_plane_kept (l : loc) (p : Plane.t) :
  read_plane h0 l = Some p -> read_plane h l = Some p.
Proof.
  unfold read_plane. destruct (h0 !! l) as [o|] eqn:Hl; [|discriminate].
  destruct o; try discriminate.
  rewrite (kept l _ Hl) by discriminate.
  destruct (read_vector h0 normal) as [n|] eqn:Hn; [|discriminate].
  now rewrite (read_vector_kept _ _ Hn).
Qed.

Lemma mapM_kept {A} (f g : loc -> option A) (es : list loc) (xs : list A) :
  (forall l x, f l = Some x -> g l = Some x) ->
  mapM f es = Some xs -> mapM g es = Some xs.
Proof.
  intros Hfg Hf. apply mapM_Some. apply mapM_Some in Hf.
  induction Hf; constructor; auto.
Qed.

Lemma read_polygon_kept (l : loc) (p : Polygon.t) :
  read_polygon h0 l = Some p -> read_polygon h l = Some p.
Proof.
  unfold read_polygon. destruct (h0 !! l) as [o|] eqn:Hl; [|discriminate].
  destruct o; try discriminate.
  rewrite (kept l _ Hl) by discriminate.
  destruct (read_array h0 vertices) as [es|] eqn:Hes; [|discriminate].
  rewrite (read_array_kept _ _ Hes). cbn [mbind option_bind].
  destruct (mapM (read_vertex h0) es) as [vs|] eqn:Hvs; [|discriminate].
  rewrite (mapM_kept _ (read_vertex h) _ _ read_vertex_kept Hvs).
  cbn [mbind option_bind].
  destruct (read_plane h0 plane) as [pl|] eqn:Hpl; [|discriminate].
  now rewrite (read_plane_kept _ _ Hpl).
Qed.

Lemma read_csg_kept (l : loc) (c : CSG.t) :
  read_csg h0 l = Some c -> read_csg h l = Some c.
Proof.
  unfold read_csg. destruct (h0 !! l) as [o|] eqn:Hl; [|discriminate].
  destruct o; try discriminate.
  rewrite (kept l _ Hl) by discriminate.
  destruct (read_array h0 polygons) as [es|] eqn:Hes; [|discriminate].
  rewrite (read_array_kept _ _ Hes). cbn [mbind option_bind].
  destruct (mapM (read_polygon h0) es) as [ps|] eqn:Hps; [|discriminate].
  now rewrite (mapM_kept _ (read_polygon h) _ _ read_polygon_kept Hps).
Qed.
End Kept.

Lemma safe_operators (h0 : heap) (op : nat -> loc -> loc -> M loc)
    (fuel : nat) (a b : loc) :
  In op operators -> safe h0 (op fuel a b) (is_new h0).
Proof.
  intros [<-|[<-|[<-|[]]]].
  - apply safe_CSG_union.
  - apply safe_CSG_subtract.
  - apply safe_CSG_intersect.
Qed.

(** C8: union, subtract and intersect leave both operands as they were.
    In any store, whatever the two operands are read as before the call,
    polygon by polygon with the vertices, the plane and the shared tag of
    each, they are read as the same after it; the call returns a solid at
    a new place, and every object of the store other than the two scratch
    vectors of [Vector] is what it was. *)
Theorem operators_keep_operands (op : nat -> loc -> loc -> M loc) (fuel : nat)
    (h : heap) (a b : loc) (A B : CSG.t) (r : loc) (h' : heap) :
  In op operators ->
  read_csg h a = Some A -> read_csg h b = Some B ->
  op fuel a b h = Ok (r, h') ->
  read_csg h' a = Some A /\ read_csg h' b = Some B
  /\ is_new h r
  /\ forall l o, h !! l = Some o -> ~ is_scratch l o -> h' !! l = Some o.
Proof.
  intros Hop HA HB Hrun.
  pose proof (safe_operators h op fuel a b Hop h (extends_refl h)) as Hsafe.
  rewrite Hrun in Hsafe. destruct Hsafe as [Hext Hr].
  split; [exact (read_csg_kept h h' Hext a A HA)|].
  split; [exact (read_csg_kept h h' Hext b B HB)|].
  split; [exact Hr|]. destruct Hext as (_ & Hkeep & _). exact Hkeep.
Qed.

Lemma operators_keep_operands_witness :
  exists r h',
    CSG_subtract 60 (fst solids) (snd solids) solids_store = Ok (r, h')
    /\ read_csg h' (fst solids) = Some left_solid
    /\ read_csg h' (snd solids) = Some right_solid.
Proof.
  destruct (CSG_subtract 60 (fst solids) (snd solids) solids_store)
    as [[r h']| |] eqn:Hrun.
  - exists r, h'. split; [reflexivity|].
    destruct (operators_keep_operands CSG_subtract 60 solids_store
                (fst solids) (snd solids) left_solid right_solid r h')
      as (HA & HB & _).
    + right. left. reflexivity.
    + vm_compute. reflexivity.
    + vm_compute. reflexivity.
    + exact Hrun.
    + split; assumption.
  - vm_compute in Hrun. discriminate Hrun.
  - vm_compute in Hrun. discriminate Hrun.
Defined.

(** On the two tetrahedra the operators on the store return what the
    operators on values return. *)
Example store_agrees_with_values :
  read_result CSG_union = Some <$> CSG.union 60 left_solid right_solid
  /\ read_result CSG_subtract = Some <$> CSG.subtract 60 left_solid right_solid
  /\ read_result CSG_intersect = Some <$> CSG.intersect 60 left_solid right_solid.
Proof. repeat split; vm_compute; reflexivity. Qed.


(** * What is new after a call *)

Lemma safe_CSG_inverse (h0 : heap) (this : loc) :
  safe h0 (CSG_inverse this) (is_new h0).
Proof.
  unfold CSG_inverse.
  eapply safe_bind; [apply safe_CSG_clone|]. intros csg Hcsg.
  eapply safe_bind; [apply safe_get_csg|]. intros ps Hps. specialize (Hps Hcsg).
  eapply safe_bind; [apply safe_get_array|]. intros es Hes. specialize (Hes Hps).
  eapply safe_bind.
  { apply (safe_for_array h0 (is_new h0)); [|exact Hes].
    intros x Hx. now apply safe_Polygon_flip. }
  intros _ _. apply safe_ret. exact Hcsg.
Qed.

Lemma safe_copies (h0 : heap) (op : loc -> M loc) (this : loc) :
  In op copies -> safe h0 (op this) (is_new h0).
Proof.
  intros [<-|[<-|[]]]; [apply safe_CSG_clone|apply safe_CSG_inverse].
Qed.

Lemma refs_new_In (h0 : heap) (o : Obj) (l : loc) :
  refs_new h0 o -> In l (refs o) -> is_new h0 l.
Proof.
  assert (Hopt : forall (x : option loc) l', new_option h0 x -> In l' (option_refs x) ->
                                             is_new h0 l').
  { intros [x|] l' Hx; cbn; [intros [<-|[]]; exact Hx|intros []]. }
  destruct o; cbn [refs_new refs].
  - intros _ [].
  - intros (Hp & Hn & Hu & Hc) [<-|[<-|Hin]]; [assumption..|].
    apply in_app_iff in Hin as [Hin|Hin]; eauto.
  - intros Hn [<-|[]]. exact Hn.
  - intros (Hvs & Hpl) [<-|[<-|[]]]; assumption.
  - intros Hes Hin. rewrite Forall_forall in Hes. now apply Hes, list_elem_of_In.
  - intros (Hpl & Hf & Hb & Hps) Hin.
    repeat (apply in_app_iff in Hin as [Hin|Hin]; eauto).
    destruct Hin as [<-|[]]. exact Hps.
  - intros Hps [<-|[]]. exact Hps.
Qed.

Lemma reachable_new (h0 h : heap) (l l' : loc) :
  extends h0 h -> reachable h l l' -> is_new h0 l -> is_new h0 l'.
Proof.
  intros (_ & _ & Hnew) Hr. induction Hr as [l|l l1 l2 o Hl Hin _ IH]; [auto|].
  intros Hl0. apply IH. eapply refs_new_In; [|exact Hin]. eauto.
Qed.

(** X25: [clone] and [inverse] leave the solid they are called on as it
    is, and what they return is made of new objects only: nothing that
    can be reached from it was in the store before the call. *)
Theorem copies_are_deep (op : loc -> M loc) (h : heap) (a : loc) (A : CSG.t)
    (r : loc) (h' : heap) :
  In op copies -> read_csg h a = Some A -> op a h = Ok (r, h') ->
  read_csg h' a = Some A
  /\ (forall l, reachable h' r l -> is_new h l)
  /\ forall l o, h !! l = Some o -> ~ is_scratch l o -> h' !! l = Some o.
Proof.
  intros Hop HA Hrun.
  pose proof (safe_copies h op a Hop h (extends_refl h)) as Hsafe.
  rewrite Hrun in Hsafe. destruct Hsafe as [Hext Hr].
  split; [exact (read_csg_kept h h' Hext a A HA)|].
  split; [intros l Hl; exact (reachable_new h h' r l Hext Hl Hr)|].
  destruct Hext as (_ & Hkeep & _). exact Hkeep.
Qed.

Lemma copies_are_deep_witness :
  exists r h',
    CSG_inverse (fst solids) solids_store = Ok (r, h')
    /\ read_csg h' (fst solids) = Some left_solid
    /\ is_new solids_store r.
Proof.
  destruct (CSG_inverse (fst solids) solids_store) as [[r h']| |] eqn:Hrun.
  - exists r, h'. split; [reflexivity|].
    destruct (copies_are_deep CSG_inverse solids_store (fst solids) left_solid r h')
      as (HA & Hnew & _).
    + right. left. reflexivity.
    + vm_compute. reflexivity.
    + exact Hrun.
    + split; [exact HA|]. apply Hnew. constructor.
  - vm_compute in Hrun. discriminate Hrun.
  - vm_compute in Hrun. discriminate Hrun.
Defined.

(** X26: what union, subtract and intersect return is made of new objects
    only: nothing that can be reached from the solid they return was in
    the store before the call, so it shares no polygon, vertex or vector
    with the operands. *)
Theorem operators_return_new_objects (op : nat -> loc -> loc -> M loc) (fuel : nat)
    (h : heap) (a b r : loc) (h' : heap) :
  In op operators -> op fuel a b h = Ok (r, h') ->
  forall l, reachable h' r l -> is_new h l.
Proof.
  intros Hop Hrun l Hl.
  pose proof (safe_operators h op fuel a b Hop h (extends_refl h)) as Hsafe.
  rewrite Hrun in Hsafe. destruct Hsafe as [Hext Hr].
  exact (reachable_new h h' r l Hext Hl Hr).
Qed.

Lemma operators_return_new_objects_witness :
  exists r h',
    CSG_union 60 (fst solids) (snd solids) solids_store = Ok (r, h')
    /\ is_new solids_store r.
Proof.
  destruct (CSG_union 60 (fst solids) (snd solids) solids_store)
    as [[r h']| |] eqn:Hrun.
  - exists r, h'. split; [reflexivity|].
    apply (operators_return_new_objects CSG_union 60 solids_store
             (fst solids) (snd solids) r h' (or_introl eq_refl) Hrun).
    constructor.
  - vm_compute in Hrun. discriminate Hrun.
  - vm_compute in Hrun. discriminate Hrun.
Defined.


(** * The scratch vectors *)

Lemma run_get_vector (h : heap) (l : loc) (v : Vector.t) :
  h !! l = Some (OVector v) -> get_vector l h = Ok (v, h).
Proof. intros H. unfold get_vector, load, mbind, M_bind. now rewrite H. Qed.

Lemma run_Vector_update (h : heap) (l : loc) (v : Vector.t)
    (f : Vector.t -> Vector.t) :
  h !! l = Some (OVector v) ->
  Vector_update l f h = Ok (l, <[l := OVector (f v)]> h).
Proof.
  intros H. unfold Vector_update, mbind, M_bind. rewrite (run_get_vector h l v H).
  unfold store. now rewrite (proj2 (Nat.ltb_lt _ _) (lookup_lt_Some _ _ _ H)).
Qed.

Lemma run_Vector_copy (h : heap) (this v : loc) (t a : Vector.t) :
  h !! this = Some (OVector t) -> h !! v = Some (OVector a) ->
  Vector_copy this v h = Ok (this, <[this := OVector (Vector.copy t a)]> h).
Proof.
  intros Ht Hv. unfold Vector_copy, mbind, M_bind.
  now rewrite (run_get_vector h v a Hv), (run_Vector_update h this t _ Ht).
Qed.

Lemma run_Vector_sub (h : heap) (this v : loc) (t a : Vector.t) :
  h !! this = Some (OVector t) -> h !! v = Some (OVector a) ->
  Vector_sub this v h = Ok (this, <[this := OVector (Vector.sub t a)]> h).
Proof.
  intros Ht Hv. unfold Vector_sub, mbind, M_bind.
  now rewrite (run_get_vector h v a Hv), (run_Vector_update h this t _ Ht).
Qed.

Lemma run_Vector_cross (h : heap) (this v : loc) (t a : Vector.t) :
  h !! this = Some (OVector t) -> h !! v = Some (OVector a) ->
  Vector_cross this v h = Ok (this, <[this := OVector (Vector.cross t a)]> h).
Proof.
  intros Ht Hv. unfold Vector_cross, mbind, M_bind.
  now rewrite (run_get_vector h v a Hv), (run_Vector_update h this t _ Ht).
Qed.

Lemma run_Vector_normalize (h : heap) (this : loc) (t : Vector.t) :
  h !! this = Some (OVector t) ->
  Vector_normalize this h = Ok (this, <[this := OVector (Vector.normalize t)]> h).
Proof.
  intros Ht.
  unfold Vector_normalize, Vector_unit, Vector_length, Vector_dividedBy, mbind, M_bind.
  rewrite (run_get_vector h this t Ht). cbn [mret M_ret].
  now rewrite (run_Vector_update h this t _ Ht).
Qed.

Lemma run_Vector_clone (h : heap) (this : loc) (t : Vector.t) :
  h !! this = Some (OVector t) ->
  Vector_clone this h = Ok (length h, h ++ [OVector (Vector.clone t)]).
Proof.
  intros Ht. unfold Vector_clone, mbind, M_bind.
  now rewrite (run_get_vector h this t Ht).
Qed.

Lemma run_Vector_dot (h : heap) (this v : loc) (t a : Vector.t) :
  h !! this = Some (OVector t) -> h !! v = Some (OVector a) ->
  Vector_dot this v h = Ok (Vector.dot t a, h).
Proof.
  intros Ht Hv. unfold Vector_dot, mbind, M_bind.
  now rewrite (run_get_vector h this t Ht), (run_get_vector h v a Hv).
Qed.

(** Looks a cell up in a store that has been written to. *)
Ltac lookup_ins :=
  repeat first
    [ rewrite list_lookup_insert_eq by (rewrite ?length_insert; assumption)
    | rewrite list_lookup_insert_ne
        by (first [assumption|apply not_eq_sym; assumption]) ].

Lemma read_vector_lookup (h : heap) (l : loc) (v : Vector.t) :
  read_vector h l = Some v ->
  h !! l = Some (OVector v) /\ l <> tv0 /\ l <> tv1.
Proof.
  unfold read_vector. case_bool_decide as Hs; [discriminate|].
  destruct (h !! l) as [[]|]; try discriminate. intros [= <-].
  split; [reflexivity|]. split; intros ->; apply Hs; auto.
Qed.

(** X27: [Plane.fromPoints], which works in the two scratch vectors of
    [Vector], returns on the store the plane that it returns on values:
    for points that are not the scratch vectors themselves, the plane is
    a new object with a new normal, it is read as the plane through the
    values of the points, and only the two scratch vectors are
    overwritten. *)
Theorem fromPoints_on_the_store (h : heap) (a b c : loc) (va vb vc v0 v1 : Vector.t) :
  h !! tv0 = Some (OVector v0) -> h !! tv1 = Some (OVector v1) ->
  read_vector h a = Some va -> read_vector h b = Some vb ->
  read_vector h c = Some vc ->
  exists pl h',
    Plane_fromPoints a b c h = Ok (pl, h')
    /\ read_plane h' pl = Some (Plane.fromPoints va vb vc)
    /\ is_new h pl
    /\ forall l o, h !! l = Some o -> l <> tv0 -> l <> tv1 -> h' !! l = Some o.
Proof.
  intros H0 H1 Ha Hb Hc.
  apply read_vector_lookup in Ha as (Ha & Ha0 & Ha1).
  apply read_vector_lookup in Hb as (Hb & Hb0 & Hb1).
  apply read_vector_lookup in Hc as (Hc & Hc0 & Hc1).
  assert (H01 : tv0 <> tv1) by discriminate.
  pose proof (lookup_lt_Some _ _ _ H0) as L0.
  pose proof (lookup_lt_Some _ _ _ H1) as L1.
  set (u := Vector.sub (Vector.copy v0 vb) va).
  set (w := Vector.sub (Vector.copy v1 vc) va).
  set (n := Vector.normalize (Vector.cross u w)).
  (* the store after the two differences, and after the normal *)
  set (h2 := <[tv1 := OVector w]> (<[tv0 := OVector u]> h)).
  set (h3 := <[tv0 := OVector n]> h2).
  assert (Hrun : Plane_fromPoints a b c h
                 = Ok ((length h + 1)%nat,
                       (h3 ++ [OVector (Vector.clone n)])
                       ++ [OPlane (length h) (Vector.dot n va)])).
  { unfold Plane_fromPoints. cbv [mbind M_bind].
    rewrite (run_Vector_copy h tv0 b v0 vb H0 Hb).
    rewrite (run_Vector_sub _ tv0 a (Vector.copy v0 vb) va) by (lookup_ins; auto).
    rewrite list_insert_insert_eq. fold u.
    rewrite (run_Vector_copy _ tv1 c v1 vc) by (lookup_ins; auto).
    rewrite (run_Vector_sub _ tv1 a (Vector.copy v1 vc) va) by (lookup_ins; auto).
    rewrite list_insert_insert_eq. fold w. fold h2.
    rewrite (run_Vector_cross h2 tv0 tv1 u w) by (unfold h2; lookup_ins; auto).
    rewrite (run_Vector_normalize _ tv0 (Vector.cross u w))
      by (unfold h2; lookup_ins; auto).
    rewrite list_insert_insert_eq. fold n. fold h3.
    rewrite (run_Vector_clone h3 tv0 n) by (unfold h3, h2; lookup_ins; auto).
    rewrite (run_Vector_dot _ tv0 a n va).
    - unfold Plane_new, alloc. rewrite length_app.
      unfold h3, h2. rewrite !length_insert. reflexivity.
    - apply lookup_app_l_Some. unfold h3, h2. lookup_ins. reflexivity.
    - apply lookup_app_l_Some. unfold h3, h2. lookup_ins. exact Ha. }
  assert (Hlen : length h3 = length h)
    by (unfold h3, h2; now rewrite !length_insert).
  eexists _, _. split; [exact Hrun|]. split; [|split].
  - unfold read_plane.
    rewrite lookup_app_r by (rewrite length_app, Hlen; cbn; lia).
    rewrite length_app, Hlen. cbn [length].
    replace (length h + 1 - (length h + 1))%nat with 0%nat by lia.
    cbn [lookup list_lookup]. unfold read_vector.
    rewrite bool_decide_eq_false_2 by (unfold tv0, tv1 in *; lia).
    rewrite lookup_app_l by (rewrite length_app, Hlen; cbn; lia).
    rewrite lookup_app_r by lia. rewrite Hlen, Nat.sub_diag. cbn.
    subst n u w. destruct v0, v1. reflexivity.
  - unfold is_new. lia.
  - intros l o Hl Hl0 Hl1. apply lookup_app_l_Some, lookup_app_l_Some.
    unfold h3, h2. rewrite !list_lookup_insert_ne by auto. exact Hl.
Qed.

Lemma fromPoints_on_the_store_witness :
  exists pl h',
    Plane_fromPoints 2 3 4 three_points = Ok (pl, h')
    /\ read_plane h' pl
       = Some (Plane.fromPoints (Vector.mk 1 1 1) (Vector.mk 2 3 1) (Vector.mk 5 1 4)).
Proof.
  destruct (fromPoints_on_the_store three_points 2 3 4
              (Vector.mk 1 1 1) (Vector.mk 2 3 1) (Vector.mk 5 1 4)
              Vector.zero Vector.zero eq_refl eq_refl eq_refl eq_refl eq_refl)
    as (pl & h' & Hrun & Hread & _).
  exists pl, h'. split; assumption.
Defined.

Lemma run_Vector_times (h : heap) (this : loc) (t : Vector.t) (a : float) :
  h !! this = Some (OVector t) ->
  Vector_times this a h = Ok (this, <[this := OVector (Vector.times t a)]> h).
Proof. intros Ht. unfold Vector_times. now rewrite (run_Vector_update h this t _ Ht). Qed.

Lemma run_Vector_add (h : heap) (this v : loc) (t a : Vector.t) :
  h !! this = Some (OVector t) -> h !! v = Some (OVector a) ->
  Vector_add this v h = Ok (this, <[this := OVector (Vector.add t a)]> h).
Proof.
  intros Ht Hv. unfold Vector_add, mbind, M_bind.
  now rewrite (run_get_vector h v a Hv), (run_Vector_update h this t _ Ht).
Qed.

(** X28: [lerp] works in the scratch vector [Vector.tv0].  Called on any
    other vector it leaves in it what it computes on values, whatever
    [a] is (also a scratch vector, also [this] itself), and overwrites
    [tv0] besides; called on [tv0] itself it overwrites its own operand
    first, and what is left is [(a - a) t + (a - a) t], whatever [tv0]
    held. *)
Theorem lerp_on_the_store (h : heap) (this a : loc) (vt va v0 : Vector.t)
    (t' : float) :
  h !! tv0 = Some (OVector v0) ->
  h !! this = Some (OVector vt) -> h !! a = Some (OVector va) ->
  let d := Vector.times (Vector.sub va vt) t' in
  let z := Vector.times (Vector.sub va va) t' in
  (this <> tv0 ->
   Vector_lerp this a t' h
   = Ok (this, <[this := OVector (Vector.lerp vt va t')]> (<[tv0 := OVector d]> h)))
  /\ (this = tv0 ->
      Vector_lerp this a t' h = Ok (tv0, <[tv0 := OVector (Vector.add z z)]> h)).
Proof.
  intros H0 Ht Ha d z.
  pose proof (lookup_lt_Some _ _ _ H0) as L0.
  pose proof (lookup_lt_Some _ _ _ Ht) as Lt.
  assert (Hcopy : Vector_copy tv0 a h = Ok (tv0, <[tv0 := OVector va]> h)).
  { rewrite (run_Vector_copy h tv0 a v0 va H0 Ha). now destruct va. }
  split.
  - intros Hne. unfold Vector_lerp. cbv [mbind M_bind]. rewrite Hcopy.
    rewrite (run_Vector_sub _ tv0 this va vt) by (lookup_ins; auto).
    rewrite list_insert_insert_eq.
    rewrite (run_Vector_times _ tv0 (Vector.sub va vt)) by (lookup_ins; auto).
    rewrite list_insert_insert_eq. fold d.
    rewrite (run_Vector_add _ this tv0 vt d) by (lookup_ins; auto).
    unfold Vector.lerp. subst d. now destruct va.
  - intros ->. rewrite H0 in Ht. injection Ht as <-.
    unfold Vector_lerp. cbv [mbind M_bind]. rewrite Hcopy.
    rewrite (run_Vector_sub _ tv0 tv0 va va) by (lookup_ins; auto).
    rewrite list_insert_insert_eq.
    rewrite (run_Vector_times _ tv0 (Vector.sub va va)) by (lookup_ins; auto).
    rewrite list_insert_insert_eq. fold z.
    rewrite (run_Vector_add _ tv0 tv0 z z) by (lookup_ins; auto).
    now rewrite list_insert_insert_eq.
Qed.

Lemma lerp_on_the_store_witness :
  Vector_lerp 2 3 0.5 three_points
  = Ok (2%nat,
        <[2%nat := OVector (Vector.lerp (Vector.mk 1 1 1) (Vector.mk 2 3 1) 0.5)]>
          (<[tv0 := OVector (Vector.times
                               (Vector.sub (Vector.mk 2 3 1) (Vector.mk 1 1 1)) 0.5)]>
             three_points)).
Proof.
  destruct (lerp_on_the_store three_points 2 3 (Vector.mk 1 1 1) (Vector.mk 2 3 1)
              Vector.zero 0.5 eq_refl eq_refl eq_refl) as [H _].
  apply H. discriminate.
Defined.

(** * A tree that is inverted in place *)

(** ** What a tree is read from *)

Lemma in_flat_map_elem {A B} (f : A -> list B) (l : list A) (y : B) :
  y ∈ flat_map f l <-> exists x, x ∈ l /\ y ∈ f x.
Proof.
  rewrite list_elem_of_In, in_flat_map.
  split; intros (x & Hx & Hy); exists x; split;
    first [now apply list_elem_of_In|now apply list_elem_of_In in Hx
          |now apply list_elem_of_In in Hy].
Qed.

Lemma flat_map_ext_elem {A B} (f g : A -> list B) (l : list A) :
  (forall x, x ∈ l -> f x = g x) -> flat_map f l = flat_map g l.
Proof.
  induction l as [|x l IH]; intros H; [reflexivity|]. cbn [flat_map].
  rewrite (H x) by left. rewrite IH; [reflexivity|].
  intros y Hy. apply H. now right.
Qed.

Lemma mapM_ext_elem {A B} (f g : A -> option B) (l : list A) :
  (forall x, x ∈ l -> f x = g x) -> mapM f l = mapM g l.
Proof.
  induction l as [|x l IH]; intros H; [reflexivity|]. cbn [mapM].
  rewrite (H x) by left. rewrite IH; [reflexivity|].
  intros y Hy. apply H. now right.
Qed.

Lemma read_vector_local (h h' : heap) (l : loc) :
  h' !! l = h !! l -> read_vector h' l = read_vector h l.
Proof. intros H. unfold read_vector. now rewrite H. Qed.

Lemma read_optional_local (h h' : heap) (l : option loc) :
  (forall x, x ∈ option_refs l -> h' !! x = h !! x) ->
  read_optional h' l = read_optional h l.
Proof.
  intros H. destruct l as [l|]; [|reflexivity]. cbn [read_optional].
  rewrite (read_vector_local h h' l); [reflexivity|]. apply H. now left.
Qed.

Lemma vertex_local (h h' : heap) (l : loc) :
  (forall x, x ∈ vertex_cells h l -> h' !! x = h !! x) ->
  read_vertex h' l = read_vertex h l /\ vertex_cells h' l = vertex_cells h l.
Proof.
  unfold vertex_cells, read_vertex. intros H.
  assert (Hl : h' !! l = h !! l).
  { apply H. destruct (h !! l) as [[]|]; left. }
  rewrite Hl. destruct (h !! l) as [[v|p n u c| | | | |]|]; try (split; reflexivity).
  split; [|reflexivity].
  rewrite (read_vector_local h h' p), (read_vector_local h h' n),
    (read_optional_local h h' u), (read_optional_local h h' c); [reflexivity|..].
  - intros x Hx. apply H. do 3 right. apply elem_of_app. now right.
  - intros x Hx. apply H. do 3 right. apply elem_of_app. now left.
  - apply H. right. right. left.
  - apply H. right. left.
Qed.

Lemma plane_local (h h' : heap) (l : loc) :
  (forall x, x ∈ plane_cells h l -> h' !! x = h !! x) ->
  read_plane h' l = read_plane h l /\ plane_cells h' l = plane_cells h l.
Proof.
  unfold plane_cells, read_plane. intros H.
  assert (Hl : h' !! l = h !! l).
  { apply H. destruct (h !! l) as [[]|]; left. }
  rewrite Hl. destruct (h !! l) as [[v| |n w| | | |]|]; try (split; reflexivity).
  split; [|reflexivity].
  rewrite (read_vector_local h h' n); [reflexivity|]. apply H. right. left.
Qed.

(** An array of objects, each read by [read] from the cells [cells]. *)
Lemma array_local {A} (cells cells' : loc -> list loc) (read read' : loc -> option A)
    (h h' : heap) (l : loc) :
  (forall x, x ∈ array_cells cells h l -> h' !! x = h !! x) ->
  (forall e, (forall x, x ∈ cells e -> h' !! x = h !! x) ->
             read' e = read e /\ cells' e = cells e) ->
  (es ← read_array h' l; mapM read' es) = (es ← read_array h l; mapM read es)
  /\ array_cells cells' h' l = array_cells cells h l.
Proof.
  unfold array_cells, read_array. intros H Hloc.
  assert (Hl : h' !! l = h !! l).
  { apply H. destruct (h !! l) as [[]|]; left. }
  rewrite Hl. destruct (h !! l) as [[| | | |es| |]|]; try (split; reflexivity).
  assert (Hes : forall e, e ∈ es -> read' e = read e /\ cells' e = cells e).
  { intros e He. apply Hloc. intros x Hx. apply H. right.
    apply in_flat_map_elem. eauto. }
  split.
  - cbn. apply mapM_ext_elem. intros e He. now apply Hes.
  - f_equal. apply flat_map_ext_elem. intros e He. now apply Hes.
Qed.

Lemma polygon_local (h h' : heap) (l : loc) :
  (forall x, x ∈ polygon_cells h l -> h' !! x = h !! x) ->
  read_polygon h' l = read_polygon h l /\ polygon_cells h' l = polygon_cells h l.
Proof.
  unfold polygon_cells, read_polygon. intros H.
  assert (Hl : h' !! l = h !! l).
  { apply H. destruct (h !! l) as [[]|]; left. }
  rewrite Hl. destruct (h !! l) as [[| | |vs sh pl| | |]|]; try (split; reflexivity).
  destruct (plane_local h h' pl) as [Hp Hpc].
  { intros x Hx. apply H. right. apply elem_of_app. now left. }
  destruct (array_local (vertex_cells h) (vertex_cells h') (read_vertex h)
              (read_vertex h') h h' vs) as [Ha Hac].
  { intros x Hx. apply H. right. apply elem_of_app. now right. }
  { intros e He. now apply vertex_local. }
  rewrite Hp, Hpc, Hac. split; [|reflexivity].
  cbn [mbind option_bind] in Ha |- *.
  destruct (read_array h' vs) as [es'|], (read_array h vs) as [es|];
    cbn in Ha |- *; first [rewrite Ha|rewrite <- Ha|idtac]; reflexivity.
Qed.

Lemma child_local {A} (cells cells' : loc -> list loc) (read read' : loc -> option A)
    (h h' : heap) (o : option loc) :
  (forall x, x ∈ optional_cells cells o -> h' !! x = h !! x) ->
  (forall e, (forall x, x ∈ cells e -> h' !! x = h !! x) ->
             read' e = read e /\ cells' e = cells e) ->
  read_child read' o = read_child read o
  /\ optional_cells cells' o = optional_cells cells o.
Proof.
  intros H Hloc. destruct o as [e|]; [|split; reflexivity].
  cbn [read_child optional_cells] in *. destruct (Hloc e H) as [-> ->].
  split; reflexivity.
Qed.

Lemma node_local (depth : nat) (h h' : heap) :
  forall l,
    (forall x, x ∈ node_cells depth h l -> h' !! x = h !! x) ->
    read_node depth h' l = read_node depth h l
    /\ node_cells depth h' l = node_cells depth h l.
Proof.
  induction depth as [|depth IH]; intros l H; [split; reflexivity|].
  cbn [node_cells read_node] in *.
  assert (Hl : h' !! l = h !! l).
  { apply H. destruct (h !! l) as [[]|]; left. }
  rewrite Hl. destruct (h !! l) as [[| | | | |pl f b ps|]|]; try (split; reflexivity).
  destruct (child_local (plane_cells h) (plane_cells h') (read_plane h)
              (read_plane h') h h' pl) as [Hp Hpc].
  { intros x Hx. apply H. right. apply elem_of_app. now left. }
  { intros e He. now apply plane_local. }
  destruct (array_local (polygon_cells h) (polygon_cells h') (read_polygon h)
              (read_polygon h') h h' ps) as [Ha Hac].
  { intros x Hx. apply H. right. apply elem_of_app. right.
    apply elem_of_app. now left. }
  { intros e He. now apply polygon_local. }
  destruct (child_local (node_cells depth h) (node_cells depth h')
              (read_node depth h) (read_node depth h') h h' f) as [Hf Hfc].
  { intros x Hx. apply H. right. apply elem_of_app. right.
    apply elem_of_app. right. apply elem_of_app. now left. }
  { intros e He. now apply IH. }
  destruct (child_local (node_cells depth h) (node_cells depth h')
              (read_node depth h) (read_node depth h') h h' b) as [Hb Hbc].
  { intros x Hx. apply H. right. apply elem_of_app. right.
    apply elem_of_app. right. apply elem_of_app. now right. }
  { intros e He. now apply IH. }
  rewrite Hp, Hpc, Hac, Hf, Hfc, Hb, Hbc. split; [|reflexivity].
  destruct (read_child (read_plane h) pl); [|reflexivity].
  destruct (read_child (read_node depth h) f); [|reflexivity].
  destruct (read_child (read_node depth h) b); [|reflexivity].
  cbn [mbind option_bind] in Ha |- *.
  destruct (read_array h' ps) as [es'|], (read_array h ps) as [es|];
    cbn in Ha |- *; first [rewrite Ha|rewrite <- Ha|idtac]; reflexivity.
Qed.

(** ** Flipping in place *)

Lemma run_get_vertex (h : heap) (l p n : loc) (u c : option loc) :
  h !! l = Some (OVertex p n u c) -> get_vertex l h = Ok ((p, n, u, c), h).
Proof. intros H. unfold get_vertex, load, mbind, M_bind. now rewrite H. Qed.

Lemma run_get_plane (h : heap) (l n : loc) (w : float) :
  h !! l = Some (OPlane n w) -> get_plane l h = Ok ((n, w), h).
Proof. intros H. unfold get_plane, load, mbind, M_bind. now rewrite H. Qed.

Lemma run_get_polygon (h : heap) (l vs pl : loc) (sh : option N) :
  h !! l = Some (OPolygon vs sh pl) -> get_polygon l h = Ok ((vs, sh, pl), h).
Proof. intros H. unfold get_polygon, load, mbind, M_bind. now rewrite H. Qed.

Lemma run_get_array (h : heap) (l : loc) (es : list loc) :
  h !! l = Some (OArray es) -> get_array l h = Ok (es, h).
Proof. intros H. unfold get_array, load, mbind, M_bind. now rewrite H. Qed.

Lemma run_get_node (h : heap) (l ps : loc) (pl f b : option loc) :
  h !! l = Some (ONode pl f b ps) -> get_node l h = Ok ((pl, f, b, ps), h).
Proof. intros H. unfold get_node, load, mbind, M_bind. now rewrite H. Qed.

Lemma run_store (h : heap) (l : loc) (o o' : Obj) :
  h !! l = Some o -> store l o' h = Ok (tt, <[l := o']> h).
Proof.
  intros H. unfold store.
  now rewrite (proj2 (Nat.ltb_lt _ _) (lookup_lt_Some _ _ _ H)).
Qed.

Lemma insert_off (h : heap) (l : loc) (o : Obj) (F : list loc) :
  l ∈ F -> forall x, x ∉ F -> <[l := o]> h !! x = h !! x.
Proof.
  intros Hl x Hx. apply list_lookup_insert_ne. intros ->. contradiction.
Qed.

Lemma perm_elem {A} (l k : list A) :
  Permutation l k -> forall x, x ∈ l <-> x ∈ k.
Proof. intros H x. now rewrite H. Qed.

(** [flip] of a vertex whose normal is a vector of its own. *)
Lemma Vertex_flip_spec (h : heap) (l : loc) (v : Vertex.t) :
  read_vertex h l = Some v -> NoDup (vertex_cells h l) ->
  exists h',
    Vertex_flip l h = Ok (tt, h')
    /\ read_vertex h' l = Some (Vertex.flip v)
    /\ Permutation (vertex_cells h' l) (vertex_cells h l)
    /\ forall x, x ∉ vertex_cells h l -> h' !! x = h !! x.
Proof.
  unfold read_vertex, vertex_cells.
  destruct (h !! l) as [[|p n u c| | | | |]|] eqn:Hl; try discriminate.
  intros Hv Hnd.
  destruct (read_vector h p) as [pv|] eqn:Hp; [|discriminate]. cbn in Hv.
  destruct (read_vector h n) as [nv|] eqn:Hn; [|discriminate]. cbn in Hv.
  destruct (read_optional h u) as [uv|] eqn:Hu; [|discriminate]. cbn in Hv.
  destruct (read_optional h c) as [cv|] eqn:Hc; [|discriminate]. cbn in Hv.
  injection Hv as <-.
  destruct (read_vector_lookup h n nv Hn) as (Hn' & _ & _).
  exists (<[n := OVector (Vector.negate nv)]> h).
  apply NoDup_cons in Hnd as [Hl1 Hnd]. apply NoDup_cons in Hnd as [Hp1 Hnd].
  apply NoDup_cons in Hnd as [Hn1 Hnd].
  assert (Hln : l <> n) by (intros ->; apply Hl1; right; left).
  assert (Hpn : p <> n) by (intros ->; apply Hp1; left).
  assert (Hl' : <[n := OVector (Vector.negate nv)]> h !! l = Some (OVertex p n u c)).
  { rewrite list_lookup_insert_ne by auto. exact Hl. }
  split; [|split; [|split]].
  - unfold Vertex_flip. cbv [mbind M_bind]. rewrite (run_get_vertex h l p n u c Hl).
    unfold Vector_negate. now rewrite (run_Vector_update h n nv _ Hn').
  - rewrite Hl'.
    rewrite (read_vector_local h _ p) by (apply list_lookup_insert_ne; auto).
    rewrite Hp. cbn.
    assert (Hn2 : read_vector (<[n := OVector (Vector.negate nv)]> h) n
                  = Some (Vector.negate nv)).
    { unfold read_vector in *. destruct (bool_decide (n = tv0 \/ n = tv1));
        [discriminate|].
      rewrite list_lookup_insert_eq by (eapply lookup_lt_Some; eauto). reflexivity. }
    rewrite Hn2. cbn.
    rewrite (read_optional_local h _ u), Hu.
    + cbn. rewrite (read_optional_local h _ c), Hc; [reflexivity|].
      intros x Hx. apply list_lookup_insert_ne. intros ->. apply Hn1.
      apply elem_of_app. now right.
    + intros x Hx. apply list_lookup_insert_ne. intros ->. apply Hn1.
      apply elem_of_app. now left.
  - now rewrite Hl'.
  - apply insert_off. right. right. left.
Qed.

(** [flip] of a plane. *)
Lemma Plane_flip_spec (h : heap) (l : loc) (pl : Plane.t) :
  read_plane h l = Some pl ->
  exists h',
    Plane_flip l h = Ok (tt, h')
    /\ read_plane h' l = Some (Plane.flip pl)
    /\ Permutation (plane_cells h' l) (plane_cells h l)
    /\ forall x, x ∉ plane_cells h l -> h' !! x = h !! x.
Proof.
  unfold read_plane, plane_cells.
  destruct (h !! l) as [[| |n w| | | |]|] eqn:Hl; try discriminate.
  intros Hv.
  destruct (read_vector h n) as [nv|] eqn:Hn; [|discriminate]. cbn in Hv.
  injection Hv as <-.
  destruct (read_vector_lookup h n nv Hn) as (Hn' & Hn0 & Hn1).
  assert (Hln : l <> n) by (intros ->; rewrite Hl in Hn'; discriminate).
  set (h1 := <[n := OVector (Vector.negate nv)]> h).
  assert (Hl1 : h1 !! l = Some (OPlane n w)).
  { unfold h1. rewrite list_lookup_insert_ne by auto. exact Hl. }
  exists (<[l := OPlane n (- w)]> h1).
  split; [|split; [|split]].
  - unfold Plane_flip. cbv [mbind M_bind]. rewrite (run_get_plane h l n w Hl).
    unfold Vector_negate. rewrite (run_Vector_update h n nv _ Hn'). fold h1.
    rewrite (run_get_plane h1 l n w Hl1). now rewrite (run_store h1 l _ _ Hl1).
  - rewrite list_lookup_insert_eq by (eapply lookup_lt_Some; eauto).
    unfold read_vector. rewrite bool_decide_eq_false_2 by tauto.
    rewrite list_lookup_insert_ne by auto. unfold h1.
    rewrite list_lookup_insert_eq by (eapply lookup_lt_Some; eauto). reflexivity.
  - rewrite list_lookup_insert_eq by (eapply lookup_lt_Some; eauto).
    reflexivity.
  - intros x Hx. rewrite list_lookup_insert_ne.
    + unfold h1. apply list_lookup_insert_ne. intros ->. apply Hx. right. left.
    + intros ->. apply Hx. left.
Qed.

(** ** One call for every object of an array *)

Lemma Forall2_read_ext {A} (g g' : loc -> option A) (es : list loc) (vals : list A) :
  (forall l, l ∈ es -> g' l = g l) ->
  Forall2 (fun l a => g l = Some a) es vals ->
  Forall2 (fun l a => g' l = Some a) es vals.
Proof.
  intros Hext H. induction H as [|l a es vals Hl _ IH]; constructor.
  - rewrite Hext by left. exact Hl.
  - apply IH. intros l' Hl'. apply Hext. now right.
Qed.

Section Separate.
Context {A : Type}.
Variable cells : heap -> loc -> list loc.
Variable read : heap -> loc -> option A.
Variable f : A -> A.
Variable op : loc -> M unit.

Hypothesis local : forall h h' l,
  (forall x, x ∈ cells h l -> h' !! x = h !! x) ->
  read h' l = read h l /\ cells h' l = cells h l.

Hypothesis spec : forall h l a,
  read h l = Some a -> NoDup (cells h l) ->
  exists h',
    op l h = Ok (tt, h')
    /\ read h' l = Some (f a)
    /\ Permutation (cells h' l) (cells h l)
    /\ forall x, x ∉ cells h l -> h' !! x = h !! x.

(** The call for the first object leaves the others as they are. *)
Lemma separate_first (h : heap) (e : loc) (es : list loc) (a : A) (vals : list A) :
  read h e = Some a ->
  Forall2 (fun l a => read h l = Some a) es vals ->
  NoDup (cells h e ++ flat_map (cells h) es) ->
  exists h1,
    op e h = Ok (tt, h1)
    /\ read h1 e = Some (f a)
    /\ Permutation (cells h1 e) (cells h e)
    /\ (forall x, x ∉ cells h e -> h1 !! x = h !! x)
    /\ Forall2 (fun l a => read h1 l = Some a) es vals
    /\ flat_map (cells h1) es = flat_map (cells h) es.
Proof.
  intros He Hes Hnd. apply NoDup_app in Hnd as (Hnd & Hdis & _).
  destruct (spec h e a He Hnd) as (h1 & Hrun & Hr & Hc & Hoff).
  exists h1. do 4 (split; [assumption|]).
  assert (Hkeep : forall l, l ∈ es ->
                            read h1 l = read h l /\ cells h1 l = cells h l).
  { intros l Hl. apply local. intros x Hx. apply Hoff. intros Hxe.
    apply (Hdis x Hxe). apply in_flat_map_elem. eauto. }
  split.
  - eapply Forall2_read_ext; [|exact Hes]. intros l Hl. now apply Hkeep.
  - apply flat_map_ext_elem. intros l Hl. now apply Hkeep.
Qed.

(** The calls for the others leave the first one as it is. *)
Lemma separate_rest (h h1 h' : heap) (e : loc) (es : list loc) (a : A) :
  NoDup (cells h e ++ flat_map (cells h) es) ->
  read h1 e = Some (f a) ->
  Permutation (cells h1 e) (cells h e) ->
  (forall x, x ∉ cells h e -> h1 !! x = h !! x) ->
  flat_map (cells h1) es = flat_map (cells h) es ->
  Permutation (flat_map (cells h') es) (flat_map (cells h1) es) ->
  (forall x, x ∉ flat_map (cells h1) es -> h' !! x = h1 !! x) ->
  read h' e = Some (f a)
  /\ Permutation (flat_map (cells h') (e :: es)) (flat_map (cells h) (e :: es))
  /\ forall x, x ∉ flat_map (cells h) (e :: es) -> h' !! x = h !! x.
Proof.
  intros Hnd Hr Hc Hoff Hes Hc' Hoff'. apply NoDup_app in Hnd as (_ & Hdis & _).
  destruct (local h1 h' e) as [Hr' Hce].
  { intros x Hx. apply Hoff'. rewrite Hes. apply Hdis.
    now apply (perm_elem _ _ Hc). }
  split; [now rewrite Hr'|]. cbn [flat_map]. split.
  - rewrite Hce, Hc, Hc', Hes. reflexivity.
  - intros x Hx. rewrite elem_of_app in Hx.
    transitivity (h1 !! x); [apply Hoff'; rewrite Hes; tauto|apply Hoff; tauto].
Qed.

Lemma for_array_separate (es : list loc) :
  forall (vals : list A) (h : heap),
    Forall2 (fun l a => read h l = Some a) es vals ->
    NoDup (flat_map (cells h) es) ->
    exists h',
      for_array op es h = Ok (tt, h')
      /\ Forall2 (fun l a => read h' l = Some (f a)) es vals
      /\ Permutation (flat_map (cells h') es) (flat_map (cells h) es)
      /\ forall x, x ∉ flat_map (cells h) es -> h' !! x = h !! x.
Proof.
  induction es as [|e es IH]; intros vals h Hes Hnd.
  - inversion Hes; subst. exists h. repeat split; auto; constructor.
  - inversion Hes as [|? a ? vals' He Hes']; subst.
    cbn [flat_map] in Hnd.
    destruct (separate_first h e es a vals' He Hes' Hnd)
      as (h1 & Hrun & Hr & Hc & Hoff & Hes1 & Hcs).
    destruct (IH vals' h1 Hes1) as (h' & Hrun' & Hes2 & Hc' & Hoff').
    { rewrite Hcs. now apply NoDup_app in Hnd as (_ & _ & Hnd). }
    destruct (separate_rest h h1 h' e es a Hnd Hr Hc Hoff Hcs Hc' Hoff')
      as (Hr' & Hc2 & Hoff2).
    exists h'. split; [|split; [|split]]; try assumption.
    + cbn [for_array]. cbv [mbind M_bind]. now rewrite Hrun.
    + now constructor.
Qed.

(** The same for a loop that reads the array again in every turn. *)
Lemma for_each_separate (arr : loc) (es : list loc) :
  forall (pre : list loc) (vals : list A) (fuel : nat) (h : heap),
    h !! arr = Some (OArray (pre ++ es)) ->
    (length es < fuel)%nat ->
    arr ∉ flat_map (cells h) es ->
    Forall2 (fun l a => read h l = Some a) es vals ->
    NoDup (flat_map (cells h) es) ->
    exists h',
      for_each fuel arr (length pre) op h = Ok (tt, h')
      /\ Forall2 (fun l a => read h' l = Some (f a)) es vals
      /\ Permutation (flat_map (cells h') es) (flat_map (cells h) es)
      /\ forall x, x ∉ flat_map (cells h) es -> h' !! x = h !! x.
Proof.
  induction es as [|e es IH]; intros pre vals fuel h Harr Hfuel Hout Hes Hnd;
    (destruct fuel as [|fuel]; [cbn [length] in Hfuel; lia|]);
    cbn [for_each]; cbv [mbind M_bind]; rewrite (run_get_array h arr _ Harr).
  - inversion Hes; subst. rewrite lookup_ge_None_2 by (rewrite app_nil_r; lia).
    exists h. repeat split; auto; constructor.
  - inversion Hes as [|? a ? vals' He Hes']; subst.
    rewrite lookup_app_r, Nat.sub_diag by lia. cbn [lookup list_lookup].
    cbn [flat_map] in Hnd, Hout. rewrite elem_of_app in Hout.
    destruct (separate_first h e es a vals' He Hes' Hnd)
      as (h1 & Hrun & Hr & Hc & Hoff & Hes1 & Hcs).
    rewrite Hrun.
    destruct (IH (pre ++ [e]) vals' fuel h1) as (h' & Hrun' & Hes2 & Hc' & Hoff').
    { rewrite Hoff by tauto. now rewrite <- app_assoc. }
    { cbn [length] in Hfuel. lia. }
    { rewrite Hcs. tauto. }
    { exact Hes1. }
    { rewrite Hcs. now apply NoDup_app in Hnd as (_ & _ & Hnd). }
    destruct (separate_rest h h1 h' e es a Hnd Hr Hc Hoff Hcs Hc' Hoff')
      as (Hr' & Hc2 & Hoff2).
    rewrite length_app in Hrun'. cbn [length] in Hrun'.
    exists h'. split; [exact Hrun'|]. split; [now constructor|].
    split; assumption.
Qed.

End Separate.

Lemma elem_of_rev {A} (l : list A) (x : A) : x ∈ rev l <-> x ∈ l.
Proof. rewrite !list_elem_of_In. symmetry. apply in_rev. Qed.

Lemma Forall2_rev {A B} (P : A -> B -> Prop) (l : list A) (k : list B) :
  Forall2 P l k -> Forall2 P (rev l) (rev k).
Proof. rewrite !rev_alt. apply Forall2_reverse. Qed.

Lemma flat_map_rev_elem {A B} (f : A -> list B) (l : list A) (y : B) :
  y ∈ flat_map f (rev l) <-> y ∈ flat_map f l.
Proof.
  rewrite !in_flat_map_elem. split; intros (x & Hx & Hy); exists x; split; auto.
  - now rewrite elem_of_rev in Hx.
  - now rewrite elem_of_rev.
Qed.

Lemma flat_map_rev_NoDup {A B} (f : A -> list B) (l : list A) :
  NoDup (flat_map f l) -> NoDup (flat_map f (rev l)).
Proof.
  intros H. eapply NoDup_Permutation_proper; [|exact H].
  apply Permutation_flat_map. symmetry. apply Permutation_rev.
Qed.

Lemma read_array_lookup (h : heap) (l : loc) (es : list loc) :
  read_array h l = Some es -> h !! l = Some (OArray es).
Proof.
  unfold read_array. destruct (h !! l) as [[]|]; try discriminate. now intros [= <-].
Qed.

(** [flip] of a polygon that shares nothing: no vertex twice, and every
    vertex, the plane and the array with vectors of their own. *)
Lemma Polygon_flip_spec (h : heap) (l : loc) (p : Polygon.t) :
  read_polygon h l = Some p -> NoDup (polygon_cells h l) ->
  exists h',
    Polygon_flip l h = Ok (tt, h')
    /\ read_polygon h' l = Some (Polygon.flip p)
    /\ Permutation (polygon_cells h' l) (polygon_cells h l)
    /\ forall x, x ∉ polygon_cells h l -> h' !! x = h !! x.
Proof.
  unfold read_polygon, polygon_cells.
  destruct (h !! l) as [[| | |vs sh pl| | |]|] eqn:Hl; try discriminate.
  intros Hp Hnd.
  destruct (read_array h vs) as [es|] eqn:Hvs; [|discriminate]. cbn in Hp.
  destruct (mapM (read_vertex h) es) as [Vs|] eqn:HVs; [|discriminate]. cbn in Hp.
  destruct (read_plane h pl) as [Pl|] eqn:HPl; [|discriminate]. cbn in Hp.
  injection Hp as <-. apply read_array_lookup in Hvs.
  unfold array_cells in *. rewrite Hvs in *.
  apply NoDup_cons in Hnd as [Hl0 Hnd]. rewrite elem_of_app, elem_of_cons in Hl0.
  apply NoDup_app in Hnd as (Hndp & Hdis & Hnd).
  apply NoDup_cons in Hnd as [Hvs0 Hndv].
  apply mapM_Some in HVs.
  (* the array is reversed *)
  set (h1 := <[vs := OArray (rev es)]> h).
  assert (Hoff1 : forall x, x <> vs -> h1 !! x = h !! x)
    by (intros x Hx; apply list_lookup_insert_ne; auto).
  assert (Hvs1 : h1 !! vs = Some (OArray (rev es))).
  { apply list_lookup_insert_eq. eapply lookup_lt_Some; eauto. }
  assert (Hkeep1 : forall e, e ∈ es ->
            read_vertex h1 e = read_vertex h e
            /\ vertex_cells h1 e = vertex_cells h e).
  { intros e He. apply vertex_local. intros x Hx. apply Hoff1. intros ->.
    apply Hvs0, in_flat_map_elem. eauto. }
  assert (Hcs1 : flat_map (vertex_cells h1) (rev es)
                 = flat_map (vertex_cells h) (rev es)).
  { apply flat_map_ext_elem. intros e He. apply Hkeep1. now rewrite elem_of_rev in He. }
  (* the vertices are flipped *)
  destruct (for_array_separate vertex_cells read_vertex Vertex.flip Vertex_flip
              vertex_local Vertex_flip_spec (rev es) (rev Vs) h1)
    as (h2 & Hrun2 & HVs2 & Hc2 & Hoff2).
  { apply Forall2_rev. eapply Forall2_read_ext; [|exact HVs].
    intros e He. now apply Hkeep1. }
  { rewrite Hcs1. now apply flat_map_rev_NoDup. }
  assert (Hin2 : forall x, x ∈ flat_map (vertex_cells h2) (rev es)
                           <-> x ∈ flat_map (vertex_cells h) es).
  { intros x. now rewrite Hc2, Hcs1, flat_map_rev_elem. }
  assert (Hoff2' : forall x, x <> vs -> x ∉ flat_map (vertex_cells h) es ->
                             h2 !! x = h !! x).
  { intros x Hx Hx'. rewrite Hoff2, Hoff1; auto.
    now rewrite Hcs1, flat_map_rev_elem. }
  (* the plane is flipped *)
  destruct (plane_local h h2 pl) as [HPl2 Hpc2].
  { intros x Hx. apply Hoff2'.
    - intros ->. apply (Hdis vs Hx). left.
    - intros Hx'. apply (Hdis x Hx). now right. }
  rewrite <- HPl2 in HPl.
  destruct (Plane_flip_spec h2 pl Pl HPl) as (h3 & Hrun3 & HPl3 & Hc3 & Hoff3).
  rewrite Hpc2 in Hc3, Hoff3.
  assert (Hl3 : h3 !! l = Some (OPolygon vs sh pl)).
  { rewrite Hoff3, Hoff2' by tauto. exact Hl. }
  assert (Hvs3 : h3 !! vs = Some (OArray (rev es))).
  { rewrite Hoff3 by (intros Hx; apply (Hdis vs Hx); left).
    rewrite Hoff2; [exact Hvs1|]. now rewrite Hcs1, flat_map_rev_elem. }
  assert (Hkeep3 : forall e, e ∈ rev es ->
            read_vertex h3 e = read_vertex h2 e
            /\ vertex_cells h3 e = vertex_cells h2 e).
  { intros e He. apply vertex_local. intros x Hx. apply Hoff3. intros Hxp.
    apply (Hdis x Hxp). right. apply Hin2, in_flat_map_elem. eauto. }
  exists h3. split; [|split; [|split]].
  - unfold Polygon_flip. cbv [mbind M_bind].
    rewrite (run_get_polygon h l vs pl sh Hl), (run_get_array h vs es Hvs).
    rewrite (run_store h vs _ (OArray (rev es)) Hvs). fold h1. now rewrite Hrun2.
  - rewrite Hl3. unfold read_array. rewrite Hvs3. cbn.
    assert (HVs3 : mapM (read_vertex h3) (rev es)
                   = Some (map Vertex.flip (rev (Polygon.vertices
                                                   (Polygon.mk Vs sh Pl))))).
    { apply mapM_Some. cbn [Polygon.vertices].
      apply (Forall2_read_ext (read_vertex h2));
        [intros e He; now apply Hkeep3|].
      apply (Forall2_fmap_r Vertex.flip (fun l b => read_vertex h2 l = Some b)).
      exact HVs2. }
    rewrite HVs3. cbn. rewrite HPl3. reflexivity.
  - rewrite Hl3, Hvs3.
    assert (Hcs3 : flat_map (vertex_cells h3) (rev es)
                   = flat_map (vertex_cells h2) (rev es)).
    { apply flat_map_ext_elem. intros e He. now apply Hkeep3. }
    rewrite Hc3, Hcs3, Hc2, Hcs1.
    apply perm_skip, Permutation_app_head, perm_skip, Permutation_flat_map.
    symmetry. apply Permutation_rev.
  - intros x Hx. rewrite !not_elem_of_cons, not_elem_of_app, not_elem_of_cons in Hx.
    rewrite Hoff3, Hoff2' by tauto. reflexivity.
Qed.

(** ** Inverting a tree in place *)

(** The polygons of a node. *)
Lemma polygons_flip_spec (h : heap) (ps : loc) (polys : list Polygon.t) (fuel : nat) :
  (es ← read_array h ps; mapM (read_polygon h) es) = Some polys ->
  NoDup (array_cells (polygon_cells h) h ps) ->
  (length polys < fuel)%nat ->
  exists h',
    for_each fuel ps 0 Polygon_flip h = Ok (tt, h')
    /\ (es ← read_array h' ps; mapM (read_polygon h') es)
       = Some (map Polygon.flip polys)
    /\ Permutation (array_cells (polygon_cells h') h' ps)
         (array_cells (polygon_cells h) h ps)
    /\ forall x, x ∉ array_cells (polygon_cells h) h ps -> h' !! x = h !! x.
Proof.
  intros Hr Hnd Hfuel.
  destruct (read_array h ps) as [es|] eqn:Hes; [|discriminate]. cbn in Hr.
  apply read_array_lookup in Hes. apply mapM_Some in Hr.
  unfold array_cells in *. rewrite Hes in *.
  apply NoDup_cons in Hnd as [Hps Hnd].
  destruct (for_each_separate polygon_cells read_polygon Polygon.flip Polygon_flip
              polygon_local Polygon_flip_spec ps es [] polys fuel h)
    as (h' & Hrun & Hr' & Hc & Hoff); try assumption.
  { now rewrite (Forall2_length _ _ _ Hr). }
  assert (Hes' : h' !! ps = Some (OArray es)) by (now rewrite Hoff).
  exists h'. split; [exact Hrun|]. split; [|split].
  - unfold read_array. rewrite Hes'. cbn. apply mapM_Some.
    apply (Forall2_fmap_r Polygon.flip (fun l b => read_polygon h' l = Some b)).
    exact Hr'.
  - rewrite Hes', Hc. reflexivity.
  - intros x Hx. apply Hoff. rewrite not_elem_of_cons in Hx. tauto.
Qed.

(** The plane of a node, if it has one. *)
Lemma plane_flip_spec (h : heap) (pl : option loc) (plane : option Plane.t) :
  read_child (read_plane h) pl = Some plane ->
  exists h',
    match pl with Some pl => Plane_flip pl | None => mret tt end h = Ok (tt, h')
    /\ read_child (read_plane h') pl = Some (Plane.flip <$> plane)
    /\ Permutation (optional_cells (plane_cells h') pl)
         (optional_cells (plane_cells h) pl)
    /\ forall x, x ∉ optional_cells (plane_cells h) pl -> h' !! x = h !! x.
Proof.
  destruct pl as [pl|]; cbn [read_child optional_cells].
  - destruct (read_plane h pl) as [p|] eqn:Hp; [|discriminate]. intros [= <-].
    destruct (Plane_flip_spec h pl p Hp) as (h' & Hrun & Hr & Hc & Hoff).
    exists h'. rewrite Hr. repeat split; assumption.
  - intros [= <-]. exists h. repeat split; auto.
Qed.

(** A child of a node, if it has one, given what [invert] does to a tree
    that is less deep. *)
Lemma child_invert_spec (depth fuel : nat) (h : heap) (o : option loc)
    (child : option Node.t) :
  (forall l T, read_node depth h l = Some T -> NoDup (node_cells depth h l) ->
               (turns T <= fuel)%nat ->
               exists h',
                 Node_invert fuel l h = Ok (tt, h')
                 /\ read_node depth h' l = Some (Node.invert T)
                 /\ Permutation (node_cells depth h' l) (node_cells depth h l)
                 /\ forall x, x ∉ node_cells depth h l -> h' !! x = h !! x) ->
  read_child (read_node depth h) o = Some child ->
  NoDup (optional_cells (node_cells depth h) o) ->
  (match child with Some n => turns n | None => 0 end <= fuel)%nat ->
  exists h',
    match o with Some n => Node_invert fuel n | None => mret tt end h = Ok (tt, h')
    /\ read_child (read_node depth h') o = Some (Node.invert <$> child)
    /\ Permutation (optional_cells (node_cells depth h') o)
         (optional_cells (node_cells depth h) o)
    /\ forall x, x ∉ optional_cells (node_cells depth h) o -> h' !! x = h !! x.
Proof.
  intros IH. destruct o as [l|]; cbn [read_child optional_cells].
  - destruct (read_node depth h l) as [T|] eqn:HT; [|discriminate]. intros [= <-].
    intros Hnd Hfuel.
    destruct (IH l T HT Hnd Hfuel) as (h' & Hrun & Hr & Hc & Hoff).
    exists h'. rewrite Hr. repeat split; assumption.
  - intros [= <-] _ _. exists h. repeat split; auto.
Qed.

(** Closes a goal that follows from the parts being apart. *)
Ltac apart H x :=
  let H' := fresh in
  pose proof (H x) as H'; unfold not in *; intuition congruence.

(** [invert] of a tree that shares nothing. *)
Lemma Node_invert_spec (depth : nat) :
  forall (fuel : nat) (h : heap) (this : loc) (T : Node.t),
    read_node depth h this = Some T -> NoDup (node_cells depth h this) ->
    (turns T <= fuel)%nat ->
    exists h',
      Node_invert fuel this h = Ok (tt, h')
      /\ read_node depth h' this = Some (Node.invert T)
      /\ Permutation (node_cells depth h' this) (node_cells depth h this)
      /\ forall x, x ∉ node_cells depth h this -> h' !! x = h !! x.
Proof.
  induction depth as [|depth IH]; intros fuel h this T HT Hnd Hfuel; [discriminate|].
  cbn [read_node node_cells] in HT, Hnd.
  destruct (h !! this) as [[| | | | |pl f b ps|]|] eqn:Hthis; try discriminate.
  set (cP := fun h => optional_cells (plane_cells h) pl) in *.
  set (cA := fun h => array_cells (polygon_cells h) h ps) in *.
  set (cF := fun h => optional_cells (node_cells depth h) f) in *.
  set (cB := fun h => optional_cells (node_cells depth h) b) in *.
  set (rP := fun h => read_child (read_plane h) pl) in *.
  set (rA := fun h => es ← read_array h ps; mapM (read_polygon h) es).
  set (rF := fun h => read_child (read_node depth h) f) in *.
  set (rB := fun h => read_child (read_node depth h) b) in *.
  assert (locP : forall h h', (forall x, x ∈ cP h -> h' !! x = h !! x) ->
                              rP h' = rP h /\ cP h' = cP h).
  { intros h0 h' H. apply (child_local _ _ _ _ h0 h'); [exact H|].
    intros e He. now apply plane_local. }
  assert (locA : forall h h', (forall x, x ∈ cA h -> h' !! x = h !! x) ->
                              rA h' = rA h /\ cA h' = cA h).
  { intros h0 h' H. apply array_local; [exact H|]. intros e He. now apply polygon_local. }
  assert (locF : forall h h', (forall x, x ∈ cF h -> h' !! x = h !! x) ->
                              rF h' = rF h /\ cF h' = cF h).
  { intros h0 h' H. apply (child_local _ _ _ _ h0 h'); [exact H|].
    intros e He. now apply node_local. }
  assert (locB : forall h h', (forall x, x ∈ cB h -> h' !! x = h !! x) ->
                              rB h' = rB h /\ cB h' = cB h).
  { intros h0 h' H. apply (child_local _ _ _ _ h0 h'); [exact H|].
    intros e He. now apply node_local. }
  (* what the tree is read from *)
  destruct (read_child (read_plane h) pl) as [plane|] eqn:HP; [|discriminate].
  cbn in HT.
  destruct (read_child (read_node depth h) f) as [front|] eqn:HF; [|discriminate].
  cbn in HT.
  destruct (read_child (read_node depth h) b) as [back|] eqn:HB; [|discriminate].
  cbn in HT.
  change (rP h = Some plane) in HP. change (rF h = Some front) in HF.
  change (rB h = Some back) in HB.
  assert (HA : exists polys, rA h = Some polys /\ T = Node.mk plane front back polys).
  { unfold rA. destruct (read_array h ps) as [es|]; [|discriminate]. cbn in HT |- *.
    destruct (mapM (read_polygon h) es) as [polys|]; [|discriminate].
    cbn in HT. injection HT as <-. eauto. }
  destruct HA as (polys & HA & ->). clear HT.
  destruct fuel as [|fuel]; [cbn in Hfuel; lia|].
  cbn [turns Node.polygons Node.front Node.back] in Hfuel.
  (* the parts are apart *)
  change (NoDup (this :: cP h ++ cA h ++ cF h ++ cB h)) in Hnd.
  apply NoDup_cons in Hnd as [Hout Hnd].
  apply NoDup_app in Hnd as (HndP & HdP & Hnd).
  apply NoDup_app in Hnd as (HndA & HdA & Hnd).
  apply NoDup_app in Hnd as (HndF & HdF & HndB).
  assert (Hapart : forall x,
            (x ∈ cP h -> x <> this /\ (x ∉ cA h) /\ (x ∉ cF h) /\ (x ∉ cB h))
            /\ (x ∈ cA h -> x <> this /\ (x ∉ cP h) /\ (x ∉ cF h) /\ (x ∉ cB h))
            /\ (x ∈ cF h -> x <> this /\ (x ∉ cP h) /\ (x ∉ cA h) /\ (x ∉ cB h))
            /\ (x ∈ cB h -> x <> this /\ (x ∉ cP h) /\ (x ∉ cA h) /\ (x ∉ cF h))).
  { intros x. specialize (HdP x). specialize (HdA x). specialize (HdF x).
    repeat setoid_rewrite elem_of_app in HdP.
    repeat setoid_rewrite elem_of_app in HdA.
    repeat setoid_rewrite elem_of_app in Hout.
    assert (Hx : x = this -> ~ (x ∈ cP h \/ x ∈ cA h \/ x ∈ cF h \/ x ∈ cB h))
      by (intros ->; exact Hout).
    unfold not in *. tauto. }
  (* the polygons *)
  destruct (polygons_flip_spec h ps polys fuel HA HndA) as (h1 & Hrun1 & HA1 & HcA1 & Hoff1);
    [lia|].
  fold (rA h1) in HA1. fold (cA h1) (cA h) in HcA1. fold (cA h) in Hoff1.
  destruct (locP h h1) as [HP1 HcP1]; [intros x Hx; apply Hoff1; apart Hapart x|].
  destruct (locF h h1) as [HF1 HcF1]; [intros x Hx; apply Hoff1; apart Hapart x|].
  destruct (locB h h1) as [HB1 HcB1]; [intros x Hx; apply Hoff1; apart Hapart x|].
  assert (Hthis1 : h1 !! this = Some (ONode pl f b ps)).
  { rewrite Hoff1; [exact Hthis|]. intros Hx. apart Hapart this. }
  (* the plane *)
  destruct (plane_flip_spec h1 pl plane) as (h2 & Hrun2 & HP2 & HcP2 & Hoff2).
  { fold (rP h1). now rewrite HP1. }
  fold (rP h2) in HP2. fold (cP h2) (cP h1) in HcP2. fold (cP h1) in Hoff2.
  rewrite HcP1 in HcP2, Hoff2.
  destruct (locA h1 h2) as [HA2 HcA2];
    [intros x Hx; apply Hoff2; apply (perm_elem _ _ HcA1) in Hx; apart Hapart x|].
  destruct (locF h1 h2) as [HF2 HcF2];
    [intros x Hx; apply Hoff2; rewrite HcF1 in Hx; apart Hapart x|].
  destruct (locB h1 h2) as [HB2 HcB2];
    [intros x Hx; apply Hoff2; rewrite HcB1 in Hx; apart Hapart x|].
  assert (Hthis2 : h2 !! this = Some (ONode pl f b ps)).
  { rewrite Hoff2; [exact Hthis1|]. intros Hx. apart Hapart this. }
  (* the front *)
  destruct (child_invert_spec depth fuel h2 f front (fun l T => IH fuel h2 l T))
    as (h3 & Hrun3 & HF3 & HcF3 & Hoff3).
  { fold (rF h2). now rewrite HF2, HF1. }
  { fold (cF h2). now rewrite HcF2, HcF1. }
  { lia. }
  fold (rF h3) in HF3. fold (cF h3) (cF h2) in HcF3. fold (cF h2) in Hoff3.
  rewrite HcF2, HcF1 in HcF3, Hoff3.
  destruct (locA h2 h3) as [HA3 HcA3];
    [intros x Hx; apply Hoff3; rewrite HcA2 in Hx; apply (perm_elem _ _ HcA1) in Hx;
     apart Hapart x|].
  destruct (locP h2 h3) as [HP3 HcP3];
    [intros x Hx; apply Hoff3; apply (perm_elem _ _ HcP2) in Hx; apart Hapart x|].
  destruct (locB h2 h3) as [HB3 HcB3];
    [intros x Hx; apply Hoff3; rewrite HcB2, HcB1 in Hx; apart Hapart x|].
  assert (Hthis3 : h3 !! this = Some (ONode pl f b ps)).
  { rewrite Hoff3; [exact Hthis2|]. intros Hx. apart Hapart this. }
  (* the back *)
  destruct (child_invert_spec depth fuel h3 b back (fun l T => IH fuel h3 l T))
    as (h4 & Hrun4 & HB4 & HcB4 & Hoff4).
  { fold (rB h3). now rewrite HB3, HB2, HB1. }
  { fold (cB h3). now rewrite HcB3, HcB2, HcB1. }
  { lia. }
  fold (rB h4) in HB4. fold (cB h4) (cB h3) in HcB4. fold (cB h3) in Hoff4.
  rewrite HcB3, HcB2, HcB1 in HcB4, Hoff4.
  destruct (locA h3 h4) as [HA4 HcA4];
    [intros x Hx; apply Hoff4; rewrite HcA3, HcA2 in Hx; apply (perm_elem _ _ HcA1) in Hx;
     apart Hapart x|].
  destruct (locP h3 h4) as [HP4 HcP4];
    [intros x Hx; apply Hoff4; rewrite HcP3 in Hx; apply (perm_elem _ _ HcP2) in Hx;
     apart Hapart x|].
  destruct (locF h3 h4) as [HF4 HcF4];
    [intros x Hx; apply Hoff4; apply (perm_elem _ _ HcF3) in Hx; apart Hapart x|].
  assert (Hthis4 : h4 !! this = Some (ONode pl f b ps)).
  { rewrite Hoff4; [exact Hthis3|]. intros Hx. apart Hapart this. }
  (* the children change places *)
  set (h5 := <[this := ONode pl b f ps]> h4).
  assert (Hoff5 : forall x, x <> this -> h5 !! x = h4 !! x)
    by (intros x Hx; apply list_lookup_insert_ne; auto).
  assert (Hthis5 : h5 !! this = Some (ONode pl b f ps)).
  { apply list_lookup_insert_eq. eapply lookup_lt_Some; eauto. }
  destruct (locA h4 h5) as [HA5 HcA5];
    [intros x Hx; apply Hoff5; rewrite HcA4, HcA3, HcA2 in Hx;
     apply (perm_elem _ _ HcA1) in Hx; apart Hapart x|].
  destruct (locP h4 h5) as [HP5 HcP5];
    [intros x Hx; apply Hoff5; rewrite HcP4, HcP3 in Hx; apply (perm_elem _ _ HcP2) in Hx;
     apart Hapart x|].
  destruct (locF h4 h5) as [HF5 HcF5];
    [intros x Hx; apply Hoff5; rewrite HcF4 in Hx; apply (perm_elem _ _ HcF3) in Hx;
     apart Hapart x|].
  destruct (locB h4 h5) as [HB5 HcB5];
    [intros x Hx; apply Hoff5; apply (perm_elem _ _ HcB4) in Hx; apart Hapart x|].
  exists h5. split; [|split; [|split]].
  - cbn [Node_invert]. cbv [mbind M_bind].
    rewrite (run_get_node h this ps pl f b Hthis), Hrun1.
    rewrite (run_get_node h1 this ps pl f b Hthis1), Hrun2.
    rewrite (run_get_node h2 this ps pl f b Hthis2), Hrun3.
    rewrite (run_get_node h3 this ps pl f b Hthis3), Hrun4.
    rewrite (run_get_node h4 this ps pl f b Hthis4).
    unfold set_front, set_back. cbv [mbind M_bind].
    rewrite (run_get_node h4 this ps pl f b Hthis4).
    rewrite (run_store h4 this _ (ONode pl b b ps) Hthis4).
    assert (Hmid : <[this := ONode pl b b ps]> h4 !! this = Some (ONode pl b b ps)).
    { apply list_lookup_insert_eq. eapply lookup_lt_Some; eauto. }
    rewrite (run_get_node _ this ps pl b b Hmid).
    rewrite (run_store _ this _ (ONode pl b f ps) Hmid).
    now rewrite list_insert_insert_eq.
  - cbn [read_node]. rewrite Hthis5.
    fold (rP h5) (rB h5) (rF h5).
    rewrite HP5, HP4, HP3, HP2. cbn.
    rewrite HB5, HB4. cbn. rewrite HF5, HF4, HF3. cbn.
    assert (HA' : rA h5 = Some (map Polygon.flip polys))
      by (now rewrite HA5, HA4, HA3, HA2).
    unfold rA in HA'.
    destruct (read_array h5 ps) as [es|]; [|discriminate HA']. cbn in HA' |- *.
    rewrite HA'. reflexivity.
  - cbn [node_cells]. rewrite Hthis5, Hthis.
    fold (cP h5) (cA h5) (cB h5) (cF h5) (cP h) (cA h) (cB h) (cF h).
    rewrite HcP5, HcP4, HcP3, HcP2, HcA5, HcA4, HcA3, HcA2, HcA1,
      HcF5, HcF4, HcF3, HcB5, HcB4.
    apply perm_skip, Permutation_app_head, Permutation_app_head,
      Permutation_app_comm.
  - intros x Hx. cbn [node_cells] in Hx. rewrite Hthis in Hx.
    fold (cP h) (cA h) (cB h) (cF h) in Hx.
    rewrite !not_elem_of_cons, !not_elem_of_app in Hx.
    rewrite Hoff5, Hoff4, Hoff3, Hoff2, Hoff1 by tauto. reflexivity.
Qed.

Lemma turns_invert (T : Node.t) : turns (Node.invert T) = turns T.
Proof.
  induction T as [pl f b ps IHf IHb] using Node_induction.
  rewrite invert_mk. cbn [turns Node.polygons Node.front Node.back].
  rewrite length_map.
  destruct f as [f|], b as [b|]; cbn [fmap option_fmap option_map child_all] in *;
    rewrite ?IHf, ?IHb; lia.
Qed.

(** X4: [invert] works in place.  On a tree that shares nothing (no cell
    of the store is reached twice from the node: every polygon, vertex,
    plane, vector and array belongs to one owner; the tree built of the
    clone of a solid, below, is one), and with fuel for its loops, it
    returns; afterwards the node holds the inverted tree: the plane of
    every node flipped, its front and back exchanged and inverted, every
    polygon flipped, none added and none dropped; no cell outside the tree
    is written to; and inverting again gives the tree back as it was. *)
Theorem invert_in_place (depth fuel : nat) (h : heap) (this : loc) (T : Node.t) :
  read_node depth h this = Some T ->
  NoDup (node_cells depth h this) ->
  (turns T <= fuel)%nat ->
  exists h' h'',
    Node_invert fuel this h = Ok (tt, h')
    /\ read_node depth h' this = Some (Node.invert T)
    /\ Permutation (Node.allPolygons (Node.invert T))
         (map Polygon.flip (Node.allPolygons T))
    /\ (forall l, ~ In l (node_cells depth h this) -> h' !! l = h !! l)
    /\ Node_invert fuel this h' = Ok (tt, h'')
    /\ read_node depth h'' this = Some T.
Proof.
  intros HT Hnd Hfuel.
  destruct (Node_invert_spec depth fuel h this T HT Hnd Hfuel)
    as (h' & Hrun & HT' & Hc & Hoff).
  destruct (Node_invert_spec depth fuel h' this (Node.invert T) HT')
    as (h'' & Hrun' & HT'' & _ & _).
  { now rewrite Hc. }
  { now rewrite turns_invert. }
  exists h', h''. split; [exact Hrun|]. split; [exact HT'|].
  split; [apply invert_polygons|]. split.
  - intros l Hl. apply Hoff. intros Hl'. now apply Hl, list_elem_of_In.
  - split; [exact Hrun'|]. now rewrite HT'', Node_invert_involutive.
Qed.

Lemma invert_in_place_witness :
  NoDup (node_cells 8 (snd first_tree) (fst first_tree))
  /\ exists T h',
       read_node 8 (snd first_tree) (fst first_tree) = Some T
       /\ Node_invert 20 (fst first_tree) (snd first_tree) = Ok (tt, h')
       /\ read_node 8 h' (fst first_tree) = Some (Node.invert T).
Proof.
  assert (Hnd : NoDup (node_cells 8 (snd first_tree) (fst first_tree)))
    by (apply (bool_decide_unpack _); vm_compute; exact I).
  split; [exact Hnd|].
  set (T := default Node.empty (read_node 8 (snd first_tree) (fst first_tree))).
  assert (HT : read_node 8 (snd first_tree) (fst first_tree) = Some T)
    by (vm_compute; reflexivity).
  destruct (invert_in_place 8 20 (snd first_tree) (fst first_tree) T HT Hnd)
    as (h' & h'' & Hrun & HT' & _).
  - apply Nat.leb_le. vm_compute. reflexivity.
  - exists T, h'. auto.
Defined.
